(** * Music score simplifier: parser cursor, rule engine, exporter

    A shallow embedding of the correctness-critical pipeline of the score
    simplifier (parser time cursor, lock analysis, levelled rule engine,
    voice separation and the duration-balancing exporter) together with the
    properties its specification states about it.

    Numbers.  A JavaScript number is a double; it is modelled by the
    rational it denotes ([Q]), and values the code rounds with
    [Math.round]/[Math.floor]/[parseInt] are integers ([Z]).  Comparisons,
    [Math.floor], [Math.round] and [toFixed] are exact on doubles.  The
    parser's time cursor and the tuplet slots of Level 4 work on thirds of a
    beat, where sums and quotients are rounded: they are written with
    [Js.add], [Js.sub], [Js.mul] and [Js.div], which round to the nearest
    double.  The other arithmetic is written with the exact operations of
    [Q], which agree with the doubles on dyadic values (multiples of 1/1024
    of moderate size).  Rational fields are compared with [Qeq] wherever the
    code compares numbers; records copied by the code ([{...note}]) are
    equal on the nose.

    Objects.  Notes are values.  Where the code tests object identity or
    writes to a field of a shared note, the model follows the note by its
    position in the array at hand, or by its identifier where the arrays
    hold the parser's uniquely numbered notes.  A function that may loop for
    ever in the source returns an [option] here, [None] standing for the
    loop that does not exit. *)

From Stdlib Require Import ZArith QArith Qround Qabs String List Bool Lia.
From Stdlib Require Import Permutation Sorted Lqa Qpower.
From Stdlib Require DecimalString.
Import ListNotations.


Local Open Scope Z_scope.

(* ------------------------------------------------------------------ *)
(** ** JavaScript numeric and array primitives *)

Module Js.

Definition ltb (x y : Q) : bool := negb (Qle_bool y x).
Definition leb (x y : Q) : bool := Qle_bool x y.
Definition eqb (x y : Q) : bool := Qeq_bool x y.

(** [Math.floor] *)
Definition floor (x : Q) : Z := Qfloor x.

(** [Math.round]: nearest integer, ties towards +infinity. *)
Definition round (x : Q) : Z := Qfloor (x + (1 # 2)).

(** [Math.abs] *)
Definition abs (x : Q) : Q := Qabs x.

(** Doubles.  [double x] is the double nearest to [x], ties going to the
    even significand: with [2^e <= |x| < 2^(e+1)] it is the multiple of
    [2^(e-52)] nearest to [x], in lowest terms.  The exponent range is not
    modelled (no overflow to [Infinity], no subnormal numbers); a division
    by zero, [Infinity] or [NaN] in the source, has no counterpart. *)
Definition pow2 (k : Z) : Q := (2 ^ k)%Q.

(** The [e] with [2^e <= x < 2^(e+1)], for [x] positive. *)
Definition exponent (x : Q) : Z :=
  let e := Z.log2 (Qnum x) - Z.log2 (Zpos (Qden x)) in
  if Qle_bool (pow2 e) x then e else e - 1.

Definition nearestEven (x : Q) : Z :=
  let f := Qfloor x in
  let r := (x - inject_Z f)%Q in
  if ltb r (1 # 2) then f
  else if ltb (1 # 2) r then f + 1
  else if Z.even f then f else f + 1.

Definition double (x : Q) : Q :=
  if Qeq_bool x 0 then 0%Q
  else
    let a := Qabs x in
    let ulp := pow2 (exponent a - 52) in
    let m := (inject_Z (nearestEven (a / ulp)) * ulp)%Q in
    Qred (if ltb x 0 then (- m)%Q else m).

(** [x + y], [x - y], [x * y] and [x / y] on doubles. *)
Definition add (x y : Q) : Q := double (x + y).
Definition sub (x y : Q) : Q := double (x - y).
Definition mul (x y : Q) : Q := double (x * y).
Definition div (x y : Q) : Q := double (x / y).

(** [x % y] on numbers: the remainder takes the sign of the dividend. *)
Definition rem (x y : Q) : Q :=
  let q := (x / y)%Q in
  let t := if ltb q 0 then (- Qfloor (- q))%Z else Qfloor q in
  (x - y * inject_Z t)%Q.

(** [x.toFixed(d)]: the sign and the integer [n] with [n / 10^d] nearest to
    [|x|] (the larger [n] on a tie).  The printed string is determined by,
    and determines, this pair. *)
Definition toFixed (d : nat) (x : Q) : bool * Z :=
  let scale := inject_Z (10 ^ Z.of_nat d) in
  if ltb x 0 then (true, Qfloor ((- x) * scale + (1 # 2)))
  else (false, Qfloor (x * scale + (1 # 2))).

(** [Array.prototype.sort] with a numeric comparator is a stable sort;
    insertion from the right keeps equal elements in their first order. *)
Fixpoint insertBy {A} (cmp : A -> A -> Q) (x : A) (l : list A) : list A :=
  match l with
  | [] => [x]
  | y :: l' => if leb (cmp x y) 0 then x :: l else y :: insertBy cmp x l'
  end.

Definition sort {A} (cmp : A -> A -> Q) (l : list A) : list A :=
  fold_right (insertBy cmp) [] l.

(** [Array.prototype.find], returning the index with the element so that
    object identity ([===] on notes of one array) can be tested. *)
Fixpoint findFrom {A} (i : nat) (p : A -> bool) (l : list A) : option (nat * A) :=
  match l with
  | [] => None
  | x :: l' => if p x then Some (i, x) else findFrom (S i) p l'
  end.

Definition find {A} (p : A -> bool) (l : list A) : option (nat * A) :=
  findFrom 0 p l.

(** [a || b] on an optional value. *)
Definition orElse {A} (a b : option A) : option A :=
  match a with Some _ => a | None => b end.

(** A [Map] whose values are arrays, as an association list in insertion
    order.  [mapPush] is the idiom
    [if (!m.has(k)) m.set(k, []); m.get(k).push(v)]; [mapGet] is [m.get(k)].
    [eqb] is the key comparison of the map. *)
Fixpoint mapPush {K V} (eqb : K -> K -> bool) (key : K) (v : V)
  (m : list (K * list V)) : list (K * list V) :=
  match m with
  | [] => [(key, [v])]
  | (k, vs) :: m' =>
      if eqb k key then (k, vs ++ [v]) :: m'
      else (k, vs) :: mapPush eqb key v m'
  end.

Fixpoint mapGet {K V} (eqb : K -> K -> bool) (key : K) (m : list (K * list V))
  : option (list V) :=
  match m with
  | [] => None
  | (k, vs) :: m' => if eqb k key then Some vs else mapGet eqb key m'
  end.

End Js.

(* ------------------------------------------------------------------ *)
(** ** Format model (types/index.js) *)

Inductive DurType : Type :=
  | whole | half | quarter | eighth | sixteenth | d32nd | d64th.

Inductive Embellishment : Type :=
  | grace_note | trill | turn | inverted_turn | delayed_turn
  | mordent_upper | mordent_lower | tremolo | shake | wavy_line | schleifer
  | arpeggio | non_arpeggio | glissando | slide.

Inductive LockReason : Type :=
  | syncopation | dotted_rhythm | cross_beat_tie | off_beat_start
  | triplet_head | melodic_turning_point | phrase_ending.

Inductive VoicePart : Type := soprano | alto | tenor | bass.

Inductive ScoreType : Type := single_staff | grand_staff.

Module Pitch.
Record t : Type := mk { step : string; octave : Z; alter : Z }.
End Pitch.

Module Tuplet.
Record t : Type := mk { actual : Z; normal : Z }.
End Tuplet.

Module Duration.
Record t : Type := mk {
  type : DurType;
  dots : nat;
  tuplet : option Tuplet.t;
  ticks : Z
}.
End Duration.

Module Note.
(** [id] is the number [k] of the identifier [note_k]; [tiedTo] is the
    pending tie marker; [hadEmbellishment] is the annotation Level 5
    writes on a main note. *)
Record t : Type := mk {
  id : nat;
  pitch : Pitch.t;
  duration : Duration.t;
  startBeat : Q;
  voice : Z;
  staff : Z;
  tiedTo : option string;
  slurredWith : option (list string);
  isLocked : bool;
  lockReason : option LockReason;
  embellishment : option Embellishment;
  voicePart : option VoicePart;
  hadEmbellishment : option Embellishment
}.

Definition set_startBeat (b : Q) (n : t) : t :=
  mk (id n) (pitch n) (duration n) b (voice n) (staff n) (tiedTo n)
     (slurredWith n) (isLocked n) (lockReason n) (embellishment n)
     (voicePart n) (hadEmbellishment n).

Definition set_duration (d : Duration.t) (n : t) : t :=
  mk (id n) (pitch n) d (startBeat n) (voice n) (staff n) (tiedTo n)
     (slurredWith n) (isLocked n) (lockReason n) (embellishment n)
     (voicePart n) (hadEmbellishment n).

Definition set_voicePart (vp : option VoicePart) (n : t) : t :=
  mk (id n) (pitch n) (duration n) (startBeat n) (voice n) (staff n) (tiedTo n)
     (slurredWith n) (isLocked n) (lockReason n) (embellishment n)
     vp (hadEmbellishment n).

Definition set_lock (l : bool) (r : option LockReason) (n : t) : t :=
  mk (id n) (pitch n) (duration n) (startBeat n) (voice n) (staff n) (tiedTo n)
     (slurredWith n) l r (embellishment n)
     (voicePart n) (hadEmbellishment n).

Definition set_hadEmbellishment (e : option Embellishment) (n : t) : t :=
  mk (id n) (pitch n) (duration n) (startBeat n) (voice n) (staff n) (tiedTo n)
     (slurredWith n) (isLocked n) (lockReason n) (embellishment n)
     (voicePart n) e.

(** [{ ...n, staff: s, voicePart: vp, voice: v }] *)
Definition retag (s : Z) (vp : VoicePart) (v : Z) (n : t) : t :=
  mk (id n) (pitch n) (duration n) (startBeat n) v s (tiedTo n)
     (slurredWith n) (isLocked n) (lockReason n) (embellishment n)
     (Some vp) (hadEmbellishment n).

(** [!n.embellishment] *)
Definition isMain (n : t) : bool :=
  match embellishment n with None => true | Some _ => false end.

(** [n.startBeat + n.duration.ticks / 1024] *)
Definition endBeat (n : t) : Q :=
  (startBeat n + inject_Z (Duration.ticks (duration n)) / 1024)%Q.
End Note.

Module Rest.
Record t : Type := mk {
  id : nat;
  duration : Duration.t;
  startBeat : Q;
  voice : Z;
  staff : Z
}.

Definition set_duration (d : Duration.t) (r : t) : t :=
  mk (id r) d (startBeat r) (voice r) (staff r).
End Rest.

Module Measure.
Record t : Type := mk {
  number : Z;
  notes : list Note.t;
  rests : list Rest.t
}.
End Measure.

Inductive MeterType : Type := simple | compound.

Module TimeSignature.
Record t : Type := mk { beats : Z; beatType : Z; type : MeterType }.
End TimeSignature.

Module KeySignature.
Record t : Type := mk { fifths : Z; mode : string }.
End KeySignature.

Module ScoreMetadata.
Record t : Type := mk {
  title : string;
  composer : string;
  tempo : Z;
  timeSignature : TimeSignature.t;
  keySignature : KeySignature.t;
  clefs : list string;
  textAnnotations : list string
}.
End ScoreMetadata.

(* ------------------------------------------------------------------ *)
(** ** Knowledge base (knowledge/index.js) *)

Definition PITCH_TO_SEMITONE (s : string) : option Z :=
  if String.eqb s "C" then Some 0
  else if String.eqb s "D" then Some 2
  else if String.eqb s "E" then Some 4
  else if String.eqb s "F" then Some 5
  else if String.eqb s "G" then Some 7
  else if String.eqb s "A" then Some 9
  else if String.eqb s "B" then Some 11
  else None.

(** [pitchToMidi]: an empty step gives 60; [octave || 4] turns octave 0
    into 4, as in the source. *)
Definition pitchToMidi (p : Pitch.t) : Z :=
  if String.eqb (Pitch.step p) "" then 60
  else
    let semitone := match PITCH_TO_SEMITONE (Pitch.step p) with
                    | Some s => s | None => 0 end in
    let octave := if Pitch.octave p =? 0 then 4 else Pitch.octave p in
    (octave + 1) * 12 + semitone + Pitch.alter p.

(** The [strongBeats] column of [TIME_SIGNATURE_DEFINITIONS], keyed by
    ["beats/beatType"]. *)
Definition TIME_SIGNATURE_DEFINITIONS (beats beatType : Z) : option (list Z) :=
  match beats, beatType with
  | 2, 4 => Some [1]
  | 2, 2 => Some [1]
  | 3, 4 => Some [1]
  | 3, 8 => Some [1]
  | 4, 4 => Some [1; 3]
  | 4, 2 => Some [1; 3]
  | 5, 4 => Some [1; 3]
  | 6, 4 => Some [1; 4]
  | 6, 8 => Some [1; 4]
  | 7, 8 => Some [1; 4]
  | 9, 8 => Some [1; 4; 7]
  | 12, 8 => Some [1; 4; 7; 10]
  | _, _ => None
  end.

Definition getStrongBeats (ts : TimeSignature.t) : list Z :=
  match TIME_SIGNATURE_DEFINITIONS (TimeSignature.beats ts)
                                   (TimeSignature.beatType ts) with
  | Some sb => sb
  | None => [1]
  end.

Definition isStrongBeat (beat : Q) (ts : TimeSignature.t) : bool :=
  existsb (Z.eqb (Js.floor beat)) (getStrongBeats ts).

(* ------------------------------------------------------------------ *)
(** ** Single-staff rules (rules/singleStaff.js) *)

Definition getDurationTypeFromTicks (ticks : Z) : DurType :=
  if 4096 <=? ticks then whole
  else if 2048 <=? ticks then half
  else if 1024 <=? ticks then quarter
  else if 512 <=? ticks then eighth
  else if 256 <=? ticks then sixteenth
  else d32nd.

(** [(a, b) => a.startBeat - b.startBeat] *)
Definition byStartBeat (a b : Note.t) : Q :=
  (Note.startBeat a - Note.startBeat b)%Q.

(** [Math.abs(n.startBeat - beat)] *)
Definition beatDistance (n : Note.t) (beat : Q) : Q :=
  Js.abs (Note.startBeat n - beat).

(** The closing [forEach] of the two finders: the first note at minimal
    distance among those not skipped, optionally under a bound. *)
Fixpoint nearestFrom (i : nat) (skip : Note.t -> bool) (bound : option Q)
    (beat : Q) (l : list Note.t) (minDistance : option Q)
    (note : option (nat * Note.t)) : option (nat * Note.t) :=
  match l with
  | [] => note
  | n :: l' =>
      if skip n then nearestFrom (S i) skip bound beat l' minDistance note
      else
        let distance := beatDistance n beat in
        let closer := match minDistance with
                      | None => true
                      | Some m => Js.ltb distance m
                      end in
        let inBound := match bound with
                       | None => true
                       | Some b => Js.ltb distance b
                       end in
        if closer && inBound
        then nearestFrom (S i) skip bound beat l' (Some distance) (Some (i, n))
        else nearestFrom (S i) skip bound beat l' minDistance note
  end.

Definition findNoteAtBeat (notes : list Note.t) (beat : Q) : option Note.t :=
  match notes with
  | [] => None
  | _ =>
      let exact := Js.find (fun n => Js.ltb (beatDistance n beat) (1 # 10)) notes in
      let covering :=
        Js.find (fun n => Js.leb (Note.startBeat n) beat
                          && Js.ltb beat (Note.endBeat n)) notes in
      let nearest := nearestFrom 0 (fun _ => false) None beat notes None None in
      option_map snd (Js.orElse exact (Js.orElse covering nearest))
  end.

Definition usedHas (usedNotes : list nat) (n : Note.t) : bool :=
  existsb (Nat.eqb (Note.id n)) usedNotes.

(** Returns the position of the note in [notes] together with the note. *)
Definition findNoteAtBeatExcluding (notes : list Note.t) (beat : Q)
    (usedNotes : list nat) : option (nat * Note.t) :=
  match notes with
  | [] => None
  | _ =>
      let exact :=
        Js.find (fun n => negb (usedHas usedNotes n)
                          && Js.ltb (beatDistance n beat) (1 # 10)) notes in
      let covering :=
        Js.find (fun n => negb (usedHas usedNotes n)
                          && (Js.leb (Note.startBeat n) beat
                              && Js.ltb beat (Note.endBeat n))) notes in
      let nearest :=
        nearestFrom 0 (usedHas usedNotes) (Some 2%Q) beat notes None None in
      Js.orElse exact (Js.orElse covering nearest)
  end.

Definition plainDuration (ticks : Z) : Duration.t :=
  Duration.mk (getDurationTypeFromTicks ticks) 0 None ticks.

(** Levels 1 and 2 test [notes.length === 0] before sorting; sorting keeps
    a list empty or non-empty, so the test is made on the sorted list, whose
    head is [sortedNotes[0]]. *)
Definition applyLevel1 (measure : Measure.t) (ts : TimeSignature.t) : Measure.t :=
  let notes := filter Note.isMain (Measure.notes measure) in
  match Js.sort byStartBeat notes with
  | [] => Measure.mk (Measure.number measure) [] (Measure.rests measure)
  | firstNote :: _ =>
      let measureDuration := TimeSignature.beats ts * 1024 in
      Measure.mk (Measure.number measure)
        [Note.set_duration (plainDuration measureDuration)
           (Note.set_startBeat 1 firstNote)]
        []
  end.

(** [strongBeats[idx + 1] || (timeSignature.beats + 1)] *)
Definition nextStrongBeatOf (rest : list Z) (ts : TimeSignature.t) : Z :=
  match rest with
  | nxt :: _ => if nxt =? 0 then TimeSignature.beats ts + 1 else nxt
  | [] => TimeSignature.beats ts + 1
  end.

(** The body of [strongBeats.forEach((strongBeat, idx) => ...)] of Level 2,
    threading [result] and [usedNotes]. *)
Fixpoint level2Loop (sortedNotes : list Note.t) (isFirstNoteAnacrusis : bool)
    (ts : TimeSignature.t) (idx : nat) (strongBeats : list Z)
    (result : list Note.t) (usedNotes : list nat) : list Note.t :=
  match strongBeats with
  | [] => result
  | strongBeat :: rest =>
      match findNoteAtBeatExcluding sortedNotes (inject_Z strongBeat) usedNotes with
      | None =>
          level2Loop sortedNotes isFirstNoteAnacrusis ts (S idx) rest result usedNotes
      | Some (pos, noteAtBeat) =>
          let durationTicks := (nextStrongBeatOf rest ts - strongBeat) * 1024 in
          let shouldKeepOriginalPosition :=
            Nat.eqb idx 0 && isFirstNoteAnacrusis && Nat.eqb pos 0 in
          let moved :=
            Note.set_duration (plainDuration durationTicks)
              (Note.set_startBeat
                 (if shouldKeepOriginalPosition then Note.startBeat noteAtBeat
                  else inject_Z strongBeat) noteAtBeat) in
          level2Loop sortedNotes isFirstNoteAnacrusis ts (S idx) rest
            (result ++ [moved]) (usedNotes ++ [Note.id noteAtBeat])
      end
  end.

Definition applyLevel2 (measure : Measure.t) (ts : TimeSignature.t) : Measure.t :=
  let notes := filter Note.isMain (Measure.notes measure) in
  match Js.sort byStartBeat notes with
  | [] => Measure.mk (Measure.number measure) [] (Measure.rests measure)
  | (firstNote :: _) as sortedNotes =>
      let isFirstNoteAnacrusis := Js.ltb (Note.startBeat firstNote) 1 in
      Measure.mk (Measure.number measure)
        (level2Loop sortedNotes isFirstNoteAnacrusis ts 0 (getStrongBeats ts) [] [])
        []
  end.

(** [for (let beat = 1; beat <= timeSignature.beats; beat++)] *)
Definition beatRange (ts : TimeSignature.t) : list Z :=
  map Z.of_nat (seq 1 (Z.to_nat (TimeSignature.beats ts))).

Definition applyLevel3 (measure : Measure.t) (ts : TimeSignature.t) : Measure.t :=
  let notes := filter Note.isMain (Measure.notes measure) in
  match notes with
  | [] => Measure.mk (Measure.number measure) [] (Measure.rests measure)
  | _ =>
      let step (beat : Z) : list Note.t :=
        match findNoteAtBeat notes (inject_Z beat) with
        | None => []
        | Some noteAtBeat =>
            [Note.set_duration (Duration.mk quarter 0 None 1024)
               (Note.set_startBeat (inject_Z beat) noteAtBeat)]
        end in
      Measure.mk (Measure.number measure) (flat_map step (beatRange ts)) []
  end.

(** The key put in [processedPositions]: the prefix (['triplet_'] or
    ['eighth_']) and the [toFixed] rendering of the slot. *)
Inductive PosKey : Type :=
  | TripletKey : bool -> Z -> PosKey
  | EighthKey : bool -> Z -> PosKey.

Definition posKeyEqb (a b : PosKey) : bool :=
  match a, b with
  | TripletKey s x, TripletKey t y => Bool.eqb s t && (x =? y)
  | EighthKey s x, EighthKey t y => Bool.eqb s t && (x =? y)
  | _, _ => false
  end.

Definition processedHas (processedPositions : list PosKey) (k : PosKey) : bool :=
  existsb (posKeyEqb k) processedPositions.

(** [Math.floor(note.startBeat / tripletBeatUnit) * tripletBeatUnit] with
    [tripletBeatUnit = 1 / actual]: the two quotients and the product are
    rounded to doubles, and the floor is taken of the rounded quotient. *)
Definition tripletPosition (note : Note.t) (tp : Tuplet.t) : Q :=
  let tripletBeatUnit := Js.div 1 (inject_Z (Tuplet.actual tp)) in
  Js.mul (inject_Z (Js.floor (Js.div (Note.startBeat note) tripletBeatUnit)))
         tripletBeatUnit.

(** [Math.floor(note.startBeat * 2) / 2]; doubling and halving a double
    are exact. *)
Definition eighthBeatPosition (note : Note.t) : Q :=
  (inject_Z (Js.floor (Note.startBeat note * 2)) / 2)%Q.

Definition level4Key (note : Note.t) : PosKey :=
  match Duration.tuplet (Note.duration note) with
  | Some tp => let k := Js.toFixed 3 (tripletPosition note tp) in
               TripletKey (fst k) (snd k)
  | None => let k := Js.toFixed 2 (eighthBeatPosition note) in
            EighthKey (fst k) (snd k)
  end.

(** The note pushed for a short, unlocked main note. *)
Definition level4Snap (note : Note.t) : Note.t :=
  match Duration.tuplet (Note.duration note) with
  | Some tp =>
      let actual := Tuplet.actual tp in
      let normal := Tuplet.normal tp in
      Note.set_duration
        (Duration.mk eighth 0 (Some (Tuplet.mk actual normal))
           (Js.round (512 * inject_Z normal / inject_Z actual)))
        (Note.set_startBeat (tripletPosition note tp) note)
  | None =>
      Note.set_duration (Duration.mk eighth 0 None 512)
        (Note.set_startBeat (eighthBeatPosition note) note)
  end.

(** [note.isLocked || note.duration.ticks >= 512]: pushed as [{ ...note }]. *)
Definition level4Keeps (note : Note.t) : bool :=
  Note.isLocked note || (512 <=? Duration.ticks (Note.duration note)).

(** One round of [mainNotes.forEach(note => ...)] of Level 4 on the pair
    ([result], [processedPositions]). *)
Definition level4Step (st : list Note.t * list PosKey) (note : Note.t)
    : list Note.t * list PosKey :=
  let '(result, processedPositions) := st in
  if Note.isLocked note then (result ++ [note], processedPositions)
  else if 512 <=? Duration.ticks (Note.duration note)
  then (result ++ [note], processedPositions)
  else
    let posKey := level4Key note in
    if processedHas processedPositions posKey then (result, processedPositions)
    else (result ++ [level4Snap note], processedPositions ++ [posKey]).

Definition level4Rest (rest : Rest.t) : Rest.t :=
  if Duration.ticks (Rest.duration rest) <? 512
  then Rest.set_duration (Duration.mk eighth 0 None 512) rest
  else rest.

(** The [embellishments.forEach] of Level 4 only computes a local
    [nearestLocked] that is never used; it has no effect and no counterpart
    here. *)
Definition applyLevel4 (measure : Measure.t) (ts : TimeSignature.t) : Measure.t :=
  let sortedNotes := Js.sort byStartBeat (Measure.notes measure) in
  let mainNotes := filter Note.isMain sortedNotes in
  let result := fst (fold_left level4Step mainNotes ([], [])) in
  Measure.mk (Measure.number measure) result
    (map level4Rest (Measure.rests measure)).

(** [mainNotes.reduce((nearest, n) => ...)] of Level 5: the index of the
    first main note at minimal distance from [beat], with that distance. *)
Fixpoint nearestMainFrom (i : nat) (beat : Q) (l : list Note.t)
    (nearest : option (nat * Q)) : option (nat * Q) :=
  match l with
  | [] => nearest
  | n :: l' =>
      let dist := beatDistance n beat in
      let better := match nearest with
                    | None => true
                    | Some (_, d) => Js.ltb dist d
                    end in
      nearestMainFrom (S i) beat l' (if better then Some (i, dist) else nearest)
  end.

Fixpoint updateAt {A} (i : nat) (f : A -> A) (l : list A) {struct l} : list A :=
  match l, i with
  | [], _ => []
  | x :: l', O => f x :: l'
  | x :: l', S j => x :: updateAt j f l'
  end.

(** One round of [embellishments.forEach(emb => ...)] of Level 5: the write
    [nearestMain.note.hadEmbellishment = emb.embellishment] lands on the
    note object held in [mainNotes]. *)
Definition level5Mark (mainNotes : list Note.t) (emb : Note.t) : list Note.t :=
  match nearestMainFrom 0 (Note.startBeat emb) mainNotes None with
  | Some (i, _) =>
      updateAt i (Note.set_hadEmbellishment (Note.embellishment emb)) mainNotes
  | None => mainNotes
  end.

Definition applyLevel5 (measure : Measure.t) (ts : TimeSignature.t) : Measure.t :=
  let mainNotes := filter Note.isMain (Measure.notes measure) in
  let embellishments :=
    filter (fun n => negb (Note.isMain n)) (Measure.notes measure) in
  Measure.mk (Measure.number measure)
    (fold_left level5Mark embellishments mainNotes)
    (Measure.rests measure).

(** A level is a JavaScript value: [Some l] for the number [l], [None] for
    [undefined]. *)
Definition applySingleStaffSimplification (measure : Measure.t)
    (level : option Z) (ts : TimeSignature.t) : Measure.t :=
  match level with
  | Some 1 => applyLevel1 measure ts
  | Some 2 => applyLevel2 measure ts
  | Some 3 => applyLevel3 measure ts
  | Some 4 => applyLevel4 measure ts
  | Some 5 => applyLevel5 measure ts
  | _ => measure
  end.

(* ------------------------------------------------------------------ *)
(** ** Grand-staff rules (rules/grandStaff.js) *)

(** [Math.round(note.startBeat * 4) / 4] *)
Definition quantizedBeat (note : Note.t) : Q :=
  (inject_Z (Js.round (Note.startBeat note * 4)) / 4)%Q.

(** A [Map] from beat to notes, in insertion order. *)
Definition BeatGroups : Type := list (Q * list Note.t).

Definition groupNotesByBeat (notes : list Note.t) : BeatGroups :=
  fold_left (fun groups note => Js.mapPush Js.eqb (quantizedBeat note) note groups)
            notes [].

(** The pitch comparator of [extractVoicesByPitch]. *)
Definition byPitch (bassFirst : bool) (a b : Note.t) : Q :=
  let pitchA := pitchToMidi (Note.pitch a) in
  let pitchB := pitchToMidi (Note.pitch b) in
  if bassFirst then inject_Z (pitchA - pitchB) else inject_Z (pitchB - pitchA).

Module VoiceLines.
Record t : Type := mk { primaryLine : list Note.t; secondaryLine : list Note.t }.
End VoiceLines.

(** One round of [sortedBeats.forEach(beat => ...)]. *)
Definition extractStep (beatGroups : BeatGroups) (bassFirst : bool)
    (lines : VoiceLines.t) (beat : Q) : VoiceLines.t :=
  match Js.mapGet Js.eqb beat beatGroups with
  | None => lines
  | Some notesAtBeat =>
      match Js.sort (byPitch bassFirst) notesAtBeat with
      | [] => lines
      | first :: others =>
          VoiceLines.mk (VoiceLines.primaryLine lines ++ [first])
                        (VoiceLines.secondaryLine lines ++ others)
      end
  end.

Definition extractVoicesByPitch (notes : list Note.t) (bassFirst : bool)
    : VoiceLines.t :=
  let mainNotes := filter Note.isMain notes in
  match mainNotes with
  | [] => VoiceLines.mk [] []
  | _ =>
      let beatGroups := groupNotesByBeat mainNotes in
      let sortedBeats := Js.sort (fun a b => (a - b)%Q) (map fst beatGroups) in
      fold_left (extractStep beatGroups bassFirst) sortedBeats (VoiceLines.mk [] [])
  end.

Module Voices.
Record t : Type := mk {
    soprano : list Note.t;
    alto : list Note.t;
    tenor : list Note.t;
    bass : list Note.t
  }.
End Voices.

Definition separateVoices (upperStaff lowerStaff : list Note.t) : Voices.t :=
  let upperLines := extractVoicesByPitch upperStaff false in
  let lowerLines := extractVoicesByPitch lowerStaff true in
  Voices.mk
    (map (Note.set_voicePart (Some soprano)) (VoiceLines.primaryLine upperLines))
    (map (Note.set_voicePart (Some alto)) (VoiceLines.secondaryLine upperLines))
    (map (Note.set_voicePart (Some tenor)) (VoiceLines.secondaryLine lowerLines))
    (map (Note.set_voicePart (Some bass)) (VoiceLines.primaryLine lowerLines)).

(** The three-stage search inlined in [applyStrongBeatOnly]. *)
Definition strongBeatCandidate (sortedNotes : list Note.t) (strongBeat : Q)
    (usedNotes : list nat) : option (nat * Note.t) :=
  let exact :=
    Js.find (fun n => negb (usedHas usedNotes n)
                      && Js.ltb (beatDistance n strongBeat) (1 # 4)) sortedNotes in
  let covering :=
    Js.find (fun n => negb (usedHas usedNotes n)
                      && (Js.leb (Note.startBeat n) strongBeat
                          && Js.ltb strongBeat (Note.endBeat n))) sortedNotes in
  let nearest :=
    nearestFrom 0 (usedHas usedNotes) (Some 2%Q) strongBeat sortedNotes None None in
  Js.orElse exact (Js.orElse covering nearest).

Fixpoint strongBeatLoop (sortedNotes : list Note.t) (isFirstNoteAnacrusis : bool)
    (ts : TimeSignature.t) (idx : nat) (strongBeats : list Z)
    (result : list Note.t) (usedNotes : list nat) : list Note.t :=
  match strongBeats with
  | [] => result
  | strongBeat :: rest =>
      match strongBeatCandidate sortedNotes (inject_Z strongBeat) usedNotes with
      | None =>
          strongBeatLoop sortedNotes isFirstNoteAnacrusis ts (S idx) rest
            result usedNotes
      | Some (pos, noteAtBeat) =>
          let durationBeats := nextStrongBeatOf rest ts - strongBeat in
          let durationTicks := durationBeats * 1024 in
          let shouldKeepOriginalPosition :=
            Nat.eqb idx 0 && isFirstNoteAnacrusis && Nat.eqb pos 0 in
          let moved :=
            Note.set_duration
              (Duration.mk (getDurationTypeFromTicks durationTicks) 0 None durationTicks)
              (Note.set_startBeat
                 (if shouldKeepOriginalPosition then Note.startBeat noteAtBeat
                  else inject_Z strongBeat) noteAtBeat) in
          strongBeatLoop sortedNotes isFirstNoteAnacrusis ts (S idx) rest
            (result ++ [moved]) (usedNotes ++ [Note.id noteAtBeat])
      end
  end.

Definition applyStrongBeatOnly (notes : list Note.t) (ts : TimeSignature.t)
    : list Note.t :=
  let mainNotes := filter Note.isMain notes in
  match Js.sort byStartBeat mainNotes with
  | [] => []
  | (firstNote :: _) as sortedNotes =>
      let isFirstNoteAnacrusis := Js.ltb (Note.startBeat firstNote) 1 in
      strongBeatLoop sortedNotes isFirstNoteAnacrusis ts 0 (getStrongBeats ts) [] []
  end.

Module Config.
Record t : Type := mk {
    mainLevel : option Z;
    sopranoLevel : option Z;
    bassLevel : option Z
  }.
End Config.

(** [level || dflt]: [undefined] and [0] are falsy. *)
Definition levelOr (level : option Z) (dflt : Z) : option Z :=
  match level with
  | None => Some dflt
  | Some l => if l =? 0 then Some dflt else Some l
  end.

(** [xs.length > 0 ? applySingleStaffSimplification({ ...measure, notes: xs },
    level, ts) : { notes: [] }], read at [.notes]. *)
Definition simplifyVoice (measure : Measure.t) (xs : list Note.t)
    (level : option Z) (ts : TimeSignature.t) : list Note.t :=
  match xs with
  | [] => []
  | _ =>
      Measure.notes
        (applySingleStaffSimplification
           (Measure.mk (Measure.number measure) xs (Measure.rests measure)) level ts)
  end.

Definition staffNotes (s : Z) (measure : Measure.t) : list Note.t :=
  filter (fun n => Note.staff n =? s) (Measure.notes measure).

(** In the five level functions [applyStrongBeatOnly] stands for the guarded
    call [xs.length > 0 ? applyStrongBeatOnly(xs, ts) : []]: it returns the
    empty list on the empty list. *)
Definition applyGrandStaffLevel1 (measure : Measure.t) (ts : TimeSignature.t)
    (config : Config.t) : Measure.t :=
  let sopranoLevel := levelOr (Config.sopranoLevel config) 4 in
  let bassLevel := levelOr (Config.bassLevel config) 1 in
  let v := separateVoices (staffNotes 1 measure) (staffNotes 2 measure) in
  let simplifiedSoprano := simplifyVoice measure (Voices.soprano v) sopranoLevel ts in
  let simplifiedBass := simplifyVoice measure (Voices.bass v) bassLevel ts in
  Measure.mk (Measure.number measure)
    (map (Note.retag 1 soprano 1) simplifiedSoprano
     ++ map (Note.retag 2 bass 2) simplifiedBass)
    [].

Definition applyGrandStaffLevel2 (measure : Measure.t) (ts : TimeSignature.t)
    (config : Config.t) : Measure.t :=
  let sopranoLevel := levelOr (Config.sopranoLevel config) 4 in
  let bassLevel := levelOr (Config.bassLevel config) 2 in
  let v := separateVoices (staffNotes 1 measure) (staffNotes 2 measure) in
  let simplifiedSoprano := simplifyVoice measure (Voices.soprano v) sopranoLevel ts in
  let simplifiedAlto := applyStrongBeatOnly (Voices.alto v) ts in
  let simplifiedBass := simplifyVoice measure (Voices.bass v) bassLevel ts in
  Measure.mk (Measure.number measure)
    (map (Note.retag 1 soprano 1) simplifiedSoprano
     ++ map (Note.retag 1 alto 2) simplifiedAlto
     ++ map (Note.retag 2 bass 2) simplifiedBass)
    [].

Definition applyGrandStaffLevel3 (measure : Measure.t) (ts : TimeSignature.t)
    (config : Config.t) : Measure.t :=
  let sopranoLevel := levelOr (Config.sopranoLevel config) 5 in
  let bassLevel := levelOr (Config.bassLevel config) 2 in
  let v := separateVoices (staffNotes 1 measure) (staffNotes 2 measure) in
  let simplifiedSoprano := simplifyVoice measure (Voices.soprano v) sopranoLevel ts in
  let simplifiedTenor := applyStrongBeatOnly (Voices.tenor v) ts in
  let simplifiedBass := simplifyVoice measure (Voices.bass v) bassLevel ts in
  Measure.mk (Measure.number measure)
    (map (Note.retag 1 soprano 1) simplifiedSoprano
     ++ map (Note.retag 2 tenor 1) simplifiedTenor
     ++ map (Note.retag 2 bass 2) simplifiedBass)
    [].

Definition applyGrandStaffLevel4 (measure : Measure.t) (ts : TimeSignature.t)
    (config : Config.t) : Measure.t :=
  let sopranoLevel := levelOr (Config.sopranoLevel config) 4 in
  let bassLevel := levelOr (Config.bassLevel config) 2 in
  let v := separateVoices (staffNotes 1 measure) (staffNotes 2 measure) in
  let simplifiedSoprano := simplifyVoice measure (Voices.soprano v) sopranoLevel ts in
  let simplifiedAlto := applyStrongBeatOnly (Voices.alto v) ts in
  let simplifiedTenor := applyStrongBeatOnly (Voices.tenor v) ts in
  let simplifiedBass := simplifyVoice measure (Voices.bass v) bassLevel ts in
  Measure.mk (Measure.number measure)
    (map (Note.retag 1 soprano 1) simplifiedSoprano
     ++ map (Note.retag 1 alto 2) simplifiedAlto
     ++ map (Note.retag 2 tenor 1) simplifiedTenor
     ++ map (Note.retag 2 bass 2) simplifiedBass)
    [].

Definition applyGrandStaffLevel5 (measure : Measure.t) (ts : TimeSignature.t)
    (config : Config.t) : Measure.t :=
  let sopranoLevel := levelOr (Config.sopranoLevel config) 5 in
  let bassLevel := levelOr (Config.bassLevel config) 5 in
  let v := separateVoices (staffNotes 1 measure) (staffNotes 2 measure) in
  let simplifiedSoprano := simplifyVoice measure (Voices.soprano v) sopranoLevel ts in
  let simplifiedAlto := simplifyVoice measure (Voices.alto v) (Some 5) ts in
  let simplifiedTenor := simplifyVoice measure (Voices.tenor v) (Some 5) ts in
  let simplifiedBass := simplifyVoice measure (Voices.bass v) bassLevel ts in
  Measure.mk (Measure.number measure)
    (map (Note.retag 1 soprano 1) simplifiedSoprano
     ++ map (Note.retag 1 alto 2) simplifiedAlto
     ++ map (Note.retag 2 tenor 1) simplifiedTenor
     ++ map (Note.retag 2 bass 2) simplifiedBass)
    [].

Definition applyGrandStaffSimplification (measure : Measure.t) (level : option Z)
    (ts : TimeSignature.t) (config : Config.t) : Measure.t :=
  match level with
  | Some 1 => applyGrandStaffLevel1 measure ts config
  | Some 2 => applyGrandStaffLevel2 measure ts config
  | Some 3 => applyGrandStaffLevel3 measure ts config
  | Some 4 => applyGrandStaffLevel4 measure ts config
  | Some 5 => applyGrandStaffLevel5 measure ts config
  | _ => measure
  end.

(* ------------------------------------------------------------------ *)
(** ** Analyzer (modules/analyzer.js) *)

(** [classifyVoicePart] of the AI module: a fixed pitch threshold. *)
Definition classifyVoicePart (note : Note.t) : VoicePart :=
  let midi := pitchToMidi (Note.pitch note) in
  if Note.staff note =? 1
  then (if 60 <=? midi then soprano else alto)
  else (if 48 <=? midi then tenor else bass).

Definition isMelodicTurningPoint (notes : list Note.t) (index : nat) : bool :=
  if Nat.eqb index 0 || Nat.eqb index (List.length notes - 1) then false
  else
    match nth_error notes (index - 1), nth_error notes index,
          nth_error notes (index + 1) with
    | Some prev, Some curr, Some next =>
        if negb (Note.isMain prev) || negb (Note.isMain curr)
           || negb (Note.isMain next)
        then false
        else
          let prevMidi := pitchToMidi (Note.pitch prev) in
          let currMidi := pitchToMidi (Note.pitch curr) in
          let nextMidi := pitchToMidi (Note.pitch next) in
          let isLocalMax := (prevMidi <? currMidi) && (nextMidi <? currMidi) in
          let isLocalMin := (currMidi <? prevMidi) && (currMidi <? nextMidi) in
          isLocalMax || isLocalMin
    | _, _, _ => false
    end.

(** [sameStaffNotes.findIndex(n => n.id === note.id)] *)
Definition findIndexById (i : nat) (notes : list Note.t) : option nat :=
  option_map fst (Js.find (fun n => Nat.eqb (Note.id n) i) notes).

(** The decision [identifyLockedNotes] takes for the note at [noteIdx] of a
    measure; nothing it reads is written by the loop, so the in-place
    updates amount to a map over the notes. *)
Definition lockDecision (ts : TimeSignature.t) (measureNotes : list Note.t)
    (noteIdx : nat) (note : Note.t) : option LockReason :=
  if negb (Note.isMain note) then None
  else
    let strongBeats := getStrongBeats ts in
    let startBeat := Note.startBeat note in
    let durationBeats := (inject_Z (Duration.ticks (Note.duration note)) / 1024)%Q in
    let endBeat := (startBeat + durationBeats)%Q in
    let startsOnWeakBeat := negb (isStrongBeat startBeat ts) in
    let extendsToStrongBeat :=
      existsb (fun sb => Js.ltb startBeat (inject_Z sb)
                         && Js.leb (inject_Z sb) endBeat) strongBeats in
    if startsOnWeakBeat && extendsToStrongBeat then Some syncopation
    else if Nat.ltb 0 (Duration.dots (Note.duration note))
            && (512 <=? Duration.ticks (Note.duration note))
    then Some dotted_rhythm
    else if match Note.tiedTo note with Some _ => true | None => false end
    then Some cross_beat_tie
    else
      let beatFraction := Js.rem startBeat 1 in
      if (Js.leb (1 # 2) beatFraction && Js.ltb beatFraction 1)
         && Js.leb (1 # 2) durationBeats
      then Some off_beat_start
      else
        let tripletHead :=
          match Duration.tuplet (Note.duration note) with
          | Some tp =>
              let tupletRatio :=
                (inject_Z (Tuplet.actual tp) / inject_Z (Tuplet.normal tp))%Q in
              Js.ltb (Js.abs (Js.rem startBeat (1 / tupletRatio) - 0)) (1 # 100)
          | None => false
          end in
        if tripletHead then Some triplet_head
        else
          let sameStaffNotes :=
            if Note.staff note =? 1
            then filter (fun n => Note.staff n =? 1) measureNotes
            else filter (fun n => Note.staff n =? 2) measureNotes in
          let turning :=
            match findIndexById (Note.id note) sameStaffNotes with
            | Some staffNoteIdx => isMelodicTurningPoint sameStaffNotes staffNoteIdx
            | None => false
            end in
          if turning then Some melodic_turning_point
          else if Nat.eqb noteIdx (List.length measureNotes - 1)
                  && (1024 <=? Duration.ticks (Note.duration note))
          then Some phrase_ending
          else None.

Fixpoint mapi {A B} (i : nat) (f : nat -> A -> B) (l : list A) : list B :=
  match l with
  | [] => []
  | x :: l' => f i x :: mapi (S i) f l'
  end.

Definition applyLock (ts : TimeSignature.t) (measureNotes : list Note.t)
    (noteIdx : nat) (note : Note.t) : Note.t :=
  match lockDecision ts measureNotes noteIdx note with
  | Some r => Note.set_lock true (Some r) note
  | None => note
  end.

(** [analyzedMeasures] after [identifyLockedNotes]: every note is first
    reset ([isLocked: false], [voicePart] from [classifyVoicePart] on a
    grand staff), then locked by the first matching rule. *)
Definition analyzeMeasure (scoreType : ScoreType) (ts : TimeSignature.t)
    (measure : Measure.t) : Measure.t :=
  let analyzedNotes :=
    map (fun note =>
           Note.set_lock false None
             (Note.set_voicePart
                (match scoreType with
                 | grand_staff => Some (classifyVoicePart note)
                 | single_staff => None
                 end) note))
        (Measure.notes measure) in
  Measure.mk (Measure.number measure)
    (mapi 0 (applyLock ts analyzedNotes) analyzedNotes)
    (Measure.rests measure).

(** [groupByBeat]: a [Map] keyed by [Math.floor(note.startBeat)]. *)
Definition groupByBeat (notes : list Note.t) : list (Z * list Note.t) :=
  fold_left (fun g n => Js.mapPush Z.eqb (Js.floor (Note.startBeat n)) n g) notes [].

(** [group.reduce((best, note) => better(note, best) ? note : best)] *)
Definition reduceBest (better : Z -> Z -> bool) (group : list Note.t)
    : option Note.t :=
  match group with
  | [] => None
  | first :: others =>
      Some (fold_left
              (fun best note =>
                 if better (pitchToMidi (Note.pitch note))
                           (pitchToMidi (Note.pitch best))
                 then note else best) others first)
  end.

Definition pickPerBeat (better : Z -> Z -> bool) (notes : list Note.t)
    : list Note.t :=
  flat_map (fun g => match reduceBest better (snd g) with
                     | Some n => [n] | None => [] end)
           (groupByBeat notes).

Definition getHighestVoice : list Note.t -> list Note.t :=
  pickPerBeat (fun noteMidi maxMidi => maxMidi <? noteMidi).

Definition getLowestVoice : list Note.t -> list Note.t :=
  pickPerBeat (fun noteMidi minMidi => noteMidi <? minMidi).

Definition hasId (ids : list nat) (n : Note.t) : bool :=
  existsb (Nat.eqb (Note.id n)) ids.

(** [identifyVoices].  With the models loaded the source calls
    [identifyMelodyLine]/[identifyBassLine], which pick the same notes (the
    highest, resp. lowest, note of each integer beat of the staff) as the
    rule-based [getHighestVoice]/[getLowestVoice] modelled here.  The lists
    are computed on the notes of the whole score. *)
Definition identifyVoices (notes : list Note.t) : Voices.t :=
  let upperStaff := filter (fun n => Note.staff n =? 1) notes in
  let lowerStaff := filter (fun n => Note.staff n =? 2) notes in
  let sopranoV := getHighestVoice upperStaff in
  let bassV := getLowestVoice lowerStaff in
  let sopranoIds := map Note.id sopranoV in
  let bassIds := map Note.id bassV in
  let altoV := filter (fun n => negb (hasId sopranoIds n)) upperStaff in
  let tenorV := filter (fun n => negb (hasId bassIds n)) lowerStaff in
  Voices.mk (map (Note.set_voicePart (Some soprano)) sopranoV)
            (map (Note.set_voicePart (Some alto)) altoV)
            (map (Note.set_voicePart (Some tenor)) tenorV)
            (map (Note.set_voicePart (Some bass)) bassV).

(** The effect of [voices.X.forEach(n => n.voicePart = 'X')] on a note of a
    measure: the lists hold the very note objects of the measures, which the
    parser numbers uniquely, so membership is decided by [id]. *)
Definition assignVoicePart (v : Voices.t) (note : Note.t) : Note.t :=
  if hasId (map Note.id (Voices.bass v)) note
  then Note.set_voicePart (Some bass) note
  else if hasId (map Note.id (Voices.tenor v)) note
  then Note.set_voicePart (Some tenor) note
  else if hasId (map Note.id (Voices.alto v)) note
  then Note.set_voicePart (Some alto) note
  else if hasId (map Note.id (Voices.soprano v)) note
  then Note.set_voicePart (Some soprano) note
  else note.

Module ParsedScore.
Record t : Type := mk {
    metadata : ScoreMetadata.t;
    measures : list Measure.t;
    rawXml : string
  }.
End ParsedScore.

Module AnalyzedScore.
Record t : Type := mk {
    metadata : ScoreMetadata.t;
    measures : list Measure.t;
    voices : Voices.t;
    lockedNotes : list Note.t;
    strongBeats : list Z;
    scoreType : ScoreType
  }.
End AnalyzedScore.

Definition analyzeScore (score : ParsedScore.t) (scoreType : ScoreType)
    : AnalyzedScore.t :=
  let metadata := ParsedScore.metadata score in
  let strongBeats := getStrongBeats (ScoreMetadata.timeSignature metadata) in
  let locked :=
    map (analyzeMeasure scoreType (ScoreMetadata.timeSignature metadata))
        (ParsedScore.measures score) in
  let voices :=
    match scoreType with
    | grand_staff => identifyVoices (flat_map Measure.notes locked)
    | single_staff => Voices.mk [] [] [] []
    end in
  let analyzedMeasures :=
    map (fun m => Measure.mk (Measure.number m)
                    (map (assignVoicePart voices) (Measure.notes m))
                    (Measure.rests m)) locked in
  let allNotes := flat_map Measure.notes analyzedMeasures in
  AnalyzedScore.mk metadata analyzedMeasures voices
    (filter Note.isLocked allNotes) strongBeats scoreType.

Definition pairKeyEqb (a b : Z * Z) : bool :=
  (fst a =? fst b) && (snd a =? snd b).

(** The [voiceGroups] map of [isAnacrusis], keyed by ["staff_voice"]. *)
Definition voiceGroupsOf (notes : list Note.t) : list ((Z * Z) * list Note.t) :=
  fold_left (fun g n => Js.mapPush pairKeyEqb (Note.staff n, Note.voice n) n g)
            notes [].

(** [if (x > acc) acc = x] *)
Definition keepMax (acc x : Q) : Q := if Js.ltb acc x then x else acc.

Definition isAnacrusis (measure : Measure.t) (ts : TimeSignature.t) : bool :=
  let expectedBeats := inject_Z (TimeSignature.beats ts) in
  match Measure.notes measure with
  | [] => false
  | notes =>
      let voiceGroups := voiceGroupsOf notes in
      let maxActualBeats :=
        fold_left
          (fun acc g =>
             let maxEndBeat :=
               fold_left (fun e n => keepMax e (Note.endBeat n)) (snd g) 0%Q in
             keepMax acc (maxEndBeat - 1)%Q)
          voiceGroups 0%Q in
      Js.ltb maxActualBeats (expectedBeats * (9 # 10))
  end.

(* ------------------------------------------------------------------ *)
(** ** Simplification engine (modules/simplifier.js) *)

Definition preserveAnacrusis (measure : Measure.t) : Measure.t :=
  Measure.mk (Measure.number measure)
    (filter Note.isMain (Measure.notes measure)) (Measure.rests measure).

(** [defaults[mainLevel] || 4] with [{ 1: 4, 2: 4, 3: 5, 4: 4, 5: 5 }] *)
Definition getDefaultSopranoLevel (mainLevel : option Z) : Z :=
  match mainLevel with
  | Some 3 | Some 5 => 5
  | _ => 4
  end.

(** [defaults[mainLevel] || 2] with [{ 1: 1, 2: 2, 3: 2, 4: 2, 5: 5 }] *)
Definition getDefaultBassLevel (mainLevel : option Z) : Z :=
  match mainLevel with
  | Some 1 => 1
  | Some 5 => 5
  | _ => 2
  end.

Module SimplifiedScore.
Record t : Type := mk {
    metadata : ScoreMetadata.t;
    measures : list Measure.t;
    simplificationLevel : option Z;
    scoreType : ScoreType
  }.
End SimplifiedScore.

Definition simplifyMeasure (analyzedScore : AnalyzedScore.t) (config : Config.t)
    (hasAnacrusis : bool) (index : nat) (measure : Measure.t) : Measure.t :=
  let metadata := AnalyzedScore.metadata analyzedScore in
  let mainLevel := Config.mainLevel config in
  if hasAnacrusis && Nat.eqb index 0 then preserveAnacrusis measure
  else
    match AnalyzedScore.scoreType analyzedScore with
    | single_staff =>
        applySingleStaffSimplification measure mainLevel
          (ScoreMetadata.timeSignature metadata)
    | grand_staff =>
        applyGrandStaffSimplification measure mainLevel
          (ScoreMetadata.timeSignature metadata)
          (Config.mk mainLevel
             (levelOr (Config.sopranoLevel config) (getDefaultSopranoLevel mainLevel))
             (levelOr (Config.bassLevel config) (getDefaultBassLevel mainLevel)))
    end.

Definition simplifyScore (analyzedScore : AnalyzedScore.t) (config : Config.t)
    : SimplifiedScore.t :=
  let metadata := AnalyzedScore.metadata analyzedScore in
  let measures := AnalyzedScore.measures analyzedScore in
  let hasAnacrusis :=
    match measures with
    | [] => false
    | first :: _ => isAnacrusis first (ScoreMetadata.timeSignature metadata)
    end in
  SimplifiedScore.mk metadata
    (mapi 0 (simplifyMeasure analyzedScore config hasAnacrusis) measures)
    (Config.mainLevel config)
    (AnalyzedScore.scoreType analyzedScore).

(* ------------------------------------------------------------------ *)
(** ** Exporter (modules/exporter.js) *)

(** The [<type>] texts the exporter writes. *)
Inductive XmlType : Type :=
  | x_whole | x_half | x_quarter | x_eighth | x_16th | x_32nd.

Inductive Stem : Type := up | down.

(** The serialized document as the sequence of elements written into a
    measure; each constructor carries the values the template prints. *)
Inductive XmlEvent : Type :=
  | AttributesXml (divisions fifths beats beatType : Z) (staves : ScoreType)
  | DirectionXml (tempo : Z)
  | NoteXml (chord : bool) (pitch : Pitch.t) (duration : Z) (tie : bool)
            (voice : Z) (type : XmlType) (dots : nat)
            (timeModification : option Tuplet.t) (stem : option Stem) (staff : Z)
  | RestXml (duration : Z) (voice : Z) (type : XmlType) (staff : Z)
  | MeasureRestXml (duration : Z) (voice : Z) (staff : Z)
  | BackupXml (duration : Z).

Definition durationToType (t : DurType) : XmlType :=
  match t with
  | whole => x_whole
  | half => x_half
  | quarter => x_quarter
  | eighth => x_eighth
  | sixteenth => x_16th
  | d32nd => x_32nd
  | d64th => x_quarter
  end.

(** [Math.round((note.duration?.ticks || 1024) / 1024 * divisions)] *)
Definition xmlDurationOf (note : Note.t) (divisions : Z) : Z :=
  let t := Duration.ticks (Note.duration note) in
  let durationTicks := if t =? 0 then 1024 else t in
  Js.round (inject_Z durationTicks / 1024 * inject_Z divisions).

Definition generateNoteXML (note : Note.t) (divisions voice staff : Z)
    (isChord : bool) (stemDirection : option Stem) : XmlEvent :=
  NoteXml isChord (Note.pitch note) (xmlDurationOf note divisions)
    (match Note.tiedTo note with Some _ => true | None => false end)
    voice (durationToType (Duration.type (Note.duration note)))
    (Duration.dots (Note.duration note))
    (Duration.tuplet (Note.duration note)) stemDirection staff.

Definition generateFullMeasureRest (voice staff measureDuration : Z) : list XmlEvent :=
  [MeasureRestXml measureDuration voice staff].

Definition restValues (divisions : Z) : list (Q * XmlType) :=
  [ (inject_Z (divisions * 4), x_whole);
    (inject_Z (divisions * 2), x_half);
    (inject_Z divisions, x_quarter);
    (inject_Z divisions / 2, x_eighth)%Q;
    (inject_Z divisions / 4, x_16th)%Q;
    (inject_Z divisions / 8, x_32nd)%Q ].

(** [for (const rv of restValues) if (rv.duration <= remaining + 0.5) ...] *)
Definition firstFitting (remaining : Q) (values : list (Q * XmlType))
    : option (Q * XmlType) :=
  option_map snd (Js.find (fun rv => Js.leb (fst rv) (remaining + (1 # 2))) values).

(** [while (remaining > 0.5)] with an iteration budget: [None] when the
    budget runs out before the loop exits. *)
Fixpoint restsLoop (fuel : nat) (remaining : Q) (voice staff divisions : Z)
    : option (list XmlEvent) :=
  if Js.ltb (1 # 2) remaining then
    match fuel with
    | O => None
    | S fuel' =>
        match firstFitting remaining (restValues divisions) with
        | None => Some []
        | Some (d, ty) =>
            match restsLoop fuel' (remaining - d) voice staff divisions with
            | Some xml => Some (RestXml (Js.round d) voice ty staff :: xml)
            | None => None
            end
        end
    end
  else Some [].

(** Each round removes at least [divisions / 8], so for positive
    [divisions] the loop exits within this many rounds; for [divisions <= 0]
    the source loop does not exit and the result is [None]. *)
Definition restsBudget (totalDuration divisions : Z) : nat :=
  S (Z.to_nat (totalDuration * 8 / divisions)).

Definition generateRestsForDuration (totalDuration voice staff divisions : Z)
    : option (list XmlEvent) :=
  restsLoop (restsBudget totalDuration divisions) (inject_Z totalDuration)
    voice staff divisions.

Module PosGroup.
Record t : Type := mk { position : Z; startBeat : Q; notes : list Note.t }.
End PosGroup.

(** [Math.round((note.startBeat - 1) * divisions)] *)
Definition positionOf (startBeat : Q) (divisions : Z) : Z :=
  Js.round ((startBeat - 1) * inject_Z divisions).

(** [groupNotesByPosition]: the list of groups so far, last group last;
    a note joins the current (last) group unless it lies more than
    [divisions / 8] from that group's position. *)
Definition positionStep (divisions : Z) (groups : list PosGroup.t) (note : Note.t)
    : list PosGroup.t :=
  let position := positionOf (Note.startBeat note) divisions in
  let fresh := PosGroup.mk position (Note.startBeat note) [note] in
  match rev groups with
  | [] => [fresh]
  | currentGroup :: before =>
      if Js.ltb (inject_Z divisions / 8)
                (Js.abs (inject_Z (position - PosGroup.position currentGroup)))
      then groups ++ [fresh]
      else rev before
           ++ [PosGroup.mk (PosGroup.position currentGroup)
                 (PosGroup.startBeat currentGroup)
                 (PosGroup.notes currentGroup ++ [note])]
  end.

Definition groupNotesByPosition (notes : list Note.t) (divisions : Z)
    : list PosGroup.t :=
  fold_left (positionStep divisions) notes [].

Module VoiceXml.
Record t : Type := mk { xml : list XmlEvent; duration : Z }.
End VoiceXml.

(** The running state of [noteGroups.forEach]. *)
Module Cursor.
Record t : Type := mk {
    xml : list XmlEvent;
    totalDuration : Z;
    currentPosition : Z
  }.
End Cursor.

Fixpoint chordXML (notes : list Note.t) (noteIdx : nat)
    (divisions voice staff : Z) (stemDirection : option Stem) : list XmlEvent :=
  match notes with
  | [] => []
  | note :: notes' =>
      generateNoteXML note divisions voice staff (Nat.ltb 0 noteIdx) stemDirection
      :: chordXML notes' (S noteIdx) divisions voice staff stemDirection
  end.

Definition groupStep (voice staff divisions : Z) (stemDirection : option Stem)
    (st : option Cursor.t) (group : PosGroup.t) : option Cursor.t :=
  match st with
  | None => None
  | Some c =>
      let notePosition := positionOf (PosGroup.startBeat group) divisions in
      let filled :=
        if Cursor.currentPosition c <? notePosition then
          let gap := notePosition - Cursor.currentPosition c in
          match generateRestsForDuration gap voice staff divisions with
          | Some rests =>
              Some (Cursor.mk (Cursor.xml c ++ rests)
                              (Cursor.totalDuration c + gap) notePosition)
          | None => None
          end
        else Some c in
      match filled, PosGroup.notes group with
      | Some c', first :: _ =>
          let noteDuration := xmlDurationOf first divisions in
          Some (Cursor.mk
                  (Cursor.xml c'
                   ++ chordXML (PosGroup.notes group) 0 divisions voice staff
                        stemDirection)
                  (Cursor.totalDuration c' + noteDuration)
                  (notePosition + noteDuration))
      | _, _ => None
      end
  end.

Definition generateVoiceXMLAligned (notes : list Note.t)
    (voice staff divisions measureDuration : Z) (stemDirection : option Stem)
    : option VoiceXml.t :=
  match notes with
  | [] => Some (VoiceXml.mk (generateFullMeasureRest voice staff measureDuration)
                            measureDuration)
  | _ =>
      let sortedNotes := Js.sort byStartBeat notes in
      let noteGroups := groupNotesByPosition sortedNotes divisions in
      match fold_left (groupStep voice staff divisions stemDirection) noteGroups
                      (Some (Cursor.mk [] 0 0)) with
      | None => None
      | Some c =>
          if Cursor.currentPosition c <? measureDuration then
            let restDuration := measureDuration - Cursor.currentPosition c in
            match generateRestsForDuration restDuration voice staff divisions with
            | Some rests =>
                Some (VoiceXml.mk (Cursor.xml c ++ rests)
                                  (Cursor.totalDuration c + restDuration))
            | None => None
            end
          else Some (VoiceXml.mk (Cursor.xml c) (Cursor.totalDuration c))
      end
  end.

Definition generateSingleStaffMeasureXML (notes : list Note.t)
    (divisions : Z) (ts : TimeSignature.t) (measureDuration : Z)
    : option (list XmlEvent) :=
  match notes with
  | [] => Some (generateFullMeasureRest 1 1 measureDuration)
  | _ => option_map VoiceXml.xml
           (generateVoiceXMLAligned notes 1 1 divisions measureDuration None)
  end.

Definition voicePartIs (vp : VoicePart) (n : Note.t) : bool :=
  match Note.voicePart n, vp with
  | Some soprano, soprano | Some alto, alto
  | Some tenor, tenor | Some bass, bass => true
  | _, _ => false
  end.

(** [n.voicePart === vp || (n.staff === s && n.voice === v && !n.voicePart)] *)
Definition inVoice (vp : VoicePart) (s v : Z) (n : Note.t) : bool :=
  voicePartIs vp n
  || ((Note.staff n =? s) && (Note.voice n =? v)
      && match Note.voicePart n with None => true | Some _ => false end).

Definition isEmpty {A} (l : list A) : bool :=
  match l with [] => true | _ => false end.

(** [xml += ...] where the appended piece may fail to be produced. *)
Definition appendXml (acc : option (list XmlEvent)) (piece : option (list XmlEvent))
    : option (list XmlEvent) :=
  match acc, piece with
  | Some a, Some p => Some (a ++ p)
  | _, _ => None
  end.

Definition voiceXml (notes : list Note.t) (voice staff divisions measureDuration : Z)
    (stemDirection : option Stem) : option (list XmlEvent) :=
  option_map VoiceXml.xml
    (generateVoiceXMLAligned notes voice staff divisions measureDuration stemDirection).

(** The upper-staff half of [generateGrandStaffMeasureXML] (from
    [hasSoprano] to the closing [else] of voice 1 and 2). *)
Definition upperStaffXML (sopranoN altoN upperNotes : list Note.t)
    (divisions measureDuration : Z) : option (list XmlEvent) :=
  let hasSoprano :=
    negb (isEmpty sopranoN) || (negb (isEmpty upperNotes) && isEmpty altoN) in
  let hasAlto := negb (isEmpty altoN) in
  if hasSoprano || hasAlto then
    let x1 :=
      if hasSoprano then
        let sopranoNotes := if negb (isEmpty sopranoN) then sopranoN else upperNotes in
        voiceXml sopranoNotes 1 1 divisions measureDuration
          (if hasAlto then Some up else None)
      else Some [] in
    if hasAlto then
      appendXml (appendXml x1 (Some [BackupXml measureDuration]))
        (voiceXml altoN 2 1 divisions measureDuration (Some down))
    else x1
  else Some (generateFullMeasureRest 1 1 measureDuration).

(** The lower-staff half (from [hasTenor] to the closing [else] of voice 3
    and 4). *)
Definition lowerStaffXML (tenorN bassN lowerNotes : list Note.t)
    (divisions measureDuration : Z) : option (list XmlEvent) :=
  let hasTenor := negb (isEmpty tenorN) in
  let hasBass :=
    negb (isEmpty bassN) || (negb (isEmpty lowerNotes) && isEmpty tenorN) in
  if hasTenor || hasBass then
    let x3 :=
      if hasTenor then
        appendXml
          (voiceXml tenorN 3 2 divisions measureDuration
             (if hasBass then Some up else None))
          (Some (if hasBass then [BackupXml measureDuration] else []))
      else Some [] in
    if hasBass then
      let bassNotes := if negb (isEmpty bassN) then bassN else lowerNotes in
      appendXml x3
        (voiceXml bassNotes 4 2 divisions measureDuration
           (if hasTenor then Some down else None))
    else x3
  else Some (generateFullMeasureRest 3 2 measureDuration).

(** [generateGrandStaffMeasureXML]: the four voice lists, the two staves and
    the backup between them. *)
Definition generateGrandStaffMeasureXML (notes : list Note.t) (divisions : Z)
    (ts : TimeSignature.t) (measureDuration : Z) : option (list XmlEvent) :=
  let sopranoN := filter (inVoice soprano 1 1) notes in
  let altoN := filter (inVoice alto 1 2) notes in
  let tenorN := filter (inVoice tenor 2 1) notes in
  let bassN := filter (inVoice bass 2 2) notes in
  let upperNotes :=
    if negb (isEmpty sopranoN) || negb (isEmpty altoN) then sopranoN ++ altoN
    else filter (fun n => Note.staff n =? 1) notes in
  let lowerNotes :=
    if negb (isEmpty tenorN) || negb (isEmpty bassN) then tenorN ++ bassN
    else filter (fun n => Note.staff n =? 2) notes in
  appendXml
    (appendXml (upperStaffXML sopranoN altoN upperNotes divisions measureDuration)
               (Some [BackupXml measureDuration]))
    (lowerStaffXML tenorN bassN lowerNotes divisions measureDuration).

Definition generateAttributesXML (metadata : ScoreMetadata.t) (divisions : Z)
    (scoreType : ScoreType) : list XmlEvent :=
  [AttributesXml divisions
     (KeySignature.fifths (ScoreMetadata.keySignature metadata))
     (TimeSignature.beats (ScoreMetadata.timeSignature metadata))
     (TimeSignature.beatType (ScoreMetadata.timeSignature metadata))
     scoreType].

Definition generateMeasureXML (measure : Measure.t) (isFirst : bool)
    (metadata : ScoreMetadata.t) (divisions : Z) (scoreType : ScoreType)
    : option (list XmlEvent) :=
  let header :=
    if isFirst then
      generateAttributesXML metadata divisions scoreType
      ++ (if ScoreMetadata.tempo metadata =? 0 then []
          else [DirectionXml (ScoreMetadata.tempo metadata)])
    else [] in
  let notes := Measure.notes measure in
  let timeSignature := ScoreMetadata.timeSignature metadata in
  let measureDuration := TimeSignature.beats timeSignature * divisions in
  appendXml (Some header)
    (match scoreType with
     | grand_staff =>
         generateGrandStaffMeasureXML notes divisions timeSignature measureDuration
     | single_staff =>
         generateSingleStaffMeasureXML notes divisions timeSignature measureDuration
     end).

(** [generateMusicXML]: the body of the part, one entry per measure
    ([divisions] is the constant 256). *)
Definition generateMusicXML (score : SimplifiedScore.t)
    : list (option (list XmlEvent)) :=
  let divisions := 256 in
  mapi 0 (fun index measure =>
            generateMeasureXML measure (Nat.eqb index 0)
              (SimplifiedScore.metadata score) divisions
              (SimplifiedScore.scoreType score))
       (SimplifiedScore.measures score).

(* ------------------------------------------------------------------ *)
(** ** Parser (modules/parser.js)

    An XML element is represented by what the parser's queries return on
    it: the presence of a child element as a [bool], an integer text read
    with [parseInt] as an [option Z] ([None] when the element is absent). *)

(** A [note] element.  [rest], [chord], [grace]: the child element is
    present.  [durationEl], [voiceEl], [staffEl]: the integer text, when the
    element is present.  [pitchEl]: the pitch with the defaults of
    [parseNote] applied (step 'C', octave 4, alter 0), when the element is
    present.  [typeEl]: the text of [type].  [dotEls]: the number of [dot]
    children.  [timeModification]: actual and normal notes (defaults 3 and
    2).  [tieStart]: some [tie] has type 'start'.  [slurStarts]: the number
    of [slur] elements of type 'start'.  [ornament]: what
    [parseEmbellishment] returns on the element (the first match of its
    fixed precedence list). *)
Module NoteEl.
Record t : Type := mk {
    rest : bool;
    chord : bool;
    grace : bool;
    durationEl : option Z;
    pitchEl : option Pitch.t;
    voiceEl : option Z;
    staffEl : option Z;
    typeEl : option string;
    dotEls : nat;
    timeModification : option Tuplet.t;
    tieStart : bool;
    slurStarts : nat;
    ornament : option Embellishment
  }.
End NoteEl.

Inductive MeasureChild : Type :=
  | BackupEl (durationEl : option Z)
  | ForwardEl (durationEl : option Z)
  | NoteChild (noteEl : NoteEl.t)
  | OtherEl.

Definition typeMap (text : string) : DurType :=
  if String.eqb text "whole" then whole
  else if String.eqb text "half" then half
  else if String.eqb text "quarter" then quarter
  else if String.eqb text "eighth" then eighth
  else if String.eqb text "16th" then sixteenth
  else if String.eqb text "32nd" then d32nd
  else if String.eqb text "64th" then d64th
  else quarter.

(** [for (let i = 0; i < dots; i++) { ticks += addition; addition /= 2 }] *)
Fixpoint applyDots (dots : nat) (ticks addition : Q) : Q :=
  match dots with
  | O => ticks
  | S d => applyDots d (ticks + addition) (addition / 2)
  end.

Definition parseDuration (noteEl : NoteEl.t) (divisions : Z) : Duration.t :=
  let type := match NoteEl.typeEl noteEl with
              | Some text => typeMap text
              | None => quarter
              end in
  let dots := NoteEl.dotEls noteEl in
  let durationValue :=
    if NoteEl.grace noteEl then 0
    else match NoteEl.durationEl noteEl with
         | Some d => d
         | None => divisions
         end in
  let ticks := (inject_Z durationValue / inject_Z divisions * 1024)%Q in
  Duration.mk type dots (NoteEl.timeModification noteEl)
    (Js.round (applyDots dots ticks (ticks / 2))).

(** [parseNote]; [counter] is [noteIdCounter], advanced by [generateNoteId]
    only when a note is produced. *)
Definition parseNote (noteEl : NoteEl.t) (startBeat : Q) (divisions : Z)
    (counter : nat) : option Note.t * nat :=
  match NoteEl.pitchEl noteEl with
  | None => (None, counter)
  | Some pitch =>
      let voice := match NoteEl.voiceEl noteEl with Some v => v | None => 1 end in
      let staff := match NoteEl.staffEl noteEl with Some s => s | None => 1 end in
      (Some (Note.mk (S counter) pitch (parseDuration noteEl divisions) startBeat
               voice staff
               (if NoteEl.tieStart noteEl then Some "pending"%string else None)
               (match NoteEl.slurStarts noteEl with
                | O => None
                | k => Some (repeat "pending"%string k)
                end)
               false None
               (if NoteEl.grace noteEl then Some grace_note
                else NoteEl.ornament noteEl)
               None None),
       S counter)
  end.

Module ParseState.
Record t : Type := mk {
    currentBeat : Q;
    lastNonChordBeat : Q;
    notes : list Note.t;
    rests : list Rest.t;
    noteIdCounter : nat
  }.
End ParseState.

Definition durationOrZero (d : option Z) : Z :=
  match d with Some v => v | None => 0 end.

(** One round of the loop over [measureEl.children].  The cursor is a
    double: [duration / divisions], [currentBeat += ...] and
    [currentBeat -= ...] round as the source does. *)
Definition parseChild (divisions : Z) (st : ParseState.t) (child : MeasureChild)
    : ParseState.t :=
  let currentBeat := ParseState.currentBeat st in
  let lastNonChordBeat := ParseState.lastNonChordBeat st in
  match child with
  | BackupEl d =>
      let backupBeats := Js.div (inject_Z (durationOrZero d)) (inject_Z divisions) in
      let cb := Js.sub currentBeat backupBeats in
      ParseState.mk cb cb (ParseState.notes st) (ParseState.rests st)
        (ParseState.noteIdCounter st)
  | ForwardEl d =>
      let forwardBeats := Js.div (inject_Z (durationOrZero d)) (inject_Z divisions) in
      let cb := Js.add currentBeat forwardBeats in
      ParseState.mk cb cb (ParseState.notes st) (ParseState.rests st)
        (ParseState.noteIdCounter st)
  | NoteChild noteEl =>
      let isRest := NoteEl.rest noteEl in
      let isChord := NoteEl.chord noteEl in
      let isGrace := NoteEl.grace noteEl in
      let duration := durationOrZero (NoteEl.durationEl noteEl) in
      let durationBeats := Js.div (inject_Z duration) (inject_Z divisions) in
      let noteStartBeat := if isChord then lastNonChordBeat else currentBeat in
      if isRest then
        let counter := S (ParseState.noteIdCounter st) in
        let rests :=
          ParseState.rests st
          ++ [Rest.mk counter (parseDuration noteEl divisions) noteStartBeat
                (match NoteEl.voiceEl noteEl with Some v => v | None => 1 end)
                (match NoteEl.staffEl noteEl with Some s => s | None => 1 end)] in
        if negb isChord
        then ParseState.mk (Js.add currentBeat durationBeats) noteStartBeat
               (ParseState.notes st) rests counter
        else ParseState.mk currentBeat lastNonChordBeat
               (ParseState.notes st) rests counter
      else
        let '(note, counter) :=
          parseNote noteEl noteStartBeat divisions (ParseState.noteIdCounter st) in
        let notes := match note with
                     | Some n => ParseState.notes st ++ [n]
                     | None => ParseState.notes st
                     end in
        if negb isChord && negb isGrace && Js.ltb 0 durationBeats
        then ParseState.mk (Js.add currentBeat durationBeats) noteStartBeat
               notes (ParseState.rests st) counter
        else ParseState.mk currentBeat lastNonChordBeat
               notes (ParseState.rests st) counter
  | OtherEl => st
  end.

Module MeasureEl.
Record t : Type := mk {
    numberAttr : option Z;
    localDivisions : option Z;
    children : list MeasureChild
  }.
End MeasureEl.

(** The cursor starts every measure at beat 1. *)
Definition parseChildren (divisions : Z) (counter : nat)
    (children : list MeasureChild) : ParseState.t :=
  fold_left (parseChild divisions) children (ParseState.mk 1 1 [] [] counter).

(** One round of [measureEls.forEach]: the state carried across measures is
    [globalDivisions] and the identifier counter. *)
Definition parseMeasureEl (acc : list Measure.t * Z * nat) (index : nat)
    (measureEl : MeasureEl.t) : list Measure.t * Z * nat :=
  let '(measures, globalDivisions, counter) := acc in
  let measureNum := match MeasureEl.numberAttr measureEl with
                    | Some k => k
                    | None => Z.of_nat index + 1
                    end in
  let divisions := match MeasureEl.localDivisions measureEl with
                   | Some d => d
                   | None => globalDivisions
                   end in
  let st := parseChildren divisions counter (MeasureEl.children measureEl) in
  (measures ++ [Measure.mk measureNum (ParseState.notes st) (ParseState.rests st)],
   divisions, ParseState.noteIdCounter st).

Fixpoint parseMeasuresFrom (index : nat) (acc : list Measure.t * Z * nat)
    (measureEls : list MeasureEl.t) : list Measure.t * Z * nat :=
  match measureEls with
  | [] => acc
  | el :: els => parseMeasuresFrom (S index) (parseMeasureEl acc index el) els
  end.

(** [parseMeasures]; [divisionsEl] is the document's first [divisions]
    element ([parseInt(divisionsEl?.textContent || '1')]).  [noteIdCounter]
    is a variable of the module: [counter] is its value when the call
    starts, and its value when the call ends is returned with the
    measures. *)
Definition parseMeasures (measureEls : list MeasureEl.t) (divisionsEl : option Z)
    (counter : nat) : list Measure.t * nat :=
  let globalDivisions := match divisionsEl with Some d => d | None => 1 end in
  let '(measures, _, counter') :=
    parseMeasuresFrom 0 ([], globalDivisions, counter) measureEls in
  (measures, counter').

(** A document that parses, by what [parseXmlContent] reads from it: the
    result of [parseMetadata], the first [divisions] element, the [measure]
    elements and the text itself. *)
Module Document.
Record t : Type := mk {
    metadata : ScoreMetadata.t;
    divisionsEl : option Z;
    measureEls : list MeasureEl.t;
    xmlContent : string
  }.
End Document.

(** [parseXmlContent], which the module exports: it numbers on from the
    value [noteIdCounter] has. *)
Definition parseXmlContent (doc : Document.t) (counter : nat)
    : ParsedScore.t * nat :=
  let '(measures, counter') :=
    parseMeasures (Document.measureEls doc) (Document.divisionsEl doc) counter in
  (ParsedScore.mk (Document.metadata doc) measures (Document.xmlContent doc),
   counter').

(** [parseFile] on a file of a supported format: [noteIdCounter = 0], then
    [parseXmlContent] on the text of the file. *)
Definition parseFile (doc : Document.t) (counter : nat) : ParsedScore.t * nat :=
  parseXmlContent doc 0.

(* ------------------------------------------------------------------ *)
(** ** Sample scores used to exercise the definitions *)

Definition sampleTime : TimeSignature.t := TimeSignature.mk 4 4 simple.

Definition samplePitch (s : string) (o : Z) : Pitch.t := Pitch.mk s o 0.

(** A plain note: identifier, step, octave, ticks, beat, staff, voice. *)
Definition plainNote (i : nat) (s : string) (o : Z) (t : Z) (b : Q) (st v : Z)
    : Note.t :=
  Note.mk i (samplePitch s o) (plainDuration t) b v st None None false None
    None None None.

Definition sampleMeasure : Measure.t :=
  Measure.mk 1 [plainNote 1 "C" 5 1024 1 1 1; plainNote 2 "D" 5 1024 2 1 1] [].

(** A pickup measure (one quarter note preceded by a grace note) followed by
    a full measure, in 4/4. *)
Definition graceNote (i : nat) (s : string) (o : Z) (b : Q) (st v : Z) : Note.t :=
  Note.mk i (samplePitch s o) (Duration.mk eighth 0 None 0) b v st None None
    false None (Some grace_note) None None.

Definition pickupMeasure : Measure.t :=
  Measure.mk 0 [graceNote 1 "B" 4 1 1 1; plainNote 2 "C" 5 1024 1 1 1] [].

Definition fullMeasure : Measure.t :=
  Measure.mk 1 [plainNote 3 "C" 5 2048 1 1 1; plainNote 4 "D" 5 2048 3 1 1] [].

Definition sampleMetadata : ScoreMetadata.t :=
  ScoreMetadata.mk "Sample" "Anon" 120 sampleTime (KeySignature.mk 0 "major")
    ["G2"%string] [].

Definition pickupScore : AnalyzedScore.t :=
  AnalyzedScore.mk sampleMetadata [pickupMeasure; fullMeasure]
    (Voices.mk [] [] [] []) [] [1; 3] single_staff.

(** A quarter note (duration 1 at one division per quarter) and a grace
    note, as the parser sees them. *)
Definition quarterEl (s : string) : NoteEl.t :=
  NoteEl.mk false false false (Some 1) (Some (samplePitch s 4)) (Some 1) (Some 1)
    (Some "quarter"%string) 0 None false 0 None.

Definition graceEl (s : string) : NoteEl.t :=
  NoteEl.mk false false true None (Some (samplePitch s 4)) (Some 1) (Some 1)
    (Some "eighth"%string) 0 None false 0 None.

Definition chordEl (s : string) : NoteEl.t :=
  NoteEl.mk false true false (Some 1) (Some (samplePitch s 4)) (Some 1) (Some 1)
    (Some "quarter"%string) 0 None false 0 None.

Definition sampleChildren : list MeasureChild :=
  [ NoteChild (quarterEl "C"); NoteChild (chordEl "E"); NoteChild (graceEl "D");
    NoteChild (quarterEl "E"); BackupEl (Some 2); ForwardEl (Some 1) ].

(** A triplet eighth (duration 1 at three divisions per quarter), and two
    beats of them. *)
Definition tripletEl (s : string) : NoteEl.t :=
  NoteEl.mk false false false (Some 1) (Some (samplePitch s 4)) (Some 1) (Some 1)
    (Some "eighth"%string) 0 (Some (Tuplet.mk 3 2)) false 0 None.

Definition tripletChildren : list MeasureChild :=
  [ NoteChild (tripletEl "C"); NoteChild (tripletEl "D"); NoteChild (tripletEl "E");
    NoteChild (tripletEl "F"); NoteChild (tripletEl "G"); NoteChild (tripletEl "A") ].

(** The note elements that move the cursor: the rests and the notes that
    are no chord members, a note only when it is no grace note and has a
    positive duration. *)
Definition advancesCursor (noteEl : NoteEl.t) : bool :=
  negb (NoteEl.chord noteEl)
  && (NoteEl.rest noteEl
      || (negb (NoteEl.grace noteEl)
          && (0 <? durationOrZero (NoteEl.durationEl noteEl)))).

(** What a note element adds to the note list of the parse state. *)
Definition emittedStart (st : ParseState.t) (noteEl : NoteEl.t) : Q :=
  if NoteEl.chord noteEl then ParseState.lastNonChordBeat st
  else ParseState.currentBeat st.

(** What one child does to the cursor, to [lastNonChordBeat] and to the
    lists, for any state.  The quotient [duration / divisions], the sum and
    the difference are the doubles the code computes. *)
Definition cursorStep (divisions : Z) (before after : ParseState.t)
    (child : MeasureChild) : Prop :=
  match child with
  | BackupEl d =>
      ParseState.currentBeat after
      = Js.sub (ParseState.currentBeat before)
               (Js.div (inject_Z (durationOrZero d)) (inject_Z divisions)) /\
      ParseState.lastNonChordBeat after = ParseState.currentBeat after /\
      ParseState.notes after = ParseState.notes before /\
      ParseState.rests after = ParseState.rests before
  | ForwardEl d =>
      ParseState.currentBeat after
      = Js.add (ParseState.currentBeat before)
               (Js.div (inject_Z (durationOrZero d)) (inject_Z divisions)) /\
      ParseState.lastNonChordBeat after = ParseState.currentBeat after /\
      ParseState.notes after = ParseState.notes before /\
      ParseState.rests after = ParseState.rests before
  | NoteChild noteEl =>
      let d := durationOrZero (NoteEl.durationEl noteEl) in
      (if advancesCursor noteEl
       then ParseState.currentBeat after
            = Js.add (ParseState.currentBeat before)
                     (Js.div (inject_Z d) (inject_Z divisions)) /\
            ParseState.lastNonChordBeat after = ParseState.currentBeat before
       else ParseState.currentBeat after = ParseState.currentBeat before /\
            ParseState.lastNonChordBeat after
            = ParseState.lastNonChordBeat before) /\
      (exists emitted,
          ParseState.notes after = ParseState.notes before ++ emitted /\
          (length emitted <= 1)%nat /\
          Forall (fun n =>
                    Note.startBeat n = emittedStart before noteEl /\
                    (NoteEl.grace noteEl = true ->
                     Duration.ticks (Note.duration n) = 0 /\
                     Note.embellishment n = Some grace_note)) emitted) /\
      (exists emitted,
          ParseState.rests after = ParseState.rests before ++ emitted /\
          (length emitted <= 1)%nat /\
          Forall (fun r => Rest.startBeat r = emittedStart before noteEl) emitted)
  | OtherEl => after = before
  end.

(** The reading under which a grace note, like a chord member, is placed at
    [lastNonChordBeat]: every note a grace element adds starts there. *)
Definition graceReusesLastNonChordBeat (divisions : Z) (st : ParseState.t)
    (noteEl : NoteEl.t) : Prop :=
  NoteEl.grace noteEl = true ->
  NoteEl.rest noteEl = false ->
  forall n,
    In n (ParseState.notes (parseChild divisions st (NoteChild noteEl))) ->
    ~ In n (ParseState.notes st) ->
    (Note.startBeat n == ParseState.lastNonChordBeat st)%Q.





(** Two beats of triplet eighths as the parser delivers them. *)
Definition tripletMeasure : Measure.t :=
  Measure.mk 1 (ParseState.notes (parseChildren 3 0 tripletChildren)) [].






(** What holds of [result] and [processedPositions] after the notes [done]
    have gone through the loop. *)
Record Level4Inv (done : list Note.t) (res : list Note.t) (proc : list PosKey)
    : Prop := {
  l4_kept : forall n, In n done -> level4Keeps n = true -> In n res;
  l4_origin : forall n', In n' res ->
      exists n, In n done /\
        ((level4Keeps n = true /\ n' = n) \/
         (level4Keeps n = false /\ n' = level4Snap n));
  l4_slot : forall n, In n done -> level4Keeps n = false ->
      exists n0, In n0 done /\ level4Keeps n0 = false /\
                 level4Key n0 = level4Key n /\ In (level4Snap n0) res;
  l4_proc : forall k, In k proc <->
      exists n, In n done /\ level4Keeps n = false /\ level4Key n = k;
  l4_nodup : NoDup proc;
  l4_count : length res = (length (filter level4Keeps done) + length proc)%nat
}.

(** Invariants of a [Map] built by [Js.mapPush]: keys pairwise different
    (earlier against later), and every group non-empty with values whose
    key matches the entry. *)
Definition keysDistinct {K V} (eqb : K -> K -> bool) (m : list (K * list V))
    : Prop :=
  ForallOrdPairs (fun a b => eqb (fst a) (fst b) = false) m.

Definition groupsMatch {K V} (eqb : K -> K -> bool) (key : V -> K)
    (m : list (K * list V)) : Prop :=
  Forall (fun e => snd e <> [] /\
                   Forall (fun v => eqb (fst e) (key v) = true) (snd e)) m.

(** The notes grouped under [beat], in the pitch order of
    [extractVoicesByPitch]. *)
Definition groupInPitchOrder (beatGroups : BeatGroups) (bassFirst : bool)
    (beat : Q) : list Note.t :=
  match Js.mapGet Js.eqb beat beatGroups with
  | Some notesAtBeat => Js.sort (byPitch bassFirst) notesAtBeat
  | None => []
  end.



(** A grand-staff 4/4 measure: a whole note C5 on staff 1; on staff 2 a
    quarter C3 at beat 1 and a half note D3 at beat 2, which starts on a weak
    beat and is held over beat 3. *)
Definition syncopatedMeasure : Measure.t :=
  Measure.mk 1
    [ plainNote 1 "C" 5 4096 1 1 1;
      plainNote 2 "C" 3 1024 1 2 1;
      plainNote 3 "D" 3 2048 2 2 1 ]
    [].

Definition syncopatedScore : ParsedScore.t :=
  ParsedScore.mk sampleMetadata [syncopatedMeasure] "".

(** The measure and the note the analyzer produces. *)
Definition analyzedSyncopatedMeasure : Measure.t :=
  nth 0 (AnalyzedScore.measures (analyzeScore syncopatedScore grand_staff))
      syncopatedMeasure.

Definition lockedD3 : Note.t :=
  nth 2 (Measure.notes analyzedSyncopatedMeasure) (plainNote 0 "C" 4 0 0 1 1).

(** What survives of a note: identifier, pitch, start beat and duration. *)
Definition coreOf (n : Note.t) : nat * Pitch.t * Q * Duration.t :=
  (Note.id n, Note.pitch n, Note.startBeat n, Note.duration n).

Definition survivesIn (n : Note.t) (m' : Measure.t) : Prop :=
  exists n', In n' (Measure.notes m') /\
             Note.pitch n' = Note.pitch n /\
             Note.startBeat n' = Note.startBeat n /\
             Note.duration n' = Note.duration n.

(** Lock preservation read on a whole score: every locked note of the
    analysis is found in the corresponding simplified measure with its
    pitch, start beat and duration. *)
Definition lockedNotesSurvive (analyzed : AnalyzedScore.t) (config : Config.t)
    : Prop :=
  forall k m m' n,
    nth_error (AnalyzedScore.measures analyzed) k = Some m ->
    nth_error (SimplifiedScore.measures (simplifyScore analyzed config)) k
      = Some m' ->
    In n (Measure.notes m) -> Note.isLocked n = true ->
    exists n', In n' (Measure.notes m') /\
               Note.pitch n' = Note.pitch n /\
               (Note.startBeat n' == Note.startBeat n)%Q /\
               Note.duration n' = Note.duration n.

(** The sub-levels the grand-staff rules end up using. *)
Definition effectiveSopranoLevel (config : Config.t) : option Z :=
  levelOr (Config.sopranoLevel config)
          (getDefaultSopranoLevel (Config.mainLevel config)).

Definition effectiveBassLevel (config : Config.t) : option Z :=
  levelOr (Config.bassLevel config)
          (getDefaultBassLevel (Config.mainLevel config)).

(** Levels whose single-staff rule keeps locked notes. *)
Definition protectsLocks (level : option Z) : Prop :=
  level = Some 4 \/ level = Some 5.

(** The settings under which a locked note [n] of measure [m] is protected. *)
Definition lockProtected (scoreType : ScoreType) (config : Config.t)
    (m : Measure.t) (n : Note.t) : Prop :=
  match scoreType with
  | single_staff => protectsLocks (Config.mainLevel config)
  | grand_staff =>
      (Config.mainLevel config = Some 5 /\
       protectsLocks (effectiveSopranoLevel config) /\
       protectsLocks (effectiveBassLevel config) /\
       (Note.staff n = 1 \/ Note.staff n = 2))
      \/
      (Config.mainLevel config = Some 4 /\
       protectsLocks (effectiveSopranoLevel config) /\
       In n (VoiceLines.primaryLine
               (extractVoicesByPitch (staffNotes 1 m) false)))
  end.

(** The analyzed sample measure after grand-staff Level 4 and Level 5 with
    the default sub-levels. *)
Definition simplifiedSyncopatedL4 : Measure.t :=
  nth 0 (SimplifiedScore.measures
           (simplifyScore (analyzeScore syncopatedScore grand_staff)
              (Config.mk (Some 4) None None)))
      syncopatedMeasure.

Definition simplifiedSyncopatedL5 : Measure.t :=
  nth 0 (SimplifiedScore.measures
           (simplifyScore (analyzeScore syncopatedScore grand_staff)
              (Config.mk (Some 5) None None)))
      syncopatedMeasure.

(** The voice and staff written in a note or rest event, and the duration
    it contributes to its voice: chord members contribute nothing, backups
    belong to no voice. *)
Definition eventVoice (e : XmlEvent) : option (Z * Z) :=
  match e with
  | NoteXml _ _ _ _ voice _ _ _ _ staff => Some (staff, voice)
  | RestXml _ voice _ staff => Some (staff, voice)
  | MeasureRestXml _ voice staff => Some (staff, voice)
  | _ => None
  end.

Definition eventAdvance (e : XmlEvent) : Z :=
  match e with
  | NoteXml chord _ duration _ _ _ _ _ _ _ => if chord then 0 else duration
  | RestXml duration _ _ _ => duration
  | MeasureRestXml duration _ _ => duration
  | _ => 0
  end.

Definition inVoiceXml (staff voice : Z) (e : XmlEvent) : bool :=
  match eventVoice e with
  | Some (s, v) => (s =? staff) && (v =? voice)
  | None => false
  end.

(** Sum of the durations of the non-chord notes and rests of one voice. *)
Definition voiceDurationSum (staff voice : Z) (xml : list XmlEvent) : Z :=
  fold_right Z.add 0 (map eventAdvance (filter (inVoiceXml staff voice) xml)).

(** A single-staff 4/4 measure in one voice: sixteenths C5 E5 C5 D5 on
    beat 1, then quarters E5 F5 G5 on beats 2, 3 and 4. *)
Definition runMeasure : Measure.t :=
  Measure.mk 1
    [ plainNote 1 "C" 5 256 1 1 1;
      plainNote 2 "E" 5 256 (5 # 4) 1 1;
      plainNote 3 "C" 5 256 (3 # 2) 1 1;
      plainNote 4 "D" 5 256 (7 # 4) 1 1;
      plainNote 5 "E" 5 1024 2 1 1;
      plainNote 6 "F" 5 1024 3 1 1;
      plainNote 7 "G" 5 1024 4 1 1 ]
    [].

Definition runScore : ParsedScore.t :=
  ParsedScore.mk sampleMetadata [runMeasure] "".

Definition runSimplified (level : Z) : SimplifiedScore.t :=
  simplifyScore (analyzeScore runScore single_staff)
    (Config.mk (Some level) None None).

(** Every event of [xml] is a note or rest written for this staff and
    voice. *)
Definition taggedWith (staff voice : Z) (xml : list XmlEvent) : Prop :=
  Forall (fun e => eventVoice e = Some (staff, voice)) xml.

Definition onStaff (staff : Z) (e : XmlEvent) : bool :=
  match eventVoice e with
  | Some (s, _) => s =? staff
  | None => false
  end.

(** The staff has no note to write: no soprano/alto (tenor/bass) note and no
    note of the staff at all. *)
Definition upperStaffEmpty (notes : list Note.t) : bool :=
  isEmpty (filter (inVoice soprano 1 1) notes)
  && isEmpty (filter (inVoice alto 1 2) notes)
  && isEmpty (filter (fun n => Note.staff n =? 1) notes).

Definition lowerStaffEmpty (notes : list Note.t) : bool :=
  isEmpty (filter (inVoice tenor 2 1) notes)
  && isEmpty (filter (inVoice bass 2 2) notes)
  && isEmpty (filter (fun n => Note.staff n =? 2) notes).

(** The four voices of a grand-staff measure: part, staff, voice number in
    the model, voice number in the exported document. *)
Definition exportedVoices : list (VoicePart * Z * Z * Z) :=
  [ (soprano, 1, 1, 1); (alto, 1, 2, 2); (tenor, 2, 1, 3); (bass, 2, 2, 4) ].

(** The exporter read as "a voice with no notes is written as one
    full-measure rest of that voice". *)
Definition emptyVoiceWrittenAsRest (notes : list Note.t) (divisions : Z)
    (ts : TimeSignature.t) (measureDuration : Z) : Prop :=
  forall xml,
    generateGrandStaffMeasureXML notes divisions ts measureDuration = Some xml ->
    forall vp s v xv,
      In (vp, s, v, xv) exportedVoices ->
      filter (inVoice vp s v) notes = [] ->
      filter (inVoiceXml s xv) xml = [MeasureRestXml measureDuration xv s].

(** Every note or rest event of [xml] is written on this staff (backups
    carry no staff). *)
Definition staffOnly (staff : Z) (xml : list XmlEvent) : Prop :=
  Forall (fun e => match eventVoice e with
                   | Some (s, _) => s = staff
                   | None => True
                   end) xml.

(** A grand-staff measure holding a single soprano whole note. *)
Definition sopranoOnlyNotes : list Note.t :=
  [Note.retag 1 soprano 1 (plainNote 1 "C" 5 4096 1 1 1)].

(** The worked example of the specification: notes at beats 1 (half),
    2.5 (quarter) and 3 (quarter) in 4/4. *)
Definition strongBeatExample : Measure.t :=
  Measure.mk 1
    [ plainNote 1 "C" 5 2048 1 1 1;
      plainNote 2 "D" 5 1024 (5 # 2) 1 1;
      plainNote 3 "E" 5 1024 3 1 1 ]
    [].

(** Sum of the durations the events of a voice contribute. *)
Definition advanceSum (xml : list XmlEvent) : Z :=
  fold_right Z.add 0 (map eventAdvance xml).

(** The note groups of a voice, walked from cursor [cur]: no group starts
    before the cursor, every gap (also the one up to the end of the
    measure) is a whole number of 32nd notes ([unit] divisions each), and
    the last group ends within the measure. *)
Fixpoint wellSpaced (unit divisions cur : Z) (groups : list PosGroup.t)
    (measureDuration : Z) : Prop :=
  match groups with
  | [] => cur <= measureDuration /\ (measureDuration - cur) mod unit = 0
  | g :: gs =>
      let p := positionOf (PosGroup.startBeat g) divisions in
      cur <= p /\ (p - cur) mod unit = 0 /\
      match PosGroup.notes g with
      | first :: _ =>
          wellSpaced unit divisions (p + xmlDurationOf first divisions) gs
                     measureDuration
      | [] => False
      end
  end.

(* ------------------------------------------------------------------ *)
(** ** Knowledge base, continued (knowledge/index.js) *)



(* ------------------------------------------------------------------ *)
(** ** Vocabulary of the statements on the levels *)

(** The rows of [TIME_SIGNATURE_DEFINITIONS]. *)
Definition timeSignatureTable : list (Z * Z * list Z) :=
  [ (2, 4, [1]); (2, 2, [1]); (3, 4, [1]); (3, 8, [1]);
    (4, 4, [1; 3]); (4, 2, [1; 3]); (5, 4, [1; 3]);
    (6, 4, [1; 4]); (6, 8, [1; 4]); (7, 8, [1; 4]);
    (9, 8, [1; 4; 7]); (12, 8, [1; 4; 7; 10]) ].

(** [n'] is the note [n] moved to [start] and given a plain duration of
    [ticks]: every other field is the one of [n]. *)
Definition movedCopy (n : Note.t) (start : Q) (ticks : Z) (n' : Note.t) : Prop :=
  n' = Note.set_duration (plainDuration ticks) (Note.set_startBeat start n).

(** [out] holds, in order, copies of notes of [source] placed on some of
    the strong beats [strongBeats], each lasting until the next strong beat
    (or the end of the measure).  Only the very first strong beat ([first])
    may keep a note at its own start beat, and only a note that starts
    before beat 1. *)
Inductive PlacedOnStrongBeats (ts : TimeSignature.t) (source : list Note.t)
    : bool -> list Z -> list Note.t -> Prop :=
  | placed_done : forall first,
      PlacedOnStrongBeats ts source first [] []
  | placed_skip : forall first sb rest out,
      PlacedOnStrongBeats ts source false rest out ->
      PlacedOnStrongBeats ts source first (sb :: rest) out
  | placed_keep : forall first sb rest out n start n',
      In n source ->
      (start = inject_Z sb
       \/ (first = true /\ start = Note.startBeat n /\ (start < 1)%Q)) ->
      movedCopy n start ((nextStrongBeatOf rest ts - sb) * 1024) n' ->
      PlacedOnStrongBeats ts source false rest out ->
      PlacedOnStrongBeats ts source first (sb :: rest) (n' :: out).

(** The loop shared by Level 2 and [applyStrongBeatOnly], with the search
    for the note of a strong beat as a parameter. *)
Fixpoint strongBeatWalk (finder : Q -> list nat -> option (nat * Note.t))
    (isFirstNoteAnacrusis : bool) (ts : TimeSignature.t) (idx : nat)
    (strongBeats : list Z) (result : list Note.t) (usedNotes : list nat)
    : list Note.t :=
  match strongBeats with
  | [] => result
  | strongBeat :: rest =>
      match finder (inject_Z strongBeat) usedNotes with
      | None =>
          strongBeatWalk finder isFirstNoteAnacrusis ts (S idx) rest result usedNotes
      | Some (pos, noteAtBeat) =>
          let durationTicks := (nextStrongBeatOf rest ts - strongBeat) * 1024 in
          let shouldKeepOriginalPosition :=
            Nat.eqb idx 0 && isFirstNoteAnacrusis && Nat.eqb pos 0 in
          let moved :=
            Note.set_duration (plainDuration durationTicks)
              (Note.set_startBeat
                 (if shouldKeepOriginalPosition then Note.startBeat noteAtBeat
                  else inject_Z strongBeat) noteAtBeat) in
          strongBeatWalk finder isFirstNoteAnacrusis ts (S idx) rest
            (result ++ [moved]) (usedNotes ++ [Note.id noteAtBeat])
      end
  end.

(** Everything of a note but its position in time: what no single-staff
    level touches. *)
Definition identityOf (n : Note.t)
    : nat * Pitch.t * Z * Z * option string * option (list string) * bool
      * option LockReason * option Embellishment * option VoicePart :=
  (Note.id n, Note.pitch n, Note.voice n, Note.staff n, Note.tiedTo n,
   Note.slurredWith n, Note.isLocked n, Note.lockReason n,
   Note.embellishment n, Note.voicePart n).

(** A measure with a single quarter note on beat 2 of 4/4. *)
Definition loneNoteMeasure : Measure.t :=
  Measure.mk 7 [plainNote 1 "G" 4 1024 2 1 1] [Rest.mk 2 (plainDuration 1024) 1 1 1].

(** What the walk needs of a search: the note it returns sits at the
    returned position of [sortedNotes] and has not been used. *)
Definition finderSound (sortedNotes : list Note.t)
    (finder : Q -> list nat -> option (nat * Note.t)) : Prop :=
  forall beat usedNotes pos n,
    finder beat usedNotes = Some (pos, n) ->
    nth_error sortedNotes pos = Some n /\ ~ In (Note.id n) usedNotes.

(** A dotted quarter note as MusicXML writes it at two divisions per
    quarter: [duration] 3, [type] quarter, one [dot]. *)
Definition dottedQuarterEl : NoteEl.t :=
  NoteEl.mk false false false (Some 3) (Some (samplePitch "C" 4)) (Some 1) (Some 1)
    (Some "quarter"%string) 1 None false 0 None.

(* ------------------------------------------------------------------ *)
(** ** AI module, rule part (ai/index.js) *)

(** The [beatGroups] map of [identifyMelodyLine] and [identifyBassLine],
    keyed by ["staff_floor(startBeat)"]. *)
Definition staffBeatGroups (notes : list Note.t) : list ((Z * Z) * list Note.t) :=
  fold_left
    (fun g n => Js.mapPush pairKeyEqb (Note.staff n, Js.floor (Note.startBeat n)) n g)
    notes [].

(** [beatGroups.forEach((group, key) => { if (key.startsWith(prefix)) ... })]:
    the key starts with ['1_'] (['2_']) exactly when the staff is 1 (2). *)
Definition pickOfStaff (staff : Z) (better : Z -> Z -> bool) (notes : list Note.t)
    : list Note.t :=
  match notes with
  | [] => []
  | _ =>
      flat_map (fun g => if fst (fst g) =? staff
                         then match reduceBest better (snd g) with
                              | Some n => [n]
                              | None => []
                              end
                         else [])
               (staffBeatGroups notes)
  end.

(** [identifyMelodyLine]: the highest note of every beat of the upper
    staff; no model is consulted. *)
Definition identifyMelodyLine : list Note.t -> list Note.t :=
  pickOfStaff 1 (fun noteMidi maxMidi => maxMidi <? noteMidi).

(** [identifyBassLine]: the lowest note of every beat of the lower staff. *)
Definition identifyBassLine : list Note.t -> list Note.t :=
  pickOfStaff 2 (fun noteMidi minMidi => noteMidi <? minMidi).

(** [identifyVoices] with the answer of [isAIAvailable()] as an argument. *)
Definition identifyVoicesWith (isAIAvailable : bool) (notes : list Note.t)
    : Voices.t :=
  let upperStaff := filter (fun n => Note.staff n =? 1) notes in
  let lowerStaff := filter (fun n => Note.staff n =? 2) notes in
  let sopranoV := if isAIAvailable then identifyMelodyLine upperStaff
                  else getHighestVoice upperStaff in
  let bassV := if isAIAvailable then identifyBassLine lowerStaff
               else getLowestVoice lowerStaff in
  let sopranoIds := map Note.id sopranoV in
  let bassIds := map Note.id bassV in
  let altoV := filter (fun n => negb (hasId sopranoIds n)) upperStaff in
  let tenorV := filter (fun n => negb (hasId bassIds n)) lowerStaff in
  Voices.mk (map (Note.set_voicePart (Some soprano)) sopranoV)
            (map (Note.set_voicePart (Some alto)) altoV)
            (map (Note.set_voicePart (Some tenor)) tenorV)
            (map (Note.set_voicePart (Some bass)) bassV).

(* ------------------------------------------------------------------ *)
(** ** Vocabulary of the statements on the analyzer *)

(** Everything of a note the analyzer does not write: all fields but the
    lock and the voice part. *)
Definition analysisBlind (n : Note.t)
    : nat * Pitch.t * Duration.t * Q * Z * Z * option string
      * option (list string) * option Embellishment * option Embellishment :=
  (Note.id n, Note.pitch n, Note.duration n, Note.startBeat n, Note.voice n,
   Note.staff n, Note.tiedTo n, Note.slurredWith n, Note.embellishment n,
   Note.hadEmbellishment n).



(* ------------------------------------------------------------------ *)
(** ** Grand-staff rules with the voices given (rules/grandStaff.js) *)

(** [applySimplificationWithVoices]; its [getDefaultSopranoLevel] and
    [getDefaultBassLevel] are the tables of the simplification engine. *)
Definition applySimplificationWithVoices (measure : Measure.t) (level : option Z)
    (ts : TimeSignature.t) (voices : Voices.t) (config : Config.t) : Measure.t :=
  let sopranoLevel :=
    levelOr (Config.sopranoLevel config) (getDefaultSopranoLevel level) in
  let bassLevel :=
    levelOr (Config.bassLevel config) (getDefaultBassLevel level) in
  let simplifiedSoprano :=
    simplifyVoice measure (Voices.soprano voices) sopranoLevel ts in
  let simplifiedBass := simplifyVoice measure (Voices.bass voices) bassLevel ts in
  match level with
  | Some 1 =>
      Measure.mk (Measure.number measure)
        (map (Note.retag 1 soprano 1) simplifiedSoprano
         ++ map (Note.retag 2 bass 2) simplifiedBass)
        []
  | Some 2 =>
      Measure.mk (Measure.number measure)
        (map (Note.retag 1 soprano 1) simplifiedSoprano
         ++ map (Note.retag 1 alto 2) (applyStrongBeatOnly (Voices.alto voices) ts)
         ++ map (Note.retag 2 bass 2) simplifiedBass)
        []
  | Some 3 =>
      Measure.mk (Measure.number measure)
        (map (Note.retag 1 soprano 1) simplifiedSoprano
         ++ map (Note.retag 2 tenor 1) (applyStrongBeatOnly (Voices.tenor voices) ts)
         ++ map (Note.retag 2 bass 2) simplifiedBass)
        []
  | Some 4 =>
      Measure.mk (Measure.number measure)
        (map (Note.retag 1 soprano 1) simplifiedSoprano
         ++ map (Note.retag 1 alto 2) (applyStrongBeatOnly (Voices.alto voices) ts)
         ++ map (Note.retag 2 tenor 1) (applyStrongBeatOnly (Voices.tenor voices) ts)
         ++ map (Note.retag 2 bass 2) simplifiedBass)
        []
  | Some 5 =>
      Measure.mk (Measure.number measure)
        (map (Note.retag 1 soprano 1) simplifiedSoprano
         ++ map (Note.retag 1 alto 2)
              (simplifyVoice measure (Voices.alto voices) (Some 5) ts)
         ++ map (Note.retag 2 tenor 1)
              (simplifyVoice measure (Voices.tenor voices) (Some 5) ts)
         ++ map (Note.retag 2 bass 2) simplifiedBass)
        []
  | _ => measure
  end.

(** [separateVoicesAsync].  [ai] stands for the AI-assisted separation: it
    answers [Some voices] when [isVoiceAIAvailable()] holds and
    [separateVoicesWithAI] returns [voices], and [None] when the models are
    not loaded or the call throws, in which case the rules are used. *)
Definition separateVoicesAsync (ai : list Note.t -> list Note.t -> option Voices.t)
    (upperStaff lowerStaff : list Note.t) : Voices.t :=
  match ai upperStaff lowerStaff with
  | Some voices => voices
  | None => separateVoices upperStaff lowerStaff
  end.

Definition applyGrandStaffSimplificationAsync
    (ai : list Note.t -> list Note.t -> option Voices.t) (measure : Measure.t)
    (level : option Z) (ts : TimeSignature.t) (config : Config.t) : Measure.t :=
  let upperStaff := staffNotes 1 measure in
  let lowerStaff := staffNotes 2 measure in
  let voices := separateVoicesAsync ai upperStaff lowerStaff in
  applySimplificationWithVoices measure level ts voices config.

(* ------------------------------------------------------------------ *)
(** ** Simplification engine, asynchronous entry (modules/simplifier.js) *)

(** The body of the [for] loop of [simplifyScoreAsync] for one measure. *)
Definition simplifyMeasureAsync (ai : list Note.t -> list Note.t -> option Voices.t)
    (analyzedScore : AnalyzedScore.t) (config : Config.t)
    (hasAnacrusis : bool) (index : nat) (measure : Measure.t) : Measure.t :=
  let metadata := AnalyzedScore.metadata analyzedScore in
  let mainLevel := Config.mainLevel config in
  if hasAnacrusis && Nat.eqb index 0 then preserveAnacrusis measure
  else
    match AnalyzedScore.scoreType analyzedScore with
    | single_staff =>
        applySingleStaffSimplification measure mainLevel
          (ScoreMetadata.timeSignature metadata)
    | grand_staff =>
        applyGrandStaffSimplificationAsync ai measure mainLevel
          (ScoreMetadata.timeSignature metadata)
          (Config.mk mainLevel
             (levelOr (Config.sopranoLevel config) (getDefaultSopranoLevel mainLevel))
             (levelOr (Config.bassLevel config) (getDefaultBassLevel mainLevel)))
    end.

(** [simplifyScoreAsync(analyzedScore, config)], called without a progress
    callback ([onProgress = null]): the loop pushes one simplified measure
    per measure, in order. *)
Definition simplifyScoreAsync (ai : list Note.t -> list Note.t -> option Voices.t)
    (analyzedScore : AnalyzedScore.t) (config : Config.t) : SimplifiedScore.t :=
  let metadata := AnalyzedScore.metadata analyzedScore in
  let measures := AnalyzedScore.measures analyzedScore in
  let hasAnacrusis :=
    match measures with
    | [] => false
    | first :: _ => isAnacrusis first (ScoreMetadata.timeSignature metadata)
    end in
  SimplifiedScore.mk metadata
    (mapi 0 (simplifyMeasureAsync ai analyzedScore config hasAnacrusis) measures)
    (Config.mainLevel config)
    (AnalyzedScore.scoreType analyzedScore).

(** The AI-assisted separation when the models are not loaded. *)
Definition noAI (upperStaff lowerStaff : list Note.t) : option Voices.t := None.

(* ------------------------------------------------------------------ *)
(** ** Vocabulary of the statements on the grand-staff rules *)

(** The staff, voice number and voice part of the four voices. *)
Definition voiceTags : list (Z * Z * option VoicePart) :=
  [ (1, 1, Some soprano); (1, 2, Some alto);
    (2, 1, Some tenor); (2, 2, Some bass) ].

Definition tagOf (n : Note.t) : Z * Z * option VoicePart :=
  (Note.staff n, Note.voice n, Note.voicePart n).

(** What the grand-staff rules keep of a note: everything but its timing,
    its voice number and its voice part. *)
Definition staffIdentityOf (n : Note.t)
    : nat * Pitch.t * Z * option string * option (list string) * bool
      * option LockReason * option Embellishment :=
  (Note.id n, Note.pitch n, Note.staff n, Note.tiedTo n, Note.slurredWith n,
   Note.isLocked n, Note.lockReason n, Note.embellishment n).

(** The same without the staff. *)
Definition bareIdentityOf (n : Note.t)
    : nat * Pitch.t * option string * option (list string) * bool
      * option LockReason * option Embellishment :=
  (Note.id n, Note.pitch n, Note.tiedTo n, Note.slurredWith n,
   Note.isLocked n, Note.lockReason n, Note.embellishment n).

(** [x] descends from a main note of staff [s] of the measure. *)
Definition fromStaff (m : Measure.t) (s : Z) (x : Note.t) : Prop :=
  exists z, In z (Measure.notes m) /\ Note.staff z = s /\
            Note.isMain z = true /\ bareIdentityOf x = bareIdentityOf z.

(** Everything of a note but the annotation Level 5 may write. *)
Definition level5Blind (n : Note.t)
    : nat * Pitch.t * Duration.t * Q * Z * Z * option string
      * option (list string) * bool * option LockReason * option Embellishment
      * option VoicePart :=
  (Note.id n, Note.pitch n, Note.duration n, Note.startBeat n, Note.voice n,
   Note.staff n, Note.tiedTo n, Note.slurredWith n, Note.isLocked n,
   Note.lockReason n, Note.embellishment n, Note.voicePart n).

(** A grand-staff measure with a chord on each staff and a grace note. *)
Definition chordMeasure : Measure.t :=
  Measure.mk 3
    [ plainNote 1 "C" 5 2048 1 1 1; plainNote 2 "E" 5 2048 1 1 1;
      graceNote 3 "F" 5 3 1 1; plainNote 4 "G" 5 2048 3 1 1;
      plainNote 5 "C" 3 4096 1 2 1; plainNote 6 "G" 3 4096 1 2 1 ]
    [].

(* ------------------------------------------------------------------ *)
(** ** Vocabulary of the statements on the exporter *)

(** What a note event writes of its note: the pitch and the duration in
    divisions.  Rests and backups write none. *)
Definition writtenNote (e : XmlEvent) : option (Pitch.t * Z) :=
  match e with
  | NoteXml _ pitch duration _ _ _ _ _ _ _ => Some (pitch, duration)
  | _ => None
  end.

Definition writtenNotes (xml : list XmlEvent) : list (Pitch.t * Z) :=
  flat_map (fun e => match writtenNote e with
                     | Some w => [w]
                     | None => []
                     end) xml.

Definition isRestEvent (e : XmlEvent) : bool :=
  match e with
  | RestXml _ _ _ _ => true
  | _ => false
  end.

(** The pitch and the exported duration of a note. *)
Definition toWrite (divisions : Z) (n : Note.t) : Pitch.t * Z :=
  (Note.pitch n, xmlDurationOf n divisions).

(** The notes [notes], in order, tile the beats from [cur] on: each starts
    on an integer beat not before the end of the previous one and lasts a
    whole number of beats, and the last one ends within a measure of
    [beats] beats. *)
Fixpoint BeatTiling (cur : Z) (notes : list Note.t) (beats : Z) : Prop :=
  match notes with
  | [] => cur <= beats + 1
  | n :: ns =>
      exists b len,
        Note.startBeat n = inject_Z b /\
        Duration.ticks (Note.duration n) = len * 1024 /\
        cur <= b /\ 1 <= len /\
        BeatTiling (b + len) ns beats
  end.

(** A 3/4 measure whose only note starts on beat 3, out of reach of the
    strong beat. *)
Definition waltzTime : TimeSignature.t := TimeSignature.mk 3 4 simple.

Definition lateNoteMeasure : Measure.t :=
  Measure.mk 2 [plainNote 1 "A" 4 1024 3 1 1] [].

(** The position group of a note that shares its position with no other. *)
Definition singleGroup (divisions : Z) (n : Note.t) : PosGroup.t :=
  PosGroup.mk (positionOf (Note.startBeat n) divisions) (Note.startBeat n) [n].

(* ------------------------------------------------------------------ *)
(** ** Escaping of text (modules/exporter.js) *)

Import Ascii.

(** [str.replace(/c/g, by)] for a single character [c]. *)
Fixpoint replaceAll (c : Ascii.ascii) (by_ : string) (str : string) : string :=
  match str with
  | EmptyString => EmptyString
  | String x rest =>
      if Ascii.eqb x c then String.append by_ (replaceAll c by_ rest)
      else String x (replaceAll c by_ rest)
  end.

(** [escapeXml(str)]; [None] stands for an absent ([undefined] or [null])
    text, which like the empty string is falsy. *)
Definition escapeXml (str : option string) : string :=
  match str with
  | None => EmptyString
  | Some EmptyString => EmptyString
  | Some s =>
      replaceAll "'" "&apos;"
        (replaceAll "034" "&quot;"
           (replaceAll ">" "&gt;"
              (replaceAll "<" "&lt;"
                 (replaceAll "&" "&amp;" s))))
  end.

(** The entity a single character is written as. *)
Definition escapeChar (x : Ascii.ascii) : string :=
  if Ascii.eqb x "&" then "&amp;"%string
  else if Ascii.eqb x "<" then "&lt;"%string
  else if Ascii.eqb x ">" then "&gt;"%string
  else if Ascii.eqb x "034" then "&quot;"%string
  else if Ascii.eqb x "'" then "&apos;"%string
  else String x EmptyString.

(** Every character of [s] replaced by the string [f] gives for it. *)
Fixpoint expand (f : Ascii.ascii -> string) (s : string) : string :=
  match s with
  | EmptyString => EmptyString
  | String x rest => String.append (f x) (expand f rest)
  end.

(** The characters with a meaning in XML markup, but for the ampersand. *)
Definition markupChars : list Ascii.ascii := ["<"; ">"; "034"; "'"]%char.

Definition sampleTitle : string := "Tom & Jerry's <Suite>"%string.

(* ------------------------------------------------------------------ *)
(** ** Vocabulary of the statements on the parser *)

Definition voiceOf (noteEl : NoteEl.t) : Z :=
  match NoteEl.voiceEl noteEl with Some v => v | None => 1 end.

Definition staffOf (noteEl : NoteEl.t) : Z :=
  match NoteEl.staffEl noteEl with Some s => s | None => 1 end.

(** What a child of a [measure] element holds of pitched notes: the pitch,
    voice and staff of a [note] element that has a [pitch] and no [rest]. *)
Definition pitchedOf (child : MeasureChild) : list (Pitch.t * Z * Z) :=
  match child with
  | NoteChild noteEl =>
      if NoteEl.rest noteEl then []
      else match NoteEl.pitchEl noteEl with
           | Some pitch => [(pitch, voiceOf noteEl, staffOf noteEl)]
           | None => []
           end
  | _ => []
  end.

(** What it holds of rests: the voice and staff of a [note] element with a
    [rest]. *)
Definition restOf (child : MeasureChild) : list (Z * Z) :=
  match child with
  | NoteChild noteEl =>
      if NoteEl.rest noteEl then [(voiceOf noteEl, staffOf noteEl)] else []
  | _ => []
  end.

Definition notePlace (n : Note.t) : Pitch.t * Z * Z :=
  (Note.pitch n, Note.voice n, Note.staff n).

Definition restPlace (r : Rest.t) : Z * Z := (Rest.voice r, Rest.staff r).

(** The identifiers given out in a measure. *)
Definition idsOf (m : Measure.t) : list nat :=
  map Note.id (Measure.notes m) ++ map Rest.id (Measure.rests m).

Definition idsAscend (m : Measure.t) : Prop :=
  StronglySorted Nat.lt (map Note.id (Measure.notes m)) /\
  StronglySorted Nat.lt (map Rest.id (Measure.rests m)).

(* ------------------------------------------------------------------ *)
(** ** Memory manager (utils/memoryManager.js) *)

(** The cache is a [Map] from string keys to entries, kept as the list of
    its key-entry pairs in insertion order.  [estimateSize] walks arbitrary
    JavaScript data and is a parameter of [set]; [Date.now()] is the
    argument [now].  Sizes are added and subtracted exactly, as doubles do
    on whole numbers of bytes; on the fractions [estimateSize] can return
    the double [currentSize] may differ from the exact one in its last
    places. *)
Module MemoryManager.

Definition MAX_CACHE_SIZE : Q := inject_Z (50 * 1024 * 1024).

Record Entry (D : Type) : Type := mkEntry {
    data : D;
    size : Q;
    timestamp : Z
  }.
Arguments mkEntry {D}.
Arguments data {D}.
Arguments size {D}.
Arguments timestamp {D}.

Record t (D : Type) : Type := mk {
    cache : list (string * Entry D);
    currentSize : Q;
    accessOrder : list string
  }.
Arguments mk {D}.
Arguments cache {D}.
Arguments currentSize {D}.
Arguments accessOrder {D}.

(** [constructor()] *)
Definition empty {D : Type} : t D := mk [] 0%Q [].

(** [Map.prototype.get], [set] (an existing key keeps its place) and
    [delete]. *)
Definition mapGet {D : Type} (key : string) (c : list (string * Entry D))
    : option (Entry D) :=
  option_map snd (List.find (fun kv => String.eqb (fst kv) key) c).

Fixpoint mapSet {D : Type} (key : string) (e : Entry D)
    (c : list (string * Entry D)) : list (string * Entry D) :=
  match c with
  | [] => [(key, e)]
  | (k, e') :: rest =>
      if String.eqb k key then (k, e) :: rest else (k, e') :: mapSet key e rest
  end.

Definition mapDelete {D : Type} (key : string) (c : list (string * Entry D))
    : list (string * Entry D) :=
  filter (fun kv => negb (String.eqb (fst kv) key)) c.

(** [this.accessOrder.filter(k => k !== key)] *)
Definition without (key : string) (order : list string) : list string :=
  filter (fun k => negb (String.eqb k key)) order.

Definition has {D : Type} (key : string) (st : t D) : bool :=
  match mapGet key (cache st) with
  | Some _ => true
  | None => false
  end.

(** [get(key)]: the data ([None] for the [null] of a missing key) and the
    manager afterwards. *)
Definition get {D : Type} (key : string) (now : Z) (st : t D) : option D * t D :=
  match mapGet key (cache st) with
  | None => (None, st)
  | Some entry =>
      (Some (data entry),
       mk (mapSet key (mkEntry (data entry) (size entry) now) (cache st))
          (currentSize st)
          (without key (accessOrder st) ++ [key]))
  end.

Definition delete {D : Type} (key : string) (st : t D) : t D :=
  match mapGet key (cache st) with
  | Some entry =>
      mk (mapDelete key (cache st)) (currentSize st - size entry)%Q
         (without key (accessOrder st))
  | None => st
  end.

(** [for (let i = 0; i < toRemove && this.accessOrder.length > 0; i++)] of
    [evictOldest], with [toRemove - i] rounds left. *)
Fixpoint evictLoop {D : Type} (left : nat) (st : t D) : t D :=
  match left, accessOrder st with
  | S left', oldestKey :: rest =>
      match mapGet oldestKey (cache st) with
      | Some entry =>
          evictLoop left'
            (mk (mapDelete oldestKey (cache st)) (currentSize st - size entry)%Q
                rest)
      | None => evictLoop left' (mk (cache st) (currentSize st) rest)
      end
  | _, _ => st
  end.

(** [Math.ceil(this.cache.size * 0.2)].  The double nearest to 0.2 exceeds
    1/5 by less than one part in 2^54, so for every number of entries below
    2^52 the product rounds up to the same integer as a fifth of it. *)
Definition toRemoveOf (cacheSize : nat) : nat := Nat.div (cacheSize + 4) 5.

Definition evictOldest {D : Type} (st : t D) : t D :=
  evictLoop (toRemoveOf (length (cache st))) st.

(** [while (this.currentSize + size > MAX_CACHE_SIZE && this.cache.size > 0)
    this.evictOldest()], with an iteration budget: [None] when the budget
    runs out before the loop exits. *)
Fixpoint evictWhile {D : Type} (fuel : nat) (size : Q) (st : t D) : option (t D) :=
  if Js.ltb MAX_CACHE_SIZE (currentSize st + size)
     && negb (Nat.eqb (length (cache st)) 0)
  then match fuel with
       | O => None
       | S fuel' => evictWhile fuel' size (evictOldest st)
       end
  else Some st.

(** The size [set] goes by: [if (size === 0) size = this.estimateSize(data)]. *)
Definition sizeOf {D : Type} (estimateSize : D -> Q) (data : D) (size : Q) : Q :=
  if Js.eqb size 0 then estimateSize data else size.

(** [set(key, data, size)].  A round of the loop that leaves the cache
    non-empty shortens [accessOrder] or changes nothing at all, so a budget
    of one round more than the length of [accessOrder] runs out only when
    the loop of the source does not end. *)
Definition set {D : Type} (estimateSize : D -> Q) (key : string) (data : D)
    (size : Q) (now : Z) (st : t D) : option (t D) :=
  let size := sizeOf estimateSize data size in
  match evictWhile (S (length (accessOrder st))) size st with
  | None => None
  | Some st1 =>
      let st2 :=
        match mapGet key (cache st1) with
        | Some oldEntry =>
            mk (cache st1) (currentSize st1 - MemoryManager.size oldEntry)%Q
               (without key (accessOrder st1))
        | None => st1
        end in
      Some (mk (mapSet key (mkEntry data size now) (cache st2))
               (currentSize st2 + size)%Q
               (accessOrder st2 ++ [key]))
  end.

Definition clear {D : Type} (st : t D) : t D := mk [] 0%Q [].

(** [getStats()], but for the rounded percentage. *)
Definition getStats {D : Type} (st : t D) : nat * Q * Q :=
  (length (cache st), currentSize st, MAX_CACHE_SIZE).

End MemoryManager.

(* ------------------------------------------------------------------ *)
(** ** Vocabulary of the statements on the memory manager *)

Definition keysOf {D : Type} (c : list (string * MemoryManager.Entry D))
    : list string :=
  map fst c.

Definition sizesSum {D : Type} (c : list (string * MemoryManager.Entry D)) : Q :=
  fold_right (fun kv acc => (MemoryManager.size (snd kv) + acc)%Q) 0%Q c.

(** The index of the manager is in order: every key is cached once and
    listed once in [accessOrder], and the two hold the same keys. *)
Definition Indexed {D : Type} (st : MemoryManager.t D) : Prop :=
  NoDup (keysOf (MemoryManager.cache st)) /\
  NoDup (MemoryManager.accessOrder st) /\
  (forall k, In k (MemoryManager.accessOrder st)
             <-> In k (keysOf (MemoryManager.cache st))).

(** The books of the manager are in order: every key is cached once and
    listed once in [accessOrder], the two hold the same keys, and
    [currentSize] is the sum of the sizes of the entries. *)
Definition Accounted {D : Type} (st : MemoryManager.t D) : Prop :=
  NoDup (keysOf (MemoryManager.cache st)) /\
  NoDup (MemoryManager.accessOrder st) /\
  (forall k, In k (MemoryManager.accessOrder st)
             <-> In k (keysOf (MemoryManager.cache st))) /\
  (MemoryManager.currentSize st == sizesSum (MemoryManager.cache st))%Q.

(** No entry has a negative size. *)
Definition sizesNonNegative {D : Type} (st : MemoryManager.t D) : Prop :=
  Forall (fun kv => (0 <= MemoryManager.size (snd kv))%Q) (MemoryManager.cache st).

(** A manager of numbers with three entries of 8 bytes each, "a" the least
    recently used. *)
Definition sampleManager : MemoryManager.t Z :=
  MemoryManager.mk
    [ ("a"%string, MemoryManager.mkEntry 1 8%Q 0);
      ("b"%string, MemoryManager.mkEntry 2 8%Q 0);
      ("c"%string, MemoryManager.mkEntry 3 8%Q 0) ]
    24%Q ["a"%string; "b"%string; "c"%string].

Definition eightBytes (data : Z) : Q := 8%Q.

(* ------------------------------------------------------------------ *)
(** ** Chunk processor (modules/chunkProcessor.js) *)

(** [CONFIG], as the module defines it. *)
Definition CHUNK_SIZE : nat := 8.
Definition OVERLAP_SIZE : nat := 1.
Definition MAX_CONCURRENCY : nat := 4.

Module Chunk.
Record t (A : Type) : Type := mk {
    id : nat;
    measures : list A;
    startIndex : nat;
    originalStartIndex : nat;
    originalEndIndex : nat;
    isFirst : bool;
    isLast : bool
  }.
Arguments mk {A}.
Arguments id {A}.
Arguments measures {A}.
Arguments startIndex {A}.
Arguments originalStartIndex {A}.
Arguments originalEndIndex {A}.
Arguments isFirst {A}.
Arguments isLast {A}.
End Chunk.

(** [array.slice(startIdx, endIdx)] for indices within the array. *)
Definition slice {A : Type} (l : list A) (startIdx endIdx : nat) : list A :=
  firstn (endIdx - startIdx) (skipn startIdx l).

(** The chunk pushed by the round of the loop at index [i]. *)
Definition chunkAt {A : Type} (measures : list A) (i : nat) : Chunk.t A :=
  let startIdx := Nat.max 0 (i - OVERLAP_SIZE) in
  let endIdx := Nat.min (length measures) (i + CHUNK_SIZE + OVERLAP_SIZE) in
  Chunk.mk (Nat.div i CHUNK_SIZE) (slice measures startIdx endIdx) i startIdx endIdx
    (Nat.eqb i 0) (Nat.leb (length measures) (i + CHUNK_SIZE)).

(** [for (let i = 0; i < measures.length; i += CONFIG.CHUNK_SIZE)], with an
    iteration budget: [None] when the budget runs out before the loop
    exits. *)
Fixpoint splitLoop {A : Type} (fuel i : nat) (measures : list A)
    : option (list (Chunk.t A)) :=
  if Nat.ltb i (length measures) then
    match fuel with
    | O => None
    | S fuel' =>
        match splitLoop fuel' (i + CHUNK_SIZE) measures with
        | Some chunks => Some (chunkAt measures i :: chunks)
        | None => None
        end
    end
  else Some [].

Definition splitIntoChunks {A : Type} (measures : list A)
    : option (list (Chunk.t A)) :=
  splitLoop (length measures) 0 measures.

(** [(a, b) => a.id - b.id] *)
Definition byChunkId {A : Type} (a b : Chunk.t A) : Q :=
  (inject_Z (Z.of_nat (Chunk.id a)) - inject_Z (Z.of_nat (Chunk.id b)))%Q.

(** The [forEach] of [mergeChunks]: the first chunk whole, the later ones
    without their first [OVERLAP_SIZE] measures. *)
Definition mergeMeasures {A : Type} (processedChunks : list (Chunk.t A)) : list A :=
  concat
    (mapi 0 (fun index chunk =>
               if Nat.eqb index 0 then Chunk.measures chunk
               else skipn OVERLAP_SIZE (Chunk.measures chunk))
       processedChunks).

(** The identifier [note_k] as a string. *)
Definition noteIdString (k : nat) : string :=
  String.append "note_" (DecimalString.NilEmpty.string_of_uint (Nat.to_uint k)).

Definition setTiedTo (tiedTo : option string) (n : Note.t) : Note.t :=
  Note.mk (Note.id n) (Note.pitch n) (Note.duration n) (Note.startBeat n)
    (Note.voice n) (Note.staff n) tiedTo (Note.slurredWith n) (Note.isLocked n)
    (Note.lockReason n) (Note.embellishment n) (Note.voicePart n)
    (Note.hadEmbellishment n).

(** The test of [nextMeasure.notes.find]. *)
Definition tieMatches (note n : Note.t) : bool :=
  String.eqb (Pitch.step (Note.pitch n)) (Pitch.step (Note.pitch note))
  && (Pitch.octave (Note.pitch n) =? Pitch.octave (Note.pitch note))
  && (Note.staff n =? Note.staff note).

(** The body of [prevMeasure.notes.forEach]. *)
Definition tieAcross (nextMeasure : Measure.t) (note : Note.t) : Note.t :=
  match Note.tiedTo note with
  | Some t =>
      if String.eqb t "pending" then
        match List.find (tieMatches note) (Measure.notes nextMeasure) with
        | Some matchingNote =>
            setTiedTo (Some (noteIdString (Note.id matchingNote))) note
        | None => note
        end
      else note
  | None => note
  end.

(** One round of the loop of [smoothChunkBoundaries] at index [i]; nothing
    is done when [i] is the last index. *)
Definition smoothAt (i : nat) (measures : list Measure.t) : list Measure.t :=
  match nth_error measures i, nth_error measures (i + 1) with
  | Some _, Some nextMeasure =>
      updateAt i
        (fun prevMeasure =>
           Measure.mk (Measure.number prevMeasure)
             (map (tieAcross nextMeasure) (Measure.notes prevMeasure))
             (Measure.rests prevMeasure))
        measures
  | _, _ => measures
  end.

(** [for (let i = CONFIG.CHUNK_SIZE - 1; i < measures.length;
    i += CONFIG.CHUNK_SIZE)], with an iteration budget. *)
Fixpoint smoothLoop (fuel i : nat) (measures : list Measure.t)
    : option (list Measure.t) :=
  if Nat.ltb i (length measures) then
    match fuel with
    | O => None
    | S fuel' => smoothLoop fuel' (i + CHUNK_SIZE) (smoothAt i measures)
    end
  else Some measures.

Definition smoothChunkBoundaries (measures : list Measure.t)
    : option (list Measure.t) :=
  smoothLoop (length measures) (CHUNK_SIZE - 1) measures.

(** [mergeChunks(processedChunks)].  The measures of the chunks are taken to
    be objects of their own, as they are when every chunk comes out of its
    own processing. *)
Definition mergeChunks (processedChunks : list (Chunk.t Measure.t))
    : option (list Measure.t) :=
  smoothChunkBoundaries (mergeMeasures (Js.sort byChunkId processedChunks)).

(* ------------------------------------------------------------------ *)
(** ** Vocabulary of the statements on the chunk processor *)

(** The measures a chunk is there for, without the overlap on either
    side. *)
Definition coreOfChunk {A : Type} (measures : list A) (chunk : Chunk.t A) : list A :=
  slice measures (Chunk.startIndex chunk)
    (Nat.min (length measures) (Chunk.startIndex chunk + CHUNK_SIZE)).

(** The measures of a chunk that [mergeChunks] keeps: from its start index
    to the end of its trailing overlap. *)
Definition keptOfChunk {A : Type} (measures : list A) (chunk : Chunk.t A) : list A :=
  slice measures (Chunk.startIndex chunk) (Chunk.originalEndIndex chunk).

(** A chunk processed measure by measure. *)
Definition processedBy {A B : Type} (f : A -> B) (chunk : Chunk.t A) : Chunk.t B :=
  Chunk.mk (Chunk.id chunk) (map f (Chunk.measures chunk)) (Chunk.startIndex chunk)
    (Chunk.originalStartIndex chunk) (Chunk.originalEndIndex chunk)
    (Chunk.isFirst chunk) (Chunk.isLast chunk).

(** A note and a measure without the tie marker. *)
Definition tieBlindNote (n : Note.t) : Note.t := setTiedTo None n.

Definition tieBlind (m : Measure.t) : Measure.t :=
  Measure.mk (Measure.number m) (map tieBlindNote (Measure.notes m))
    (Measure.rests m).

(* ------------------------------------------------------------------ *)
(** ** AI voice separation, rule layers (modules/aiVoiceSeparation.js) *)

(** A voice holds copies of notes with a [beat] field added, kept as pairs
    of the note and the beat.  The notes of a parsed score carry no [midi]
    field, so [getMidi] computes the pitch. *)
Module VoiceAI.

Inductive StaffSide : Type := upper | lower.

Module Pending.
Record t : Type := mk {
    note : Note.t;
    staff : StaffSide;
    beat : Q;
    candidates : list VoicePart
  }.
End Pending.

Module RuleVoices.
Record t : Type := mk {
    soprano : list (Note.t * Q);
    alto : list (Note.t * Q);
    tenor : list (Note.t * Q);
    bass : list (Note.t * Q)
  }.
End RuleVoices.

Module RuleResult.
Record t : Type := mk { voices : RuleVoices.t; pending : list Pending.t }.
End RuleResult.

Definition semitones (step : string) : option Z :=
  if String.eqb step "C" then Some 0
  else if String.eqb step "D" then Some 2
  else if String.eqb step "E" then Some 4
  else if String.eqb step "F" then Some 5
  else if String.eqb step "G" then Some 7
  else if String.eqb step "A" then Some 9
  else if String.eqb step "B" then Some 11
  else None.

Definition getMidi (note : Note.t) : Z :=
  (Pitch.octave (Note.pitch note) + 1) * 12
  + match semitones (Pitch.step (Note.pitch note)) with
    | Some s => s
    | None => 0
    end
  + Pitch.alter (Note.pitch note).

(** [Math.round((note.startBeat || 1) * 2) / 2] *)
Definition halfBeat (note : Note.t) : Q :=
  let startBeat :=
    if Js.eqb (Note.startBeat note) 0 then 1%Q else Note.startBeat note in
  (inject_Z (Js.round (startBeat * 2)) / 2)%Q.

Definition groupNotesByBeat (notes : list Note.t) : list (Q * list Note.t) :=
  fold_left (fun groups note => Js.mapPush Js.eqb (halfBeat note) note groups)
            notes [].

(** [{ ...n, voicePart, beat }] *)
Definition entry (vp : VoicePart) (beat : Q) (n : Note.t) : Note.t * Q :=
  (Note.set_voicePart (Some vp) n, beat).

(** One round of [upperGroups.forEach((notes, beat) => ...)].  The length
    tests are made on the sorted array, which is as long as the array
    sorted. *)
Definition upperStep (acc : RuleResult.t) (group : Q * list Note.t)
    : RuleResult.t :=
  let beat := fst group in
  let voices := RuleResult.voices acc in
  let mainNotes := filter Note.isMain (snd group) in
  match Js.sort (fun a b => inject_Z (getMidi b - getMidi a)) mainNotes with
  | [] => acc
  | [single] =>
      RuleResult.mk voices
        (RuleResult.pending acc ++ [Pending.mk single upper beat [soprano; alto]])
  | first :: others =>
      RuleResult.mk
        (RuleVoices.mk
           (RuleVoices.soprano voices ++ [entry soprano beat first])
           (RuleVoices.alto voices ++ map (entry alto beat) others)
           (RuleVoices.tenor voices)
           (RuleVoices.bass voices))
        (RuleResult.pending acc)
  end.

(** One round of [lowerGroups.forEach((notes, beat) => ...)]. *)
Definition lowerStep (acc : RuleResult.t) (group : Q * list Note.t)
    : RuleResult.t :=
  let beat := fst group in
  let voices := RuleResult.voices acc in
  let mainNotes := filter Note.isMain (snd group) in
  match Js.sort (fun a b => inject_Z (getMidi a - getMidi b)) mainNotes with
  | [] => acc
  | [single] =>
      RuleResult.mk voices
        (RuleResult.pending acc ++ [Pending.mk single lower beat [tenor; bass]])
  | first :: others =>
      RuleResult.mk
        (RuleVoices.mk
           (RuleVoices.soprano voices)
           (RuleVoices.alto voices)
           (RuleVoices.tenor voices ++ map (entry tenor beat) others)
           (RuleVoices.bass voices ++ [entry bass beat first]))
        (RuleResult.pending acc)
  end.

Definition applyRuleBasedSeparation (upperStaff lowerStaff : list Note.t)
    : RuleResult.t :=
  let start := RuleResult.mk (RuleVoices.mk [] [] [] []) [] in
  let afterUpper := fold_left upperStep (groupNotesByBeat upperStaff) start in
  fold_left lowerStep (groupNotesByBeat lowerStaff) afterUpper.

Definition assignByPitchRange (note : Note.t) (staff : StaffSide) : VoicePart :=
  let midi := getMidi note in
  match staff with
  | upper => if 72 <=? midi then soprano else alto
  | lower => if midi <? 48 then bass else tenor
  end.

(** One round of [pending.forEach(item => ...)]. *)
Definition assignStep (voices : RuleVoices.t) (item : Pending.t) : RuleVoices.t :=
  let assigned := assignByPitchRange (Pending.note item) (Pending.staff item) in
  let pushed := entry assigned (Pending.beat item) (Pending.note item) in
  match assigned with
  | soprano =>
      RuleVoices.mk (RuleVoices.soprano voices ++ [pushed]) (RuleVoices.alto voices)
        (RuleVoices.tenor voices) (RuleVoices.bass voices)
  | alto =>
      RuleVoices.mk (RuleVoices.soprano voices) (RuleVoices.alto voices ++ [pushed])
        (RuleVoices.tenor voices) (RuleVoices.bass voices)
  | tenor =>
      RuleVoices.mk (RuleVoices.soprano voices) (RuleVoices.alto voices)
        (RuleVoices.tenor voices ++ [pushed]) (RuleVoices.bass voices)
  | bass =>
      RuleVoices.mk (RuleVoices.soprano voices) (RuleVoices.alto voices)
        (RuleVoices.tenor voices) (RuleVoices.bass voices ++ [pushed])
  end.

Definition assignPendingByRules (ruleResult : RuleResult.t) : RuleVoices.t :=
  fold_left assignStep (RuleResult.pending ruleResult)
            (RuleResult.voices ruleResult).

(** The second layer, [applyAISeparation], by what it does to the arrays of
    [ruleResult.voices], which it shares with the caller.  It walks the
    waiting notes in order and pushes each into the voice voted for it (the
    label of [knnVote], or [assignByPitchRange] when there is no
    embedding); [vote i item] is the voice for the [i]-th waiting note.
    [notInUse]: [options.useAI] is false or the models are not loaded.
    [delivers vote]: the walk ends in time.  [fails vote pushed]: the call
    throws or the timeout wins after [pushed] waiting notes have been
    pushed. *)
Inductive SecondLayer : Type :=
  | notInUse
  | delivers (vote : nat -> Pending.t -> VoicePart)
  | fails (vote : nat -> Pending.t -> VoicePart) (pushed : nat).

(** [voices[label].push({ ...note, voicePart: label, beat })] *)
Definition aiStep (label : VoicePart) (voices : RuleVoices.t)
    (item : Pending.t) : RuleVoices.t :=
  let pushed := entry label (Pending.beat item) (Pending.note item) in
  match label with
  | soprano =>
      RuleVoices.mk (RuleVoices.soprano voices ++ [pushed]) (RuleVoices.alto voices)
        (RuleVoices.tenor voices) (RuleVoices.bass voices)
  | alto =>
      RuleVoices.mk (RuleVoices.soprano voices) (RuleVoices.alto voices ++ [pushed])
        (RuleVoices.tenor voices) (RuleVoices.bass voices)
  | tenor =>
      RuleVoices.mk (RuleVoices.soprano voices) (RuleVoices.alto voices)
        (RuleVoices.tenor voices ++ [pushed]) (RuleVoices.bass voices)
  | bass =>
      RuleVoices.mk (RuleVoices.soprano voices) (RuleVoices.alto voices)
        (RuleVoices.tenor voices) (RuleVoices.bass voices ++ [pushed])
  end.

(** [for (const item of pending)] of [applyAISeparation], from the [i]-th
    waiting note on. *)
Fixpoint aiLoop (vote : nat -> Pending.t -> VoicePart) (i : nat)
    (pending : list Pending.t) (voices : RuleVoices.t) : RuleVoices.t :=
  match pending with
  | [] => voices
  | item :: rest => aiLoop vote (S i) rest (aiStep (vote i item) voices item)
  end.

(** The voices [separateVoicesWithAI] returns, as they are when it
    returns.  After a failure [assignPendingByRules] works on the arrays the
    second layer has already pushed into, and assigns every waiting note. *)
Definition separateVoicesWithAI (layer : SecondLayer)
    (upperStaff lowerStaff : list Note.t) : RuleVoices.t :=
  let ruleResult := applyRuleBasedSeparation upperStaff lowerStaff in
  let voices := RuleResult.voices ruleResult in
  let pending := RuleResult.pending ruleResult in
  match pending with
  | [] => voices
  | _ :: _ =>
      match layer with
      | notInUse => assignPendingByRules ruleResult
      | delivers vote => aiLoop vote 0 pending voices
      | fails vote pushed =>
          assignPendingByRules
            (RuleResult.mk (aiLoop vote 0 (firstn pushed pending) voices) pending)
      end
  end.

End VoiceAI.

(* ------------------------------------------------------------------ *)
(** ** Vocabulary of the statements on the rule layers *)

(** A note without its voice part. *)
Definition voiceBlind (n : Note.t) : Note.t := Note.set_voicePart None n.

(** The notes of a voice without their voice part. *)
Definition notesOf (voice : list (Note.t * Q)) : list Note.t :=
  map (fun e => voiceBlind (fst e)) voice.

(** Every entry of the voice is tagged [vp] and carries the half beat of
    its note. *)
Definition taggedAs (vp : VoicePart) (voice : list (Note.t * Q)) : Prop :=
  Forall (fun e => Note.voicePart (fst e) = Some vp /\
                   (snd e == VoiceAI.halfBeat (fst e))%Q) voice.

(** The notes waiting for a voice, without their voice part. *)
Definition pendingNotes (pending : list VoiceAI.Pending.t) : list Note.t :=
  map (fun p => voiceBlind (VoiceAI.Pending.note p)) pending.

(** The waiting notes all come from one staff and carry their half beat. *)
Definition pendingFrom (side : VoiceAI.StaffSide) (pending : list VoiceAI.Pending.t)
    : Prop :=
  Forall (fun p => VoiceAI.Pending.staff p = side /\
                   (VoiceAI.Pending.beat p
                    == VoiceAI.halfBeat (VoiceAI.Pending.note p))%Q) pending.

(** The number of entries in the four voices. *)
Definition entriesOf (v : VoiceAI.RuleVoices.t) : nat :=
  (length (VoiceAI.RuleVoices.soprano v) + length (VoiceAI.RuleVoices.alto v)
   + length (VoiceAI.RuleVoices.tenor v) + length (VoiceAI.RuleVoices.bass v))%nat.

(* ------------------------------------------------------------------ *)
(** ** Chunk processor, the batches (modules/chunkProcessor.js) *)

(** [processChunksParallel(chunks, processFn)], called without a progress
    callback, for a [processFn] that computes its result from the chunk:
    [Promise.all] gives the results of a batch in the order of the batch.
    The loop has an iteration budget. *)
Fixpoint processLoop {A B : Type} (fuel i : nat) (chunks : list A)
    (processFn : A -> B) (results : list B) : option (list B) :=
  if Nat.ltb i (length chunks) then
    match fuel with
    | O => None
    | S fuel' =>
        let batch := slice chunks i (i + MAX_CONCURRENCY) in
        let batchResults := map processFn batch in
        processLoop fuel' (i + MAX_CONCURRENCY) chunks processFn
          (results ++ batchResults)
    end
  else Some results.

Definition processChunksParallel {A B : Type} (chunks : list A)
    (processFn : A -> B) : option (list B) :=
  processLoop (length chunks) 0 chunks processFn [].

(* ================================================================== *)
(** * Properties *)

(** ** Generic list facts *)

Section ListFacts.
Context {A : Type}.

Lemma filter_all_true (p : A -> bool) (l : list A) :
  Forall (fun x => p x = true) l -> filter p l = l.
Proof.
  induction 1 as [|x l Hx _ IH]; simpl; [reflexivity|].
  now rewrite Hx, IH.
Qed.

Lemma filter_all_false (p : A -> bool) (l : list A) :
  Forall (fun x => p x = false) l -> filter p l = [].
Proof.
  induction 1 as [|x l Hx _ IH]; simpl; [reflexivity|].
  now rewrite Hx.
Qed.

Lemma Forall_filter_true (p : A -> bool) (l : list A) :
  Forall (fun x => p x = true) (filter p l).
Proof.
  apply Forall_forall; intros x Hx; apply filter_In in Hx; tauto.
Qed.

Lemma Forall_updateAt (P : A -> Prop) (f : A -> A) :
  (forall x, P x -> P (f x)) ->
  forall l i, Forall P l -> Forall P (updateAt i f l).
Proof.
  intros Hf l; induction l as [|x l IH]; intros i Hl; simpl; [constructor|].
  inversion Hl; subst.
  destruct i; constructor; auto.
Qed.

Lemma mapi_nth_error {B} (f : nat -> A -> B) (l : list A) :
  forall i k, nth_error (mapi i f l) k = option_map (f (i + k)%nat) (nth_error l k).
Proof.
  induction l as [|x l IH]; intros i k; simpl.
  - destruct k; reflexivity.
  - destruct k; simpl.
    + now rewrite Nat.add_0_r.
    + rewrite IH. now rewrite Nat.add_succ_r.
Qed.

End ListFacts.

(* ------------------------------------------------------------------ *)
(** ** Level dispatch outside 1..5 *)

(** C10.  For a level that is not one of the numbers 1 to 5 (0, 6, any
    other integer, or [undefined]) both dispatchers return the measure they
    were given: no clamping, no error. *)
Theorem level_outside_range_is_identity :
  forall (measure : Measure.t) (level : option Z) (ts : TimeSignature.t)
         (config : Config.t),
    (forall l, level = Some l -> l < 1 \/ 5 < l) ->
    applySingleStaffSimplification measure level ts = measure /\
    applyGrandStaffSimplification measure level ts config = measure.
Proof.
  intros measure level ts config Hout.
  destruct level as [l|]; [|split; reflexivity].
  specialize (Hout l eq_refl).
  destruct l as [|p|p]; try (split; reflexivity).
  do 3 (destruct p as [p|p|]; try (split; reflexivity); try lia).
Qed.

Lemma level_outside_range_is_identity_witness :
  (applySingleStaffSimplification sampleMeasure (Some 6) sampleTime = sampleMeasure /\
   applyGrandStaffSimplification sampleMeasure (Some 6) sampleTime
     (Config.mk (Some 6) None None) = sampleMeasure) /\
  (applySingleStaffSimplification sampleMeasure None sampleTime = sampleMeasure /\
   applyGrandStaffSimplification sampleMeasure None sampleTime
     (Config.mk None None None) = sampleMeasure).
Proof.
  split.
  - apply (level_outside_range_is_identity sampleMeasure (Some 6) sampleTime
             (Config.mk (Some 6) None None)).
    intros l H; inversion H; lia.
  - apply (level_outside_range_is_identity sampleMeasure None sampleTime
             (Config.mk None None None)).
    intros l H; discriminate H.
Defined.

(* ------------------------------------------------------------------ *)
(** ** Metadata *)

(** C7.  The metadata of the simplified score is the metadata of the
    parsed score, for every score type and every configuration; in
    particular title, composer, time signature and key signature are
    unchanged by [analyzeScore] followed by [simplifyScore]. *)
Theorem metadata_propagated_unchanged :
  forall (score : ParsedScore.t) (scoreType : ScoreType) (config : Config.t),
    let simplified := simplifyScore (analyzeScore score scoreType) config in
    SimplifiedScore.metadata simplified = ParsedScore.metadata score /\
    ScoreMetadata.title (SimplifiedScore.metadata simplified)
      = ScoreMetadata.title (ParsedScore.metadata score) /\
    ScoreMetadata.composer (SimplifiedScore.metadata simplified)
      = ScoreMetadata.composer (ParsedScore.metadata score) /\
    ScoreMetadata.timeSignature (SimplifiedScore.metadata simplified)
      = ScoreMetadata.timeSignature (ParsedScore.metadata score) /\
    ScoreMetadata.keySignature (SimplifiedScore.metadata simplified)
      = ScoreMetadata.keySignature (ParsedScore.metadata score).
Proof.
  intros score scoreType config simplified.
  assert (H : SimplifiedScore.metadata simplified = ParsedScore.metadata score)
    by reflexivity.
  rewrite H. repeat split; reflexivity.
Qed.

(* ------------------------------------------------------------------ *)
(** ** Level 5 *)

Lemma level5Mark_keeps_main (mainNotes : list Note.t) (emb : Note.t) :
  Forall (fun n => Note.isMain n = true) mainNotes ->
  Forall (fun n => Note.isMain n = true) (level5Mark mainNotes emb).
Proof.
  intros H. unfold level5Mark.
  destruct (nearestMainFrom 0 (Note.startBeat emb) mainNotes None) as [[i d]|];
    [|exact H].
  apply Forall_updateAt; [|exact H].
  intros x Hx; exact Hx.
Qed.

Lemma level5_marks_keep_main (embs mainNotes : list Note.t) :
  Forall (fun n => Note.isMain n = true) mainNotes ->
  Forall (fun n => Note.isMain n = true) (fold_left level5Mark embs mainNotes).
Proof.
  revert mainNotes; induction embs as [|e embs IH]; intros mainNotes H; simpl.
  - exact H.
  - apply IH, level5Mark_keeps_main, H.
Qed.

Lemma applyLevel5_notes_main (m : Measure.t) (ts : TimeSignature.t) :
  Forall (fun n => Note.isMain n = true) (Measure.notes (applyLevel5 m ts)).
Proof.
  unfold applyLevel5; simpl.
  apply level5_marks_keep_main, Forall_filter_true.
Qed.

Lemma applyLevel5_without_embellishments (m : Measure.t) (ts : TimeSignature.t) :
  Forall (fun n => Note.isMain n = true) (Measure.notes m) ->
  applyLevel5 m ts = m.
Proof.
  intros Hmain. unfold applyLevel5.
  rewrite (filter_all_true _ _ Hmain).
  rewrite filter_all_false.
  - destruct m; reflexivity.
  - eapply Forall_impl; [|exact Hmain].
    intros n Hn; simpl in Hn; now rewrite Hn.
Qed.

(** C8.  Level 5 is idempotent: a second pass finds no embellishment left,
    so it neither removes nor annotates anything and returns the measure the
    first pass produced (same notes, same rests). *)
Theorem applyLevel5_idempotent :
  forall (m : Measure.t) (ts : TimeSignature.t),
    Measure.notes (applyLevel5 (applyLevel5 m ts) ts)
      = Measure.notes (applyLevel5 m ts) /\
    applyLevel5 (applyLevel5 m ts) ts = applyLevel5 m ts.
Proof.
  intros m ts.
  rewrite (applyLevel5_without_embellishments (applyLevel5 m ts) ts
             (applyLevel5_notes_main m ts)).
  split; reflexivity.
Qed.

(* ------------------------------------------------------------------ *)
(** ** Comparisons on rationals *)

Lemma ltb_lt (x y : Q) : Js.ltb x y = true <-> (x < y)%Q.
Proof.
  unfold Js.ltb. rewrite negb_true_iff.
  split; intros H.
  - apply Qnot_le_lt. intros Hle. apply Qle_bool_iff in Hle. congruence.
  - destruct (Qle_bool y x) eqn:E; [|reflexivity].
    apply Qle_bool_iff in E. exfalso. exact (Qlt_not_le _ _ H E).
Qed.

Lemma ltb_ge (x y : Q) : Js.ltb x y = false <-> (y <= x)%Q.
Proof.
  unfold Js.ltb. rewrite negb_false_iff. apply Qle_bool_iff.
Qed.

Lemma leb_le (x y : Q) : Js.leb x y = true <-> (x <= y)%Q.
Proof. unfold Js.leb. apply Qle_bool_iff. Qed.

(* ------------------------------------------------------------------ *)
(** ** Doubles *)

Lemma jsPow2_pos (k : Z) : (0 < Js.pow2 k)%Q.
Proof. apply Qpower_0_lt. reflexivity. Qed.

Lemma jsPow2_le (j k : Z) : j <= k -> (Js.pow2 j <= Js.pow2 k)%Q.
Proof. intros H. apply Qpower_le_compat_l; [exact H | discriminate]. Qed.

Lemma nearestEven_floor (x : Q) : Qfloor x <= Js.nearestEven x.
Proof.
  unfold Js.nearestEven.
  destruct (Js.ltb _ _); [lia|]. destruct (Js.ltb _ _); [lia|].
  destruct (Z.even _); lia.
Qed.

(** The exponent found for a positive [x] is not above [x]. *)
Lemma exponent_le (x : Q) : (0 < x)%Q -> (Js.pow2 (Js.exponent x) <= x)%Q.
Proof.
  intros Hx. unfold Js.exponent.
  destruct (Qle_bool _ x) eqn:E; [apply Qle_bool_iff, E|]. clear E.
  destruct x as [n d]. cbn [Qnum Qden].
  assert (Hn : 0 < n) by (unfold Qlt in Hx; cbn in Hx; lia).
  pose proof (Z.log2_spec n Hn) as [Ha _].
  pose proof (Z.log2_spec (Z.pos d) (Pos2Z.is_pos d)) as [_ Hb].
  pose proof (Z.log2_nonneg n) as Hln.
  pose proof (Z.log2_nonneg (Z.pos d)) as Hld.
  unfold Js.pow2.
  replace (Z.log2 n - Z.log2 (Z.pos d) - 1)
    with (Z.log2 n - Z.succ (Z.log2 (Z.pos d))) by lia.
  rewrite Qpower_minus by discriminate.
  rewrite <- (Zpower_Qpower 2 (Z.log2 n)) by lia.
  rewrite <- (Zpower_Qpower 2 (Z.succ (Z.log2 (Z.pos d)))) by lia.
  set (p := 2 ^ Z.log2 n) in *. set (q := 2 ^ Z.succ (Z.log2 (Z.pos d))) in *.
  assert (Hq : 0 < q) by lia.
  apply Qle_shift_div_r.
  - change 0%Q with (inject_Z 0). rewrite <- Zlt_Qlt. exact Hq.
  - unfold Qle, Qmult, inject_Z. cbn. nia.
Qed.

(** Rounding to a double keeps the sign. *)
Lemma double_sign (x : Q) : Js.ltb 0 (Js.double x) = Js.ltb 0 x.
Proof.
  unfold Js.double.
  destruct (Qeq_bool x 0) eqn:E0.
  - apply Qeq_bool_iff in E0.
    destruct (Js.ltb 0 x) eqn:E; [|reflexivity].
    apply ltb_lt in E. rewrite E0 in E. discriminate E.
  - assert (Hne : ~ (x == 0)%Q).
    { intros H. apply Qeq_bool_iff in H. congruence. }
    assert (Ha : (0 < Qabs x)%Q).
    { destruct (Qlt_le_dec x 0) as [H|H].
      - rewrite (Qabs_neg x) by (apply Qlt_le_weak, H). lra.
      - rewrite (Qabs_pos x H).
        destruct (Qlt_le_dec 0 x) as [H'|H']; [exact H'|].
        exfalso. apply Hne. apply Qle_antisym; assumption. }
    set (ulp := Js.pow2 (Js.exponent (Qabs x) - 52)).
    assert (Hulp : (0 < ulp)%Q) by apply jsPow2_pos.
    assert (Hm : 1 <= Js.nearestEven (Qabs x / ulp)).
    { eapply Z.le_trans; [|apply nearestEven_floor].
      change 1 with (Qfloor 1). apply Qfloor_resp_le.
      apply Qle_shift_div_l; [exact Hulp|]. rewrite Qmult_1_l.
      eapply Qle_trans; [|apply exponent_le, Ha].
      apply jsPow2_le. lia. }
    assert (Hpos : (0 < inject_Z (Js.nearestEven (Qabs x / ulp)) * ulp)%Q).
    { apply Qmult_lt_0_compat; [|exact Hulp].
      change 0%Q with (inject_Z 0). rewrite <- Zlt_Qlt. lia. }
    destruct (Js.ltb x 0) eqn:Eneg.
    + apply ltb_lt in Eneg.
      transitivity false.
      * destruct (Js.ltb 0 (Qred _)) eqn:E; [|reflexivity].
        apply ltb_lt in E. rewrite Qred_correct in E. lra.
      * symmetry. destruct (Js.ltb 0 x) eqn:E; [|reflexivity].
        apply ltb_lt in E. lra.
    + assert (Hx : (0 < x)%Q).
      { destruct (Qlt_le_dec 0 x) as [H|H]; [exact H|].
        exfalso. destruct (Qlt_le_dec x 0) as [H'|H'].
        - apply ltb_lt in H'. congruence.
        - apply Hne. apply Qle_antisym; assumption. }
      transitivity true.
      * apply ltb_lt. rewrite Qred_correct. exact Hpos.
      * symmetry. apply ltb_lt. exact Hx.
Qed.

(** A third of a beat, and a beat made of three of them: the sum falls
    short of 2 by one unit in the last place. *)
Example double_thirds :
  Js.div 1 3 = (6004799503160661 # 18014398509481984)%Q /\
  Js.add (Js.add (Js.add 1 (Js.div 1 3)) (Js.div 1 3)) (Js.div 1 3)
  = (9007199254740991 # 4503599627370496)%Q.
Proof. split; vm_compute; reflexivity. Qed.

Lemma keepMax_lt (acc x bound : Q) :
  (keepMax acc x < bound)%Q <-> (acc < bound)%Q /\ (x < bound)%Q.
Proof.
  unfold keepMax. destruct (Js.ltb acc x) eqn:E.
  - apply ltb_lt in E. split.
    + intros H; split; [eapply Qlt_trans; eassumption | exact H].
    + tauto.
  - apply ltb_ge in E. split.
    + intros H; split; [exact H | eapply Qle_lt_trans; eassumption].
    + tauto.
Qed.

(* ------------------------------------------------------------------ *)
(** ** Grouping into a [Map] *)

Section MapPush.
Context {K V : Type} (eqb : K -> K -> bool).

Lemma mapPush_values (key : K) (v : V) (m : list (K * list V)) :
  Permutation (flat_map snd (Js.mapPush eqb key v m)) (flat_map snd m ++ [v]).
Proof.
  induction m as [|[k vs] m IH]; simpl.
  - reflexivity.
  - destruct (eqb k key); simpl.
    + rewrite <- !app_assoc.
      apply Permutation_app_head, Permutation_app_comm.
    + rewrite <- app_assoc. apply Permutation_app_head, IH.
Qed.

Lemma mapPush_fold_values (key : V -> K) (vs : list V) :
  forall m,
    Permutation
      (flat_map snd (fold_left (fun g v => Js.mapPush eqb (key v) v g) vs m))
      (flat_map snd m ++ vs).
Proof.
  induction vs as [|v vs IH]; intros m; simpl.
  - now rewrite app_nil_r.
  - rewrite IH, mapPush_values, <- app_assoc. reflexivity.
Qed.

End MapPush.

(* ------------------------------------------------------------------ *)
(** ** Anacrusis *)

Lemma maxEndBeat_lt (bound : Q) (ns : list Note.t) :
  forall acc,
    (fold_left (fun e n => keepMax e (Note.endBeat n)) ns acc < bound)%Q <->
    (acc < bound)%Q /\ Forall (fun n => (Note.endBeat n < bound)%Q) ns.
Proof.
  induction ns as [|n ns IH]; intros acc; simpl.
  - split; [intros H; split; [exact H | constructor] | tauto].
  - rewrite IH, keepMax_lt. split.
    + intros [[H1 H2] H3]; split; [exact H1 | constructor; assumption].
    + intros [H1 H2]; inversion H2; subst; tauto.
Qed.

Lemma maxActualBeats_lt (bound : Q) (groups : list ((Z * Z) * list Note.t)) :
  forall acc,
    (fold_left
       (fun acc g =>
          keepMax acc
            (fold_left (fun e n => keepMax e (Note.endBeat n)) (snd g) 0 - 1))
       groups acc < bound)%Q <->
    (acc < bound)%Q /\
    Forall (fun g => (0 - 1 < bound)%Q /\
                     Forall (fun n => (Note.endBeat n - 1 < bound)%Q) (snd g)) groups.
Proof.
  induction groups as [|g groups IH]; intros acc; simpl.
  - split; [intros H; split; [exact H | constructor] | tauto].
  - rewrite IH, keepMax_lt.
    assert (Hg : (fold_left (fun e n => keepMax e (Note.endBeat n)) (snd g) 0 - 1
                  < bound)%Q <->
                 (0 - 1 < bound)%Q /\
                 Forall (fun n => (Note.endBeat n - 1 < bound)%Q) (snd g)).
    { assert (Hshift : forall x : Q, (x - 1 < bound)%Q <-> (x < bound + 1)%Q).
      { intros x; split; intros H.
        - apply Qplus_lt_l with (z := (- (1))%Q). ring_simplify.
          ring_simplify in H. exact H.
        - apply Qplus_lt_l with (z := 1%Q). ring_simplify.
          ring_simplify in H. exact H. }
      rewrite Hshift, maxEndBeat_lt, <- Hshift.
      split; intros [H1 H2]; split; try exact H1;
        (eapply Forall_impl; [|exact H2]); intros n Hn; apply Hshift, Hn. }
    rewrite Hg. split.
    + intros [[H1 H2] H3]; split; [exact H1 | constructor; assumption].
    + intros [H1 H2]; inversion H2; subst; tauto.
Qed.

(** The analyzer's anacrusis test, read on the notes: the measure has
    notes and every note of it ends before 90% of the nominal length
    (counted from beat 1). *)
Lemma isAnacrusis_spec (measure : Measure.t) (ts : TimeSignature.t) :
  isAnacrusis measure ts = true <->
  Measure.notes measure <> [] /\
  (0 < inject_Z (TimeSignature.beats ts) * (9 # 10))%Q /\
  forall n, In n (Measure.notes measure) ->
            (Note.endBeat n - 1 < inject_Z (TimeSignature.beats ts) * (9 # 10))%Q.
Proof.
  unfold isAnacrusis.
  destruct (Measure.notes measure) as [|n0 ns] eqn:En.
  - split; [discriminate | intros [H _]; congruence].
  - rewrite ltb_lt, maxActualBeats_lt.
    set (bound := (inject_Z (TimeSignature.beats ts) * (9 # 10))%Q).
    pose proof (mapPush_fold_values pairKeyEqb
                  (fun n => (Note.staff n, Note.voice n)) (n0 :: ns) []) as Hperm.
    simpl flat_map in Hperm at 2. simpl app in Hperm.
    fold (voiceGroupsOf (n0 :: ns)) in Hperm.
    split.
    + intros [Hpos Hall]. split; [discriminate|]. split; [exact Hpos|].
      intros n Hn.
      apply (Permutation_in n (Permutation_sym Hperm)) in Hn.
      apply in_flat_map in Hn. destruct Hn as [g [Hg Hng]].
      rewrite Forall_forall in Hall. destruct (Hall g Hg) as [_ Hgs].
      rewrite Forall_forall in Hgs. exact (Hgs n Hng).
    + intros [_ [Hpos Hall]]. split; [exact Hpos|].
      apply Forall_forall. intros g Hg. split.
      * eapply Qlt_trans; [|exact Hpos]. reflexivity.
      * apply Forall_forall. intros n Hn. apply Hall.
        apply (Permutation_in n Hperm).
        apply in_flat_map. exists g. split; assumption.
Qed.

(** C3.  When the first measure is flagged as an anacrusis (it has notes
    and every note of it ends before 90% of the nominal measure length), the
    first measure of the simplified score is that measure without its
    embellishment-tagged notes, whatever the configured level: the remaining
    notes are kept as they are (same count, same start beats, same
    durations) and the rests are kept. *)
Theorem anacrusis_measure_only_loses_embellishments :
  forall (analyzed : AnalyzedScore.t) (config : Config.t)
         (first : Measure.t) (others : list Measure.t),
    AnalyzedScore.measures analyzed = first :: others ->
    isAnacrusis first
      (ScoreMetadata.timeSignature (AnalyzedScore.metadata analyzed)) = true ->
    (forall n, In n (Measure.notes first) ->
       (Note.endBeat n - 1
        < inject_Z (TimeSignature.beats
                      (ScoreMetadata.timeSignature
                         (AnalyzedScore.metadata analyzed))) * (9 # 10))%Q) /\
    exists first',
      hd_error (SimplifiedScore.measures (simplifyScore analyzed config))
        = Some first' /\
      Measure.notes first' = filter Note.isMain (Measure.notes first) /\
      map Note.startBeat (Measure.notes first')
        = map Note.startBeat (filter Note.isMain (Measure.notes first)) /\
      Measure.rests first' = Measure.rests first.
Proof.
  intros analyzed config first others Hm Hana.
  split; [apply isAnacrusis_spec; exact Hana|].
  exists (preserveAnacrusis first).
  unfold simplifyScore. rewrite Hm. cbn [SimplifiedScore.measures mapi hd_error].
  unfold simplifyMeasure at 1. rewrite Hana. cbn [andb Nat.eqb].
  repeat split; reflexivity.
Qed.

Lemma anacrusis_measure_only_loses_embellishments_witness :
  (forall n, In n (Measure.notes pickupMeasure) ->
     (Note.endBeat n - 1
      < inject_Z (TimeSignature.beats
                    (ScoreMetadata.timeSignature
                       (AnalyzedScore.metadata pickupScore))) * (9 # 10))%Q) /\
  exists first',
    hd_error (SimplifiedScore.measures
                (simplifyScore pickupScore (Config.mk (Some 2) None None)))
      = Some first' /\
    Measure.notes first' = filter Note.isMain (Measure.notes pickupMeasure) /\
    map Note.startBeat (Measure.notes first')
      = map Note.startBeat (filter Note.isMain (Measure.notes pickupMeasure)) /\
    Measure.rests first' = Measure.rests pickupMeasure.
Proof.
  apply (anacrusis_measure_only_loses_embellishments pickupScore
           (Config.mk (Some 2) None None) pickupMeasure [fullMeasure]).
  - reflexivity.
  - vm_compute. reflexivity.
Defined.

(* ------------------------------------------------------------------ *)
(** ** The parser's time cursor *)

Lemma parseChildren_snoc (divisions : Z) (counter : nat)
    (children : list MeasureChild) (child : MeasureChild) :
  parseChildren divisions counter (children ++ [child])
  = parseChild divisions (parseChildren divisions counter children) child.
Proof.
  unfold parseChildren. now rewrite fold_left_app.
Qed.

Lemma firstn_S_nth_error {A} (l : list A) (k : nat) (x : A) :
  nth_error l k = Some x -> firstn (S k) l = firstn k l ++ [x].
Proof.
  revert k; induction l as [|y l IH]; intros k H.
  - destruct k; discriminate.
  - destruct k; simpl in *.
    + now inversion H.
    + f_equal. apply IH, H.
Qed.

Lemma durationBeats_pos (d divisions : Z) :
  0 < divisions -> 0 < d -> (0 < inject_Z d / inject_Z divisions)%Q.
Proof.
  intros Hdiv Hd. unfold Qdiv.
  apply Qmult_lt_0_compat.
  - change 0%Q with (inject_Z 0). now rewrite <- Zlt_Qlt.
  - apply Qinv_lt_0_compat.
    change 0%Q with (inject_Z 0). now rewrite <- Zlt_Qlt.
Qed.

Lemma grace_ticks_zero (noteEl : NoteEl.t) (divisions : Z) :
  NoteEl.grace noteEl = true ->
  Duration.ticks (parseDuration noteEl divisions) = 0.
Proof.
  intros Hg. unfold parseDuration. rewrite Hg. cbn [Duration.ticks].
  set (t := (inject_Z 0 / inject_Z divisions * 1024)%Q).
  assert (Ht : (t == 0)%Q) by (unfold t, Qdiv; ring).
  assert (Hall : forall dots (x a : Q),
             (x == 0)%Q -> (a == 0)%Q -> (applyDots dots x a == 0)%Q).
  { induction dots as [|dots IH]; intros x a Hx Ha; simpl.
    - exact Hx.
    - apply IH.
      + rewrite Hx, Ha. ring.
      + rewrite Ha. unfold Qdiv. ring. }
  unfold Js.round.
  rewrite (Qfloor_comp _ (1 # 2)).
  - reflexivity.
  - rewrite Hall; [ring | exact Ht | rewrite Ht; unfold Qdiv; ring].
Qed.

(** The test [durationBeats > 0] is a test on the duration. *)
Lemma durationBeats_sign (d divisions : Z) :
  0 < divisions ->
  Js.ltb 0 (Js.div (inject_Z d) (inject_Z divisions)) = (0 <? d).
Proof.
  intros Hdiv. unfold Js.div. rewrite double_sign.
  destruct (0 <? d) eqn:E.
  - apply Z.ltb_lt in E. apply ltb_lt. now apply durationBeats_pos.
  - apply Z.ltb_ge in E. apply ltb_ge.
    unfold Qdiv. rewrite <- (Qmult_0_l (/ inject_Z divisions)).
    apply Qmult_le_compat_r.
    + change 0%Q with (inject_Z 0). now rewrite <- Zle_Qle.
    + apply Qlt_le_weak, Qinv_lt_0_compat.
      change 0%Q with (inject_Z 0). now rewrite <- Zlt_Qlt.
Qed.

Lemma parseChild_cursorStep (divisions : Z) (st : ParseState.t)
    (child : MeasureChild) :
  0 < divisions ->
  cursorStep divisions st (parseChild divisions st child) child.
Proof.
  intros Hdiv.
  destruct child as [d|d|noteEl|]; cbn [cursorStep parseChild].
  - cbn [ParseState.currentBeat ParseState.lastNonChordBeat ParseState.notes
         ParseState.rests].
    repeat split; reflexivity.
  - cbn [ParseState.currentBeat ParseState.lastNonChordBeat ParseState.notes
         ParseState.rests].
    repeat split; reflexivity.
  - unfold emittedStart, advancesCursor.
    rewrite (durationBeats_sign _ _ Hdiv).
    destruct (NoteEl.rest noteEl) eqn:Erest.
    + (* a rest: one rest pushed, the cursor moves unless it is a chord member *)
      rewrite orb_true_l, andb_true_r.
      destruct (NoteEl.chord noteEl) eqn:Echord; cbn [negb];
        cbn [ParseState.currentBeat ParseState.notes ParseState.rests
             ParseState.lastNonChordBeat].
      * split; [split; reflexivity|]. split.
        -- exists []. rewrite app_nil_r. repeat split; auto.
        -- eexists. split; [reflexivity|]. split; [simpl; lia|].
           constructor; [reflexivity | constructor].
      * split; [split; reflexivity|]. split.
        -- exists []. rewrite app_nil_r. repeat split; auto.
        -- eexists. split; [reflexivity|]. split; [simpl; lia|].
           constructor; [reflexivity | constructor].
    + (* a pitched or unpitched note *)
      rewrite orb_false_l, andb_assoc.
      unfold parseNote.
      set (start := if NoteEl.chord noteEl then ParseState.lastNonChordBeat st
                    else ParseState.currentBeat st).
      set (moves := negb (NoteEl.chord noteEl) && negb (NoteEl.grace noteEl)
                    && (0 <? durationOrZero (NoteEl.durationEl noteEl))).
      assert (Hstart : moves = true -> start = ParseState.currentBeat st).
      { unfold moves, start. destruct (NoteEl.chord noteEl); [discriminate|].
        reflexivity. }
      assert (Hcur :
        forall ns c,
          let after :=
            if moves
            then ParseState.mk
                   (Js.add (ParseState.currentBeat st)
                      (Js.div (inject_Z (durationOrZero (NoteEl.durationEl noteEl)))
                              (inject_Z divisions)))
                   start ns (ParseState.rests st) c
            else ParseState.mk (ParseState.currentBeat st)
                   (ParseState.lastNonChordBeat st) ns (ParseState.rests st) c in
          (if moves
           then ParseState.currentBeat after
                = Js.add (ParseState.currentBeat st)
                    (Js.div (inject_Z (durationOrZero (NoteEl.durationEl noteEl)))
                            (inject_Z divisions)) /\
                ParseState.lastNonChordBeat after = ParseState.currentBeat st
           else ParseState.currentBeat after = ParseState.currentBeat st /\
                ParseState.lastNonChordBeat after
                = ParseState.lastNonChordBeat st) /\
          ParseState.notes after = ns /\
          ParseState.rests after = ParseState.rests st).
      { intros ns c. destruct moves;
          cbn [ParseState.currentBeat ParseState.lastNonChordBeat
               ParseState.notes ParseState.rests].
        - rewrite (Hstart eq_refl). repeat split; reflexivity.
        - repeat split; reflexivity. }
      destruct (NoteEl.pitchEl noteEl) as [pitch|] eqn:Epitch.
      * match goal with
        | |- context [ParseState.notes st ++ [?n]] =>
            destruct (Hcur (ParseState.notes st ++ [n])
                           (S (ParseState.noteIdCounter st))) as [H1 [H2 H3]]
        end.
        split; [exact H1|]. split.
        -- eexists. split; [exact H2|]. split; [simpl; lia|].
           constructor; [|constructor]. split; [reflexivity|].
           intros Hg. cbn [Note.duration Note.embellishment]. rewrite Hg.
           split; [apply grace_ticks_zero, Hg | reflexivity].
        -- exists []. rewrite H3, app_nil_r. repeat split; auto.
      * destruct (Hcur (ParseState.notes st) (ParseState.noteIdCounter st))
          as [H1 [H2 H3]].
        split; [exact H1|]. split.
        -- exists []. rewrite H2, app_nil_r. repeat split; auto.
        -- exists []. rewrite H3, app_nil_r. repeat split; auto.
  - reflexivity.
Qed.

(** C5 (as amended).  Walking the children of a measure in document order
    (divisions positive), with the quotient duration/divisions, the sums and
    the differences rounded to doubles as the code computes them: a backup
    lowers the cursor by duration/divisions and a forward raises it by as
    much, neither adding a note or rest, and both set [lastNonChordBeat] to
    the new cursor; a non-chord rest, and a non-chord non-grace note of
    positive duration, raise the cursor by duration/divisions and set
    [lastNonChordBeat] to the cursor they started at; chord members, grace
    notes and notes without a positive duration leave the cursor and
    [lastNonChordBeat] unchanged.  A chord member starts at
    [lastNonChordBeat]; every other note or rest, a grace note included,
    starts at the cursor.  Grace notes get zero ticks and the [grace_note]
    tag. *)
Theorem parser_cursor_follows_children :
  forall (divisions : Z) (counter : nat) (children : list MeasureChild)
         (k : nat) (child : MeasureChild),
    0 < divisions ->
    nth_error children k = Some child ->
    cursorStep divisions
      (parseChildren divisions counter (firstn k children))
      (parseChildren divisions counter (firstn (S k) children))
      child.
Proof.
  intros divisions counter children k child Hdiv Hk.
  rewrite (firstn_S_nth_error _ _ _ Hk), parseChildren_snoc.
  apply parseChild_cursorStep, Hdiv.
Qed.

Lemma parser_cursor_follows_children_witness :
  cursorStep 1
    (parseChildren 1 0 (firstn 2 sampleChildren))
    (parseChildren 1 0 (firstn 3 sampleChildren))
    (NoteChild (graceEl "D")).
Proof.
  apply (parser_cursor_follows_children 1 0 sampleChildren 2
           (NoteChild (graceEl "D"))).
  - lia.
  - reflexivity.
Defined.

(** The sample measure, step by step: quarter C at beat 1, chord member E at
    beat 1, grace D at beat 2 (the cursor, not beat 1), quarter E at beat 2,
    then a backup of two beats and a forward of one leave the cursor at 2. *)
Example sampleChildren_trace :
  let st := parseChildren 1 0 sampleChildren in
  map Note.startBeat (ParseState.notes st) = [1; 1; 2; 2]%Q /\
  ParseState.currentBeat st = 2%Q /\
  ParseState.lastNonChordBeat st = 2%Q /\
  map Note.id (ParseState.notes st) = [1; 2; 3; 4]%nat.
Proof.
  vm_compute. repeat split; reflexivity.
Qed.

(** Two beats of triplet eighths at three divisions per quarter: the cursor
    is a sum of doubles, so the fourth note starts one unit in the last
    place before beat 2 (1.9999999999999998), the fifth at 2.333333333333333
    and the cursor ends at 3. *)
Example tripletChildren_trace :
  let st := parseChildren 3 0 tripletChildren in
  map Note.startBeat (ParseState.notes st)
  = [ 1; 6004799503160661 # 4503599627370496;
      3752999689475413 # 2251799813685248;
      9007199254740991 # 4503599627370496;
      2627099782632789 # 1125899906842624;
      6004799503160661 # 2251799813685248 ]%Q /\
  ParseState.currentBeat st = 3%Q.
Proof.
  vm_compute. repeat split; reflexivity.
Qed.

(** C5, counterexample: after a quarter note at beat 1 the cursor is at 2
    and [lastNonChordBeat] is 1; the grace note that follows is placed at 2. *)
Lemma grace_note_starts_at_cursor :
  ~ graceReusesLastNonChordBeat 1
      (parseChildren 1 0 [NoteChild (quarterEl "C")]) (graceEl "D").
Proof.
  intros H.
  set (st := parseChildren 1 0 [NoteChild (quarterEl "C")]) in *.
  set (n := nth 1 (ParseState.notes (parseChild 1 st (NoteChild (graceEl "D"))))
                (plainNote 0 "C" 4 0 0 1 1)).
  assert (Hin : In n (ParseState.notes (parseChild 1 st (NoteChild (graceEl "D")))))
    by (vm_compute; right; left; reflexivity).
  assert (Hnew : ~ In n (ParseState.notes st)).
  { vm_compute. intros [E|[]]. discriminate E. }
  specialize (H eq_refl eq_refl n Hin Hnew).
  vm_compute in H. discriminate H.
Qed.

(* ------------------------------------------------------------------ *)
(** ** Sorting *)

Lemma insertBy_perm {A} (cmp : A -> A -> Q) (x : A) (l : list A) :
  Permutation (Js.insertBy cmp x l) (x :: l).
Proof.
  induction l as [|y l IH]; simpl.
  - reflexivity.
  - destruct (Js.leb (cmp x y) 0).
    + reflexivity.
    + rewrite IH. apply perm_swap.
Qed.

Lemma sort_perm {A} (cmp : A -> A -> Q) (l : list A) :
  Permutation (Js.sort cmp l) l.
Proof.
  unfold Js.sort. induction l as [|x l IH]; simpl.
  - reflexivity.
  - rewrite insertBy_perm. now constructor.
Qed.

Lemma sort_In {A} (cmp : A -> A -> Q) (l : list A) (x : A) :
  In x (Js.sort cmp l) <-> In x l.
Proof.
  split; apply Permutation_in; [|symmetry]; apply sort_perm.
Qed.

(* ------------------------------------------------------------------ *)
(** ** Sorting by a rational key *)

Section SortByOrder.
Context {A : Type} (cmp : A -> A -> Q) (le : A -> A -> Prop).
Hypothesis le_trans : forall a b c, le a b -> le b c -> le a c.
Hypothesis cmp_le : forall a b, Js.leb (cmp a b) 0 = true -> le a b.
Hypothesis cmp_gt : forall a b, Js.leb (cmp a b) 0 = false -> le b a.

Lemma insertBy_ordered (x : A) (l : list A) :
  StronglySorted le l -> StronglySorted le (Js.insertBy cmp x l).
Proof.
  induction l as [|y l IH]; intros Hs; simpl.
  - repeat constructor.
  - inversion Hs as [|a l' Hs' Hall]; subst.
    destruct (Js.leb (cmp x y) 0) eqn:E.
    + constructor; [exact Hs|]. constructor; [apply cmp_le; exact E|].
      eapply Forall_impl; [|exact Hall]. intros z Hz.
      eapply le_trans; [apply cmp_le; exact E | exact Hz].
    + constructor; [apply IH; exact Hs'|].
      apply (Permutation_Forall (Permutation_sym (insertBy_perm cmp x l))).
      constructor; [apply cmp_gt; exact E | exact Hall].
Qed.

Lemma sort_ordered (l : list A) : StronglySorted le (Js.sort cmp l).
Proof.
  unfold Js.sort. induction l as [|x l IH]; simpl.
  - constructor.
  - apply insertBy_ordered, IH.
Qed.

Lemma sort_head_first (l : list A) (h : A) (t : list A) :
  Js.sort cmp l = h :: t ->
  In h l /\ forall x, In x l -> x = h \/ le h x.
Proof.
  intros E. split.
  - apply (sort_In cmp). rewrite E. left; reflexivity.
  - intros x Hx.
    pose proof (sort_ordered l) as Hs. rewrite E in Hs.
    apply (sort_In cmp) in Hx. rewrite E in Hx.
    inversion Hs as [|a l' _ Hall]; subst.
    destruct Hx as [<-|Hx]; [left; reflexivity|].
    right. rewrite Forall_forall in Hall. exact (Hall x Hx).
Qed.

(** A list already in order is left as it is. *)
Lemma sort_ordered_id (l : list A) :
  StronglySorted (fun a b => Js.leb (cmp a b) 0 = true) l -> Js.sort cmp l = l.
Proof.
  unfold Js.sort. induction 1 as [|x l Hs IH Hall]; simpl; [reflexivity|].
  rewrite IH. destruct l as [|y l']; [reflexivity|].
  simpl. inversion Hall as [|? ? Hxy _]; subst. now rewrite Hxy.
Qed.

End SortByOrder.

Lemma byStartBeat_le (a b : Note.t) :
  Js.leb (byStartBeat a b) 0 = true <-> (Note.startBeat a <= Note.startBeat b)%Q.
Proof.
  rewrite leb_le. unfold byStartBeat. split; intros H; lra.
Qed.

Lemma sort_byStartBeat_first (l : list Note.t) (h : Note.t) (t : list Note.t) :
  Js.sort byStartBeat l = h :: t ->
  In h l /\ forall x, In x l -> (Note.startBeat h <= Note.startBeat x)%Q.
Proof.
  intros E.
  assert (Hgt : forall a b : Note.t,
             Js.leb (byStartBeat a b) 0 = false ->
             (Note.startBeat b <= Note.startBeat a)%Q).
  { intros a b H.
    destruct (Qlt_le_dec (Note.startBeat a) (Note.startBeat b)) as [Hlt|Hge];
      [|exact Hge].
    assert (Hc : Js.leb (byStartBeat a b) 0 = true)
      by (apply byStartBeat_le; lra).
    congruence. }
  destruct (sort_head_first byStartBeat
              (fun a b => (Note.startBeat a <= Note.startBeat b)%Q)
              (fun a b c => @Qle_trans _ _ _)
              (fun a b => proj1 (byStartBeat_le a b)) Hgt l h t E)
    as [Hin Hle].
  split; [exact Hin|]. intros x Hx.
  destruct (Hle x Hx) as [->|H]; [apply Qle_refl | exact H].
Qed.

(* ------------------------------------------------------------------ *)
(** ** Level 4 *)

Lemma posKeyEqb_eq (a b : PosKey) : posKeyEqb a b = true <-> a = b.
Proof.
  destruct a as [s x|s x], b as [t y|t y]; simpl;
    try (split; [discriminate | intros H; discriminate H]);
    rewrite andb_true_iff, Bool.eqb_true_iff, Z.eqb_eq;
    (split; [intros [-> ->]; reflexivity | intros H; inversion H; auto]).
Qed.

Lemma processedHas_In (proc : list PosKey) (k : PosKey) :
  processedHas proc k = true <-> In k proc.
Proof.
  unfold processedHas. rewrite existsb_exists. split.
  - intros [x [Hx E]]. apply posKeyEqb_eq in E. now subst.
  - intros H. exists k. split; [exact H | now apply posKeyEqb_eq].
Qed.

Lemma level4Step_keeps (res : list Note.t) (proc : list PosKey) (n : Note.t) :
  level4Keeps n = true -> level4Step (res, proc) n = (res ++ [n], proc).
Proof.
  unfold level4Keeps, level4Step. intros H.
  destruct (Note.isLocked n); [reflexivity|].
  simpl in H. now rewrite H.
Qed.

Lemma level4Step_short (res : list Note.t) (proc : list PosKey) (n : Note.t) :
  level4Keeps n = false ->
  level4Step (res, proc) n =
  if processedHas proc (level4Key n) then (res, proc)
  else (res ++ [level4Snap n], proc ++ [level4Key n]).
Proof.
  unfold level4Keeps, level4Step. intros H.
  apply orb_false_iff in H. destruct H as [-> ->]. reflexivity.
Qed.

Lemma level4_invariant (ns : list Note.t) :
  Level4Inv ns (fst (fold_left level4Step ns ([], [])))
               (snd (fold_left level4Step ns ([], []))).
Proof.
  induction ns as [|n ns IH] using rev_ind.
  - simpl. constructor; simpl; try tauto.
    + intros k; split; [tauto | intros [n [[] _]]].
    + constructor.
  - rewrite fold_left_app. simpl.
    destruct (fold_left level4Step ns ([], [])) as [res proc]. simpl in IH.
    destruct IH as [Hkept Horigin Hslot Hproc Hnodup Hcount].
    destruct (level4Keeps n) eqn:Ek.
    + rewrite (level4Step_keeps _ _ _ Ek). simpl.
      constructor.
      * intros x Hx Hkx. apply in_app_or in Hx. apply in_or_app.
        destruct Hx as [Hx|[<-|[]]]; [left; auto | right; left; reflexivity].
      * intros x Hx. apply in_app_or in Hx. destruct Hx as [Hx|[<-|[]]].
        -- destruct (Horigin x Hx) as [y [Hy Hc]]. exists y.
           split; [apply in_or_app; left; exact Hy | exact Hc].
        -- exists n. split; [apply in_or_app; right; left; reflexivity|].
           left; split; [exact Ek | reflexivity].
      * intros x Hx Hkx. apply in_app_or in Hx.
        destruct Hx as [Hx|[<-|[]]]; [|congruence].
        destruct (Hslot x Hx Hkx) as [y [Hy [Hky [Hkey Hin]]]]. exists y.
        repeat split; auto; apply in_or_app; left; assumption.
      * intros k. rewrite Hproc. split; intros [y [Hy [Hky Hkey]]]; exists y.
        -- repeat split; auto. apply in_or_app; left; exact Hy.
        -- apply in_app_or in Hy. destruct Hy as [Hy|[<-|[]]]; [|congruence].
           repeat split; auto.
      * exact Hnodup.
      * rewrite filter_app, !length_app. simpl. rewrite Ek. simpl. lia.
    + rewrite (level4Step_short _ _ _ Ek).
      destruct (processedHas proc (level4Key n)) eqn:Ehas; simpl.
      * apply processedHas_In in Ehas.
        constructor.
        -- intros x Hx Hkx. apply in_app_or in Hx.
           destruct Hx as [Hx|[<-|[]]]; [auto | congruence].
        -- intros x Hx. destruct (Horigin x Hx) as [y [Hy Hc]]. exists y.
           split; [apply in_or_app; left; exact Hy | exact Hc].
        -- intros x Hx Hkx. apply in_app_or in Hx.
           destruct Hx as [Hx|[<-|[]]].
           ++ destruct (Hslot x Hx Hkx) as [y [Hy [Hky [Hkey Hin]]]]. exists y.
              repeat split; auto. apply in_or_app; left; exact Hy.
           ++ apply Hproc in Ehas. destruct Ehas as [y [Hy [Hky Hkey]]].
              destruct (Hslot y Hy Hky) as [z [Hz [Hkz [Hkeyz Hin]]]]. exists z.
              repeat split; auto; [apply in_or_app; left; exact Hz | congruence].
        -- intros k. rewrite Hproc. split; intros [y [Hy [Hky Hkey]]].
           ++ exists y. repeat split; auto. apply in_or_app; left; exact Hy.
           ++ apply in_app_or in Hy. destruct Hy as [Hy|[<-|[]]].
              ** exists y. repeat split; auto.
              ** subst k. apply Hproc, Ehas.
        -- exact Hnodup.
        -- rewrite filter_app, length_app. simpl. rewrite Ek. simpl. lia.
      * assert (Hnot : ~ In (level4Key n) proc).
        { intros Hin. apply processedHas_In in Hin. congruence. }
        constructor.
        -- intros x Hx Hkx. apply in_app_or in Hx. apply in_or_app.
           destruct Hx as [Hx|[<-|[]]]; [left; auto | congruence].
        -- intros x Hx. apply in_app_or in Hx. destruct Hx as [Hx|[<-|[]]].
           ++ destruct (Horigin x Hx) as [y [Hy Hc]]. exists y.
              split; [apply in_or_app; left; exact Hy | exact Hc].
           ++ exists n. split; [apply in_or_app; right; left; reflexivity|].
              right; split; [exact Ek | reflexivity].
        -- intros x Hx Hkx. apply in_app_or in Hx.
           destruct Hx as [Hx|[<-|[]]].
           ++ destruct (Hslot x Hx Hkx) as [y [Hy [Hky [Hkey Hin]]]]. exists y.
              repeat split; auto; apply in_or_app; left; assumption.
           ++ exists n. repeat split; auto; apply in_or_app; right; left; reflexivity.
        -- intros k. split.
           ++ intros Hk. apply in_app_or in Hk. destruct Hk as [Hk|[<-|[]]].
              ** apply Hproc in Hk. destruct Hk as [y [Hy [Hky Hkey]]]. exists y.
                 repeat split; auto. apply in_or_app; left; exact Hy.
              ** exists n. repeat split; auto.
                 apply in_or_app; right; left; reflexivity.
           ++ intros [y [Hy [Hky Hkey]]]. apply in_or_app.
              apply in_app_or in Hy. destruct Hy as [Hy|[<-|[]]].
              ** left. apply Hproc. exists y. repeat split; auto.
              ** right; left; exact Hkey.
        -- apply NoDup_app; [exact Hnodup | constructor; [intros []|constructor] |].
           intros k Hk [<-|[]]. exact (Hnot Hk).
        -- rewrite filter_app, !length_app. simpl. rewrite Ek. simpl. lia.
Qed.

Lemma Permutation_filter_compat {A} (p : A -> bool) (l l' : list A) :
  Permutation l l' -> Permutation (filter p l) (filter p l').
Proof.
  induction 1 as [|x l l' _ IH|x y l|l l' l'' _ IH1 _ IH2]; simpl.
  - constructor.
  - destruct (p x); [constructor|]; exact IH.
  - destruct (p x), (p y); try reflexivity. apply perm_swap.
  - now transitivity (filter p l').
Qed.



(** A main note that is locked or long is pushed as it is. *)
Lemma applyLevel4_keeps (m : Measure.t) (ts : TimeSignature.t) (n : Note.t) :
  In n (Measure.notes m) -> Note.isMain n = true -> level4Keeps n = true ->
  In n (Measure.notes (applyLevel4 m ts)).
Proof.
  intros Hn Hm Hk.
  destruct (level4_invariant
              (filter Note.isMain (Js.sort byStartBeat (Measure.notes m))))
    as [Hkept _ _ _ _ _].
  apply Hkept; [|exact Hk].
  apply filter_In. split; [apply sort_In; exact Hn | exact Hm].
Qed.











(** Two beats of triplet eighths as the parser delivers them, at Level 4.
    The fifth note starts at 2.333333333333333, just below 7/3; its quotient
    by the rounded third is 6.999999999999999 and floors to 6, the slot of
    the fourth note, so the fifth note is dropped. *)
Example tripletMeasure_level4 :
  map level4Key (Measure.notes tripletMeasure)
  = [ TripletKey false 1000; TripletKey false 1333; TripletKey false 1667;
      TripletKey false 2000; TripletKey false 2000; TripletKey false 2667 ] /\
  map Note.id (Measure.notes (applyLevel4 tripletMeasure sampleTime))
  = [1; 2; 3; 4; 6]%nat /\
  map Note.startBeat (Measure.notes (applyLevel4 tripletMeasure sampleTime))
  = [ 1; 6004799503160661 # 4503599627370496;
      3752999689475413 # 2251799813685248; 2;
      6004799503160661 # 2251799813685248 ]%Q.
Proof. vm_compute. repeat split; reflexivity. Qed.


(* ------------------------------------------------------------------ *)
(** ** More on [Map] grouping and on sorting *)

Section MapInvariants.
Context {K V : Type} (eqb : K -> K -> bool) (key : V -> K).
Hypothesis eqb_refl : forall k, eqb k k = true.

Lemma mapPush_fst_Forall (P : K -> Prop) (k : K) (v : V) (m : list (K * list V)) :
  Forall (fun e => P (fst e)) m -> P k ->
  Forall (fun e => P (fst e)) (Js.mapPush eqb k v m).
Proof.
  intros H Hk. induction H as [|[k0 vs] m H0 Hm IH]; simpl.
  - constructor; [exact Hk | constructor].
  - destruct (eqb k0 k); constructor; assumption.
Qed.

Lemma mapPush_keysDistinct (k : K) (v : V) (m : list (K * list V)) :
  keysDistinct eqb m -> keysDistinct eqb (Js.mapPush eqb k v m).
Proof.
  unfold keysDistinct. induction m as [|[k0 vs] m IH]; intros H; simpl.
  - constructor; constructor.
  - inversion H as [|a l Hfa Hfop]; subst.
    destruct (eqb k0 k) eqn:E.
    + constructor; [exact Hfa | exact Hfop].
    + constructor; [|apply IH; exact Hfop].
      apply (mapPush_fst_Forall (fun k' => eqb k0 k' = false)); assumption.
Qed.

Lemma mapPush_groupsMatch (v : V) (m : list (K * list V)) :
  groupsMatch eqb key m -> groupsMatch eqb key (Js.mapPush eqb (key v) v m).
Proof.
  unfold groupsMatch. induction m as [|[k0 vs] m IH]; intros H; simpl.
  - constructor; [|constructor]. simpl. split; [discriminate|].
    constructor; [apply eqb_refl | constructor].
  - inversion H as [|a l [Hne Hall] Hrest]; subst. simpl in Hne, Hall.
    destruct (eqb k0 (key v)) eqn:E.
    + constructor; [|exact Hrest]. simpl. split.
      * intros Habs. apply app_eq_nil in Habs. destruct Habs; discriminate.
      * apply Forall_app. split; [exact Hall|].
        constructor; [exact E | constructor].
    + constructor; [split; assumption | apply IH; exact Hrest].
Qed.

Lemma mapPush_fold_invariants (vs : list V) :
  forall m,
    keysDistinct eqb m -> groupsMatch eqb key m ->
    keysDistinct eqb (fold_left (fun g v => Js.mapPush eqb (key v) v g) vs m) /\
    groupsMatch eqb key (fold_left (fun g v => Js.mapPush eqb (key v) v g) vs m).
Proof.
  induction vs as [|v vs IH]; intros m Hd Hg; simpl.
  - split; assumption.
  - apply IH; [apply mapPush_keysDistinct | apply mapPush_groupsMatch]; assumption.
Qed.

Lemma mapGet_In (k : K) (g : list V) (m : list (K * list V)) :
  keysDistinct eqb m -> In (k, g) m -> Js.mapGet eqb k m = Some g.
Proof.
  unfold keysDistinct. induction m as [|[k0 g0] m IH]; intros Hd Hin.
  - destruct Hin.
  - inversion Hd as [|a l Hfa Hfop]; subst. simpl.
    destruct Hin as [E|Hin].
    + inversion E; subst. now rewrite eqb_refl.
    + rewrite Forall_forall in Hfa. specialize (Hfa _ Hin). simpl in Hfa.
      rewrite Hfa. apply IH; assumption.
Qed.

Lemma mapGet_Some (k : K) (g : list V) (m : list (K * list V)) :
  Js.mapGet eqb k m = Some g -> exists k0, In (k0, g) m /\ eqb k0 k = true.
Proof.
  induction m as [|[k0 g0] m IH]; simpl; intros H.
  - discriminate.
  - destruct (eqb k0 k) eqn:E.
    + inversion H; subst. exists k0. split; [left; reflexivity | exact E].
    + destruct (IH H) as [k1 [Hin Hk]]. exists k1. split; [right|]; assumption.
Qed.

End MapInvariants.

Section SortByKey.
Context {A : Type} (cmp : A -> A -> Q) (f : A -> Z).
Hypothesis cmp_key : forall a b, Js.leb (cmp a b) 0 = (f a <=? f b).




End SortByKey.


Lemma eqb_Qeq (x y : Q) : Js.eqb x y = true <-> (x == y)%Q.
Proof. unfold Js.eqb. apply Qeq_bool_iff. Qed.

Lemma eqb_refl_Q (x : Q) : Js.eqb x x = true.
Proof. apply eqb_Qeq. reflexivity. Qed.

(* ------------------------------------------------------------------ *)
(** ** Rule-tier voice separation *)

Lemma flat_map_pointwise_perm {A B} (f g : A -> list B) (l : list A) :
  (forall x, In x l -> Permutation (f x) (g x)) ->
  Permutation (flat_map f l) (flat_map g l).
Proof.
  induction l as [|x l IH]; intros H; simpl.
  - constructor.
  - apply Permutation_app; [apply H; left; reflexivity|].
    apply IH. intros y Hy. apply H. right; exact Hy.
Qed.

Lemma flat_map_head_tail {A B} (f : A -> list B) (l : list A) :
  Permutation (flat_map (fun x => firstn 1 (f x)) l
               ++ flat_map (fun x => skipn 1 (f x)) l)
              (flat_map f l).
Proof.
  induction l as [|x l IH]; simpl.
  - constructor.
  - rewrite <- (firstn_skipn 1 (f x)) at 3.
    rewrite <- !app_assoc. apply Permutation_app_head.
    rewrite <- IH. rewrite !app_assoc. apply Permutation_app_tail.
    apply Permutation_app_comm.
Qed.


Lemma extract_fold (beatGroups : BeatGroups) (bassFirst : bool) (beats : list Q) :
  forall lines,
    let r := fold_left (extractStep beatGroups bassFirst) beats lines in
    VoiceLines.primaryLine r
    = VoiceLines.primaryLine lines
      ++ flat_map (fun b => firstn 1 (groupInPitchOrder beatGroups bassFirst b)) beats /\
    VoiceLines.secondaryLine r
    = VoiceLines.secondaryLine lines
      ++ flat_map (fun b => skipn 1 (groupInPitchOrder beatGroups bassFirst b)) beats.
Proof.
  induction beats as [|b beats IH]; intros lines; simpl.
  - now rewrite !app_nil_r.
  - destruct (IH (extractStep beatGroups bassFirst lines b)) as [Hp Hs].
    rewrite Hp, Hs. unfold extractStep, groupInPitchOrder.
    destruct (Js.mapGet Js.eqb b beatGroups) as [g|]; simpl.
    + destruct (Js.sort (byPitch bassFirst) g) as [|first others]; simpl.
      * split; reflexivity.
      * now rewrite <- !app_assoc.
    + split; reflexivity.
Qed.


(** The groups of the non-embellishment notes. *)
Lemma groupNotesByBeat_invariants (mains : list Note.t) :
  keysDistinct Js.eqb (groupNotesByBeat mains) /\
  groupsMatch Js.eqb quantizedBeat (groupNotesByBeat mains) /\
  Permutation (flat_map snd (groupNotesByBeat mains)) mains.
Proof.
  unfold groupNotesByBeat.
  destruct (mapPush_fold_invariants Js.eqb quantizedBeat eqb_refl_Q mains [])
    as [Hd Hg]; [constructor | constructor |].
  split; [exact Hd|]. split; [exact Hg|].
  exact (mapPush_fold_values Js.eqb quantizedBeat mains []).
Qed.



Lemma groupInPitchOrder_entry (mains : list Note.t) (bassFirst : bool)
    (k : Q) (g : list Note.t) :
  In (k, g) (groupNotesByBeat mains) ->
  groupInPitchOrder (groupNotesByBeat mains) bassFirst k
  = Js.sort (byPitch bassFirst) g.
Proof.
  intros He. unfold groupInPitchOrder.
  destruct (groupNotesByBeat_invariants mains) as [Hd _].
  now rewrite (mapGet_In Js.eqb eqb_refl_Q k g _ Hd He).
Qed.


Lemma sort_not_empty {A} (cmp : A -> A -> Q) (l : list A) :
  l <> [] -> exists h t, Js.sort cmp l = h :: t.
Proof.
  intros Hne. destruct (Js.sort cmp l) as [|h t] eqn:E.
  - exfalso. apply Hne.
    pose proof (sort_perm cmp l) as Hp. rewrite E in Hp.
    apply Permutation_nil in Hp. exact Hp.
  - exists h, t. reflexivity.
Qed.


Lemma extractVoicesByPitch_lines (notes : list Note.t) (bassFirst : bool) :
  let mains := filter Note.isMain notes in
  let beats := Js.sort (fun a b => (a - b)%Q) (map fst (groupNotesByBeat mains)) in
  let lines := extractVoicesByPitch notes bassFirst in
  VoiceLines.primaryLine lines
  = flat_map (fun b => firstn 1 (groupInPitchOrder (groupNotesByBeat mains) bassFirst b))
             beats /\
  VoiceLines.secondaryLine lines
  = flat_map (fun b => skipn 1 (groupInPitchOrder (groupNotesByBeat mains) bassFirst b))
             beats.
Proof.
  intros mains beats lines. unfold lines, extractVoicesByPitch.
  fold mains. destruct mains as [|n0 ns] eqn:E.
  - split; reflexivity.
  - fold beats.
    exact (extract_fold (groupNotesByBeat (n0 :: ns)) bassFirst beats
             (VoiceLines.mk [] [])).
Qed.



(** Every non-embellishment note lands in exactly one of the two lines. *)
Lemma extract_partition (notes : list Note.t) (bassFirst : bool) :
  Permutation
    (VoiceLines.primaryLine (extractVoicesByPitch notes bassFirst)
     ++ VoiceLines.secondaryLine (extractVoicesByPitch notes bassFirst))
    (filter Note.isMain notes).
Proof.
  set (mains := filter Note.isMain notes).
  destruct (extractVoicesByPitch_lines notes bassFirst) as [Hprim Hsec].
  fold mains in Hprim, Hsec.
  destruct (groupNotesByBeat_invariants mains) as [_ [_ Hperm]].
  rewrite Hprim, Hsec, flat_map_head_tail.
  rewrite (Permutation_flat_map _ (sort_perm _ (map fst (groupNotesByBeat mains)))).
  rewrite flat_map_concat_map, map_map, <- flat_map_concat_map.
  transitivity (flat_map snd (groupNotesByBeat mains)); [|exact Hperm].
  apply flat_map_pointwise_perm.
  intros [k g] He. simpl.
  rewrite (groupInPitchOrder_entry mains bassFirst k g He).
  apply sort_perm.
Qed.



(* ------------------------------------------------------------------ *)
(** ** Locked notes *)

Lemma In_mapi {A B} (f : nat -> A -> B) (l : list A) (y : B) :
  forall i, In y (mapi i f l) -> exists k x, In x l /\ y = f k x.
Proof.
  induction l as [|x l IH]; intros i H; simpl in H.
  - destruct H.
  - destruct H as [<-|H].
    + exists i, x. split; [left; reflexivity | reflexivity].
    + destruct (IH _ H) as [k [x' [Hx Hy]]].
      exists k, x'. split; [right; exact Hx | exact Hy].
Qed.

Lemma assignVoicePart_fields (v : Voices.t) (n : Note.t) :
  Note.isLocked (assignVoicePart v n) = Note.isLocked n /\
  Note.isMain (assignVoicePart v n) = Note.isMain n.
Proof.
  unfold assignVoicePart.
  repeat match goal with
         | |- context [if ?c then _ else _] => destruct c
         end; split; reflexivity.
Qed.

Lemma applyLock_locked_main (ts : TimeSignature.t) (measureNotes : list Note.t)
    (noteIdx : nat) (note : Note.t) :
  Note.isLocked note = false ->
  Note.isLocked (applyLock ts measureNotes noteIdx note) = true ->
  Note.isMain (applyLock ts measureNotes noteIdx note) = true.
Proof.
  intros Hfalse. unfold applyLock.
  destruct (lockDecision ts measureNotes noteIdx note) as [r|] eqn:E.
  - intros _. destruct (Note.isMain note) eqn:Em.
    + unfold Note.isMain in *. exact Em.
    + unfold lockDecision in E. rewrite Em in E. discriminate E.
  - intros H. congruence.
Qed.

(** The analyzer never locks an embellishment-tagged note. *)
Lemma analyzeScore_locked_main (score : ParsedScore.t) (scoreType : ScoreType)
    (m : Measure.t) (n : Note.t) :
  In m (AnalyzedScore.measures (analyzeScore score scoreType)) ->
  In n (Measure.notes m) -> Note.isLocked n = true -> Note.isMain n = true.
Proof.
  unfold analyzeScore. cbn [AnalyzedScore.measures].
  intros Hm Hn Hl.
  apply in_map_iff in Hm. destruct Hm as [m1 [<- Hm1]].
  cbn [Measure.notes] in Hn.
  apply in_map_iff in Hn. destruct Hn as [n1 [<- Hn1]].
  destruct (assignVoicePart_fields
              (match scoreType with
               | single_staff => Voices.mk [] [] [] []
               | grand_staff =>
                   identifyVoices
                     (flat_map Measure.notes
                        (map (analyzeMeasure scoreType
                                (ScoreMetadata.timeSignature
                                   (ParsedScore.metadata score)))
                             (ParsedScore.measures score)))
               end) n1) as [El Em].
  rewrite El in Hl. rewrite Em.
  apply in_map_iff in Hm1. destruct Hm1 as [m0 [<- _]].
  unfold analyzeMeasure in Hn1. cbn [Measure.notes] in Hn1.
  apply In_mapi in Hn1. destruct Hn1 as [k [x [Hx ->]]].
  apply applyLock_locked_main; [|exact Hl].
  apply in_map_iff in Hx. destruct Hx as [x0 [<- _]]. reflexivity.
Qed.

Lemma updateAt_map {A B} (g : A -> B) (f : A -> A) :
  (forall x, g (f x) = g x) ->
  forall l i, map g (updateAt i f l) = map g l.
Proof.
  intros H l. induction l as [|x l IH]; intros i; simpl; [reflexivity|].
  destruct i; simpl; [now rewrite H | now rewrite IH].
Qed.

Lemma level5Mark_core (mainNotes : list Note.t) (emb : Note.t) :
  map coreOf (level5Mark mainNotes emb) = map coreOf mainNotes.
Proof.
  unfold level5Mark.
  destruct (nearestMainFrom 0 (Note.startBeat emb) mainNotes None) as [[i d]|];
    [|reflexivity].
  apply updateAt_map. intros x. reflexivity.
Qed.

Lemma level5_marks_core (embs mainNotes : list Note.t) :
  map coreOf (fold_left level5Mark embs mainNotes) = map coreOf mainNotes.
Proof.
  revert mainNotes; induction embs as [|e embs IH]; intros mainNotes; simpl.
  - reflexivity.
  - now rewrite IH, level5Mark_core.
Qed.

(** At Level 4 and Level 5 a locked main note keeps identifier, pitch, start
    beat and duration. *)
Lemma single_staff_keeps_locked (m : Measure.t) (level : option Z)
    (ts : TimeSignature.t) (x : Note.t) :
  protectsLocks level ->
  In x (Measure.notes m) -> Note.isLocked x = true -> Note.isMain x = true ->
  exists x', In x' (Measure.notes (applySingleStaffSimplification m level ts)) /\
             coreOf x' = coreOf x.
Proof.
  intros [->| ->] Hx Hl Hm; cbn [applySingleStaffSimplification].
  - exists x. split; [|reflexivity].
    apply applyLevel4_keeps; [exact Hx | exact Hm |].
    unfold level4Keeps. now rewrite Hl.
  - unfold applyLevel5. cbn [Measure.notes].
    assert (Hin : In (coreOf x)
                     (map coreOf
                        (fold_left level5Mark
                           (filter (fun n => negb (Note.isMain n)) (Measure.notes m))
                           (filter Note.isMain (Measure.notes m))))).
    { rewrite level5_marks_core. apply in_map. apply filter_In. split; assumption. }
    apply in_map_iff in Hin. destruct Hin as [x' [Hc Hx']].
    exists x'. split; assumption.
Qed.

Lemma simplifyVoice_keeps_locked (measure : Measure.t) (xs : list Note.t)
    (level : option Z) (ts : TimeSignature.t) (x : Note.t) :
  protectsLocks level ->
  In x xs -> Note.isLocked x = true -> Note.isMain x = true ->
  exists x', In x' (simplifyVoice measure xs level ts) /\ coreOf x' = coreOf x.
Proof.
  intros Hp Hx Hl Hm. unfold simplifyVoice.
  destruct xs as [|x0 xs0]; [destruct Hx|].
  apply single_staff_keeps_locked; assumption.
Qed.

Lemma core_survives (n n' : Note.t) (m' : Measure.t) :
  In n' (Measure.notes m') -> coreOf n' = coreOf n -> survivesIn n m'.
Proof.
  intros Hin Hc. exists n'. unfold coreOf in Hc. inversion Hc.
  repeat split; assumption.
Qed.

(** A note handed to a voice, simplified at a protecting level and
    re-tagged, survives in any measure holding the re-tagged voice. *)
Lemma voice_member_survives (measure m' : Measure.t) (xs : list Note.t)
    (level : option Z) (ts : TimeSignature.t) (n : Note.t)
    (vp vp' : VoicePart) (s v : Z) :
  protectsLocks level ->
  In (Note.set_voicePart (Some vp) n) xs ->
  Note.isLocked n = true -> Note.isMain n = true ->
  (forall y, In y (map (Note.retag s vp' v) (simplifyVoice measure xs level ts)) ->
             In y (Measure.notes m')) ->
  survivesIn n m'.
Proof.
  intros Hp Hx Hl Hm Hsub.
  destruct (simplifyVoice_keeps_locked measure xs level ts
              (Note.set_voicePart (Some vp) n) Hp Hx Hl Hm) as [x' [Hx' Hc]].
  apply (core_survives n (Note.retag s vp' v x') m').
  - apply Hsub. apply in_map. exact Hx'.
  - unfold coreOf in *. simpl in *. exact Hc.
Qed.

Lemma levelOr_idem (level : option Z) (d d' : Z) :
  d <> 0 -> levelOr (levelOr level d) d' = levelOr level d.
Proof.
  intros Hd. unfold levelOr.
  destruct level as [l|].
  - destruct (l =? 0) eqn:E.
    + apply Z.eqb_neq in Hd. now rewrite Hd.
    + now rewrite E.
  - apply Z.eqb_neq in Hd. now rewrite Hd.
Qed.

Lemma defaultSoprano_nonzero (l : option Z) : getDefaultSopranoLevel l <> 0.
Proof.
  unfold getDefaultSopranoLevel.
  destruct l as [[|p|p]|]; try discriminate.
  do 3 (destruct p as [p|p|]; try discriminate).
Qed.

Lemma defaultBass_nonzero (l : option Z) : getDefaultBassLevel l <> 0.
Proof.
  unfold getDefaultBassLevel.
  destruct l as [[|p|p]|]; try discriminate.
  do 3 (destruct p as [p|p|]; try discriminate).
Qed.

Lemma staff_member_in_lines (m : Measure.t) (s : Z) (bassFirst : bool) (n : Note.t) :
  In n (Measure.notes m) -> Note.staff n = s -> Note.isMain n = true ->
  In n (VoiceLines.primaryLine (extractVoicesByPitch (staffNotes s m) bassFirst)) \/
  In n (VoiceLines.secondaryLine (extractVoicesByPitch (staffNotes s m) bassFirst)).
Proof.
  intros Hn Hs Hm.
  apply in_app_or.
  apply (Permutation_in n (Permutation_sym (extract_partition _ bassFirst))).
  apply filter_In. split; [|exact Hm].
  unfold staffNotes. apply filter_In. split; [exact Hn|].
  apply Z.eqb_eq. exact Hs.
Qed.

(** C2 (as amended).  A note the analyzer has locked keeps its pitch, start
    beat and duration in the simplified measure (a) in a single-staff score
    at Level 4 or 5, (b) in a grand-staff score at Level 5 when the soprano
    and bass sub-levels in force are 4 or 5 (their default there is 5), for
    notes of staff 1 or 2, and (c) in a grand-staff score at Level 4 when the
    note belongs to the soprano line and the soprano sub-level in force is 4
    or 5 (its default there is 4).  An anacrusis first measure is covered in
    all three cases.  Nothing is promised for the alto and tenor lines of
    grand-staff Level 4, which are reduced to strong beats, nor for a bass
    line simplified below Level 4. *)
Theorem locked_notes_survive_protecting_levels :
  forall (score : ParsedScore.t) (scoreType : ScoreType) (config : Config.t)
         (k : nat) (m m' : Measure.t) (n : Note.t),
    nth_error (AnalyzedScore.measures (analyzeScore score scoreType)) k = Some m ->
    nth_error (SimplifiedScore.measures
                 (simplifyScore (analyzeScore score scoreType) config)) k
      = Some m' ->
    In n (Measure.notes m) ->
    Note.isLocked n = true ->
    lockProtected scoreType config m n ->
    survivesIn n m'.
Proof.
  intros score scoreType config k m m' n Hk Hk' Hn Hl Hprot.
  assert (Hm : Note.isMain n = true).
  { eapply analyzeScore_locked_main; eauto. eapply nth_error_In; eauto. }
  unfold simplifyScore in Hk'. cbn [SimplifiedScore.measures] in Hk'.
  rewrite mapi_nth_error, Hk in Hk'. cbn [option_map] in Hk'.
  inversion Hk' as [Em']. clear Hk'.
  unfold simplifyMeasure.
  match goal with
  | |- context [if ?c then preserveAnacrusis m else _] => destruct c
  end.
  - (* the anacrusis measure *)
    apply (core_survives n n); [|reflexivity].
    unfold preserveAnacrusis. cbn [Measure.notes].
    apply filter_In. split; assumption.
  - change (AnalyzedScore.scoreType (analyzeScore score scoreType)) with scoreType.
    set (ts := ScoreMetadata.timeSignature
                 (AnalyzedScore.metadata (analyzeScore score scoreType))).
    destruct scoreType; cbn [lockProtected] in Hprot.
    + destruct (single_staff_keeps_locked m (Config.mainLevel config) ts n
                  Hprot Hn Hl Hm) as [x' [Hx' Hc]].
      exact (core_survives n x' _ Hx' Hc).
    + unfold effectiveSopranoLevel, effectiveBassLevel in Hprot.
      destruct Hprot as [[Hml [Hs [Hb Hstaff]]] | [Hml [Hs Hprim]]];
        rewrite Hml in *.
      * (* grand staff, Level 5 *)
        cbn [applyGrandStaffSimplification].
        unfold applyGrandStaffLevel5.
        cbn [Config.sopranoLevel Config.bassLevel].
        rewrite (levelOr_idem _ _ 5 (defaultSoprano_nonzero _)).
        rewrite (levelOr_idem _ _ 5 (defaultBass_nonzero _)).
        destruct Hstaff as [Hst|Hst].
        -- destruct (staff_member_in_lines m 1 false n Hn Hst Hm) as [Hp|Hp].
           ++ eapply (voice_member_survives m _ _ _ ts n soprano soprano 1 1 Hs).
              ** unfold separateVoices. cbn [Voices.soprano].
                 apply in_map. exact Hp.
              ** exact Hl.
              ** exact Hm.
              ** intros y Hy. cbn [Measure.notes]. apply in_or_app. left. exact Hy.
           ++ eapply (voice_member_survives m _ _ _ ts n alto alto 1 2
                        (or_intror eq_refl)).
              ** unfold separateVoices. cbn [Voices.alto].
                 apply in_map. exact Hp.
              ** exact Hl.
              ** exact Hm.
              ** intros y Hy. cbn [Measure.notes].
                 apply in_or_app. right. apply in_or_app. left. exact Hy.
        -- destruct (staff_member_in_lines m 2 true n Hn Hst Hm) as [Hp|Hp].
           ++ eapply (voice_member_survives m _ _ _ ts n bass bass 2 2 Hb).
              ** unfold separateVoices. cbn [Voices.bass].
                 apply in_map. exact Hp.
              ** exact Hl.
              ** exact Hm.
              ** intros y Hy. cbn [Measure.notes].
                 apply in_or_app. right. apply in_or_app. right.
                 apply in_or_app. right. exact Hy.
           ++ eapply (voice_member_survives m _ _ _ ts n tenor tenor 2 1
                        (or_intror eq_refl)).
              ** unfold separateVoices. cbn [Voices.tenor].
                 apply in_map. exact Hp.
              ** exact Hl.
              ** exact Hm.
              ** intros y Hy. cbn [Measure.notes].
                 apply in_or_app. right. apply in_or_app. right.
                 apply in_or_app. left. exact Hy.
      * (* grand staff, Level 4, soprano line *)
        cbn [applyGrandStaffSimplification].
        unfold applyGrandStaffLevel4.
        cbn [Config.sopranoLevel Config.bassLevel].
        rewrite (levelOr_idem _ _ 4 (defaultSoprano_nonzero _)).
        eapply (voice_member_survives m _ _ _ ts n soprano soprano 1 1 Hs).
        -- unfold separateVoices. cbn [Voices.soprano].
           apply in_map. exact Hprim.
        -- exact Hl.
        -- exact Hm.
        -- intros y Hy. cbn [Measure.notes]. apply in_or_app. left. exact Hy.
Qed.

(** The analyzer locks the held D3 as a syncopation; grand-staff Level 4
    runs the bass line through Level 2, which moves it to beat 3. *)
Example syncopated_sample_trace :
  (Note.isLocked lockedD3 = true /\
   Note.lockReason lockedD3 = Some syncopation /\
   Note.startBeat lockedD3 = 2%Q) /\
  map (fun n => (Note.id n, Note.startBeat n, Duration.ticks (Note.duration n),
                 Note.staff n, Note.voice n))
      (Measure.notes simplifiedSyncopatedL4)
  = [(1%nat, 1%Q, 4096, 1, 1); (2%nat, 1%Q, 2048, 2, 2); (3%nat, 3%Q, 2048, 2, 2)] /\
  map (fun n => (Note.id n, Note.startBeat n, Duration.ticks (Note.duration n),
                 Note.staff n, Note.voice n))
      (Measure.notes simplifiedSyncopatedL5)
  = [(1%nat, 1%Q, 4096, 1, 1); (2%nat, 1%Q, 1024, 2, 2); (3%nat, 2%Q, 2048, 2, 2)].
Proof. vm_compute. repeat split; reflexivity. Qed.

Lemma locked_notes_survive_protecting_levels_witness :
  survivesIn lockedD3 simplifiedSyncopatedL5.
Proof.
  apply (locked_notes_survive_protecting_levels syncopatedScore grand_staff
           (Config.mk (Some 5) None None) 0 analyzedSyncopatedMeasure
           simplifiedSyncopatedL5 lockedD3).
  - vm_compute. reflexivity.
  - vm_compute. reflexivity.
  - vm_compute. right. right. left. reflexivity.
  - vm_compute. reflexivity.
  - simpl. left. repeat split.
    + right. reflexivity.
    + right. reflexivity.
    + right. reflexivity.
Defined.

(** C2, counterexample: grand staff, Level 4, default sub-levels.  The
    locked half note D3 of beat 2 belongs to the bass line, which is
    simplified at Level 2: it comes out at beat 3. *)
Lemma grand_staff_level4_moves_locked_bass_note :
  ~ lockedNotesSurvive (analyzeScore syncopatedScore grand_staff)
      (Config.mk (Some 4) None None).
Proof.
  intros H.
  specialize (H 0%nat analyzedSyncopatedMeasure simplifiedSyncopatedL4 lockedD3).
  destruct H as [n' [Hin [Hp [Hs Hd]]]].
  - vm_compute. reflexivity.
  - vm_compute. reflexivity.
  - vm_compute. right. right. left. reflexivity.
  - vm_compute. reflexivity.
  - vm_compute in Hin.
    destruct Hin as [<-|[<-|[<-|[]]]].
    + vm_compute in Hp. discriminate Hp.
    + vm_compute in Hp. discriminate Hp.
    + vm_compute in Hs. discriminate Hs.
Qed.

(* ------------------------------------------------------------------ *)
(** ** Exporter: rests and voices *)

Lemma findFrom_In {A} (p : A -> bool) (l : list A) :
  forall i k x, Js.findFrom i p l = Some (k, x) -> In x l /\ p x = true.
Proof.
  induction l as [|y l IH]; intros i k x H; simpl in H.
  - discriminate.
  - destruct (p y) eqn:E.
    + inversion H; subst. split; [left; reflexivity | exact E].
    + destruct (IH _ _ _ H) as [Hin Hp]. split; [right; exact Hin | exact Hp].
Qed.

Lemma restValues_at_least (divisions : Z) (d : Q) (ty : XmlType) :
  0 < divisions -> In (d, ty) (restValues divisions) ->
  (inject_Z divisions / 8 <= d)%Q.
Proof.
  intros Hdiv Hin.
  assert (Hpos : (0 < inject_Z divisions)%Q).
  { change 0%Q with (inject_Z 0). rewrite <- Zlt_Qlt. lia. }
  assert (Hscale : forall c : Q, (1 # 8 <= c)%Q ->
                     (inject_Z divisions / 8 <= inject_Z divisions * c)%Q).
  { intros c Hc. unfold Qdiv. apply (proj2 (Qmult_le_l _ _ _ Hpos)). exact Hc. }
  unfold restValues in Hin. simpl in Hin.
  destruct Hin as [E|[E|[E|[E|[E|[E|[]]]]]]]; inversion E; subst; clear E.
  - rewrite inject_Z_mult. apply Hscale. discriminate.
  - rewrite inject_Z_mult. apply Hscale. discriminate.
  - rewrite <- (Qmult_1_r (inject_Z divisions)) at 2. apply Hscale. discriminate.
  - apply Hscale. discriminate.
  - apply Hscale. discriminate.
  - apply Qle_refl.
Qed.

(** With positive [divisions] the rest loop exits within its budget, and
    writes rests of the requested voice and staff only. *)
Lemma restsLoop_total (voice staff divisions : Z) :
  0 < divisions ->
  forall fuel remaining,
    (remaining < inject_Z (Z.of_nat fuel) * (inject_Z divisions / 8))%Q ->
    exists xml, restsLoop fuel remaining voice staff divisions = Some xml /\
                taggedWith staff voice xml.
Proof.
  intros Hdiv.
  assert (Hunit : (0 < inject_Z divisions / 8)%Q).
  { unfold Qdiv. apply Qmult_lt_0_compat; [|reflexivity].
    change 0%Q with (inject_Z 0). rewrite <- Zlt_Qlt. lia. }
  induction fuel as [|fuel IH]; intros remaining Hrem.
  - exists []. split; [|constructor].
    simpl. destruct (Js.ltb (1 # 2) remaining) eqn:E; [|reflexivity].
    exfalso. apply ltb_lt in E.
    assert (Hneg : (remaining < 0)%Q).
    { eapply Qlt_le_trans; [exact Hrem|]. apply Qle_lteq; right.
      simpl. ring. }
    apply (Qlt_irrefl (1 # 2)).
    eapply Qlt_trans; [exact E|]. eapply Qlt_trans; [exact Hneg | reflexivity].
  - cbn [restsLoop].
    destruct (Js.ltb (1 # 2) remaining); [|exists []; split; [reflexivity|constructor]].
    unfold firstFitting.
    destruct (Js.find _ (restValues divisions)) as [[i [d ty]]|] eqn:Ef;
      cbn [option_map snd];
      [|exists []; split; [reflexivity|constructor]].
    apply findFrom_In in Ef. destruct Ef as [Hin _].
    pose proof (restValues_at_least divisions d ty Hdiv Hin) as Hd.
    destruct (IH (remaining - d)%Q) as [xml [Hx Ht]].
    + rewrite Nat2Z.inj_succ in Hrem. unfold Z.succ in Hrem.
      rewrite inject_Z_plus in Hrem.
      apply Qplus_lt_l with (z := d).
      eapply Qlt_le_trans.
      * assert (E : (remaining - d + d == remaining)%Q) by ring.
        rewrite E. exact Hrem.
      * assert (E : ((inject_Z (Z.of_nat fuel) + inject_Z 1) * (inject_Z divisions / 8)
                     == inject_Z (Z.of_nat fuel) * (inject_Z divisions / 8)
                        + inject_Z divisions / 8)%Q) by (simpl; ring).
        rewrite E. apply Qplus_le_r. exact Hd.
    + rewrite Hx. eexists. split; [reflexivity|].
      constructor; [reflexivity | exact Ht].
Qed.

Lemma generateRestsForDuration_total (totalDuration voice staff divisions : Z) :
  0 < divisions ->
  exists xml, generateRestsForDuration totalDuration voice staff divisions = Some xml /\
              taggedWith staff voice xml.
Proof.
  intros Hdiv. unfold generateRestsForDuration, restsBudget.
  apply restsLoop_total; [exact Hdiv|].
  set (q := totalDuration * 8 / divisions).
  assert (Hq : totalDuration * 8 < divisions * (q + 1)).
  { unfold q. pose proof (Z.mul_succ_div_gt (totalDuration * 8) divisions Hdiv).
    unfold Z.succ in *. lia. }
  assert (Hfuel : q + 1 <= Z.of_nat (S (Z.to_nat q))) by lia.
  assert (Hdq : (0 < inject_Z divisions)%Q).
  { change 0%Q with (inject_Z 0). rewrite <- Zlt_Qlt. lia. }
  apply Qmult_lt_r with (z := 8%Q); [reflexivity|].
  eapply Qlt_le_trans with (y := (inject_Z divisions * inject_Z (q + 1))%Q).
  - change 8%Q with (inject_Z 8). rewrite <- !inject_Z_mult, <- Zlt_Qlt. exact Hq.
  - eapply Qle_trans with
      (y := (inject_Z divisions * inject_Z (Z.of_nat (S (Z.to_nat q))))%Q).
    + apply (proj2 (Qmult_le_l _ _ _ Hdq)). rewrite <- Zle_Qle. exact Hfuel.
    + apply Qle_lteq; right. field.
Qed.

Lemma chordXML_tagged (notes : list Note.t) (divisions voice staff : Z)
    (stemDirection : option Stem) :
  forall noteIdx,
    taggedWith staff voice
      (chordXML notes noteIdx divisions voice staff stemDirection).
Proof.
  induction notes as [|n notes IH]; intros noteIdx; simpl.
  - constructor.
  - constructor; [reflexivity | apply IH].
Qed.

Lemma groupStep_total (voice staff divisions : Z) (stemDirection : option Stem)
    (c : Cursor.t) (group : PosGroup.t) :
  0 < divisions -> PosGroup.notes group <> [] ->
  taggedWith staff voice (Cursor.xml c) ->
  exists c', groupStep voice staff divisions stemDirection (Some c) group = Some c' /\
             taggedWith staff voice (Cursor.xml c').
Proof.
  intros Hdiv Hne Ht. unfold groupStep.
  destruct (PosGroup.notes group) as [|first others] eqn:En; [congruence|].
  destruct (Cursor.currentPosition c <? positionOf (PosGroup.startBeat group) divisions).
  - destruct (generateRestsForDuration_total
                (positionOf (PosGroup.startBeat group) divisions
                 - Cursor.currentPosition c) voice staff divisions Hdiv)
      as [rests [-> Hr]].
    eexists. split; [reflexivity|]. cbn [Cursor.xml].
    apply Forall_app. split; [apply Forall_app; split; assumption|].
    apply chordXML_tagged.
  - eexists. split; [reflexivity|]. cbn [Cursor.xml].
    apply Forall_app. split; [exact Ht | apply chordXML_tagged].
Qed.

Lemma positionStep_not_empty (divisions : Z) (groups : list PosGroup.t)
    (note : Note.t) :
  Forall (fun g => PosGroup.notes g <> []) groups ->
  Forall (fun g => PosGroup.notes g <> []) (positionStep divisions groups note).
Proof.
  intros H. unfold positionStep.
  destruct (rev groups) as [|currentGroup before] eqn:Er.
  - constructor; [discriminate | constructor].
  - destruct (Js.ltb _ _).
    + apply Forall_app. split; [exact H|]. constructor; [discriminate | constructor].
    + apply Forall_app. split.
      * apply Forall_rev.
        assert (Hr : Forall (fun g => PosGroup.notes g <> []) (rev groups))
          by (apply Forall_rev; exact H).
        rewrite Er in Hr. inversion Hr; assumption.
      * constructor; [|constructor]. cbn [PosGroup.notes].
        intros Habs. apply app_eq_nil in Habs. destruct Habs; discriminate.
Qed.

Lemma groupNotesByPosition_not_empty (notes : list Note.t) (divisions : Z) :
  Forall (fun g => PosGroup.notes g <> []) (groupNotesByPosition notes divisions).
Proof.
  unfold groupNotesByPosition.
  assert (H : forall groups,
             Forall (fun g => PosGroup.notes g <> []) groups ->
             Forall (fun g => PosGroup.notes g <> [])
                    (fold_left (positionStep divisions) notes groups)).
  { induction notes as [|n notes IH]; intros groups Hg; simpl.
    - exact Hg.
    - apply IH, positionStep_not_empty, Hg. }
  apply H. constructor.
Qed.

Lemma groups_fold_total (voice staff divisions : Z) (stemDirection : option Stem)
    (groups : list PosGroup.t) :
  0 < divisions ->
  Forall (fun g => PosGroup.notes g <> []) groups ->
  forall c, taggedWith staff voice (Cursor.xml c) ->
    exists c',
      fold_left (groupStep voice staff divisions stemDirection) groups (Some c)
      = Some c' /\
      taggedWith staff voice (Cursor.xml c').
Proof.
  intros Hdiv Hg. induction Hg as [|g groups Hne _ IH]; intros c Ht;
    cbn [fold_left].
  - exists c. split; [reflexivity | exact Ht].
  - destruct (groupStep_total voice staff divisions stemDirection c g Hdiv Hne Ht)
      as [c1 [-> Ht1]].
    apply IH, Ht1.
Qed.

(** A voice is always written when [divisions] is positive, with events of
    its own staff and voice only. *)
Lemma generateVoiceXMLAligned_total (notes : list Note.t)
    (voice staff divisions measureDuration : Z) (stemDirection : option Stem) :
  0 < divisions ->
  exists r,
    generateVoiceXMLAligned notes voice staff divisions measureDuration stemDirection
    = Some r /\
    taggedWith staff voice (VoiceXml.xml r).
Proof.
  intros Hdiv. unfold generateVoiceXMLAligned.
  destruct notes as [|n0 ns].
  - eexists. split; [reflexivity|].
    constructor; [reflexivity | constructor].
  - destruct (groups_fold_total voice staff divisions stemDirection
                (groupNotesByPosition (Js.sort byStartBeat (n0 :: ns)) divisions)
                Hdiv (groupNotesByPosition_not_empty _ _)
                (Cursor.mk [] 0 0)) as [c [-> Ht]]; [constructor|].
    destruct (Cursor.currentPosition c <? measureDuration).
    + destruct (generateRestsForDuration_total
                  (measureDuration - Cursor.currentPosition c) voice staff
                  divisions Hdiv) as [rests [-> Hr]].
      eexists. split; [reflexivity|]. cbn [VoiceXml.xml].
      apply Forall_app. split; assumption.
    + eexists. split; [reflexivity | exact Ht].
Qed.

Lemma voiceXml_total (notes : list Note.t)
    (voice staff divisions measureDuration : Z) (stemDirection : option Stem) :
  0 < divisions ->
  exists xml,
    voiceXml notes voice staff divisions measureDuration stemDirection = Some xml /\
    taggedWith staff voice xml.
Proof.
  intros Hdiv. unfold voiceXml.
  destruct (generateVoiceXMLAligned_total notes voice staff divisions
              measureDuration stemDirection Hdiv) as [r [-> Ht]].
  exists (VoiceXml.xml r). split; [reflexivity | exact Ht].
Qed.

Lemma tagged_staffOnly (staff voice : Z) (xml : list XmlEvent) :
  taggedWith staff voice xml -> staffOnly staff xml.
Proof.
  unfold taggedWith, staffOnly. intros H.
  eapply Forall_impl; [|exact H]. intros e He. now rewrite He.
Qed.

Lemma filter_voice_tagged_other (s v s' v' : Z) (xml : list XmlEvent) :
  taggedWith s v xml -> (s', v') <> (s, v) -> filter (inVoiceXml s' v') xml = [].
Proof.
  intros Ht Hne. apply filter_all_false.
  eapply Forall_impl; [|exact Ht]. intros e He. unfold inVoiceXml. rewrite He.
  apply andb_false_iff.
  destruct (Z.eqb_spec s s'); [|left; reflexivity].
  destruct (Z.eqb_spec v v'); [|right; reflexivity].
  subst. exfalso. apply Hne. reflexivity.
Qed.

Lemma filter_voice_other_staff (s s' v' : Z) (xml : list XmlEvent) :
  staffOnly s xml -> s' <> s -> filter (inVoiceXml s' v') xml = [].
Proof.
  intros Ht Hne. apply filter_all_false.
  eapply Forall_impl; [|exact Ht]. intros e. unfold inVoiceXml.
  destruct (eventVoice e) as [[s0 v0]|]; [|reflexivity].
  intros ->. apply andb_false_iff. left. apply Z.eqb_neq. congruence.
Qed.

Lemma filter_staff_other (s s' : Z) (xml : list XmlEvent) :
  staffOnly s xml -> s' <> s -> filter (onStaff s') xml = [].
Proof.
  intros Ht Hne. apply filter_all_false.
  eapply Forall_impl; [|exact Ht]. intros e. unfold onStaff.
  destruct (eventVoice e) as [[s0 v0]|]; [|reflexivity].
  intros ->. apply Z.eqb_neq. congruence.
Qed.

Ltac write_voices Hdiv :=
  repeat match goal with
         | |- context [voiceXml ?n ?v ?s ?d ?m ?st] =>
             let xml := fresh "xml" in
             let Ht := fresh "Ht" in
             destruct (voiceXml_total n v s d m st Hdiv) as [xml [-> Ht]]
         end.

(** The upper staff: always written on staff 1; one full-measure rest when
    there is nothing to write; voice 1 only when there is no alto; no voice-1
    event when there is an alto but no soprano. *)
Lemma upperStaffXML_spec (sopranoN altoN upperNotes : list Note.t)
    (divisions measureDuration : Z) :
  0 < divisions ->
  exists xml,
    upperStaffXML sopranoN altoN upperNotes divisions measureDuration = Some xml /\
    staffOnly 1 xml /\
    (sopranoN = [] -> altoN = [] -> upperNotes = [] ->
     xml = [MeasureRestXml measureDuration 1 1]) /\
    (altoN = [] -> taggedWith 1 1 xml) /\
    (sopranoN = [] -> altoN <> [] -> filter (inVoiceXml 1 1) xml = []).
Proof.
  intros Hdiv. unfold upperStaffXML.
  destruct sopranoN as [|s0 ss], altoN as [|a0 aa], upperNotes as [|u0 uu];
    cbn [isEmpty negb orb andb]; write_voices Hdiv; cbn [appendXml];
    eexists; (split; [reflexivity|]);
    repeat split; try discriminate; try congruence; try reflexivity;
    try (intros; assumption);
    try (repeat (apply Forall_app; split));
    try (eapply tagged_staffOnly; eassumption);
    try (repeat constructor; fail);
    try (intros; cbn [app filter inVoiceXml eventVoice];
         eapply filter_voice_tagged_other; [eassumption | discriminate]).
Qed.

(** The lower staff: always written on staff 2; one full-measure rest of
    voice 3 when there is nothing to write; voice 4 only when there is no
    tenor; voice 3 only when there is a tenor but no bass. *)
Lemma lowerStaffXML_spec (tenorN bassN lowerNotes : list Note.t)
    (divisions measureDuration : Z) :
  0 < divisions ->
  exists xml,
    lowerStaffXML tenorN bassN lowerNotes divisions measureDuration = Some xml /\
    staffOnly 2 xml /\
    (tenorN = [] -> bassN = [] -> lowerNotes = [] ->
     xml = [MeasureRestXml measureDuration 3 2]) /\
    (tenorN = [] -> bassN <> [] \/ lowerNotes <> [] -> taggedWith 2 4 xml) /\
    (bassN = [] -> tenorN <> [] -> taggedWith 2 3 xml).
Proof.
  intros Hdiv. unfold lowerStaffXML.
  destruct tenorN as [|t0 tt], bassN as [|b0 bb], lowerNotes as [|l0 ll];
    cbn [isEmpty negb orb andb]; write_voices Hdiv; cbn [appendXml];
    eexists; (split; [reflexivity|]);
    repeat split; try discriminate; try congruence; try reflexivity;
    try (intros; assumption);
    try (intros _ [H|H]; congruence);
    try (rewrite ?app_nil_r; intros; assumption);
    try (repeat (apply Forall_app; split));
    try (eapply tagged_staffOnly; eassumption);
    try (repeat constructor; fail).
Qed.

Lemma isEmpty_nil {A} (l : list A) : isEmpty l = true -> l = [].
Proof. destruct l; [reflexivity | discriminate]. Qed.

Lemma isEmpty_false {A} (l : list A) : isEmpty l = false -> l <> [].
Proof. destruct l; [discriminate | intros _; discriminate]. Qed.

(** With positive [divisions] a measure is always written. *)
Lemma generateMeasureXML_total (measure : Measure.t) (isFirst : bool)
    (metadata : ScoreMetadata.t) (divisions : Z) (scoreType : ScoreType) :
  0 < divisions ->
  exists xml,
    generateMeasureXML measure isFirst metadata divisions scoreType = Some xml.
Proof.
  intros Hdiv. unfold generateMeasureXML.
  destruct scoreType.
  - unfold generateSingleStaffMeasureXML.
    destruct (Measure.notes measure) as [|n0 ns].
    + eexists. reflexivity.
    + destruct (generateVoiceXMLAligned_total (n0 :: ns) 1 1 divisions
                  (TimeSignature.beats (ScoreMetadata.timeSignature metadata)
                   * divisions) None Hdiv) as [r [-> _]].
      eexists. reflexivity.
  - unfold generateGrandStaffMeasureXML.
    match goal with
    | |- context [upperStaffXML ?a ?b ?c ?d ?e] =>
        destruct (upperStaffXML_spec a b c d e Hdiv) as [u [-> _]]
    end.
    match goal with
    | |- context [lowerStaffXML ?a ?b ?c ?d ?e] =>
        destruct (lowerStaffXML_spec a b c d e Hdiv) as [l [-> _]]
    end.
    eexists. reflexivity.
Qed.

(** C9 (as amended).  [generateVoiceXMLAligned] on an empty note list
    returns exactly one full-measure rest of the voice and staff it was
    called for, of duration beats * divisions.  A single-staff measure
    without notes, and each staff of a grand-staff measure that has nothing
    to write, is exported as exactly one full-measure rest (voice 1 on
    staff 1, voice 3 on staff 2).  A voice that is empty while its staff has
    notes in the other voice is not written at all: no rest is exported for
    it.  With positive divisions the exporter always produces the measure. *)
Theorem empty_staff_exports_one_full_measure_rest :
  forall (notes : list Note.t) (divisions measureDuration : Z)
         (ts : TimeSignature.t),
    0 < divisions ->
    (forall voice staff stem,
        generateVoiceXMLAligned [] voice staff divisions measureDuration stem
        = Some (VoiceXml.mk [MeasureRestXml measureDuration voice staff]
                            measureDuration)) /\
    generateSingleStaffMeasureXML [] divisions ts measureDuration
    = Some [MeasureRestXml measureDuration 1 1] /\
    (exists xml,
        generateGrandStaffMeasureXML notes divisions ts measureDuration = Some xml /\
        (upperStaffEmpty notes = true ->
         filter (onStaff 1) xml = [MeasureRestXml measureDuration 1 1]) /\
        (lowerStaffEmpty notes = true ->
         filter (onStaff 2) xml = [MeasureRestXml measureDuration 3 2]) /\
        (filter (inVoice alto 1 2) notes = [] ->
         filter (inVoiceXml 1 2) xml = []) /\
        (filter (inVoice tenor 2 1) notes = [] -> lowerStaffEmpty notes = false ->
         filter (inVoiceXml 2 3) xml = []) /\
        (filter (inVoice soprano 1 1) notes = [] ->
         filter (inVoice alto 1 2) notes <> [] ->
         filter (inVoiceXml 1 1) xml = []) /\
        (filter (inVoice bass 2 2) notes = [] ->
         filter (inVoice tenor 2 1) notes <> [] ->
         filter (inVoiceXml 2 4) xml = [])) /\
    (forall measure isFirst metadata scoreType,
        exists xml,
          generateMeasureXML measure isFirst metadata divisions scoreType
          = Some xml).
Proof.
  intros notes divisions measureDuration ts Hdiv.
  split; [intros; reflexivity|]. split; [reflexivity|].
  split; [|intros; apply generateMeasureXML_total; exact Hdiv].
  unfold generateGrandStaffMeasureXML, upperStaffEmpty, lowerStaffEmpty.
  set (sopranoN := filter (inVoice soprano 1 1) notes).
  set (altoN := filter (inVoice alto 1 2) notes).
  set (tenorN := filter (inVoice tenor 2 1) notes).
  set (bassN := filter (inVoice bass 2 2) notes).
  set (staff1 := filter (fun n => Note.staff n =? 1) notes).
  set (staff2 := filter (fun n => Note.staff n =? 2) notes).
  set (upperNotes := if negb (isEmpty sopranoN) || negb (isEmpty altoN)
                     then sopranoN ++ altoN else staff1).
  set (lowerNotes := if negb (isEmpty tenorN) || negb (isEmpty bassN)
                     then tenorN ++ bassN else staff2).
  destruct (upperStaffXML_spec sopranoN altoN upperNotes divisions measureDuration
              Hdiv) as [u [-> [Hu1 [Hu2 [Hu3 Hu4]]]]].
  destruct (lowerStaffXML_spec tenorN bassN lowerNotes divisions measureDuration
              Hdiv) as [l [-> [Hl1 [Hl2 [Hl3 Hl4]]]]].
  cbn [appendXml]. eexists. split; [reflexivity|].
  assert (Hb1 : forall v, filter (inVoiceXml 1 v) l = [])
    by (intros v; apply (filter_voice_other_staff 2); [exact Hl1 | discriminate]).
  assert (Hb2 : forall v, filter (inVoiceXml 2 v) u = [])
    by (intros v; apply (filter_voice_other_staff 1); [exact Hu1 | discriminate]).
  split; [|split; [|split; [|split; [|split]]]].
  - intros He. apply andb_true_iff in He. destruct He as [He He3].
    apply andb_true_iff in He. destruct He as [He1 He2].
    apply isEmpty_nil in He1, He2, He3.
    assert (Hup : upperNotes = []).
    { unfold upperNotes. rewrite He1, He2. exact He3. }
    rewrite (Hu2 He1 He2 Hup), !filter_app.
    rewrite (filter_staff_other 2 1 l Hl1) by discriminate. reflexivity.
  - intros He. apply andb_true_iff in He. destruct He as [He He3].
    apply andb_true_iff in He. destruct He as [He1 He2].
    apply isEmpty_nil in He1, He2, He3.
    assert (Hlow : lowerNotes = []).
    { unfold lowerNotes. rewrite He1, He2. exact He3. }
    rewrite (Hl2 He1 He2 Hlow), !filter_app.
    rewrite (filter_staff_other 1 2 u Hu1) by discriminate. reflexivity.
  - intros Ha. rewrite !filter_app, Hb1, app_nil_r.
    rewrite (filter_voice_tagged_other 1 1 1 2 u (Hu3 Ha)) by discriminate.
    reflexivity.
  - intros Ht He. rewrite !filter_app, Hb2.
    assert (Hsome : bassN <> [] \/ lowerNotes <> []).
    { destruct bassN as [|b0 bb] eqn:Eb; [right | left; discriminate].
      unfold lowerNotes. rewrite Ht. cbn [isEmpty negb orb].
      rewrite Ht in He. cbn [isEmpty andb] in He.
      apply isEmpty_false. exact He. }
    rewrite (filter_voice_tagged_other 2 4 2 3 l (Hl3 Ht Hsome)) by discriminate.
    reflexivity.
  - intros Hs Ha. rewrite !filter_app, Hb1, app_nil_r, (Hu4 Hs Ha). reflexivity.
  - intros Hb Ht. rewrite !filter_app, Hb2.
    rewrite (filter_voice_tagged_other 2 3 2 4 l (Hl4 Hb Ht)) by discriminate.
    reflexivity.
Qed.

Lemma empty_staff_exports_one_full_measure_rest_witness :
  (forall voice staff stem,
      generateVoiceXMLAligned [] voice staff 256 1024 stem
      = Some (VoiceXml.mk [MeasureRestXml 1024 voice staff] 1024)) /\
  generateSingleStaffMeasureXML [] 256 sampleTime 1024
  = Some [MeasureRestXml 1024 1 1] /\
  (exists xml,
      generateGrandStaffMeasureXML sopranoOnlyNotes 256 sampleTime 1024 = Some xml /\
      (upperStaffEmpty sopranoOnlyNotes = true ->
       filter (onStaff 1) xml = [MeasureRestXml 1024 1 1]) /\
      (lowerStaffEmpty sopranoOnlyNotes = true ->
       filter (onStaff 2) xml = [MeasureRestXml 1024 3 2]) /\
      (filter (inVoice alto 1 2) sopranoOnlyNotes = [] ->
       filter (inVoiceXml 1 2) xml = []) /\
      (filter (inVoice tenor 2 1) sopranoOnlyNotes = [] ->
       lowerStaffEmpty sopranoOnlyNotes = false ->
       filter (inVoiceXml 2 3) xml = []) /\
      (filter (inVoice soprano 1 1) sopranoOnlyNotes = [] ->
       filter (inVoice alto 1 2) sopranoOnlyNotes <> [] ->
       filter (inVoiceXml 1 1) xml = []) /\
      (filter (inVoice bass 2 2) sopranoOnlyNotes = [] ->
       filter (inVoice tenor 2 1) sopranoOnlyNotes <> [] ->
       filter (inVoiceXml 2 4) xml = [])) /\
  (forall measure isFirst metadata scoreType,
      exists xml,
        generateMeasureXML measure isFirst metadata 256 scoreType = Some xml).
Proof.
  apply (empty_staff_exports_one_full_measure_rest sopranoOnlyNotes 256 1024
           sampleTime).
  lia.
Defined.

(** A soprano-only grand-staff measure: the whole note in voice 1, the
    backup, and one full-measure rest of voice 3 for the empty lower staff;
    nothing is written for the alto. *)
Example sopranoOnly_export :
  generateGrandStaffMeasureXML sopranoOnlyNotes 256 sampleTime 1024
  = Some [ NoteXml false (samplePitch "C" 5) 1024 false 1 x_whole 0 None None 1;
           BackupXml 1024;
           MeasureRestXml 1024 3 2 ].
Proof. vm_compute. reflexivity. Qed.

(** C9, counterexample: the Level-5 output of the sample measure has a
    soprano and a bass line and no alto; the exported measure holds no event
    of voice 2 at all, hence no full-measure rest for it. *)
Lemma empty_alto_is_not_written :
  ~ emptyVoiceWrittenAsRest (Measure.notes simplifiedSyncopatedL5) 256
      sampleTime 1024.
Proof.
  intros H.
  destruct (generateGrandStaffMeasureXML (Measure.notes simplifiedSyncopatedL5)
              256 sampleTime 1024) as [xml|] eqn:E.
  - specialize (H xml E alto 1 2 2 (or_intror (or_introl eq_refl))).
    vm_compute in E. inversion E; subst xml.
    assert (Hempty : filter (inVoice alto 1 2) (Measure.notes simplifiedSyncopatedL5)
                     = []) by (vm_compute; reflexivity).
    specialize (H Hempty). vm_compute in H. discriminate H.
  - vm_compute in E. discriminate E.
Qed.

(* ------------------------------------------------------------------ *)
(** ** Duration closure *)

(** The run sample at Levels 1, 2, 3 and 5: voice 1 sums to the measure
    length 4 * 256. *)
Example run_sample_balanced_levels :
  map (fun level =>
         map (option_map (voiceDurationSum 1 1))
             (generateMusicXML (runSimplified level)))
      [1; 2; 3; 5]
  = [[Some 1024]; [Some 1024]; [Some 1024]; [Some 1024]].
Proof. vm_compute. reflexivity. Qed.

(** C1.  Duration closure fails on the code.  The single-voice 4/4 measure
    "sixteenths C5 E5 C5 D5, quarters E5 F5 G5" at Level 4: the first
    sixteenth is stretched to an eighth that now overlaps the locked E5 at
    beat 1.25; the exporter writes both in full and only moves its cursor
    back, so voice 1 of staff 1 sums to 1088 divisions instead of
    beats * divisions = 1024. *)
Theorem duration_closure_broken_by_overlap :
  exists xml,
    generateMusicXML (runSimplified 4) = [Some xml] /\
    map (fun n => (Note.id n, Qred (Note.startBeat n),
                   Duration.ticks (Note.duration n)))
        (flat_map Measure.notes (SimplifiedScore.measures (runSimplified 4)))
    = [ (1%nat, 1%Q, 512); (2%nat, (5 # 4)%Q, 256); (3%nat, (3 # 2)%Q, 256);
        (4%nat, (3 # 2)%Q, 512); (5%nat, 2%Q, 1024); (6%nat, 3%Q, 1024);
        (7%nat, 4%Q, 1024) ] /\
    map eventAdvance (filter (inVoiceXml 1 1) xml)
    = [128; 64; 64; 0; 64; 256; 256; 256] /\
    voiceDurationSum 1 1 xml = 1088 /\
    TimeSignature.beats
      (ScoreMetadata.timeSignature (SimplifiedScore.metadata (runSimplified 4)))
    * 256 = 1024.
Proof.
  eexists. split; [vm_compute; reflexivity|].
  vm_compute. repeat split; reflexivity.
Qed.

(* ------------------------------------------------------------------ *)
(** ** Worked examples *)

(** Level 2 on the specification's example: two notes, beat 1 and beat 3,
    each stretched to two beats. *)
Example level2_strong_beats :
  map (fun n => (Note.id n, Note.startBeat n, Duration.ticks (Note.duration n),
                 Duration.type (Note.duration n)))
      (Measure.notes (applyLevel2 strongBeatExample sampleTime))
  = [(1%nat, 1%Q, 2048, half); (3%nat, 3%Q, 2048, half)].
Proof. vm_compute. reflexivity. Qed.

(** The pickup measure is an anacrusis, the full measures are not. *)
Example anacrusis_detection :
  isAnacrusis pickupMeasure sampleTime = true /\
  isAnacrusis fullMeasure sampleTime = false /\
  isAnacrusis runMeasure sampleTime = false.
Proof. vm_compute. repeat split; reflexivity. Qed.

(** A chord of two half notes at beat 1 and a quarter at beat 4: the second
    chord note is marked as chord member, the gap of beat 3 is filled with a
    quarter rest, and the voice sums to 4 * 256. *)
Example chord_and_gap_export :
  option_map
    (fun r => (map eventAdvance (VoiceXml.xml r), VoiceXml.duration r))
    (generateVoiceXMLAligned
       [ plainNote 1 "C" 5 2048 1 1 1; plainNote 2 "E" 5 2048 1 1 1;
         plainNote 3 "D" 5 1024 4 1 1 ] 1 1 256 1024 None)
  = Some ([512; 0; 256; 256], 1024).
Proof. vm_compute. reflexivity. Qed.

(** Greedy rest filling: 896 divisions are a half, a quarter and an eighth
    rest; a gap of 16 divisions, shorter than a 32nd, is left unfilled. *)
Example rests_for_duration :
  generateRestsForDuration 896 1 1 256
  = Some [RestXml 512 1 x_half 1; RestXml 256 1 x_quarter 1;
          RestXml 128 1 x_eighth 1] /\
  generateRestsForDuration 16 1 1 256 = Some [].
Proof. vm_compute. split; reflexivity. Qed.

(* ------------------------------------------------------------------ *)
(** ** When a voice does fill its measure *)

Lemma Zle_of_Qle_half (a b : Z) :
  (inject_Z a <= inject_Z b + (1 # 2))%Q -> a <= b.
Proof.
  unfold Qle, Qplus, inject_Z. simpl. lia.
Qed.

Lemma round_inject_Z (z : Z) : Js.round (inject_Z z) = z.
Proof.
  unfold Js.round, Qfloor, Qplus, inject_Z. simpl.
  symmetry. apply (Z.div_unique _ 2 z 1); lia.
Qed.

Lemma round_Qeq_inject_Z (d : Q) (z : Z) :
  (d == inject_Z z)%Q -> Js.round d = z.
Proof.
  intros E. unfold Js.round.
  rewrite (Qfloor_comp _ (inject_Z z + (1 # 2))) by (rewrite E; reflexivity).
  apply round_inject_Z.
Qed.

(** On the 32nd-note grid the greedy choice is a rest of [c] units with
    [1 <= c <= k], for a gap of [k] units. *)
Lemma firstFitting_grid (u k : Z) (remaining : Q) :
  0 < u -> 1 <= k -> (remaining == inject_Z (k * u))%Q ->
  exists d ty c,
    firstFitting remaining (restValues (8 * u)) = Some (d, ty) /\
    1 <= c <= k /\ (d == inject_Z (c * u))%Q.
Proof.
  intros Hu Hk Hrem.
  assert (Hfit : forall (d : Q) (c : Z),
             (d == inject_Z (c * u))%Q ->
             (Js.leb d (remaining + (1 # 2)) = true -> c <= k) /\
             (c <= k -> Js.leb d (remaining + (1 # 2)) = true)).
  { intros d c Hd. split.
    - intros Hle. apply leb_le in Hle. rewrite Hd, Hrem in Hle.
      apply Zle_of_Qle_half in Hle. nia.
    - intros Hck. apply leb_le. rewrite Hd, Hrem.
      apply Qle_trans with (y := inject_Z (k * u)).
      + rewrite <- Zle_Qle. nia.
      + rewrite <- (Qplus_0_r (inject_Z (k * u))) at 1.
        apply Qplus_le_r. discriminate. }
  assert (E32 : (inject_Z (8 * u * 4) == inject_Z (32 * u))%Q)
    by (apply inject_Z_injective; lia).
  assert (E16 : (inject_Z (8 * u * 2) == inject_Z (16 * u))%Q)
    by (apply inject_Z_injective; lia).
  assert (E8 : (inject_Z (8 * u) == inject_Z (8 * u))%Q) by reflexivity.
  assert (E4 : (inject_Z (8 * u) / 2 == inject_Z (4 * u))%Q)
    by (rewrite !inject_Z_mult; field).
  assert (E2 : (inject_Z (8 * u) / 4 == inject_Z (2 * u))%Q)
    by (rewrite !inject_Z_mult; field).
  assert (E1 : (inject_Z (8 * u) / 8 == inject_Z (1 * u))%Q)
    by (rewrite !inject_Z_mult; field).
  unfold firstFitting, restValues, Js.find. cbn [Js.findFrom fst].
  destruct (Js.leb (inject_Z (8 * u * 4)) _) eqn:L32.
  { eexists _, _, 32. split; [reflexivity|]. split; [|exact E32].
    pose proof (proj1 (Hfit _ 32 E32) L32). lia. }
  destruct (Js.leb (inject_Z (8 * u * 2)) _) eqn:L16.
  { eexists _, _, 16. split; [reflexivity|]. split; [|exact E16].
    pose proof (proj1 (Hfit _ 16 E16) L16). lia. }
  destruct (Js.leb (inject_Z (8 * u)) _) eqn:L8.
  { eexists _, _, 8. split; [reflexivity|]. split; [|exact E8].
    pose proof (proj1 (Hfit _ 8 E8) L8). lia. }
  destruct (Js.leb (inject_Z (8 * u) / 2) _) eqn:L4.
  { eexists _, _, 4. split; [reflexivity|]. split; [|exact E4].
    pose proof (proj1 (Hfit _ 4 E4) L4). lia. }
  destruct (Js.leb (inject_Z (8 * u) / 4) _) eqn:L2.
  { eexists _, _, 2. split; [reflexivity|]. split; [|exact E2].
    pose proof (proj1 (Hfit _ 2 E2) L2). lia. }
  destruct (Js.leb (inject_Z (8 * u) / 8) _) eqn:L1.
  { eexists _, _, 1. split; [reflexivity|]. split; [|exact E1]. lia. }
  pose proof (proj2 (Hfit _ 1 E1) Hk). congruence.
Qed.

(** A gap of [k] units is filled exactly. *)
Lemma restsLoop_exact (voice staff u : Z) :
  0 < u ->
  forall fuel k remaining,
    0 <= k -> (Z.to_nat k < fuel)%nat ->
    (remaining == inject_Z (k * u))%Q ->
    exists xml,
      restsLoop fuel remaining voice staff (8 * u) = Some xml /\
      advanceSum xml = k * u.
Proof.
  intros Hu. induction fuel as [|fuel IH]; intros k remaining Hk Hfuel Hrem.
  - lia.
  - cbn [restsLoop].
    destruct (Js.ltb (1 # 2) remaining) eqn:Egap.
    + apply ltb_lt in Egap. rewrite Hrem in Egap.
      assert (Hk1 : 1 <= k).
      { destruct (Z.eq_dec k 0) as [->|]; [|lia].
        exfalso. simpl in Egap. discriminate Egap. }
      destruct (firstFitting_grid u k remaining Hu Hk1 Hrem)
        as [d [ty [c [-> [Hc Hd]]]]].
      destruct (IH (k - c) (remaining - d)%Q) as [xml [-> Hsum]].
      * lia.
      * lia.
      * rewrite Hrem, Hd. unfold Qminus.
        rewrite <- inject_Z_opp, <- inject_Z_plus.
        apply inject_Z_injective. lia.
      * eexists. split; [reflexivity|].
        unfold advanceSum in *. cbn [map fold_right eventAdvance].
        rewrite Hsum, (round_Qeq_inject_Z d (c * u) Hd). lia.
    + apply ltb_ge in Egap. rewrite Hrem in Egap.
      exists []. split; [reflexivity|].
      unfold advanceSum. simpl.
      assert (k * u <= 0).
      { apply Zle_of_Qle_half. eapply Qle_trans; [exact Egap|].
        unfold Qle; simpl; lia. }
      nia.
Qed.

Lemma generateRestsForDuration_exact (gap voice staff u : Z) :
  0 < u -> 0 <= gap -> gap mod u = 0 ->
  exists xml,
    generateRestsForDuration gap voice staff (8 * u) = Some xml /\
    advanceSum xml = gap.
Proof.
  intros Hu Hgap Hmod. unfold generateRestsForDuration, restsBudget.
  assert (Hk : gap = gap / u * u).
  { rewrite (Z.div_mod gap u) at 1 by lia. rewrite Hmod. lia. }
  destruct (restsLoop_exact voice staff u Hu
              (S (Z.to_nat (gap * 8 / (8 * u)))) (gap / u) (inject_Z gap))
    as [xml [Hx Hsum]].
  - apply Z.div_pos; lia.
  - replace (gap * 8 / (8 * u)) with (gap / u); [lia|].
    rewrite (Z.mul_comm gap 8), Z.div_mul_cancel_l by lia. reflexivity.
  - rewrite <- Hk. reflexivity.
  - exists xml. split; [exact Hx | lia].
Qed.

Lemma advanceSum_app (a b : list XmlEvent) :
  advanceSum (a ++ b) = advanceSum a + advanceSum b.
Proof.
  unfold advanceSum. induction a as [|e a IH]; simpl; [reflexivity|].
  rewrite IH. lia.
Qed.

Lemma chordXML_members_advance (notes : list Note.t) (divisions voice staff : Z)
    (stemDirection : option Stem) :
  forall noteIdx, (0 < noteIdx)%nat ->
    advanceSum (chordXML notes noteIdx divisions voice staff stemDirection) = 0.
Proof.
  induction notes as [|n notes IH]; intros noteIdx Hidx; simpl.
  - reflexivity.
  - unfold advanceSum in *. cbn [map fold_right eventAdvance generateNoteXML].
    destruct (Nat.ltb_spec 0 noteIdx); [|lia].
    rewrite IH by lia. reflexivity.
Qed.

Lemma chordXML_advance (first : Note.t) (others : list Note.t)
    (divisions voice staff : Z) (stemDirection : option Stem) :
  advanceSum (chordXML (first :: others) 0 divisions voice staff stemDirection)
  = xmlDurationOf first divisions.
Proof.
  cbn [chordXML]. unfold advanceSum.
  cbn [map fold_right eventAdvance generateNoteXML Nat.ltb Nat.leb].
  pose proof (chordXML_members_advance others divisions voice staff stemDirection
                1 ltac:(lia)) as H.
  unfold advanceSum in H. rewrite H. lia.
Qed.

Lemma groups_fold_exact (voice staff u measureDuration : Z)
    (stemDirection : option Stem) :
  0 < u ->
  forall groups c,
    advanceSum (Cursor.xml c) = Cursor.currentPosition c ->
    Cursor.totalDuration c = Cursor.currentPosition c ->
    wellSpaced u (8 * u) (Cursor.currentPosition c) groups measureDuration ->
    exists c',
      fold_left (groupStep voice staff (8 * u) stemDirection) groups (Some c)
      = Some c' /\
      advanceSum (Cursor.xml c') = Cursor.currentPosition c' /\
      Cursor.totalDuration c' = Cursor.currentPosition c' /\
      Cursor.currentPosition c' <= measureDuration /\
      (measureDuration - Cursor.currentPosition c') mod u = 0.
Proof.
  intros Hu. induction groups as [|g groups IH]; intros c Hsum Htot Hw.
  - exists c. destruct Hw as [Hle Hmod]. repeat split; assumption.
  - cbn [wellSpaced] in Hw. destruct Hw as [Hle [Hmod Hrest]].
    destruct (PosGroup.notes g) as [|first others] eqn:En; [destruct Hrest|].
    cbn [fold_left]. unfold groupStep at 2. rewrite En.
    set (p := positionOf (PosGroup.startBeat g) (8 * u)) in *.
    destruct (Cursor.currentPosition c <? p) eqn:Elt.
    + destruct (generateRestsForDuration_exact (p - Cursor.currentPosition c)
                  voice staff u Hu ltac:(lia) Hmod) as [rests [-> Hr]].
      apply IH; cbn [Cursor.xml Cursor.totalDuration Cursor.currentPosition].
      * rewrite !advanceSum_app, chordXML_advance, Hr, Hsum. lia.
      * lia.
      * exact Hrest.
    + apply Z.ltb_ge in Elt.
      apply IH; cbn [Cursor.xml Cursor.totalDuration Cursor.currentPosition].
      * rewrite advanceSum_app, chordXML_advance, Hsum. lia.
      * lia.
      * exact Hrest.
Qed.

Lemma voiceDurationSum_tagged (staff voice : Z) (xml : list XmlEvent) :
  taggedWith staff voice xml -> voiceDurationSum staff voice xml = advanceSum xml.
Proof.
  intros Ht. unfold voiceDurationSum, advanceSum.
  rewrite filter_all_true; [reflexivity|].
  eapply Forall_impl; [|exact Ht]. intros e He.
  unfold inVoiceXml. rewrite He. now rewrite !Z.eqb_refl.
Qed.

(** Duration closure does hold for a voice whose note groups do not
    overlap, lie on the 32nd-note grid and end within the measure: the
    notes and the rests written for it then sum to the measure length. *)
Lemma voice_fills_measure_when_well_spaced (notes : list Note.t)
    (voice staff u measureDuration : Z) (stemDirection : option Stem) :
  0 < u -> notes <> [] ->
  wellSpaced u (8 * u) 0
    (groupNotesByPosition (Js.sort byStartBeat notes) (8 * u)) measureDuration ->
  exists r,
    generateVoiceXMLAligned notes voice staff (8 * u) measureDuration stemDirection
    = Some r /\
    VoiceXml.duration r = measureDuration /\
    voiceDurationSum staff voice (VoiceXml.xml r) = measureDuration.
Proof.
  intros Hu Hne Hw.
  destruct (generateVoiceXMLAligned_total notes voice staff (8 * u)
              measureDuration stemDirection ltac:(lia)) as [r [Hr Ht]].
  exists r. split; [exact Hr|].
  rewrite (voiceDurationSum_tagged _ _ _ Ht).
  unfold generateVoiceXMLAligned in Hr.
  destruct notes as [|n0 ns]; [congruence|].
  destruct (groups_fold_exact voice staff u measureDuration stemDirection Hu
              (groupNotesByPosition (Js.sort byStartBeat (n0 :: ns)) (8 * u))
              (Cursor.mk [] 0 0) eq_refl eq_refl Hw)
    as [c [Hc [Hsum [Htot [Hle Hmod]]]]].
  rewrite Hc in Hr.
  destruct (Cursor.currentPosition c <? measureDuration) eqn:Elt.
  - destruct (generateRestsForDuration_exact
                (measureDuration - Cursor.currentPosition c) voice staff u Hu
                ltac:(apply Z.ltb_lt in Elt; lia) Hmod) as [rests [Hx Hs]].
    rewrite Hx in Hr. inversion Hr; subst r.
    cbn [VoiceXml.duration VoiceXml.xml].
    rewrite advanceSum_app, Hs, Hsum, Htot. split; lia.
  - apply Z.ltb_ge in Elt. inversion Hr; subst r.
    cbn [VoiceXml.duration VoiceXml.xml]. split; lia.
Qed.

(** The run sample at Level 5 is well spaced, so its voice fills the
    measure. *)
Example run_sample_level5_fills_measure :
  exists r,
    generateVoiceXMLAligned
      (flat_map Measure.notes (SimplifiedScore.measures (runSimplified 5)))
      1 1 (8 * 32) 1024 None = Some r /\
    VoiceXml.duration r = 1024 /\
    voiceDurationSum 1 1 (VoiceXml.xml r) = 1024.
Proof.
  apply voice_fills_measure_when_well_spaced.
  - lia.
  - vm_compute. discriminate.
  - vm_compute. repeat split; try reflexivity; discriminate.
Qed.

(* ------------------------------------------------------------------ *)
(** ** Strong beats of the time signatures *)

Lemma TIME_SIGNATURE_DEFINITIONS_rows (beats beatType : Z) (sbs : list Z) :
  TIME_SIGNATURE_DEFINITIONS beats beatType = Some sbs ->
  In (beats, beatType, sbs) timeSignatureTable.
Proof.
  unfold TIME_SIGNATURE_DEFINITIONS. intros H.
  repeat match type of H with
         | context [match ?x with _ => _ end] => destruct x; try discriminate H
         end;
    inversion H; subst; vm_compute; tauto.
Qed.

Lemma getStrongBeats_cases (ts : TimeSignature.t) :
  getStrongBeats ts = [1] \/ getStrongBeats ts = [1; 3] \/
  getStrongBeats ts = [1; 4] \/
  (getStrongBeats ts = [1; 4; 7] /\ TimeSignature.beats ts = 9) \/
  (getStrongBeats ts = [1; 4; 7; 10] /\ TimeSignature.beats ts = 12).
Proof.
  unfold getStrongBeats.
  destruct (TIME_SIGNATURE_DEFINITIONS _ _) as [sbs|] eqn:E; [|tauto].
  apply TIME_SIGNATURE_DEFINITIONS_rows in E.
  unfold timeSignatureTable in E. simpl in E.
  repeat (destruct E as [E|E]; [inversion E; subst; tauto|]).
  destruct E.
Qed.

Lemma getStrongBeats_sorted (ts : TimeSignature.t) :
  StronglySorted Z.lt (getStrongBeats ts) /\
  Forall (fun sb => 1 <= sb) (getStrongBeats ts).
Proof.
  destruct (getStrongBeats_cases ts) as [E|[E|[E|[[E _]|[E _]]]]]; rewrite E;
    split; repeat constructor; lia.
Qed.

Lemma floor_between (b : Q) (z : Z) :
  (inject_Z z <= b)%Q /\ (b < inject_Z (z + 1))%Q -> Js.floor b = z.
Proof.
  intros [Hlo Hhi]. unfold Js.floor.
  pose proof (Qfloor_le b) as H1. pose proof (Qlt_floor b) as H2.
  assert (Qfloor b < z + 1).
  { rewrite Zlt_Qlt. eapply Qle_lt_trans; eassumption. }
  assert (z < Qfloor b + 1).
  { rewrite Zlt_Qlt. eapply Qle_lt_trans; eassumption. }
  lia.
Qed.

(** X1.  In every time signature, listed in the table or not, the first
    strong beat is beat 1; the strong beats are listed in strictly
    ascending order; for a listed signature they lie within the measure;
    and [isStrongBeat] looks at the integer part of the position only, so
    that every position from beat 1 up to (not including) beat 2 counts as
    strong. *)
Theorem strong_beats_start_at_one_and_ascend :
  forall ts : TimeSignature.t,
    let sbs := getStrongBeats ts in
    hd_error sbs = Some 1 /\
    StronglySorted Z.lt sbs /\
    (TIME_SIGNATURE_DEFINITIONS (TimeSignature.beats ts)
                                (TimeSignature.beatType ts) <> None ->
     Forall (fun sb => 1 <= sb <= TimeSignature.beats ts) sbs) /\
    (forall b : Q, (1 <= b)%Q -> (b < 2)%Q -> isStrongBeat b ts = true) /\
    (forall b : Q, isStrongBeat b ts = isStrongBeat (inject_Z (Js.floor b)) ts).
Proof.
  intros ts sbs. subst sbs.
  split; [|split; [|split; [|split]]].
  - destruct (getStrongBeats_cases ts) as [E|[E|[E|[[E _]|[E _]]]]];
      rewrite E; reflexivity.
  - apply getStrongBeats_sorted.
  - intros Hknown. unfold getStrongBeats.
    destruct (TIME_SIGNATURE_DEFINITIONS _ _) as [sbs|] eqn:E; [|congruence].
    apply TIME_SIGNATURE_DEFINITIONS_rows in E.
    unfold timeSignatureTable in E. simpl in E.
    repeat (destruct E as [E|E];
            [injection E as Hb Ht Hs; rewrite <- Hb, <- Hs;
             repeat constructor; lia|]).
    destruct E.
  - intros b Hlo Hhi. unfold isStrongBeat.
    rewrite (floor_between b 1) by (split; [exact Hlo | exact Hhi]).
    destruct (getStrongBeats_cases ts) as [E|[E|[E|[[E _]|[E _]]]]];
      rewrite E; reflexivity.
  - intros b. unfold isStrongBeat, Js.floor. now rewrite Qfloor_Z.
Qed.

(* ------------------------------------------------------------------ *)
(** ** Level 1 *)

(** X2.  Level 1 keeps the measure number.  A measure without a main note
    (no note at all, or ornaments only) comes out with no note and its
    rests untouched.  Any other measure comes out with exactly one note and
    no rest: a copy of a main note that starts no later than every other
    main note, moved to beat 1 and lasting [beats * 1024] ticks, the whole
    measure. *)
Theorem applyLevel1_keeps_one_note_for_the_whole_measure :
  forall (m : Measure.t) (ts : TimeSignature.t),
    let out := applyLevel1 m ts in
    Measure.number out = Measure.number m /\
    (filter Note.isMain (Measure.notes m) = [] ->
     Measure.notes out = [] /\ Measure.rests out = Measure.rests m) /\
    (filter Note.isMain (Measure.notes m) <> [] ->
     exists first,
       In first (Measure.notes m) /\ Note.isMain first = true /\
       (forall n, In n (Measure.notes m) -> Note.isMain n = true ->
                  (Note.startBeat first <= Note.startBeat n)%Q) /\
       Measure.notes out
       = [Note.set_duration (plainDuration (TimeSignature.beats ts * 1024))
            (Note.set_startBeat 1 first)] /\
       Note.startBeat (hd first (Measure.notes out)) = 1%Q /\
       Duration.ticks (Note.duration (hd first (Measure.notes out)))
       = TimeSignature.beats ts * 1024 /\
       Measure.rests out = []).
Proof.
  intros m ts out. subst out. unfold applyLevel1.
  destruct (Js.sort byStartBeat (filter Note.isMain (Measure.notes m)))
    as [|first others] eqn:E.
  - assert (Hnil : filter Note.isMain (Measure.notes m) = []).
    { destruct (filter Note.isMain (Measure.notes m)) as [|x l] eqn:Ef;
        [reflexivity|].
      destruct (sort_not_empty byStartBeat (x :: l)) as [h [t Ht]];
        [discriminate | congruence]. }
    cbn [Measure.number Measure.notes Measure.rests].
    split; [reflexivity|]. split; [tauto|]. intros Hne. contradiction.
  - cbn [Measure.number Measure.notes Measure.rests].
    split; [reflexivity|]. split.
    + intros Hnil. rewrite Hnil in E. discriminate.
    + intros _. destruct (sort_byStartBeat_first _ _ _ E) as [Hin Hle].
      apply filter_In in Hin. destruct Hin as [Hin Hmain].
      exists first. repeat split; try assumption; try reflexivity.
      intros n Hn Hm. apply Hle. apply filter_In. split; assumption.
Qed.

(* ------------------------------------------------------------------ *)
(** ** The note finders *)

Lemma findFrom_nth {A} (p : A -> bool) (l : list A) :
  forall i k x, Js.findFrom i p l = Some (k, x) ->
                (i <= k)%nat /\ nth_error l (k - i) = Some x.
Proof.
  induction l as [|y l IH]; intros i k x H; simpl in H.
  - discriminate.
  - destruct (p y).
    + inversion H; subst. rewrite Nat.sub_diag. split; [lia | reflexivity].
    + destruct (IH _ _ _ H) as [Hle Hn]. split; [lia|].
      replace (k - i)%nat with (S (k - S i)) by lia. exact Hn.
Qed.

Lemma nearestFrom_found (skip : Note.t -> bool) (bound : option Q) (beat : Q)
    (l : list Note.t) :
  forall i minDistance note k x,
    nearestFrom i skip bound beat l minDistance note = Some (k, x) ->
    note = Some (k, x) \/
    ((i <= k)%nat /\ nth_error l (k - i) = Some x /\ skip x = false).
Proof.
  induction l as [|n l IH]; intros i minDistance note k x H; simpl in H.
  - left; exact H.
  - assert (Hrec : forall md nt,
               nearestFrom (S i) skip bound beat l md nt = Some (k, x) ->
               nt = Some (k, x) \/
               ((i <= k)%nat /\ nth_error (n :: l) (k - i) = Some x /\
                skip x = false)).
    { intros md nt Hr. destruct (IH _ _ _ _ _ Hr) as [Hn|[Hle [Hn Hs]]].
      - left; exact Hn.
      - right. split; [lia|]. split; [|exact Hs].
        replace (k - i)%nat with (S (k - S i)) by lia. exact Hn. }
    destruct (skip n) eqn:Es.
    + apply Hrec in H. exact H.
    + destruct (_ && _) in H.
      * apply Hrec in H. destruct H as [H|H]; [|right; exact H].
        inversion H; subst. right. rewrite Nat.sub_diag.
        split; [lia|]. split; [reflexivity | exact Es].
      * apply Hrec in H. exact H.
Qed.

Lemma nearestFrom_keeps (skip : Note.t -> bool) (bound : option Q) (beat : Q)
    (l : list Note.t) :
  forall i minDistance note,
    note <> None ->
    nearestFrom i skip bound beat l minDistance note <> None.
Proof.
  induction l as [|n l IH]; intros i minDistance note Hn; simpl.
  - exact Hn.
  - destruct (skip n); [apply IH; exact Hn|].
    destruct (_ && _); apply IH; [discriminate | exact Hn].
Qed.

(** On a non-empty list [findNoteAtBeat] always finds a note of the list:
    its last resort, the nearest note, has no distance limit. *)
Lemma findNoteAtBeat_total (notes : list Note.t) (beat : Q) :
  notes <> [] ->
  exists n, findNoteAtBeat notes beat = Some n /\ In n notes.
Proof.
  intros Hne. unfold findNoteAtBeat.
  destruct notes as [|n0 ns]; [congruence|].
  set (l := n0 :: ns).
  destruct (Js.find (fun n => Js.ltb (beatDistance n beat) (1 # 10)) l)
    as [[k x]|] eqn:E1.
  { exists x. split; [reflexivity|]. apply findFrom_In in E1. tauto. }
  destruct (Js.find (fun n => Js.leb (Note.startBeat n) beat
                              && Js.ltb beat (Note.endBeat n)) l)
    as [[k x]|] eqn:E2.
  { exists x. split; [reflexivity|]. apply findFrom_In in E2. tauto. }
  cbn [Js.orElse].
  destruct (nearestFrom 0 (fun _ => false) None beat l None None)
    as [[k x]|] eqn:E3.
  - exists x. split; [reflexivity|].
    apply nearestFrom_found in E3. destruct E3 as [E3|[_ [Hn _]]]; [discriminate|].
    eapply nth_error_In; exact Hn.
  - exfalso. subst l. cbn [nearestFrom andb] in E3.
    revert E3. apply nearestFrom_keeps. discriminate.
Qed.

(* ------------------------------------------------------------------ *)
(** ** Level 3 *)

(** X3.  Level 3, on a measure with at least one main note, writes exactly
    one note on every beat 1, 2, ..., [beats] of the measure, each a quarter
    note (1024 ticks) and each a copy of some main note of the measure, and
    drops every rest.  A measure with fewer main notes than beats therefore
    comes out with repeated copies. *)
Theorem applyLevel3_one_quarter_per_beat :
  forall (m : Measure.t) (ts : TimeSignature.t),
    filter Note.isMain (Measure.notes m) <> [] ->
    let out := applyLevel3 m ts in
    map Note.startBeat (Measure.notes out) = map inject_Z (beatRange ts) /\
    length (Measure.notes out) = Z.to_nat (TimeSignature.beats ts) /\
    Forall (fun n' =>
              Note.duration n' = Duration.mk quarter 0 None 1024 /\
              exists n, In n (Measure.notes m) /\ Note.isMain n = true /\
                        movedCopy n (Note.startBeat n') 1024 n')
           (Measure.notes out) /\
    Measure.rests out = [] /\
    Measure.number out = Measure.number m.
Proof.
  intros m ts Hne out. subst out. unfold applyLevel3.
  destruct (filter Note.isMain (Measure.notes m)) as [|n0 ns] eqn:Ef;
    [congruence|].
  cbn [Measure.notes Measure.rests Measure.number].
  set (notes := n0 :: ns) in *.
  assert (Hstep : forall beat,
             exists n, In n notes /\
               (match findNoteAtBeat notes (inject_Z beat) with
                | None => []
                | Some noteAtBeat =>
                    [Note.set_duration (Duration.mk quarter 0 None 1024)
                       (Note.set_startBeat (inject_Z beat) noteAtBeat)]
                end)
               = [Note.set_duration (Duration.mk quarter 0 None 1024)
                    (Note.set_startBeat (inject_Z beat) n)]).
  { intros beat.
    destruct (findNoteAtBeat_total notes (inject_Z beat)) as [n [-> Hin]];
      [discriminate|].
    exists n. split; [exact Hin | reflexivity]. }
  assert (Hmain : forall n, In n notes ->
                            In n (Measure.notes m) /\ Note.isMain n = true).
  { intros n Hn. rewrite <- Ef in Hn. apply filter_In in Hn. exact Hn. }
  clearbody notes.
  assert (Hstarts :
            map Note.startBeat
              (flat_map
                 (fun beat =>
                    match findNoteAtBeat notes (inject_Z beat) with
                    | None => []
                    | Some noteAtBeat =>
                        [Note.set_duration (Duration.mk quarter 0 None 1024)
                           (Note.set_startBeat (inject_Z beat) noteAtBeat)]
                    end) (beatRange ts))
            = map inject_Z (beatRange ts)).
  { induction (beatRange ts) as [|b bs IH]; [reflexivity|].
    cbn [flat_map map]. destruct (Hstep b) as [n [_ ->]].
    cbn [app map]. now rewrite IH. }
  split; [exact Hstarts|].
  split; [|split; [|split; reflexivity]].
  - rewrite <- (length_map Note.startBeat), Hstarts, length_map.
    unfold beatRange. now rewrite length_map, length_seq.
  - clear Hstarts. induction (beatRange ts) as [|b bs IH]; [constructor|].
    cbn [flat_map]. destruct (Hstep b) as [n [Hin ->]].
    cbn [app]. constructor; [|exact IH].
    split; [reflexivity|].
    exists n. destruct (Hmain n Hin) as [H1 H2].
    split; [exact H1|]. split; [exact H2|]. reflexivity.
Qed.

Lemma applyLevel3_one_quarter_per_beat_witness :
  let out := applyLevel3 loneNoteMeasure sampleTime in
  map Note.startBeat (Measure.notes out) = map inject_Z (beatRange sampleTime) /\
  length (Measure.notes out) = Z.to_nat (TimeSignature.beats sampleTime) /\
  Forall (fun n' =>
            Note.duration n' = Duration.mk quarter 0 None 1024 /\
            exists n, In n (Measure.notes loneNoteMeasure) /\
                      Note.isMain n = true /\
                      movedCopy n (Note.startBeat n') 1024 n')
         (Measure.notes out) /\
  Measure.rests out = [] /\
  Measure.number out = Measure.number loneNoteMeasure.
Proof.
  apply (applyLevel3_one_quarter_per_beat loneNoteMeasure sampleTime).
  vm_compute. discriminate.
Defined.

(* ------------------------------------------------------------------ *)
(** ** Level 2 and the strong-beat reduction *)

Lemma usedHas_In (usedNotes : list nat) (n : Note.t) :
  usedHas usedNotes n = true <-> In (Note.id n) usedNotes.
Proof.
  unfold usedHas. rewrite existsb_exists. split.
  - intros [k [Hk E]]. apply Nat.eqb_eq in E. now rewrite E.
  - intros H. exists (Note.id n). split; [exact H | apply Nat.eqb_refl].
Qed.

Lemma find_unused_sound (sortedNotes : list Note.t) (usedNotes : list nat)
    (p : Note.t -> bool) (pos : nat) (n : Note.t) :
  Js.find (fun n => negb (usedHas usedNotes n) && p n) sortedNotes = Some (pos, n) ->
  nth_error sortedNotes pos = Some n /\ ~ In (Note.id n) usedNotes.
Proof.
  intros H. unfold Js.find in H.
  destruct (findFrom_nth _ _ _ _ _ H) as [_ Hn].
  destruct (findFrom_In _ _ _ _ _ H) as [_ Hp].
  rewrite Nat.sub_0_r in Hn. split; [exact Hn|].
  apply andb_prop in Hp. destruct Hp as [Hu _].
  intros Hin. apply usedHas_In in Hin. rewrite Hin in Hu. discriminate.
Qed.

Lemma nearest_unused_sound (sortedNotes : list Note.t) (usedNotes : list nat)
    (bound : option Q) (beat : Q) (pos : nat) (n : Note.t) :
  nearestFrom 0 (usedHas usedNotes) bound beat sortedNotes None None
  = Some (pos, n) ->
  nth_error sortedNotes pos = Some n /\ ~ In (Note.id n) usedNotes.
Proof.
  intros H. apply nearestFrom_found in H.
  destruct H as [H|[_ [Hn Hs]]]; [discriminate|].
  rewrite Nat.sub_0_r in Hn. split; [exact Hn|].
  intros Hin. apply usedHas_In in Hin. congruence.
Qed.

Lemma findNoteAtBeatExcluding_sound (sortedNotes : list Note.t) :
  finderSound sortedNotes (findNoteAtBeatExcluding sortedNotes).
Proof.
  intros beat usedNotes pos n H. unfold findNoteAtBeatExcluding in H.
  destruct sortedNotes as [|n0 ns]; [discriminate|].
  set (l := n0 :: ns) in *.
  destruct (Js.find (fun n => negb (usedHas usedNotes n)
                              && Js.ltb (beatDistance n beat) (1 # 10)) l)
    as [r1|] eqn:E1.
  { cbn [Js.orElse] in H. rewrite H in E1.
    exact (find_unused_sound _ _ _ _ _ E1). }
  destruct (Js.find (fun n => negb (usedHas usedNotes n)
                              && (Js.leb (Note.startBeat n) beat
                                  && Js.ltb beat (Note.endBeat n))) l)
    as [r2|] eqn:E2.
  { cbn [Js.orElse] in H. rewrite H in E2.
    exact (find_unused_sound _ _ _ _ _ E2). }
  cbn [Js.orElse] in H. exact (nearest_unused_sound _ _ _ _ _ _ H).
Qed.

Lemma strongBeatCandidate_sound (sortedNotes : list Note.t) :
  finderSound sortedNotes (strongBeatCandidate sortedNotes).
Proof.
  intros beat usedNotes pos n H. unfold strongBeatCandidate in H.
  destruct (Js.find (fun n => negb (usedHas usedNotes n)
                              && Js.ltb (beatDistance n beat) (1 # 4)) sortedNotes)
    as [r1|] eqn:E1.
  { cbn [Js.orElse] in H. rewrite H in E1.
    exact (find_unused_sound _ _ _ _ _ E1). }
  destruct (Js.find (fun n => negb (usedHas usedNotes n)
                              && (Js.leb (Note.startBeat n) beat
                                  && Js.ltb beat (Note.endBeat n))) sortedNotes)
    as [r2|] eqn:E2.
  { cbn [Js.orElse] in H. rewrite H in E2.
    exact (find_unused_sound _ _ _ _ _ E2). }
  cbn [Js.orElse] in H. exact (nearest_unused_sound _ _ _ _ _ _ H).
Qed.

Lemma level2Loop_walk (sortedNotes : list Note.t) (a : bool)
    (ts : TimeSignature.t) (strongBeats : list Z) :
  forall idx result usedNotes,
    level2Loop sortedNotes a ts idx strongBeats result usedNotes
    = strongBeatWalk (findNoteAtBeatExcluding sortedNotes) a ts idx strongBeats
        result usedNotes.
Proof.
  induction strongBeats as [|sb rest IH]; intros idx result usedNotes;
    cbn [level2Loop strongBeatWalk]; [reflexivity|].
  destruct (findNoteAtBeatExcluding sortedNotes (inject_Z sb) usedNotes)
    as [[pos n]|]; apply IH.
Qed.

Lemma strongBeatLoop_walk (sortedNotes : list Note.t) (a : bool)
    (ts : TimeSignature.t) (strongBeats : list Z) :
  forall idx result usedNotes,
    strongBeatLoop sortedNotes a ts idx strongBeats result usedNotes
    = strongBeatWalk (strongBeatCandidate sortedNotes) a ts idx strongBeats
        result usedNotes.
Proof.
  induction strongBeats as [|sb rest IH]; intros idx result usedNotes;
    cbn [strongBeatLoop strongBeatWalk]; [reflexivity|].
  destruct (strongBeatCandidate sortedNotes (inject_Z sb) usedNotes)
    as [[pos n]|]; apply IH.
Qed.

Lemma strongBeatWalk_placed (sortedNotes : list Note.t)
    (finder : Q -> list nat -> option (nat * Note.t)) (a : bool)
    (ts : TimeSignature.t) :
  finderSound sortedNotes finder ->
  (a = true -> forall n, nth_error sortedNotes 0 = Some n ->
                         (Note.startBeat n < 1)%Q) ->
  forall strongBeats idx result usedNotes,
    exists out,
      strongBeatWalk finder a ts idx strongBeats result usedNotes = result ++ out /\
      PlacedOnStrongBeats ts sortedNotes (Nat.eqb idx 0) strongBeats out /\
      Forall (fun n' => ~ In (Note.id n') usedNotes) out /\
      NoDup (map Note.id out).
Proof.
  intros Hsound Hana.
  induction strongBeats as [|sb rest IH]; intros idx result usedNotes;
    cbn [strongBeatWalk].
  - exists []. rewrite app_nil_r. repeat split; constructor.
  - destruct (finder (inject_Z sb) usedNotes) as [[pos n]|] eqn:Ef.
    + destruct (Hsound _ _ _ _ Ef) as [Hnth Hunused].
      destruct (IH (S idx)
                  (result
                   ++ [Note.set_duration
                         (plainDuration ((nextStrongBeatOf rest ts - sb) * 1024))
                         (Note.set_startBeat
                            (if Nat.eqb idx 0 && a && Nat.eqb pos 0
                             then Note.startBeat n else inject_Z sb) n)])
                  (usedNotes ++ [Note.id n]))
        as [out [-> [Hp [Hu Hnd]]]].
      eexists (_ :: out). split; [rewrite <- app_assoc; reflexivity|].
      split; [|split].
      * eapply placed_keep with (n := n); [eapply nth_error_In; exact Hnth | |
                                            reflexivity | exact Hp].
        destruct (Nat.eqb idx 0 && a && Nat.eqb pos 0) eqn:Ek;
          [|left; reflexivity].
        right. apply andb_prop in Ek. destruct Ek as [Ek Epos].
        apply andb_prop in Ek. destruct Ek as [Eidx Ea].
        apply Nat.eqb_eq in Epos. subst pos.
        split; [exact Eidx|]. split; [reflexivity|].
        apply Hana; assumption.
      * constructor; [exact Hunused|].
        eapply Forall_impl; [|exact Hu]. intros x Hx Hin. apply Hx.
        apply in_or_app. left; exact Hin.
      * cbn [map]. constructor; [|exact Hnd].
        intros Hin. apply in_map_iff in Hin. destruct Hin as [x [Ex Hx]].
        rewrite Forall_forall in Hu. apply (Hu x Hx).
        apply in_or_app. right. left. symmetry. exact Ex.
    + destruct (IH (S idx) result usedNotes) as [out [-> [Hp [Hu Hnd]]]].
      exists out. split; [reflexivity|]. split; [|split; assumption].
      apply placed_skip. exact Hp.
Qed.

Lemma placed_source (ts : TimeSignature.t) (source source' : list Note.t) :
  (forall n, In n source -> In n source') ->
  forall first strongBeats out,
    PlacedOnStrongBeats ts source first strongBeats out ->
    PlacedOnStrongBeats ts source' first strongBeats out.
Proof.
  intros Hincl first strongBeats out H.
  induction H as [first | first sb rest out _ IH
                  | first sb rest out n start n' Hin Hs Hm _ IH].
  - constructor.
  - apply placed_skip. exact IH.
  - eapply placed_keep; [apply Hincl; exact Hin | exact Hs | exact Hm | exact IH].
Qed.

Lemma placed_nothing (ts : TimeSignature.t) (source : list Note.t)
    (strongBeats : list Z) :
  forall first, PlacedOnStrongBeats ts source first strongBeats [].
Proof.
  induction strongBeats as [|sb rest IH]; intros first.
  - constructor.
  - apply placed_skip. apply IH.
Qed.

Lemma placed_length (ts : TimeSignature.t) (source : list Note.t)
    (first : bool) (strongBeats : list Z) (out : list Note.t) :
  PlacedOnStrongBeats ts source first strongBeats out ->
  (length out <= length strongBeats)%nat.
Proof.
  induction 1; simpl; lia.
Qed.

Lemma placed_identity (ts : TimeSignature.t) (source : list Note.t)
    (first : bool) (strongBeats : list Z) (out : list Note.t) :
  PlacedOnStrongBeats ts source first strongBeats out ->
  Forall (fun n' => exists n, In n source /\ identityOf n' = identityOf n) out.
Proof.
  induction 1 as [| |first sb rest out n start n' Hin Hs Hm _ IH].
  - constructor.
  - assumption.
  - constructor; [|exact IH]. exists n. split; [exact Hin|].
    unfold movedCopy in Hm. subst n'. reflexivity.
Qed.

(** The outcome of the two strong-beat rules in terms of the walk. *)
Lemma strong_beat_rule_placed (notes : list Note.t) (ts : TimeSignature.t)
    (finder : list Note.t -> Q -> list nat -> option (nat * Note.t)) :
  (forall sortedNotes, finderSound sortedNotes (finder sortedNotes)) ->
  let out :=
    match Js.sort byStartBeat (filter Note.isMain notes) with
    | [] => []
    | (firstNote :: _) as sortedNotes =>
        strongBeatWalk (finder sortedNotes)
          (Js.ltb (Note.startBeat firstNote) 1) ts 0 (getStrongBeats ts) [] []
    end in
  PlacedOnStrongBeats ts (filter Note.isMain notes) true (getStrongBeats ts) out /\
  NoDup (map Note.id out).
Proof.
  intros Hsound out. subst out.
  destruct (Js.sort byStartBeat (filter Note.isMain notes))
    as [|firstNote others] eqn:E.
  - split; [apply placed_nothing | constructor].
  - destruct (strongBeatWalk_placed (firstNote :: others)
                (finder (firstNote :: others))
                (Js.ltb (Note.startBeat firstNote) 1) ts
                (Hsound _)) with (strongBeats := getStrongBeats ts)
                                 (idx := 0%nat) (result := @nil Note.t)
                                 (usedNotes := @nil nat)
      as [out [-> [Hp [_ Hnd]]]].
    + intros Ha n Hn. cbn [nth_error] in Hn. inversion Hn; subst n.
      apply ltb_lt. exact Ha.
    + cbn [app]. split; [|exact Hnd].
      eapply placed_source; [|exact Hp].
      intros n Hn. rewrite <- E in Hn. apply (sort_In byStartBeat). exact Hn.
Qed.

(** X4.  Level 2 and the strong-beat reduction of the inner voices
    ([applyStrongBeatOnly]) walk the strong beats of the time signature in
    order and put at most one note on each: a copy of a main note of the
    input, moved onto the strong beat and lasting until the next strong beat
    (until the end of the measure for the last one).  The only note that may
    stay off a strong beat is one placed for the first strong beat that
    starts before beat 1; it keeps its own start.  No input note (by
    identifier) is used twice, and Level 2 keeps the measure number. *)
Theorem strong_beat_rules_place_notes_on_strong_beats :
  forall (m : Measure.t) (notes : list Note.t) (ts : TimeSignature.t),
    (PlacedOnStrongBeats ts (filter Note.isMain (Measure.notes m)) true
       (getStrongBeats ts) (Measure.notes (applyLevel2 m ts)) /\
     NoDup (map Note.id (Measure.notes (applyLevel2 m ts))) /\
     (length (Measure.notes (applyLevel2 m ts))
      <= length (getStrongBeats ts))%nat /\
     Measure.number (applyLevel2 m ts) = Measure.number m) /\
    (PlacedOnStrongBeats ts (filter Note.isMain notes) true
       (getStrongBeats ts) (applyStrongBeatOnly notes ts) /\
     NoDup (map Note.id (applyStrongBeatOnly notes ts)) /\
     (length (applyStrongBeatOnly notes ts) <= length (getStrongBeats ts))%nat).
Proof.
  intros m notes ts. split.
  - pose proof (strong_beat_rule_placed (Measure.notes m) ts
                  findNoteAtBeatExcluding findNoteAtBeatExcluding_sound)
      as [Hp Hnd].
    assert (E : Measure.notes (applyLevel2 m ts)
                = match Js.sort byStartBeat
                          (filter Note.isMain (Measure.notes m)) with
                  | [] => []
                  | (firstNote :: _) as sortedNotes =>
                      strongBeatWalk (findNoteAtBeatExcluding sortedNotes)
                        (Js.ltb (Note.startBeat firstNote) 1) ts 0
                        (getStrongBeats ts) [] []
                  end).
    { unfold applyLevel2.
      destruct (Js.sort byStartBeat (filter Note.isMain (Measure.notes m)));
        [reflexivity|].
      cbn [Measure.notes]. apply level2Loop_walk. }
    rewrite E. split; [exact Hp|]. split; [exact Hnd|].
    split; [exact (placed_length _ _ _ _ _ Hp)|].
    unfold applyLevel2.
    destruct (Js.sort byStartBeat (filter Note.isMain (Measure.notes m)));
      reflexivity.
  - pose proof (strong_beat_rule_placed notes ts
                  strongBeatCandidate strongBeatCandidate_sound) as [Hp Hnd].
    assert (E : applyStrongBeatOnly notes ts
                = match Js.sort byStartBeat (filter Note.isMain notes) with
                  | [] => []
                  | (firstNote :: _) as sortedNotes =>
                      strongBeatWalk (strongBeatCandidate sortedNotes)
                        (Js.ltb (Note.startBeat firstNote) 1) ts 0
                        (getStrongBeats ts) [] []
                  end).
    { unfold applyStrongBeatOnly.
      destruct (Js.sort byStartBeat (filter Note.isMain notes));
        [reflexivity|].
      apply strongBeatLoop_walk. }
    rewrite E. split; [exact Hp|]. split; [exact Hnd|].
    exact (placed_length _ _ _ _ _ Hp).
Qed.

(* ------------------------------------------------------------------ *)
(** ** What the single-staff levels leave alone *)

Lemma level_cases (level : option Z) :
  level = Some 1 \/ level = Some 2 \/ level = Some 3 \/ level = Some 4 \/
  level = Some 5 \/
  ((forall l, level = Some l -> l < 1 \/ 5 < l) /\
   forall m ts, applySingleStaffSimplification m level ts = m).
Proof.
  destruct level as [l|].
  - destruct (Z.eq_dec l 1) as [->|N1]; [tauto|].
    destruct (Z.eq_dec l 2) as [->|N2]; [tauto|].
    destruct (Z.eq_dec l 3) as [->|N3]; [tauto|].
    destruct (Z.eq_dec l 4) as [->|N4]; [tauto|].
    destruct (Z.eq_dec l 5) as [->|N5]; [tauto|].
    do 5 right. split; [intros l' E; inversion E; lia|].
    intros m ts. destruct l as [|p|p]; try reflexivity.
    destruct p as [p|p|]; try (destruct p as [p|p|]);
      try (destruct p as [p|p|]); try reflexivity; lia.
  - do 5 right. split; [intros l E; discriminate | reflexivity].
Qed.

Lemma level4Snap_identity (n : Note.t) : identityOf (level4Snap n) = identityOf n.
Proof.
  unfold level4Snap. destruct (Duration.tuplet (Note.duration n)); reflexivity.
Qed.

Lemma level5_marks_identity (embs mainNotes : list Note.t) :
  map identityOf (fold_left level5Mark embs mainNotes) = map identityOf mainNotes.
Proof.
  revert mainNotes. induction embs as [|e embs IH]; intros mainNotes; simpl.
  - reflexivity.
  - rewrite IH. unfold level5Mark.
    destruct (nearestMainFrom 0 (Note.startBeat e) mainNotes None) as [[i d]|];
      [|reflexivity].
    apply updateAt_map. intros x. reflexivity.
Qed.

(** Every note a level from 1 to 5 writes carries the identity of a main
    note of the measure. *)
Lemma level_notes_from_main (m : Measure.t) (l : Z) (ts : TimeSignature.t) :
  1 <= l <= 5 ->
  Forall (fun n' => exists n, In n (Measure.notes m) /\ Note.isMain n = true /\
                              identityOf n' = identityOf n)
         (Measure.notes (applySingleStaffSimplification m (Some l) ts)).
Proof.
  intros Hl.
  assert (Hc : l = 1 \/ l = 2 \/ l = 3 \/ l = 4 \/ l = 5) by lia.
  destruct Hc as [->|[->|[->|[->| ->]]]]; cbn [applySingleStaffSimplification].
  - unfold applyLevel1.
    destruct (Js.sort byStartBeat (filter Note.isMain (Measure.notes m)))
      as [|first others] eqn:E; cbn [Measure.notes]; [constructor|].
    destruct (sort_byStartBeat_first _ _ _ E) as [Hin _].
    apply filter_In in Hin. constructor; [|constructor].
    exists first. split; [tauto|]. split; [tauto | reflexivity].
  - assert (E : Measure.notes (applyLevel2 m ts)
                = match Js.sort byStartBeat
                          (filter Note.isMain (Measure.notes m)) with
                  | [] => []
                  | (firstNote :: _) as sortedNotes =>
                      strongBeatWalk (findNoteAtBeatExcluding sortedNotes)
                        (Js.ltb (Note.startBeat firstNote) 1) ts 0
                        (getStrongBeats ts) [] []
                  end).
    { unfold applyLevel2.
      destruct (Js.sort byStartBeat (filter Note.isMain (Measure.notes m)));
        [reflexivity|].
      cbn [Measure.notes]. apply level2Loop_walk. }
    rewrite E.
    pose proof (strong_beat_rule_placed (Measure.notes m) ts
                  findNoteAtBeatExcluding findNoteAtBeatExcluding_sound)
      as [Hp _].
    apply placed_identity in Hp.
    eapply Forall_impl; [|exact Hp].
    intros n' [n [Hin Hid]]. apply filter_In in Hin.
    exists n. tauto.
  - unfold applyLevel3.
    destruct (filter Note.isMain (Measure.notes m)) as [|n0 ns] eqn:Ef;
      cbn [Measure.notes]; [constructor|].
    apply Forall_forall. intros n' Hn'. apply in_flat_map in Hn'.
    destruct Hn' as [beat [_ Hn']].
    destruct (findNoteAtBeat_total (n0 :: ns) (inject_Z beat)) as [n [En Hin]];
      [discriminate|].
    rewrite En in Hn'. destruct Hn' as [<-|[]].
    rewrite <- Ef in Hin. apply filter_In in Hin.
    exists n. split; [tauto|]. split; [tauto | reflexivity].
  - unfold applyLevel4. cbn [Measure.notes].
    pose proof (level4_invariant
                  (filter Note.isMain (Js.sort byStartBeat (Measure.notes m))))
      as Hinv.
    apply Forall_forall. intros n' Hn'.
    destruct (l4_origin _ _ _ Hinv n' Hn') as [n [Hin Hor]].
    apply filter_In in Hin. destruct Hin as [Hin Hm].
    apply (proj1 (sort_In byStartBeat _ _)) in Hin.
    exists n. split; [exact Hin|]. split; [exact Hm|].
    destruct Hor as [[_ ->]|[_ ->]]; [reflexivity | apply level4Snap_identity].
  - unfold applyLevel5. cbn [Measure.notes].
    apply Forall_forall. intros n' Hn'.
    apply (in_map identityOf) in Hn'. rewrite level5_marks_identity in Hn'.
    apply in_map_iff in Hn'. destruct Hn' as [n [Hid Hin]].
    apply filter_In in Hin. exists n. split; [tauto|]. split; [tauto|].
    symmetry. exact Hid.
Qed.

(** X5.  Whatever the level, single-staff simplification keeps the measure
    number and never invents a note or alters one beyond its timing: every
    note of the result carries the identifier, pitch, voice, staff, tie,
    slurs, lock and voice part of a note of the input.  At the levels 1 to 5
    that source note is a main note, so no ornament is ever written. *)
Theorem single_staff_levels_only_retime_notes :
  forall (m : Measure.t) (level : option Z) (ts : TimeSignature.t),
    let out := applySingleStaffSimplification m level ts in
    Measure.number out = Measure.number m /\
    Forall (fun n' => exists n, In n (Measure.notes m) /\
                                identityOf n' = identityOf n)
           (Measure.notes out) /\
    (forall l, level = Some l -> 1 <= l <= 5 ->
       Forall (fun n' => Note.isMain n' = true /\
                         exists n, In n (Measure.notes m) /\
                                   Note.isMain n = true /\
                                   identityOf n' = identityOf n)
              (Measure.notes out)).
Proof.
  intros m level ts out. subst out.
  assert (Hmain : forall l, 1 <= l <= 5 ->
            Forall (fun n' => Note.isMain n' = true /\
                              exists n, In n (Measure.notes m) /\
                                        Note.isMain n = true /\
                                        identityOf n' = identityOf n)
                   (Measure.notes (applySingleStaffSimplification m (Some l) ts))).
  { intros l Hl. eapply Forall_impl; [|exact (level_notes_from_main m l ts Hl)].
    intros n' [n [Hin [Hm Hid]]]. split; [|exists n; tauto].
    unfold identityOf in Hid. unfold Note.isMain in *.
    assert (He : Note.embellishment n' = Note.embellishment n)
      by (injection Hid; intros; assumption).
    now rewrite He. }
  split; [|split].
  - destruct (level_cases level) as [->|[->|[->|[->|[->|[_ Hid]]]]]];
      cbn [applySingleStaffSimplification].
    + unfold applyLevel1.
      destruct (Js.sort byStartBeat (filter Note.isMain (Measure.notes m)));
        reflexivity.
    + unfold applyLevel2.
      destruct (Js.sort byStartBeat (filter Note.isMain (Measure.notes m)));
        reflexivity.
    + unfold applyLevel3.
      destruct (filter Note.isMain (Measure.notes m)); reflexivity.
    + reflexivity.
    + reflexivity.
    + now rewrite Hid.
  - destruct (level_cases level) as [->|[->|[->|[->|[->|[_ Hid]]]]]];
      try (eapply Forall_impl; [|apply Hmain; lia];
           intros n' [_ [n [Hin [_ Hi]]]]; exists n; tauto).
    rewrite Hid. apply Forall_forall. intros n Hn. exists n. tauto.
  - intros l -> Hl. apply Hmain. exact Hl.
Qed.

(* ------------------------------------------------------------------ *)
(** ** Dotted durations *)

Lemma pow2_pos (d : nat) : 0 < 2 ^ Z.of_nat d.
Proof. apply Z.pow_pos_nonneg; lia. Qed.

Lemma pow2_succ (d : nat) : 2 ^ Z.of_nat (S d) = 2 * 2 ^ Z.of_nat d.
Proof. rewrite Nat2Z.inj_succ, Z.pow_succ_r by lia. reflexivity. Qed.

Lemma pow2_Q_nonzero (d : nat) : ~ (inject_Z (2 ^ Z.of_nat d) == 0)%Q.
Proof.
  intros H. pose proof (pow2_pos d) as Hp.
  assert (E : 2 ^ Z.of_nat d = 0) by (apply inject_Z_injective; exact H).
  lia.
Qed.

(** The loop of dots adds [addition * (2 - 2 / 2^dots)] to [ticks]. *)
Lemma applyDots_closed (dots : nat) :
  forall ticks addition : Q,
    (applyDots dots ticks addition
     == ticks + 2 * addition * (1 - 1 / inject_Z (2 ^ Z.of_nat dots)))%Q.
Proof.
  induction dots as [|d IH]; intros ticks addition.
  - cbn [applyDots]. change (inject_Z (2 ^ Z.of_nat 0)) with 1%Q. field.
  - cbn [applyDots]. rewrite IH, pow2_succ, inject_Z_mult.
    pose proof (pow2_Q_nonzero d) as Hnz. field. exact Hnz.
Qed.

Lemma applyDots_half (dots : nat) (ticks : Q) :
  (applyDots dots ticks (ticks / 2)
   == ticks * (2 - 1 / inject_Z (2 ^ Z.of_nat dots)))%Q.
Proof.
  rewrite applyDots_closed. pose proof (pow2_Q_nonzero dots) as Hnz.
  field. exact Hnz.
Qed.



(* ------------------------------------------------------------------ *)
(** ** Durations read by the parser *)

Lemma round_comp (x y : Q) : (x == y)%Q -> Js.round x = Js.round y.
Proof.
  intros E. unfold Js.round. apply Qfloor_comp. now rewrite E.
Qed.

(** X7.  For a positive [divisions], [parseDuration] copies the number of
    dots and the tuplet ratio, maps the text of [type] through its table (an
    absent or unknown text gives a quarter), and computes the ticks from the
    written [duration] (or, when that element is absent, from [divisions],
    i.e. one quarter): a grace note gets 0 ticks; any other note gets
    [round (duration / divisions * 1024 * (2 - 1 / 2^dots))].  Each dot thus
    lengthens the written duration again: one dot multiplies it by 3/2. *)
Theorem parseDuration_ticks :
  forall (noteEl : NoteEl.t) (divisions : Z),
    0 < divisions ->
    let d := parseDuration noteEl divisions in
    let written := match NoteEl.durationEl noteEl with
                   | Some v => v
                   | None => divisions
                   end in
    Duration.dots d = NoteEl.dotEls noteEl /\
    Duration.tuplet d = NoteEl.timeModification noteEl /\
    Duration.type d = match NoteEl.typeEl noteEl with
                      | Some text => typeMap text
                      | None => quarter
                      end /\
    (NoteEl.grace noteEl = true -> Duration.ticks d = 0) /\
    (NoteEl.grace noteEl = false ->
     Duration.ticks d
     = Js.round (inject_Z written / inject_Z divisions * 1024
                 * (2 - 1 / inject_Z (2 ^ Z.of_nat (NoteEl.dotEls noteEl)))) /\
     (NoteEl.dotEls noteEl = 0%nat ->
      Duration.ticks d = Js.round (inject_Z written / inject_Z divisions * 1024)) /\
     (NoteEl.dotEls noteEl = 1%nat ->
      Duration.ticks d = Js.round (inject_Z written / inject_Z divisions * 1536))).
Proof.
  intros noteEl divisions Hdiv d written. subst d.
  split; [reflexivity|]. split; [reflexivity|]. split; [reflexivity|].
  split; [apply grace_ticks_zero|].
  intros Hg.
  assert (Hticks : Duration.ticks (parseDuration noteEl divisions)
                   = Js.round
                       (inject_Z written / inject_Z divisions * 1024
                        * (2 - 1 / inject_Z (2 ^ Z.of_nat (NoteEl.dotEls noteEl))))).
  { unfold parseDuration. cbn [Duration.ticks]. rewrite Hg. fold written.
    apply round_comp. apply applyDots_half. }
  assert (Hnz : ~ (inject_Z divisions == 0)%Q).
  { intros H. apply (inject_Z_injective divisions 0) in H. lia. }
  split; [exact Hticks|]. split.
  - intros E. rewrite Hticks, E. apply round_comp.
    change (inject_Z (2 ^ Z.of_nat 0)) with 1%Q. field. exact Hnz.
  - intros E. rewrite Hticks, E. apply round_comp.
    change (inject_Z (2 ^ Z.of_nat 1)) with 2%Q. field. exact Hnz.
Qed.

Lemma parseDuration_ticks_witness :
  let d := parseDuration dottedQuarterEl 2 in
  Duration.dots d = 1%nat /\
  Duration.tuplet d = None /\
  Duration.type d = quarter /\
  (NoteEl.grace dottedQuarterEl = true -> Duration.ticks d = 0) /\
  (NoteEl.grace dottedQuarterEl = false ->
   Duration.ticks d
   = Js.round (inject_Z 3 / inject_Z 2 * 1024
               * (2 - 1 / inject_Z (2 ^ Z.of_nat 1))) /\
   (1%nat = 0%nat ->
    Duration.ticks d = Js.round (inject_Z 3 / inject_Z 2 * 1024)) /\
   (1%nat = 1%nat ->
    Duration.ticks d = Js.round (inject_Z 3 / inject_Z 2 * 1536))).
Proof.
  apply (parseDuration_ticks dottedQuarterEl 2). lia.
Defined.

(* ------------------------------------------------------------------ *)
(** ** What the analyzer writes *)

Lemma mapi_keeps {A B} (g : A -> B) (f : nat -> A -> A) (l : list A) :
  (forall i x, g (f i x) = g x) ->
  forall i, map g (mapi i f l) = map g l.
Proof.
  intros Hg. induction l as [|x l IH]; intros i; simpl; [reflexivity|].
  now rewrite Hg, IH.
Qed.

Lemma mapi_Forall {A} (P : A -> Prop) (f : nat -> A -> A) (l : list A) :
  (forall i x, In x l -> P (f i x)) ->
  forall i, Forall P (mapi i f l).
Proof.
  induction l as [|x l IH]; intros Hf i; simpl; constructor.
  - apply Hf. left; reflexivity.
  - apply IH. intros j y Hy. apply Hf. right; exact Hy.
Qed.

Lemma assignVoicePart_blind (v : Voices.t) (n : Note.t) :
  analysisBlind (assignVoicePart v n) = analysisBlind n /\
  Note.isLocked (assignVoicePart v n) = Note.isLocked n /\
  Note.lockReason (assignVoicePart v n) = Note.lockReason n /\
  (Note.voicePart n <> None -> Note.voicePart (assignVoicePart v n) <> None).
Proof.
  unfold assignVoicePart.
  repeat match goal with
         | |- context [if ?c then _ else _] => destruct c
         end; repeat split; try reflexivity; try discriminate; tauto.
Qed.

Lemma assignVoicePart_none (n : Note.t) :
  assignVoicePart (Voices.mk [] [] [] []) n = n.
Proof. reflexivity. Qed.

Lemma applyLock_blind (ts : TimeSignature.t) (measureNotes : list Note.t)
    (noteIdx : nat) (note : Note.t) :
  analysisBlind (applyLock ts measureNotes noteIdx note) = analysisBlind note /\
  Note.voicePart (applyLock ts measureNotes noteIdx note) = Note.voicePart note /\
  (Note.isLocked note = false -> Note.lockReason note = None ->
   (Note.isLocked (applyLock ts measureNotes noteIdx note) = true <->
    Note.lockReason (applyLock ts measureNotes noteIdx note) <> None)).
Proof.
  unfold applyLock.
  destruct (lockDecision ts measureNotes noteIdx note) as [r|].
  - repeat split; try reflexivity; intros; try discriminate.
  - repeat split; try reflexivity; intros; congruence.
Qed.

(** The notes of an analyzed measure, one by one. *)
Lemma analyzeMeasure_notes (scoreType : ScoreType) (ts : TimeSignature.t)
    (m : Measure.t) :
  map analysisBlind (Measure.notes (analyzeMeasure scoreType ts m))
  = map analysisBlind (Measure.notes m) /\
  Forall (fun n =>
            (Note.isLocked n = true <-> Note.lockReason n <> None) /\
            (Note.isLocked n = true -> Note.isMain n = true) /\
            match scoreType with
            | single_staff => Note.voicePart n = None
            | grand_staff => Note.voicePart n <> None
            end)
         (Measure.notes (analyzeMeasure scoreType ts m)).
Proof.
  unfold analyzeMeasure. cbn [Measure.notes]. split.
  - rewrite mapi_keeps by (intros i x; apply applyLock_blind).
    rewrite map_map. apply map_ext. intros n. reflexivity.
  - apply mapi_Forall. intros i x Hx.
    apply in_map_iff in Hx. destruct Hx as [n [<- _]].
    destruct (applyLock_blind ts
                (map (fun note =>
                        Note.set_lock false None
                          (Note.set_voicePart
                             match scoreType with
                             | single_staff => None
                             | grand_staff => Some (classifyVoicePart note)
                             end note)) (Measure.notes m)) i
                (Note.set_lock false None
                   (Note.set_voicePart
                      match scoreType with
                      | single_staff => None
                      | grand_staff => Some (classifyVoicePart n)
                      end n))) as [_ [Hvp Hlock]].
    split; [apply Hlock; reflexivity|].
    split; [apply applyLock_locked_main; reflexivity|].
    rewrite Hvp. destruct scoreType; [reflexivity | discriminate].
Qed.

(** X8.  The analyzer only annotates.  The analyzed score has the same
    metadata, the same measure numbers and rests, and in every measure the
    same notes in the same order with every field but the lock and the voice
    part unchanged (identifier, pitch, duration, start beat, voice, staff,
    tie, slurs, ornament).  In the result a note is locked exactly when it
    carries a lock reason, a locked note is never an ornament, every note of
    a grand-staff score has a voice part and no note of a single-staff score
    has one, and [lockedNotes] lists the locked notes of the measures in
    score order. *)
Theorem analyzeScore_only_annotates :
  forall (score : ParsedScore.t) (scoreType : ScoreType),
    let a := analyzeScore score scoreType in
    AnalyzedScore.metadata a = ParsedScore.metadata score /\
    AnalyzedScore.scoreType a = scoreType /\
    AnalyzedScore.strongBeats a
    = getStrongBeats (ScoreMetadata.timeSignature (ParsedScore.metadata score)) /\
    map Measure.number (AnalyzedScore.measures a)
    = map Measure.number (ParsedScore.measures score) /\
    map Measure.rests (AnalyzedScore.measures a)
    = map Measure.rests (ParsedScore.measures score) /\
    map (fun m => map analysisBlind (Measure.notes m)) (AnalyzedScore.measures a)
    = map (fun m => map analysisBlind (Measure.notes m))
          (ParsedScore.measures score) /\
    Forall (fun m =>
              Forall (fun n =>
                        (Note.isLocked n = true <-> Note.lockReason n <> None) /\
                        (Note.isLocked n = true -> Note.isMain n = true) /\
                        match scoreType with
                        | single_staff => Note.voicePart n = None
                        | grand_staff => Note.voicePart n <> None
                        end)
                     (Measure.notes m))
           (AnalyzedScore.measures a) /\
    AnalyzedScore.lockedNotes a
    = filter Note.isLocked (flat_map Measure.notes (AnalyzedScore.measures a)).
Proof.
  intros score scoreType a.
  split; [reflexivity|]. split; [reflexivity|]. split; [reflexivity|].
  subst a. unfold analyzeScore. cbn [AnalyzedScore.measures AnalyzedScore.lockedNotes].
  set (ts := ScoreMetadata.timeSignature (ParsedScore.metadata score)).
  set (locked := map (analyzeMeasure scoreType ts) (ParsedScore.measures score)).
  set (voices := match scoreType with
                 | single_staff => Voices.mk [] [] [] []
                 | grand_staff => identifyVoices (flat_map Measure.notes locked)
                 end).
  split; [|split; [|split; [|split; [|reflexivity]]]].
  - subst locked. rewrite !map_map. apply map_ext. intros m. reflexivity.
  - subst locked. rewrite !map_map. apply map_ext. intros m. reflexivity.
  - subst locked. rewrite !map_map. apply map_ext. intros m.
    cbn [Measure.notes]. rewrite map_map.
    rewrite <- (proj1 (analyzeMeasure_notes scoreType ts m)).
    apply map_ext. intros n. apply assignVoicePart_blind.
  - apply Forall_forall. intros m' Hm'.
    apply in_map_iff in Hm'. destruct Hm' as [m1 [<- Hm1]].
    cbn [Measure.notes].
    subst locked. apply in_map_iff in Hm1. destruct Hm1 as [m [<- Hm]].
    apply Forall_forall. intros n' Hn'.
    apply in_map_iff in Hn'. destruct Hn' as [n [<- Hn]].
    pose proof (proj2 (analyzeMeasure_notes scoreType ts m)) as Hall.
    rewrite Forall_forall in Hall. destruct (Hall n Hn) as [Hlock [Hmain Hvp]].
    destruct (assignVoicePart_blind voices n) as [Hb [Hl [Hr Hv]]].
    rewrite Hl, Hr.
    split; [exact Hlock|]. split.
    + intros Hlocked. apply Hmain in Hlocked.
      unfold Note.isMain in *. unfold analysisBlind in Hb.
      assert (He : Note.embellishment (assignVoicePart voices n)
                   = Note.embellishment n)
        by (injection Hb; intros; assumption).
      now rewrite He.
    + destruct scoreType.
      * subst voices. rewrite assignVoicePart_none. exact Hvp.
      * apply Hv. exact Hvp.
Qed.

(* ------------------------------------------------------------------ *)
(** ** Voice identification *)

Lemma mapPush_rekey {K K' V} (eqb : K -> K -> bool) (eqb' : K' -> K' -> bool)
    (f : K -> K') :
  (forall a b, eqb' (f a) (f b) = eqb a b) ->
  forall (k : K) (v : V) (m : list (K * list V)),
    map (fun e => (f (fst e), snd e)) (Js.mapPush eqb k v m)
    = Js.mapPush eqb' (f k) v (map (fun e => (f (fst e), snd e)) m).
Proof.
  intros Hf k v m. induction m as [|[k0 vs] m IH]; simpl; [reflexivity|].
  rewrite Hf. destruct (eqb k0 k); simpl; [reflexivity|]. now rewrite IH.
Qed.

Lemma staffBeatGroups_one_staff (s : Z) (notes : list Note.t) :
  Forall (fun n => Note.staff n = s) notes ->
  staffBeatGroups notes = map (fun e => ((s, fst e), snd e)) (groupByBeat notes).
Proof.
  intros Hall. unfold staffBeatGroups, groupByBeat.
  change (@nil ((Z * Z) * list Note.t))
    with (map (fun e : Z * list Note.t => ((s, fst e), snd e)) []).
  generalize (@nil (Z * list Note.t)) as g.
  induction Hall as [|n notes Hn _ IH]; intros g; simpl; [reflexivity|].
  rewrite <- IH. f_equal. rewrite Hn.
  symmetry. apply (mapPush_rekey Z.eqb pairKeyEqb (fun k => (s, k))).
  intros a b. unfold pairKeyEqb. simpl. now rewrite Z.eqb_refl.
Qed.

Lemma pickOfStaff_pickPerBeat (s : Z) (better : Z -> Z -> bool)
    (notes : list Note.t) :
  Forall (fun n => Note.staff n = s) notes ->
  pickOfStaff s better notes = pickPerBeat better notes.
Proof.
  intros Hall. unfold pickOfStaff, pickPerBeat.
  destruct notes as [|n0 ns]; [reflexivity|].
  rewrite (staffBeatGroups_one_staff s _ Hall).
  induction (groupByBeat (n0 :: ns)) as [|e g IH]; [reflexivity|].
  cbn [map flat_map fst snd]. rewrite Z.eqb_refl, IH. reflexivity.
Qed.

Lemma filter_staff_Forall (s : Z) (notes : list Note.t) :
  Forall (fun n => Note.staff n = s) (filter (fun n => Note.staff n =? s) notes).
Proof.
  apply Forall_forall. intros n Hn. apply filter_In in Hn.
  apply Z.eqb_eq. tauto.
Qed.

Lemma pairKeyEqb_refl (k : Z * Z) : pairKeyEqb k k = true.
Proof. unfold pairKeyEqb. now rewrite !Z.eqb_refl. Qed.

Lemma reduceBest_In (better : Z -> Z -> bool) (group : list Note.t) (r : Note.t) :
  reduceBest better group = Some r -> In r group.
Proof.
  unfold reduceBest. destruct group as [|first others]; [discriminate|].
  intros H. inversion H as [E]. clear H E.
  revert first. induction others as [|x others IH]; intros first; simpl.
  - left; reflexivity.
  - destruct (better _ _).
    + destruct (IH x) as [E|Hin]; [right; left; exact E | right; right; exact Hin].
    + destruct (IH first) as [E|Hin]; [left; exact E | right; right; exact Hin].
Qed.

Lemma pickOfStaff_staff (s : Z) (better : Z -> Z -> bool) (notes : list Note.t) :
  Forall (fun n => Note.staff n = s) (pickOfStaff s better notes).
Proof.
  unfold pickOfStaff. destruct notes as [|n0 ns]; [constructor|].
  destruct (mapPush_fold_invariants pairKeyEqb
              (fun n => (Note.staff n, Js.floor (Note.startBeat n)))
              pairKeyEqb_refl (n0 :: ns) [])
    as [_ Hg]; [constructor | constructor |].
  fold (staffBeatGroups (n0 :: ns)) in Hg.
  unfold groupsMatch in Hg. rewrite Forall_forall in Hg.
  apply Forall_forall. intros n Hn. apply in_flat_map in Hn.
  destruct Hn as [e [He Hn]].
  destruct (fst (fst e) =? s) eqn:Es; [|destruct Hn].
  destruct (reduceBest better (snd e)) as [r|] eqn:Er; [|destruct Hn].
  destruct Hn as [<-|[]].
  apply reduceBest_In in Er.
  destruct (Hg e He) as [_ Hall]. rewrite Forall_forall in Hall.
  specialize (Hall r Er). unfold pairKeyEqb in Hall. simpl in Hall.
  apply andb_prop in Hall. destruct Hall as [H1 _].
  apply Z.eqb_eq in H1. apply Z.eqb_eq in Es. congruence.
Qed.

(** X9.  Voice identification does not depend on whether the AI models are
    loaded: [identifyMelodyLine] and [identifyBassLine], which the analyzer
    calls when they are, select exactly the notes [getHighestVoice] and
    [getLowestVoice] select when they are not, so [identifyVoices] returns
    the same four voices either way.  On any input the melody line only
    holds notes of staff 1 and the bass line only notes of staff 2. *)
Theorem voice_identification_ignores_ai_availability :
  forall (notes : list Note.t) (isAIAvailable : bool),
    identifyVoicesWith isAIAvailable notes = identifyVoices notes /\
    identifyMelodyLine (filter (fun n => Note.staff n =? 1) notes)
    = getHighestVoice (filter (fun n => Note.staff n =? 1) notes) /\
    identifyBassLine (filter (fun n => Note.staff n =? 2) notes)
    = getLowestVoice (filter (fun n => Note.staff n =? 2) notes) /\
    Forall (fun n => Note.staff n = 1) (identifyMelodyLine notes) /\
    Forall (fun n => Note.staff n = 2) (identifyBassLine notes).
Proof.
  intros notes isAIAvailable.
  assert (Hm : identifyMelodyLine (filter (fun n => Note.staff n =? 1) notes)
               = getHighestVoice (filter (fun n => Note.staff n =? 1) notes)).
  { apply pickOfStaff_pickPerBeat, filter_staff_Forall. }
  assert (Hb : identifyBassLine (filter (fun n => Note.staff n =? 2) notes)
               = getLowestVoice (filter (fun n => Note.staff n =? 2) notes)).
  { apply pickOfStaff_pickPerBeat, filter_staff_Forall. }
  split; [|split; [exact Hm | split; [exact Hb | split; apply pickOfStaff_staff]]].
  unfold identifyVoicesWith, identifyVoices.
  destruct isAIAvailable; [|reflexivity].
  now rewrite Hm, Hb.
Qed.

(* ------------------------------------------------------------------ *)
(** ** The highest and the lowest note of each beat *)

Section PickPerBeat.
Variable better : Z -> Z -> bool.
Variable atLeast : Z -> Z -> Prop.
Hypothesis atLeast_refl : forall a, atLeast a a.
Hypothesis atLeast_trans : forall a b c, atLeast a b -> atLeast b c -> atLeast a c.
Hypothesis better_true : forall x best, better x best = true -> atLeast x best.
Hypothesis better_false : forall x best, better x best = false -> atLeast best x.



End PickPerBeat.


(* ------------------------------------------------------------------ *)
(** ** The asynchronous path without the AI models *)

Lemma mapi_ext {A B} (f g : nat -> A -> B) (l : list A) :
  (forall i x, f i x = g i x) -> forall i, mapi i f l = mapi i g l.
Proof.
  intros H. induction l as [|x l IH]; intros i; simpl; [reflexivity|].
  now rewrite H, IH.
Qed.

Lemma withVoices_rules (m : Measure.t) (level : option Z) (ts : TimeSignature.t)
    (config : Config.t) :
  applySimplificationWithVoices m level ts
    (separateVoices (staffNotes 1 m) (staffNotes 2 m)) config
  = applyGrandStaffSimplification m level ts config.
Proof.
  destruct level as [[|p|p]|]; try reflexivity.
  destruct p as [p|p|]; try reflexivity;
    destruct p as [p|p|]; try reflexivity;
    destruct p as [p|p|]; reflexivity.
Qed.

(** X11.  Without the AI models the asynchronous path computes what the
    synchronous one computes: [applySimplificationWithVoices], given the
    voices the rules separate, returns the measure
    [applyGrandStaffSimplification] returns, for every level (also outside
    1 to 5) and every configuration; hence so does
    [applyGrandStaffSimplificationAsync], and [simplifyScoreAsync] returns
    the score [simplifyScore] returns.  On a single-staff score the two
    entry points agree whatever the AI answers. *)
Theorem async_simplification_agrees_without_ai :
  forall (analyzed : AnalyzedScore.t) (config : Config.t) (m : Measure.t)
         (level : option Z) (ts : TimeSignature.t) (c : Config.t)
         (ai : list Note.t -> list Note.t -> option Voices.t),
    applySimplificationWithVoices m level ts
      (separateVoices (staffNotes 1 m) (staffNotes 2 m)) c
    = applyGrandStaffSimplification m level ts c /\
    applyGrandStaffSimplificationAsync noAI m level ts c
    = applyGrandStaffSimplification m level ts c /\
    simplifyScoreAsync noAI analyzed config = simplifyScore analyzed config /\
    (AnalyzedScore.scoreType analyzed = single_staff ->
     simplifyScoreAsync ai analyzed config = simplifyScore analyzed config).
Proof.
  intros analyzed config m level ts c ai.
  split; [apply withVoices_rules|].
  split; [apply withVoices_rules|].
  split.
  - unfold simplifyScoreAsync, simplifyScore. f_equal.
    apply mapi_ext. intros i x.
    unfold simplifyMeasureAsync, simplifyMeasure.
    destruct (_ && _); [reflexivity|].
    destruct (AnalyzedScore.scoreType analyzed); [reflexivity|].
    apply withVoices_rules.
  - intros Hs. unfold simplifyScoreAsync, simplifyScore. f_equal.
    apply mapi_ext. intros i x.
    unfold simplifyMeasureAsync, simplifyMeasure. rewrite Hs. reflexivity.
Qed.

(* ------------------------------------------------------------------ *)
(** ** The four voices of a simplified grand-staff measure *)

Lemma single_staff_notes_from (m : Measure.t) (level : option Z)
    (ts : TimeSignature.t) :
  Forall (fun n' => exists n, In n (Measure.notes m) /\
                              identityOf n' = identityOf n)
         (Measure.notes (applySingleStaffSimplification m level ts)).
Proof.
  destruct (level_cases level) as [->|[->|[->|[->|[->|[_ Hid]]]]]];
    try (eapply Forall_impl; [|apply level_notes_from_main; lia];
         intros n' [n [Hin [_ Hi]]]; exists n; tauto).
  rewrite Hid. apply Forall_forall. intros n Hn. exists n. tauto.
Qed.

Lemma identityOf_bare (x y : Note.t) :
  identityOf x = identityOf y -> bareIdentityOf x = bareIdentityOf y.
Proof.
  unfold identityOf, bareIdentityOf. intros H.
  injection H. intros. congruence.
Qed.

Lemma fromStaff_step (m : Measure.t) (s : Z) (x y : Note.t) :
  bareIdentityOf x = bareIdentityOf y -> fromStaff m s y -> fromStaff m s x.
Proof.
  intros E [z [Hin [Hs [Hm Hz]]]]. exists z. repeat split; try assumption.
  congruence.
Qed.

Lemma simplifyVoice_fromStaff (m : Measure.t) (s : Z) (xs : list Note.t)
    (level : option Z) (ts : TimeSignature.t) :
  Forall (fromStaff m s) xs ->
  Forall (fromStaff m s) (simplifyVoice m xs level ts).
Proof.
  intros Hxs. unfold simplifyVoice. destruct xs as [|x0 xs0]; [constructor|].
  pose proof (single_staff_notes_from
                (Measure.mk (Measure.number m) (x0 :: xs0) (Measure.rests m))
                level ts) as H.
  eapply Forall_impl; [|exact H]. cbn [Measure.notes].
  intros n' [y [Hin Hid]]. rewrite Forall_forall in Hxs.
  eapply fromStaff_step; [apply identityOf_bare; exact Hid | apply Hxs; exact Hin].
Qed.

Lemma applyStrongBeatOnly_walk (notes : list Note.t) (ts : TimeSignature.t) :
  applyStrongBeatOnly notes ts
  = match Js.sort byStartBeat (filter Note.isMain notes) with
    | [] => []
    | (firstNote :: _) as sortedNotes =>
        strongBeatWalk (strongBeatCandidate sortedNotes)
          (Js.ltb (Note.startBeat firstNote) 1) ts 0 (getStrongBeats ts) [] []
    end.
Proof.
  unfold applyStrongBeatOnly.
  destruct (Js.sort byStartBeat (filter Note.isMain notes)); [reflexivity|].
  apply strongBeatLoop_walk.
Qed.

Lemma applyStrongBeatOnly_fromStaff (m : Measure.t) (s : Z) (xs : list Note.t)
    (ts : TimeSignature.t) :
  Forall (fromStaff m s) xs ->
  Forall (fromStaff m s) (applyStrongBeatOnly xs ts).
Proof.
  intros Hxs. rewrite applyStrongBeatOnly_walk.
  pose proof (strong_beat_rule_placed xs ts
                strongBeatCandidate strongBeatCandidate_sound) as [Hp _].
  apply placed_identity in Hp.
  eapply Forall_impl; [|exact Hp].
  intros n' [y [Hin Hid]]. apply filter_In in Hin. destruct Hin as [Hin _].
  rewrite Forall_forall in Hxs.
  eapply fromStaff_step; [apply identityOf_bare; exact Hid | apply Hxs; exact Hin].
Qed.

Lemma line_fromStaff (m : Measure.t) (s : Z) (bassFirst : bool) (vp : VoicePart)
    (line : list Note.t) :
  (forall z, In z line ->
             In z (VoiceLines.primaryLine
                     (extractVoicesByPitch (staffNotes s m) bassFirst)
                   ++ VoiceLines.secondaryLine
                        (extractVoicesByPitch (staffNotes s m) bassFirst))) ->
  Forall (fromStaff m s) (map (Note.set_voicePart (Some vp)) line).
Proof.
  intros Hsub. apply Forall_forall. intros y Hy.
  apply in_map_iff in Hy. destruct Hy as [z [<- Hz]].
  apply Hsub in Hz.
  apply (Permutation_in z (extract_partition _ bassFirst)) in Hz.
  apply filter_In in Hz. destruct Hz as [Hz Hm].
  unfold staffNotes in Hz. apply filter_In in Hz. destruct Hz as [Hz Hs].
  apply Z.eqb_eq in Hs.
  exists z. repeat split; assumption.
Qed.

Lemma separateVoices_fromStaff (m : Measure.t) :
  let v := separateVoices (staffNotes 1 m) (staffNotes 2 m) in
  Forall (fromStaff m 1) (Voices.soprano v) /\
  Forall (fromStaff m 1) (Voices.alto v) /\
  Forall (fromStaff m 2) (Voices.tenor v) /\
  Forall (fromStaff m 2) (Voices.bass v).
Proof.
  unfold separateVoices. cbn [Voices.soprano Voices.alto Voices.tenor Voices.bass].
  split; [|split; [|split]].
  - apply (line_fromStaff m 1 false). intros z Hz. apply in_or_app. left; exact Hz.
  - apply (line_fromStaff m 1 false). intros z Hz. apply in_or_app. right; exact Hz.
  - apply (line_fromStaff m 2 true). intros z Hz. apply in_or_app. right; exact Hz.
  - apply (line_fromStaff m 2 true). intros z Hz. apply in_or_app. left; exact Hz.
Qed.

Lemma block_tagged (m : Measure.t) (s v : Z) (vp : VoicePart) (xs : list Note.t) :
  In (s, v, Some vp) voiceTags ->
  Forall (fromStaff m s) xs ->
  Forall (fun n' =>
            Note.voicePart n' = Some vp /\
            In (tagOf n') voiceTags /\
            exists z, In z (Measure.notes m) /\ Note.isMain z = true /\
                      staffIdentityOf n' = staffIdentityOf z)
         (map (Note.retag s vp v) xs).
Proof.
  intros Htag Hxs. apply Forall_forall. intros n' Hn'.
  apply in_map_iff in Hn'. destruct Hn' as [x [<- Hx]].
  rewrite Forall_forall in Hxs. destruct (Hxs x Hx) as [z [Hin [Hs [Hm Hb]]]].
  split; [reflexivity|]. split; [exact Htag|].
  exists z. split; [exact Hin|]. split; [exact Hm|].
  unfold staffIdentityOf, bareIdentityOf in *. cbn [Note.retag Note.id Note.pitch
    Note.staff Note.tiedTo Note.slurredWith Note.isLocked Note.lockReason
    Note.embellishment].
  injection Hb. intros. congruence.
Qed.

(** X12.  At the levels 1 to 5 the grand-staff rules keep the measure
    number, drop every rest, and write notes tagged as one of exactly four
    voices: (staff 1, voice 1, soprano), (staff 1, voice 2, alto),
    (staff 2, voice 1, tenor), (staff 2, voice 2, bass).  Every written note
    descends from a main note of the input measure with the same
    identifier, pitch, staff, tie, slurs and lock, so no note changes staff,
    no ornament is written and notes of other staves are dropped.  Level 1
    writes soprano and bass only, Level 2 no tenor, Level 3 no alto. *)
Theorem grand_staff_levels_write_four_tagged_voices :
  forall (m : Measure.t) (l : Z) (ts : TimeSignature.t) (config : Config.t),
    1 <= l <= 5 ->
    let out := applyGrandStaffSimplification m (Some l) ts config in
    Measure.number out = Measure.number m /\
    Measure.rests out = [] /\
    Forall (fun n' =>
              In (tagOf n') voiceTags /\
              exists z, In z (Measure.notes m) /\ Note.isMain z = true /\
                        staffIdentityOf n' = staffIdentityOf z)
           (Measure.notes out) /\
    (l = 1 -> Forall (fun n' => Note.voicePart n' = Some soprano \/
                                Note.voicePart n' = Some bass)
                     (Measure.notes out)) /\
    (l = 2 -> Forall (fun n' => Note.voicePart n' <> Some tenor)
                     (Measure.notes out)) /\
    (l = 3 -> Forall (fun n' => Note.voicePart n' <> Some alto)
                     (Measure.notes out)).
Proof.
  intros m l ts config Hl out.
  destruct (separateVoices_fromStaff m) as [Hs [Ha [Ht Hb]]].
  assert (Tags : In (1, 1, Some soprano) voiceTags /\
                 In (1, 2, Some alto) voiceTags /\
                 In (2, 1, Some tenor) voiceTags /\
                 In (2, 2, Some bass) voiceTags)
    by (unfold voiceTags; simpl; tauto).
  destruct Tags as [T1 [T2 [T3 T4]]].
  assert (Hc : l = 1 \/ l = 2 \/ l = 3 \/ l = 4 \/ l = 5) by lia.
  destruct Hc as [->|[->|[->|[->| ->]]]]; subst out;
    cbn [applyGrandStaffSimplification];
    unfold applyGrandStaffLevel1, applyGrandStaffLevel2, applyGrandStaffLevel3,
           applyGrandStaffLevel4, applyGrandStaffLevel5;
    cbn [Measure.number Measure.rests Measure.notes];
    (split; [reflexivity|]); (split; [reflexivity|]);
    repeat match goal with
           | |- _ /\ _ => split
           | |- _ -> _ => intros E; try discriminate E; clear E
           | |- Forall _ (_ ++ _) => apply Forall_app
           | |- Forall _ (map (Note.retag ?s ?vp ?v) ?xs) =>
               eapply Forall_impl;
               [|apply (block_tagged m s v vp xs);
                 [assumption
                 |first [apply simplifyVoice_fromStaff; assumption
                        |apply applyStrongBeatOnly_fromStaff; assumption]]];
               intros n' [Hvp [Htag Hz]];
               first [split; assumption
                     |rewrite Hvp; first [left; reflexivity | right; reflexivity]
                     |rewrite Hvp; discriminate]
           end.
Qed.

Lemma grand_staff_levels_write_four_tagged_voices_witness :
  let out := applyGrandStaffSimplification chordMeasure (Some 4) sampleTime
               (Config.mk (Some 4) None None) in
  Measure.number out = Measure.number chordMeasure /\
  Measure.rests out = [] /\
  Forall (fun n' =>
            In (tagOf n') voiceTags /\
            exists z, In z (Measure.notes chordMeasure) /\ Note.isMain z = true /\
                      staffIdentityOf n' = staffIdentityOf z)
         (Measure.notes out) /\
  (4 = 1 -> Forall (fun n' => Note.voicePart n' = Some soprano \/
                              Note.voicePart n' = Some bass)
                   (Measure.notes out)) /\
  (4 = 2 -> Forall (fun n' => Note.voicePart n' <> Some tenor)
                   (Measure.notes out)) /\
  (4 = 3 -> Forall (fun n' => Note.voicePart n' <> Some alto)
                   (Measure.notes out)).
Proof.
  apply (grand_staff_levels_write_four_tagged_voices chordMeasure 4 sampleTime
           (Config.mk (Some 4) None None)).
  lia.
Defined.

(* ------------------------------------------------------------------ *)
(** ** Level 5 removes the ornaments and nothing else *)

Lemma level5_marks_blind (embs mainNotes : list Note.t) :
  map level5Blind (fold_left level5Mark embs mainNotes) = map level5Blind mainNotes.
Proof.
  revert mainNotes. induction embs as [|e embs IH]; intros mainNotes; simpl.
  - reflexivity.
  - rewrite IH. unfold level5Mark.
    destruct (nearestMainFrom 0 (Note.startBeat e) mainNotes None) as [[i d]|];
      [|reflexivity].
    apply updateAt_map. intros x. reflexivity.
Qed.

Lemma simplifyVoice_level5_core (m : Measure.t) (xs : list Note.t)
    (ts : TimeSignature.t) :
  Forall (fun n => Note.isMain n = true) xs ->
  map coreOf (simplifyVoice m xs (Some 5) ts) = map coreOf xs.
Proof.
  intros Hmain. unfold simplifyVoice. destruct xs as [|x0 xs0]; [reflexivity|].
  cbn [applySingleStaffSimplification]. unfold applyLevel5. cbn [Measure.notes].
  rewrite level5_marks_core. now rewrite (filter_all_true _ _ Hmain).
Qed.

Lemma line_main (notes : list Note.t) (bassFirst : bool) (vp : VoicePart)
    (line : list Note.t) :
  (forall z, In z line ->
             In z (VoiceLines.primaryLine (extractVoicesByPitch notes bassFirst)
                   ++ VoiceLines.secondaryLine
                        (extractVoicesByPitch notes bassFirst))) ->
  Forall (fun n => Note.isMain n = true) (map (Note.set_voicePart (Some vp)) line).
Proof.
  intros Hsub. apply Forall_forall. intros y Hy.
  apply in_map_iff in Hy. destruct Hy as [z [<- Hz]].
  apply Hsub in Hz.
  apply (Permutation_in z (extract_partition _ bassFirst)) in Hz.
  apply filter_In in Hz. destruct Hz as [_ Hm]. exact Hm.
Qed.

Lemma map_coreOf_retag (s v : Z) (vp : VoicePart) (xs : list Note.t) :
  map coreOf (map (Note.retag s vp v) xs) = map coreOf xs.
Proof. rewrite map_map. apply map_ext. intros x. reflexivity. Qed.

Lemma map_coreOf_voicePart (vp : option VoicePart) (xs : list Note.t) :
  map coreOf (map (Note.set_voicePart vp) xs) = map coreOf xs.
Proof. rewrite map_map. apply map_ext. intros x. reflexivity. Qed.

(** X13.  Level 5 removes the ornaments and nothing else.  On a single
    staff the result holds the main notes of the measure in their order,
    unchanged but for the [hadEmbellishment] annotation, and the rests are
    kept.  On a grand staff, when the soprano and bass sub-levels in force
    are 5 (their default at Level 5), the result holds every main note of
    staff 1 and of staff 2 exactly once with its identifier, pitch, start
    beat and duration. *)
Theorem level5_removes_exactly_the_ornaments :
  forall (m : Measure.t) (ts : TimeSignature.t) (config : Config.t),
    levelOr (Config.sopranoLevel config) 5 = Some 5 ->
    levelOr (Config.bassLevel config) 5 = Some 5 ->
    (map level5Blind (Measure.notes (applyLevel5 m ts))
     = map level5Blind (filter Note.isMain (Measure.notes m)) /\
     Measure.rests (applyLevel5 m ts) = Measure.rests m /\
     Measure.number (applyLevel5 m ts) = Measure.number m) /\
    Permutation
      (map coreOf (Measure.notes (applyGrandStaffLevel5 m ts config)))
      (map coreOf (filter Note.isMain (staffNotes 1 m ++ staffNotes 2 m))).
Proof.
  intros m ts config Hsop Hbass. split.
  - unfold applyLevel5. cbn [Measure.notes Measure.rests Measure.number].
    split; [apply level5_marks_blind | split; reflexivity].
  - unfold applyGrandStaffLevel5. cbn [Measure.notes].
    rewrite Hsop, Hbass. unfold separateVoices.
    cbn [Voices.soprano Voices.alto Voices.tenor Voices.bass].
    set (upper := extractVoicesByPitch (staffNotes 1 m) false).
    set (lower := extractVoicesByPitch (staffNotes 2 m) true).
    rewrite !map_app, !map_coreOf_retag.
    rewrite !simplifyVoice_level5_core.
    + rewrite !map_coreOf_voicePart.
      rewrite filter_app, map_app.
      rewrite app_assoc. apply Permutation_app.
      * rewrite <- map_app. apply Permutation_map.
        apply extract_partition.
      * rewrite <- map_app. apply Permutation_map.
        eapply Permutation_trans; [apply Permutation_app_comm|].
        apply extract_partition.
    + apply (line_main (staffNotes 2 m) true). intros z Hz.
      apply in_or_app. left; exact Hz.
    + apply (line_main (staffNotes 2 m) true). intros z Hz.
      apply in_or_app. right; exact Hz.
    + apply (line_main (staffNotes 1 m) false). intros z Hz.
      apply in_or_app. right; exact Hz.
    + apply (line_main (staffNotes 1 m) false). intros z Hz.
      apply in_or_app. left; exact Hz.
Qed.

Lemma level5_removes_exactly_the_ornaments_witness :
  (map level5Blind (Measure.notes (applyLevel5 chordMeasure sampleTime))
   = map level5Blind (filter Note.isMain (Measure.notes chordMeasure)) /\
   Measure.rests (applyLevel5 chordMeasure sampleTime) = Measure.rests chordMeasure /\
   Measure.number (applyLevel5 chordMeasure sampleTime)
   = Measure.number chordMeasure) /\
  Permutation
    (map coreOf
       (Measure.notes
          (applyGrandStaffLevel5 chordMeasure sampleTime
             (Config.mk (Some 5) None None))))
    (map coreOf
       (filter Note.isMain (staffNotes 1 chordMeasure ++ staffNotes 2 chordMeasure))).
Proof.
  apply (level5_removes_exactly_the_ornaments chordMeasure sampleTime
           (Config.mk (Some 5) None None)); reflexivity.
Defined.

(* ------------------------------------------------------------------ *)
(** ** Every note of a voice is written once *)

Lemma writtenNotes_app (a b : list XmlEvent) :
  writtenNotes (a ++ b) = writtenNotes a ++ writtenNotes b.
Proof. unfold writtenNotes. apply flat_map_app. Qed.

Lemma restsLoop_rests (voice staff divisions : Z) :
  forall fuel remaining xml,
    restsLoop fuel remaining voice staff divisions = Some xml ->
    Forall (fun e => isRestEvent e = true) xml.
Proof.
  induction fuel as [|fuel IH]; intros remaining xml H; cbn [restsLoop] in H.
  - destruct (Js.ltb (1 # 2) remaining); [discriminate|].
    inversion H; subst. constructor.
  - destruct (Js.ltb (1 # 2) remaining); [|inversion H; subst; constructor].
    destruct (firstFitting remaining (restValues divisions)) as [[d ty]|];
      [|inversion H; subst; constructor].
    destruct (restsLoop fuel (remaining - d) voice staff divisions) as [xml'|] eqn:E;
      [|discriminate].
    inversion H; subst. constructor; [reflexivity|].
    eapply IH; exact E.
Qed.

Lemma rests_written_none (xml : list XmlEvent) :
  Forall (fun e => isRestEvent e = true) xml -> writtenNotes xml = [].
Proof.
  induction 1 as [|e xml He _ IH]; [reflexivity|].
  unfold writtenNotes in *. cbn [flat_map]. rewrite IH.
  destruct e; try discriminate He. reflexivity.
Qed.

Lemma chordXML_written (notes : list Note.t) (divisions voice staff : Z)
    (stemDirection : option Stem) :
  forall noteIdx,
    writtenNotes (chordXML notes noteIdx divisions voice staff stemDirection)
    = map (toWrite divisions) notes /\
    Forall (fun e => writtenNote e <> None)
           (chordXML notes noteIdx divisions voice staff stemDirection).
Proof.
  induction notes as [|n notes IH]; intros noteIdx; cbn [chordXML map].
  - split; [reflexivity | constructor].
  - destruct (IH (S noteIdx)) as [Hw Hall]. split.
    + unfold writtenNotes in *. cbn [flat_map generateNoteXML writtenNote app].
      now rewrite Hw.
    + constructor; [discriminate | exact Hall].
Qed.

Lemma groupStep_written (voice staff divisions : Z) (stemDirection : option Stem)
    (c c' : Cursor.t) (group : PosGroup.t) :
  groupStep voice staff divisions stemDirection (Some c) group = Some c' ->
  writtenNotes (Cursor.xml c')
  = writtenNotes (Cursor.xml c) ++ map (toWrite divisions) (PosGroup.notes group) /\
  (Forall (fun e => writtenNote e <> None \/ isRestEvent e = true) (Cursor.xml c) ->
   Forall (fun e => writtenNote e <> None \/ isRestEvent e = true) (Cursor.xml c')).
Proof.
  unfold groupStep.
  destruct (Cursor.currentPosition c
            <? positionOf (PosGroup.startBeat group) divisions).
  - destruct (generateRestsForDuration _ voice staff divisions) as [rests|] eqn:Er;
      [|discriminate].
    destruct (PosGroup.notes group) as [|first others] eqn:En; [discriminate|].
    intros H. injection H as <-. cbn [Cursor.xml].
    apply restsLoop_rests in Er.
    destruct (chordXML_written (first :: others) divisions voice staff
                stemDirection 0) as [Hw Hall].
    cbn [chordXML] in Hw, Hall |- *.
    split.
    + rewrite (writtenNotes_app (Cursor.xml c ++ rests)),
        (writtenNotes_app (Cursor.xml c)), (rests_written_none _ Er),
        app_nil_r, Hw.
      reflexivity.
    + intros Hc. apply Forall_app. split; [apply Forall_app; split|].
      * exact Hc.
      * eapply Forall_impl; [|exact Er]. intros e He. right; exact He.
      * eapply Forall_impl; [|exact Hall]. intros e He. left; exact He.
  - destruct (PosGroup.notes group) as [|first others] eqn:En; [discriminate|].
    intros H. injection H as <-. cbn [Cursor.xml].
    destruct (chordXML_written (first :: others) divisions voice staff
                stemDirection 0) as [Hw Hall].
    cbn [chordXML] in Hw, Hall |- *.
    split.
    + rewrite writtenNotes_app, Hw. reflexivity.
    + intros Hc. apply Forall_app. split; [exact Hc|].
      eapply Forall_impl; [|exact Hall]. intros e He. left; exact He.
Qed.

Lemma groups_fold_none (voice staff divisions : Z) (stemDirection : option Stem)
    (groups : list PosGroup.t) :
  fold_left (groupStep voice staff divisions stemDirection) groups None = None.
Proof. induction groups as [|g groups IH]; [reflexivity | exact IH]. Qed.

Lemma groups_fold_written (voice staff divisions : Z) (stemDirection : option Stem)
    (groups : list PosGroup.t) :
  forall c c',
    fold_left (groupStep voice staff divisions stemDirection) groups (Some c)
    = Some c' ->
    writtenNotes (Cursor.xml c')
    = writtenNotes (Cursor.xml c)
      ++ map (toWrite divisions) (flat_map PosGroup.notes groups) /\
    (Forall (fun e => writtenNote e <> None \/ isRestEvent e = true) (Cursor.xml c) ->
     Forall (fun e => writtenNote e <> None \/ isRestEvent e = true) (Cursor.xml c')).
Proof.
  induction groups as [|g groups IH]; intros c c' H; cbn [fold_left] in H.
  - inversion H; subst. cbn [flat_map map]. rewrite app_nil_r. tauto.
  - destruct (groupStep voice staff divisions stemDirection (Some c) g)
      as [c1|] eqn:E1.
    + destruct (groupStep_written _ _ _ _ _ _ _ E1) as [Hw1 Hr1].
      destruct (IH _ _ H) as [Hw Hr].
      split.
      * rewrite Hw, Hw1. cbn [flat_map]. rewrite map_app, app_assoc. reflexivity.
      * intros Hc. apply Hr, Hr1, Hc.
    + rewrite groups_fold_none in H. discriminate.
Qed.

Lemma positionStep_notes (divisions : Z) (groups : list PosGroup.t) (note : Note.t) :
  flat_map PosGroup.notes (positionStep divisions groups note)
  = flat_map PosGroup.notes groups ++ [note].
Proof.
  unfold positionStep.
  destruct (rev groups) as [|currentGroup before] eqn:Er.
  - assert (groups = []).
    { rewrite <- (rev_involutive groups), Er. reflexivity. }
    subst groups. reflexivity.
  - assert (Eg : groups = rev before ++ [currentGroup]).
    { rewrite <- (rev_involutive groups), Er. reflexivity. }
    destruct (Js.ltb _ _).
    + rewrite flat_map_app. reflexivity.
    + rewrite Eg, !flat_map_app. cbn [flat_map PosGroup.notes].
      rewrite !app_nil_r, app_assoc. reflexivity.
Qed.

Lemma groupNotesByPosition_notes (notes : list Note.t) (divisions : Z) :
  flat_map PosGroup.notes (groupNotesByPosition notes divisions) = notes.
Proof.
  unfold groupNotesByPosition.
  assert (H : forall groups,
             flat_map PosGroup.notes (fold_left (positionStep divisions) notes groups)
             = flat_map PosGroup.notes groups ++ notes).
  { induction notes as [|n notes IH]; intros groups; cbn [fold_left].
    - now rewrite app_nil_r.
    - rewrite IH, positionStep_notes, <- app_assoc. reflexivity. }
  apply (H []).
Qed.

(** X14.  For positive divisions, [generateVoiceXMLAligned] on a non-empty
    voice always returns, and what it returns holds every note of the voice
    exactly once, in start-beat order (notes of equal start in input order),
    each with its own pitch and its own duration
    [round(ticks / 1024 * divisions)]; every other event is a rest, and
    every event carries the voice and staff number given. *)
Theorem exported_voice_holds_every_note_once :
  forall (notes : list Note.t) (voice staff divisions measureDuration : Z)
         (stemDirection : option Stem),
    0 < divisions -> notes <> [] ->
    exists r,
      generateVoiceXMLAligned notes voice staff divisions measureDuration
        stemDirection = Some r /\
      writtenNotes (VoiceXml.xml r)
      = map (toWrite divisions) (Js.sort byStartBeat notes) /\
      Forall (fun e => writtenNote e <> None \/ isRestEvent e = true)
             (VoiceXml.xml r) /\
      taggedWith staff voice (VoiceXml.xml r).
Proof.
  intros notes voice staff divisions measureDuration stemDirection Hdiv Hne.
  destruct (generateVoiceXMLAligned_total notes voice staff divisions
              measureDuration stemDirection Hdiv) as [r [Hr Ht]].
  exists r. split; [exact Hr|]. split; [|split; [|exact Ht]];
    unfold generateVoiceXMLAligned in Hr;
    destruct notes as [|n0 ns]; try congruence;
    destruct (fold_left (groupStep voice staff divisions stemDirection)
                (groupNotesByPosition (Js.sort byStartBeat (n0 :: ns)) divisions)
                (Some (Cursor.mk [] 0 0))) as [c|] eqn:Ec; try discriminate;
    destruct (groups_fold_written _ _ _ _ _ _ _ Ec) as [Hw Hall];
    cbn [Cursor.xml] in Hw, Hall; rewrite groupNotesByPosition_notes in Hw;
    specialize (Hall (Forall_nil _)).
  - destruct (Cursor.currentPosition c <? measureDuration).
    + destruct (generateRestsForDuration _ voice staff divisions) as [rests|] eqn:Er;
        [|discriminate].
      inversion Hr; subst r. cbn [VoiceXml.xml].
      apply restsLoop_rests in Er.
      rewrite writtenNotes_app, (rests_written_none _ Er), app_nil_r. exact Hw.
    + inversion Hr; subst r. exact Hw.
  - destruct (Cursor.currentPosition c <? measureDuration).
    + destruct (generateRestsForDuration _ voice staff divisions) as [rests|] eqn:Er;
        [|discriminate].
      inversion Hr; subst r. cbn [VoiceXml.xml].
      apply restsLoop_rests in Er. apply Forall_app. split; [exact Hall|].
      eapply Forall_impl; [|exact Er]. intros e He. right; exact He.
    + inversion Hr; subst r. exact Hall.
Qed.

Lemma exported_voice_holds_every_note_once_witness :
  exists r,
    generateVoiceXMLAligned (Measure.notes runMeasure) 1 1 256 1024 None = Some r /\
    writtenNotes (VoiceXml.xml r)
    = map (toWrite 256) (Js.sort byStartBeat (Measure.notes runMeasure)) /\
    Forall (fun e => writtenNote e <> None \/ isRestEvent e = true)
           (VoiceXml.xml r) /\
    taggedWith 1 1 (VoiceXml.xml r).
Proof.
  apply (exported_voice_holds_every_note_once (Measure.notes runMeasure)
           1 1 256 1024 None).
  - lia.
  - discriminate.
Defined.

(* ------------------------------------------------------------------ *)
(** ** Levels 1 to 3 export full measures *)

Lemma getStrongBeats_within (ts : TimeSignature.t) :
  1 <= TimeSignature.beats ts ->
  Forall (fun sb => 1 <= sb <= TimeSignature.beats ts) (getStrongBeats ts).
Proof.
  intros Hbeats. unfold getStrongBeats.
  destruct (TIME_SIGNATURE_DEFINITIONS _ _) as [sbs|] eqn:E.
  - apply TIME_SIGNATURE_DEFINITIONS_rows in E.
    unfold timeSignatureTable in E. simpl in E.
    repeat (destruct E as [E|E];
            [injection E as Hb Ht Hs; rewrite <- Hb, <- Hs;
             repeat constructor; lia|]).
    destruct E.
  - repeat constructor; lia.
Qed.

Lemma tiling_weaken (notes : list Note.t) (beats : Z) :
  forall cur cur', cur' <= cur ->
    BeatTiling cur notes beats -> BeatTiling cur' notes beats.
Proof.
  destruct notes as [|n ns]; intros cur cur' Hle H; cbn [BeatTiling] in *.
  - lia.
  - destruct H as [b [len [Hs [Ht [Hc [Hl Hrest]]]]]].
    exists b, len. repeat split; try assumption; lia.
Qed.

Lemma tiling_starts (beats : Z) (notes : list Note.t) :
  forall cur,
    BeatTiling cur notes beats ->
    Forall (fun n => exists b, Note.startBeat n = inject_Z b /\ cur <= b) notes.
Proof.
  induction notes as [|n ns IH]; intros cur H; cbn [BeatTiling] in H.
  - constructor.
  - destruct H as [b [len [Hs [Ht [Hc [Hl Hrest]]]]]].
    constructor; [exists b; split; assumption|].
    eapply Forall_impl; [|apply (IH _ Hrest)].
    intros x [b' [Hx Hb']]. exists b'. split; [exact Hx | lia].
Qed.

Lemma tiling_ordered (beats : Z) (notes : list Note.t) :
  forall cur,
    BeatTiling cur notes beats ->
    StronglySorted (fun a b => Js.leb (byStartBeat a b) 0 = true) notes.
Proof.
  induction notes as [|n ns IH]; intros cur H; cbn [BeatTiling] in H.
  - constructor.
  - destruct H as [b [len [Hs [Ht [Hc [Hl Hrest]]]]]].
    constructor; [apply (IH _ Hrest)|].
    eapply Forall_impl; [|apply (tiling_starts _ _ _ Hrest)].
    intros x [b' [Hx Hb']]. apply byStartBeat_le. rewrite Hs, Hx.
    rewrite <- Zle_Qle. lia.
Qed.

Lemma positionOf_beat (b : Z) : positionOf (inject_Z b) 256 = (b - 1) * 256.
Proof.
  unfold positionOf. apply round_Qeq_inject_Z.
  unfold Qeq, Qminus, Qplus, Qmult, Qopp, inject_Z. simpl. lia.
Qed.

Lemma xmlDurationOf_beats (n : Note.t) (len : Z) :
  Duration.ticks (Note.duration n) = len * 1024 -> 1 <= len ->
  xmlDurationOf n 256 = len * 256.
Proof.
  intros Ht Hl. unfold xmlDurationOf. rewrite Ht.
  destruct (len * 1024 =? 0) eqn:E; [apply Z.eqb_eq in E; lia|].
  apply round_Qeq_inject_Z.
  rewrite !inject_Z_mult. field.
Qed.

Lemma positionStep_apart (pre : list PosGroup.t) (g : PosGroup.t) (n : Note.t)
    (b : Z) :
  Note.startBeat n = inject_Z b ->
  PosGroup.position g + 256 <= (b - 1) * 256 ->
  positionStep 256 (pre ++ [g]) n = (pre ++ [g]) ++ [singleGroup 256 n].
Proof.
  intros Hs Hfar. unfold positionStep.
  rewrite rev_app_distr. cbn [rev app].
  rewrite Hs, positionOf_beat.
  assert (E : Js.ltb (inject_Z 256 / 8)
                (Js.abs (inject_Z ((b - 1) * 256 - PosGroup.position g))) = true).
  { apply ltb_lt. unfold Js.abs.
    rewrite Qabs_pos.
    - apply Qlt_le_trans with (inject_Z 256).
      + reflexivity.
      + rewrite <- Zle_Qle. lia.
    - change 0%Q with (inject_Z 0). rewrite <- Zle_Qle. lia. }
  rewrite E. unfold singleGroup. rewrite Hs, positionOf_beat. reflexivity.
Qed.

Lemma groups_apart (beats : Z) (notes : list Note.t) :
  forall cur pre g,
    BeatTiling cur notes beats ->
    PosGroup.position g + 256 <= (cur - 1) * 256 ->
    fold_left (positionStep 256) notes (pre ++ [g])
    = (pre ++ [g]) ++ map (singleGroup 256) notes.
Proof.
  induction notes as [|n ns IH]; intros cur pre g H Hfar;
    cbn [fold_left map BeatTiling] in *.
  - now rewrite app_nil_r.
  - destruct H as [b [len [Hs [Ht [Hc [Hl Hrest]]]]]].
    rewrite (positionStep_apart pre g n b Hs) by lia.
    rewrite (IH (b + len) (pre ++ [g]) (singleGroup 256 n) Hrest).
    + rewrite <- !app_assoc. reflexivity.
    + unfold singleGroup. cbn [PosGroup.position].
      rewrite Hs, positionOf_beat. lia.
Qed.

Lemma groupNotesByPosition_tiling (beats cur : Z) (notes : list Note.t) :
  BeatTiling cur notes beats ->
  groupNotesByPosition notes 256 = map (singleGroup 256) notes.
Proof.
  unfold groupNotesByPosition. destruct notes as [|n ns]; [reflexivity|].
  intros H. cbn [fold_left map BeatTiling] in *.
  destruct H as [b [len [Hs [Ht [Hc [Hl Hrest]]]]]].
  change (positionStep 256 [] n) with ([] ++ [singleGroup 256 n]).
  rewrite (groups_apart beats ns (b + len) [] (singleGroup 256 n) Hrest).
  - reflexivity.
  - unfold singleGroup. cbn [PosGroup.position].
    rewrite Hs, positionOf_beat. lia.
Qed.

Lemma tiling_wellSpaced (beats : Z) (notes : list Note.t) :
  forall cur,
    BeatTiling cur notes beats ->
    wellSpaced 32 256 ((cur - 1) * 256) (map (singleGroup 256) notes)
      (beats * 256).
Proof.
  induction notes as [|n ns IH]; intros cur H;
    cbn [map wellSpaced BeatTiling singleGroup PosGroup.startBeat PosGroup.notes]
      in *.
  - split; [lia|].
    replace (beats * 256 - (cur - 1) * 256) with ((beats - cur + 1) * 8 * 32)
      by lia.
    apply Z.mod_mul. lia.
  - destruct H as [b [len [Hs [Ht [Hc [Hl Hrest]]]]]].
    rewrite Hs, positionOf_beat, (xmlDurationOf_beats n len Ht Hl).
    split; [lia|]. split.
    + replace ((b - 1) * 256 - (cur - 1) * 256) with ((b - cur) * 8 * 32) by lia.
      apply Z.mod_mul. lia.
    + replace ((b - 1) * 256 + len * 256) with ((b + len - 1) * 256) by lia.
      apply IH. exact Hrest.
Qed.

(** A voice that tiles the beats of the measure is exported in full. *)
Lemma tiling_exported (notes : list Note.t) (ts : TimeSignature.t) :
  BeatTiling 1 notes (TimeSignature.beats ts) ->
  1 <= TimeSignature.beats ts ->
  exists xml,
    generateSingleStaffMeasureXML notes 256 ts (TimeSignature.beats ts * 256)
    = Some xml /\
    voiceDurationSum 1 1 xml = TimeSignature.beats ts * 256.
Proof.
  intros Htile Hbeats. unfold generateSingleStaffMeasureXML.
  destruct notes as [|n0 ns] eqn:En.
  - eexists. split; [reflexivity|].
    unfold generateFullMeasureRest, voiceDurationSum. cbn. lia.
  - rewrite <- En in *.
    assert (Hne : notes <> []) by (rewrite En; discriminate).
    destruct (voice_fills_measure_when_well_spaced notes 1 1 32
                (TimeSignature.beats ts * 256) None ltac:(lia) Hne)
      as [r [Hr [_ Hsum]]].
    + change (8 * 32) with 256.
      rewrite (sort_ordered_id byStartBeat notes (tiling_ordered _ _ _ Htile)).
      rewrite (groupNotesByPosition_tiling _ _ _ Htile).
      apply (tiling_wellSpaced _ _ 1 Htile).
    + change (8 * 32) with 256 in Hr. rewrite Hr.
      exists (VoiceXml.xml r). split; [reflexivity | exact Hsum].
Qed.

Lemma placed_tiling (ts : TimeSignature.t) (source : list Note.t)
    (first : bool) (strongBeats : list Z) (out : list Note.t) :
  PlacedOnStrongBeats ts source first strongBeats out ->
  Forall (fun n => (1 <= Note.startBeat n)%Q) source ->
  StronglySorted Z.lt strongBeats ->
  Forall (fun sb => 1 <= sb <= TimeSignature.beats ts) strongBeats ->
  forall cur,
    Forall (fun sb => cur <= sb) strongBeats ->
    cur <= TimeSignature.beats ts + 1 ->
    BeatTiling cur out (TimeSignature.beats ts).
Proof.
  intros H Hsrc.
  induction H as [first | first sb rest out _ IH
                  | first sb rest out n start n' Hin Hs Hm _ IH];
    intros Hsorted Hwithin cur Hcur Hend.
  - exact Hend.
  - inversion Hsorted; subst. inversion Hwithin; subst. inversion Hcur; subst.
    apply IH; assumption.
  - inversion Hsorted as [|? ? Hsorted' Hlt]; subst.
    inversion Hwithin as [|? ? Hsb Hwithin']; subst.
    inversion Hcur as [|? ? Hcsb Hcur']; subst.
    assert (Hstart : start = inject_Z sb).
    { destruct Hs as [Hs|[_ [Hs Hlt1]]]; [exact Hs|].
      exfalso. rewrite Forall_forall in Hsrc. specialize (Hsrc n Hin).
      rewrite <- Hs in Hsrc. lra. }
    unfold movedCopy in Hm. subst n' start.
    assert (Hnext : sb < nextStrongBeatOf rest ts <= TimeSignature.beats ts + 1 /\
                    Forall (fun x => nextStrongBeatOf rest ts <= x) rest).
    { unfold nextStrongBeatOf. destruct rest as [|nxt rest'].
      - split; [lia | constructor].
      - inversion Hlt as [|? ? Hnxt _]; subst.
        inversion Hwithin' as [|? ? Hn1 _]; subst.
        destruct (nxt =? 0) eqn:E0; [apply Z.eqb_eq in E0; lia|].
        split; [lia|]. constructor; [lia|].
        inversion Hsorted' as [|? ? _ Hlt']; subst.
        eapply Forall_impl; [|exact Hlt']. intros x Hx. lia. }
    destruct Hnext as [Hnext Hrest].
    cbn [BeatTiling]. exists sb, (nextStrongBeatOf rest ts - sb).
    split; [reflexivity|]. split; [reflexivity|].
    split; [exact Hcsb|]. split; [lia|].
    replace (sb + (nextStrongBeatOf rest ts - sb))
      with (nextStrongBeatOf rest ts) by lia.
    apply IH; try assumption. lia.
Qed.

Lemma level1_tiling (m : Measure.t) (ts : TimeSignature.t) :
  1 <= TimeSignature.beats ts ->
  BeatTiling 1 (Measure.notes (applyLevel1 m ts)) (TimeSignature.beats ts).
Proof.
  intros Hbeats. unfold applyLevel1.
  destruct (Js.sort byStartBeat (filter Note.isMain (Measure.notes m)))
    as [|firstNote others]; cbn [Measure.notes BeatTiling].
  - lia.
  - exists 1, (TimeSignature.beats ts).
    split; [reflexivity|]. split; [reflexivity|]. lia.
Qed.

Lemma level2_tiling (m : Measure.t) (ts : TimeSignature.t) :
  1 <= TimeSignature.beats ts ->
  Forall (fun n => Note.isMain n = true -> (1 <= Note.startBeat n)%Q)
         (Measure.notes m) ->
  BeatTiling 1 (Measure.notes (applyLevel2 m ts)) (TimeSignature.beats ts).
Proof.
  intros Hbeats Hfrom.
  pose proof (strong_beat_rule_placed (Measure.notes m) ts
                findNoteAtBeatExcluding findNoteAtBeatExcluding_sound)
    as [Hp _].
  assert (E : Measure.notes (applyLevel2 m ts)
              = match Js.sort byStartBeat
                        (filter Note.isMain (Measure.notes m)) with
                | [] => []
                | (firstNote :: _) as sortedNotes =>
                    strongBeatWalk (findNoteAtBeatExcluding sortedNotes)
                      (Js.ltb (Note.startBeat firstNote) 1) ts 0
                      (getStrongBeats ts) [] []
                end).
  { unfold applyLevel2.
    destruct (Js.sort byStartBeat (filter Note.isMain (Measure.notes m)));
      [reflexivity|].
    cbn [Measure.notes]. apply level2Loop_walk. }
  rewrite E.
  apply (placed_tiling ts _ _ _ _ Hp).
  - apply Forall_forall. intros n Hn. apply filter_In in Hn.
    destruct Hn as [Hn Hmain]. rewrite Forall_forall in Hfrom.
    exact (Hfrom n Hn Hmain).
  - apply getStrongBeats_sorted.
  - apply getStrongBeats_within. exact Hbeats.
  - eapply Forall_impl; [|apply (getStrongBeats_within ts Hbeats)].
    intros sb Hsb. cbv beta in *. lia.
  - lia.
Qed.

Lemma level3_tiling (m : Measure.t) (ts : TimeSignature.t) :
  1 <= TimeSignature.beats ts ->
  BeatTiling 1 (Measure.notes (applyLevel3 m ts)) (TimeSignature.beats ts).
Proof.
  intros Hbeats. unfold applyLevel3.
  destruct (filter Note.isMain (Measure.notes m)) as [|n0 ns];
    cbn [Measure.notes BeatTiling]; [lia|].
  set (notes := n0 :: ns).
  unfold beatRange.
  assert (H : forall count start,
             Z.of_nat start + Z.of_nat count = TimeSignature.beats ts + 1 ->
             BeatTiling (Z.of_nat start)
               (flat_map
                  (fun beat =>
                     match findNoteAtBeat notes (inject_Z beat) with
                     | None => []
                     | Some noteAtBeat =>
                         [Note.set_duration (Duration.mk quarter 0 None 1024)
                            (Note.set_startBeat (inject_Z beat) noteAtBeat)]
                     end) (map Z.of_nat (seq start count)))
               (TimeSignature.beats ts)).
  { induction count as [|count IH]; intros start Hsum;
      cbn [seq map flat_map BeatTiling].
    - lia.
    - destruct (findNoteAtBeat_total notes (inject_Z (Z.of_nat start)))
        as [n [-> _]]; [discriminate|].
      cbn [app BeatTiling]. exists (Z.of_nat start), 1.
      split; [reflexivity|]. split; [reflexivity|].
      split; [lia|]. split; [lia|].
      replace (Z.of_nat start + 1) with (Z.of_nat (S start)) by lia.
      apply IH. lia. }
  apply (H (Z.to_nat (TimeSignature.beats ts)) 1%nat). lia.
Qed.

(** X15.  In a measure of at least one beat, what Levels 1, 2 and 3 of the
    single-staff rules produce is exported as a full measure: the exporter
    returns, and the notes and rests it writes for voice 1 of staff 1 last
    [beats * 256] divisions together, the length of the measure.  For
    Level 2 this needs that no main note starts before beat 1 (a pickup
    note is kept at its own start and the measure then comes out too
    long); a measure without a main note is exported as one whole-measure
    rest. *)
Theorem levels_1_to_3_export_full_measures :
  forall (m : Measure.t) (ts : TimeSignature.t) (l : Z),
    1 <= TimeSignature.beats ts ->
    1 <= l <= 3 ->
    (l = 2 ->
     Forall (fun n => Note.isMain n = true -> (1 <= Note.startBeat n)%Q)
            (Measure.notes m)) ->
    exists xml,
      generateSingleStaffMeasureXML
        (Measure.notes (applySingleStaffSimplification m (Some l) ts))
        256 ts (TimeSignature.beats ts * 256) = Some xml /\
      voiceDurationSum 1 1 xml = TimeSignature.beats ts * 256.
Proof.
  intros m ts l Hbeats Hl Hfrom.
  apply tiling_exported; [|exact Hbeats].
  assert (Hcases : l = 1 \/ l = 2 \/ l = 3) by lia.
  destruct Hcases as [E|[E|E]]; subst l; cbn [applySingleStaffSimplification].
  - apply level1_tiling. exact Hbeats.
  - apply level2_tiling; [exact Hbeats | apply Hfrom; reflexivity].
  - apply level3_tiling. exact Hbeats.
Qed.

Lemma levels_1_to_3_export_full_measures_witness :
  exists xml,
    generateSingleStaffMeasureXML
      (Measure.notes (applySingleStaffSimplification lateNoteMeasure (Some 2)
                        waltzTime))
      256 waltzTime (TimeSignature.beats waltzTime * 256) = Some xml /\
    voiceDurationSum 1 1 xml = TimeSignature.beats waltzTime * 256.
Proof.
  apply (levels_1_to_3_export_full_measures lateNoteMeasure waltzTime 2).
  - vm_compute. discriminate.
  - lia.
  - intros _. repeat constructor. intros _. vm_compute. discriminate.
Defined.

(* ------------------------------------------------------------------ *)
(** ** Escaping of text *)

Lemma string_append_assoc (a b c : string) :
  String.append a (String.append b c) = String.append (String.append a b) c.
Proof.
  induction a as [|x a IH]; cbn [String.append]; [reflexivity|].
  now rewrite IH.
Qed.

Lemma replaceAll_app (c : Ascii.ascii) (by_ a b : string) :
  replaceAll c by_ (String.append a b)
  = String.append (replaceAll c by_ a) (replaceAll c by_ b).
Proof.
  induction a as [|x a IH]; cbn [replaceAll String.append]; [reflexivity|].
  rewrite IH. destruct (Ascii.eqb x c); cbn [String.append]; [|reflexivity].
  apply string_append_assoc.
Qed.

Lemma replaceAll_expand (c : Ascii.ascii) (by_ : string)
    (f : Ascii.ascii -> string) (s : string) :
  replaceAll c by_ (expand f s) = expand (fun x => replaceAll c by_ (f x)) s.
Proof.
  induction s as [|x s IH]; cbn [expand]; [reflexivity|].
  now rewrite replaceAll_app, IH.
Qed.

Lemma expand_ext (f g : Ascii.ascii -> string) (s : string) :
  (forall x, f x = g x) -> expand f s = expand g s.
Proof.
  intros H. induction s as [|x s IH]; cbn [expand]; [reflexivity|].
  now rewrite H, IH.
Qed.

Lemma expand_id (s : string) : expand (fun x => String x EmptyString) s = s.
Proof.
  induction s as [|x s IH]; cbn [expand String.append]; [reflexivity|].
  now rewrite IH.
Qed.

Lemma escapeChar_passes (x : Ascii.ascii) :
  replaceAll "'" "&apos;"
    (replaceAll "034" "&quot;"
       (replaceAll ">" "&gt;"
          (replaceAll "<" "&lt;"
             (replaceAll "&" "&amp;" (String x EmptyString)))))
  = escapeChar x.
Proof.
  destruct x as [[] [] [] [] [] [] [] []]; reflexivity.
Qed.

Lemma escapeXml_expand (s : string) : escapeXml (Some s) = expand escapeChar s.
Proof.
  destruct s as [|x s]; [reflexivity|].
  unfold escapeXml.
  rewrite <- (expand_id (String x s)) at 1.
  rewrite !replaceAll_expand.
  apply expand_ext. intros y. apply escapeChar_passes.
Qed.

Lemma escapeChar_cases (x : Ascii.ascii) :
  (x = "&"%char /\ escapeChar x = "&amp;"%string) \/
  (x = "<"%char /\ escapeChar x = "&lt;"%string) \/
  (x = ">"%char /\ escapeChar x = "&gt;"%string) \/
  (x = "034"%char /\ escapeChar x = "&quot;"%string) \/
  (x = "'"%char /\ escapeChar x = "&apos;"%string) \/
  (escapeChar x = String x EmptyString /\ x <> "&"%char /\ ~ In x markupChars).
Proof.
  unfold escapeChar.
  destruct (Ascii.eqb_spec x "&"); [tauto|].
  destruct (Ascii.eqb_spec x "<"); [tauto|].
  destruct (Ascii.eqb_spec x ">"); [tauto|].
  destruct (Ascii.eqb_spec x "034"); [tauto|].
  destruct (Ascii.eqb_spec x "'"); [tauto|].
  do 5 right. split; [reflexivity|]. split; [assumption|].
  cbn [markupChars In]. intros [H|[H|[H|[H|[]]]]]; congruence.
Qed.

Lemma escapeChar_prefix (x y : Ascii.ascii) (r1 r2 : string) :
  String.append (escapeChar x) r1 = String.append (escapeChar y) r2 ->
  x = y /\ r1 = r2.
Proof.
  intros H.
  destruct (escapeChar_cases x) as [[Ex Hx]|[[Ex Hx]|[[Ex Hx]|[[Ex Hx]|[[Ex Hx]|
                                    [Hx [Hxa Hxm]]]]]]];
    destruct (escapeChar_cases y) as [[Ey Hy]|[[Ey Hy]|[[Ey Hy]|[[Ey Hy]|[[Ey Hy]|
                                      [Hy [Hya Hym]]]]]]];
    rewrite Hx, Hy in H; cbn [String.append] in H;
    try (subst x); try (subst y);
    try discriminate H;
    try (injection H as H; split; [reflexivity | exact H]);
    try (injection H as Hc Hr; exfalso;
         first [ apply Hya; congruence | apply Hxa; congruence ]).
  injection H as Hc Hr. split; assumption.
Qed.

Lemma expand_escapeChar_injective (s1 : string) :
  forall s2, expand escapeChar s1 = expand escapeChar s2 -> s1 = s2.
Proof.
  induction s1 as [|x s1 IH]; intros [|y s2] H; cbn [expand] in H.
  - reflexivity.
  - exfalso.
    destruct (escapeChar_cases y) as [[_ Hy]|[[_ Hy]|[[_ Hy]|[[_ Hy]|[[_ Hy]|
                                      [Hy _]]]]]];
      rewrite Hy in H; discriminate H.
  - exfalso.
    destruct (escapeChar_cases x) as [[_ Hx]|[[_ Hx]|[[_ Hx]|[[_ Hx]|[[_ Hx]|
                                      [Hx _]]]]]];
      rewrite Hx in H; discriminate H.
  - destruct (escapeChar_prefix x y _ _ H) as [-> Hr].
    now rewrite (IH s2 Hr).
Qed.

Lemma In_string_app (c : Ascii.ascii) (a b : string) :
  In c (list_ascii_of_string (String.append a b)) ->
  In c (list_ascii_of_string a) \/ In c (list_ascii_of_string b).
Proof.
  induction a as [|x a IH]; cbn [String.append list_ascii_of_string In].
  - tauto.
  - intros [H|H]; [tauto|]. destruct (IH H); tauto.
Qed.

Lemma escapeChar_clean (x c : Ascii.ascii) :
  In c markupChars -> ~ In c (list_ascii_of_string (escapeChar x)).
Proof.
  intros Hc Hin.
  destruct (escapeChar_cases x) as [[_ Hx]|[[_ Hx]|[[_ Hx]|[[_ Hx]|[[_ Hx]|
                                    [Hx [_ Hxm]]]]]]];
    rewrite Hx in Hin; cbn [list_ascii_of_string In] in Hin.
  6: { destruct Hin as [<-|[]]. exact (Hxm Hc). }
  all: cbn [markupChars In] in Hc;
    repeat (destruct Hc as [<-|Hc];
            [repeat (destruct Hin as [Hin|Hin]; [discriminate Hin|]);
             exact Hin|]);
    exact Hc.
Qed.

(** X16.  [escapeXml] replaces every character by its entity on its own
    (the five passes do not disturb each other: an ampersand written by an
    earlier pass is not escaped again), so the result holds none of the
    characters [<], [>], double quote and apostrophe; two different texts
    are never escaped to the same result; and an absent text gives the
    empty string like the empty text. *)
Theorem escapeXml_writes_entities :
  (forall s : string, escapeXml (Some s) = expand escapeChar s) /\
  (forall (s : string) (c : Ascii.ascii),
     In c markupChars -> ~ In c (list_ascii_of_string (escapeXml (Some s)))) /\
  (forall s1 s2 : string,
     escapeXml (Some s1) = escapeXml (Some s2) -> s1 = s2) /\
  escapeXml None = EmptyString /\ escapeXml (Some EmptyString) = EmptyString /\
  escapeXml (Some sampleTitle) = "Tom &amp; Jerry&apos;s &lt;Suite&gt;"%string.
Proof.
  split; [exact escapeXml_expand|].
  split; [|split; [|repeat split]].
  - intros s c Hc. rewrite escapeXml_expand.
    induction s as [|x s IH]; cbn [expand list_ascii_of_string].
    + intros [].
    + intros Hin. apply In_string_app in Hin. destruct Hin as [Hin|Hin].
      * exact (escapeChar_clean x c Hc Hin).
      * exact (IH Hin).
  - intros s1 s2 H. rewrite !escapeXml_expand in H.
    exact (expand_escapeChar_injective s1 s2 H).
Qed.

(* ------------------------------------------------------------------ *)
(** ** What the parser keeps, and the identifiers it gives *)

Lemma parseChild_item (divisions : Z) (st : ParseState.t) (child : MeasureChild) :
  let st' := parseChild divisions st child in
  (ParseState.notes st' = ParseState.notes st /\
   ParseState.rests st' = ParseState.rests st /\
   ParseState.noteIdCounter st' = ParseState.noteIdCounter st /\
   pitchedOf child = [] /\ restOf child = []) \/
  (exists n,
     ParseState.notes st' = ParseState.notes st ++ [n] /\
     ParseState.rests st' = ParseState.rests st /\
     ParseState.noteIdCounter st' = S (ParseState.noteIdCounter st) /\
     Note.id n = S (ParseState.noteIdCounter st) /\
     pitchedOf child = [notePlace n] /\ restOf child = []) \/
  (exists r,
     ParseState.notes st' = ParseState.notes st /\
     ParseState.rests st' = ParseState.rests st ++ [r] /\
     ParseState.noteIdCounter st' = S (ParseState.noteIdCounter st) /\
     Rest.id r = S (ParseState.noteIdCounter st) /\
     pitchedOf child = [] /\ restOf child = [restPlace r]).
Proof.
  destruct child as [d|d|noteEl|]; cbn [parseChild pitchedOf restOf];
    try (left; repeat split; reflexivity).
  destruct (NoteEl.rest noteEl).
  - right; right. eexists.
    destruct (negb (NoteEl.chord noteEl));
      cbn [ParseState.notes ParseState.rests ParseState.noteIdCounter];
      repeat split; reflexivity.
  - unfold parseNote. destruct (NoteEl.pitchEl noteEl) as [pitch|].
    + right; left. eexists.
      destruct (negb (NoteEl.chord noteEl) && negb (NoteEl.grace noteEl)
                && Js.ltb 0 _);
        cbn [ParseState.notes ParseState.rests ParseState.noteIdCounter];
        repeat split; reflexivity.
    + left.
      destruct (negb (NoteEl.chord noteEl) && negb (NoteEl.grace noteEl)
                && Js.ltb 0 _);
        cbn [ParseState.notes ParseState.rests ParseState.noteIdCounter];
        repeat split; reflexivity.
Qed.

Lemma ascend_snoc (l : list nat) (y : nat) :
  StronglySorted Nat.lt l -> Forall (fun x => (x < y)%nat) l ->
  StronglySorted Nat.lt (l ++ [y]).
Proof.
  induction 1 as [|x l Hs IH Hall]; intros Hlt; cbn [app].
  - repeat constructor.
  - inversion Hlt as [|? ? Hxy Hlt']; subst.
    constructor; [apply IH; exact Hlt'|].
    apply Forall_app. split; [exact Hall|]. constructor; [exact Hxy | constructor].
Qed.

Lemma seq_below (ids : list nat) (start count : nat) :
  Permutation ids (seq start count) ->
  Forall (fun x => (x < start + count)%nat) ids.
Proof.
  intros Hp. apply Forall_forall. intros x Hx.
  apply (Permutation_in x Hp) in Hx. apply in_seq in Hx. lia.
Qed.

(** The state of the loop over the children of one measure. *)
Lemma parseChildren_items (divisions : Z) (counter : nat)
    (children : list MeasureChild) :
  let st := parseChildren divisions counter children in
  let given := (length (ParseState.notes st) + length (ParseState.rests st))%nat in
  ParseState.noteIdCounter st = (counter + given)%nat /\
  Permutation (map Note.id (ParseState.notes st)
               ++ map Rest.id (ParseState.rests st))
              (seq (S counter) given) /\
  StronglySorted Nat.lt (map Note.id (ParseState.notes st)) /\
  StronglySorted Nat.lt (map Rest.id (ParseState.rests st)) /\
  map notePlace (ParseState.notes st) = flat_map pitchedOf children /\
  map restPlace (ParseState.rests st) = flat_map restOf children.
Proof.
  induction children as [|child children IH] using rev_ind.
  - cbn. rewrite Nat.add_0_r. repeat split; constructor.
  - rewrite parseChildren_snoc. cbv zeta in *.
    set (st := parseChildren divisions counter children) in *.
    destruct IH as [Hc [Hp [Hsn [Hsr [Hn Hr]]]]].
    rewrite !flat_map_app. cbn [flat_map]. rewrite !app_nil_r.
    destruct (parseChild_item divisions st child)
      as [[En [Er [Ec [Ep Eq]]]]
         |[[n [En [Er [Ec [Ei [Ep Eq]]]]]]
          |[r [En [Er [Ec [Ei [Ep Eq]]]]]]]];
      rewrite En, Er, Ec, Ep, Eq.
    + rewrite !app_nil_r. repeat split; assumption.
    + rewrite !map_app, !length_app. cbn [map length].
      rewrite app_nil_r, Hn.
      replace (length (ParseState.notes st) + 1 + length (ParseState.rests st))%nat
        with (S (length (ParseState.notes st) + length (ParseState.rests st)))
        by lia.
      split; [lia|]. split; [|split; [|split; [|split]]];
        try assumption; try reflexivity.
      * rewrite seq_S, <- app_assoc.
        eapply Permutation_trans;
          [apply Permutation_app_head, Permutation_app_comm|].
        rewrite app_assoc. apply Permutation_app; [exact Hp|].
        rewrite Ei, Hc. apply Permutation_refl.
      * apply ascend_snoc; [exact Hsn|].
        rewrite Ei, Hc.
        pose proof (seq_below _ _ _ Hp) as Hb.
        apply Forall_app in Hb. destruct Hb as [Hb _].
        eapply Forall_impl; [|exact Hb]. intros x Hx. cbv beta in *. lia.
    + rewrite !map_app, !length_app. cbn [map length].
      rewrite app_nil_r, Hr.
      replace (length (ParseState.notes st) + (length (ParseState.rests st) + 1))%nat
        with (S (length (ParseState.notes st) + length (ParseState.rests st)))
        by lia.
      split; [lia|]. split; [|split; [|split; [|split]]];
        try assumption; try reflexivity.
      * rewrite seq_S, app_assoc.
        apply Permutation_app; [exact Hp|].
        rewrite Ei, Hc. apply Permutation_refl.
      * apply ascend_snoc; [exact Hsr|].
        rewrite Ei, Hc.
        pose proof (seq_below _ _ _ Hp) as Hb.
        apply Forall_app in Hb. destruct Hb as [_ Hb].
        eapply Forall_impl; [|exact Hb]. intros x Hx. cbv beta in *. lia.
Qed.

Lemma parseMeasuresFrom_items (measureEls : list MeasureEl.t) :
  forall index measures globalDivisions counter,
    exists new divisions counter',
      parseMeasuresFrom index (measures, globalDivisions, counter) measureEls
      = (measures ++ new, divisions, counter') /\
      (counter <= counter')%nat /\
      Permutation (flat_map idsOf new) (seq (S counter) (counter' - counter)) /\
      Forall idsAscend new /\
      map (fun m => map notePlace (Measure.notes m)) new
      = map (fun el => flat_map pitchedOf (MeasureEl.children el)) measureEls /\
      map (fun m => map restPlace (Measure.rests m)) new
      = map (fun el => flat_map restOf (MeasureEl.children el)) measureEls.
Proof.
  induction measureEls as [|el els IH];
    intros index measures globalDivisions counter; cbn [parseMeasuresFrom].
  - exists [], globalDivisions, counter. rewrite app_nil_r, Nat.sub_diag.
    repeat split; constructor.
  - unfold parseMeasureEl.
    set (divisions := match MeasureEl.localDivisions el with
                      | Some d => d
                      | None => globalDivisions
                      end).
    pose proof (parseChildren_items divisions counter (MeasureEl.children el))
      as Hitems. cbv zeta in Hitems.
    set (st := parseChildren divisions counter (MeasureEl.children el)) in *.
    destruct Hitems as [Hc [Hp [Hsn [Hsr [Hn Hr]]]]].
    set (m := Measure.mk _ (ParseState.notes st) (ParseState.rests st)).
    destruct (IH (S index) (measures ++ [m]) divisions
                (ParseState.noteIdCounter st))
      as [new [divisions' [counter' [E [Hle [Hp' [Hs' [Hn' Hr']]]]]]]].
    exists (m :: new), divisions', counter'.
    split; [rewrite E, <- app_assoc; reflexivity|].
    split; [lia|]. split; [|split; [|split]].
    + cbn [flat_map]. unfold idsOf at 1. cbn [m Measure.notes Measure.rests].
      replace (counter' - counter)%nat
        with ((length (ParseState.notes st) + length (ParseState.rests st))
              + (counter' - ParseState.noteIdCounter st))%nat by lia.
      rewrite seq_app. apply Permutation_app; [exact Hp|].
      replace (S counter
               + (length (ParseState.notes st) + length (ParseState.rests st)))%nat
        with (S (ParseState.noteIdCounter st)) by lia.
      exact Hp'.
    + constructor; [split; assumption | exact Hs'].
    + cbn [map m Measure.notes]. now rewrite Hn, Hn'.
    + cbn [map m Measure.rests]. now rewrite Hr, Hr'.
Qed.

(** X17.  [parseMeasures] returns one measure per [measure] element.  Each
    holds, in document order, one note for every [note] element that has a
    pitch and no rest, with that pitch, voice and staff (voice and staff 1
    when not given), and one rest for every [note] element with a rest;
    backups, forwards, other elements and unpitched notes give nothing.
    With [noteIdCounter] at [counter] when the call starts, the N
    identifiers given out are counter+1, ..., counter+N, each once, they
    ascend along the notes and along the rests of every measure, and the
    counter is left at counter+N.  [parseFile] resets the counter, so a file
    it parses is numbered 1, ..., N whatever was parsed before;
    [parseXmlContent] called on its own numbers on from where the parse
    before it stopped. *)
Theorem parseMeasures_keeps_notes_and_numbers_them :
  forall (measureEls : list MeasureEl.t) (divisionsEl : option Z)
         (counter : nat),
    let measures := fst (parseMeasures measureEls divisionsEl counter) in
    let given := length (flat_map idsOf measures) in
    (length measures = length measureEls /\
     map (fun m => map notePlace (Measure.notes m)) measures
     = map (fun el => flat_map pitchedOf (MeasureEl.children el)) measureEls /\
     map (fun m => map restPlace (Measure.rests m)) measures
     = map (fun el => flat_map restOf (MeasureEl.children el)) measureEls) /\
    (Permutation (flat_map idsOf measures) (seq (S counter) given) /\
     NoDup (flat_map idsOf measures) /\
     Forall idsAscend measures /\
     snd (parseMeasures measureEls divisionsEl counter) = (counter + given)%nat) /\
    (forall (metadata : ScoreMetadata.t) (xmlContent : string),
       let doc := Document.mk metadata divisionsEl measureEls xmlContent in
       ParsedScore.measures (fst (parseXmlContent doc counter)) = measures /\
       snd (parseXmlContent doc counter) = (counter + given)%nat /\
       parseFile doc counter = parseXmlContent doc 0).
Proof.
  intros measureEls divisionsEl counter measures given.
  subst given measures. unfold parseFile, parseXmlContent, parseMeasures.
  destruct (parseMeasuresFrom_items measureEls 0 []
              (match divisionsEl with Some d => d | None => 1 end) counter)
    as [new [divisions' [counter' [E [Hle [Hp [Hs [Hn Hr]]]]]]]].
  rewrite E. cbn [fst snd app].
  assert (Hlen : length (flat_map idsOf new) = (counter' - counter)%nat).
  { rewrite (Permutation_length Hp), length_seq. reflexivity. }
  split; [|split].
  - split; [|split; [exact Hn | exact Hr]].
    rewrite <- (length_map (fun m => map notePlace (Measure.notes m))), Hn.
    apply length_map.
  - split; [rewrite Hlen; exact Hp|].
    split; [apply (Permutation_NoDup (Permutation_sym Hp)), seq_NoDup|].
    split; [exact Hs|]. rewrite Hlen. lia.
  - intros metadata xmlContent.
    cbn [Document.measureEls Document.divisionsEl]. rewrite E.
    cbn [fst snd ParsedScore.measures app].
    split; [reflexivity|]. split; [rewrite Hlen; lia | reflexivity].
Qed.

(** Two documents of one quarter note each, parsed one after the other by
    [parseXmlContent]: the note of the second is numbered 2; parsed by
    [parseFile] it is numbered 1. *)
Example parseXmlContent_numbers_on :
  let doc := Document.mk sampleMetadata (Some 1)
               [MeasureEl.mk (Some 1) None [NoteChild (quarterEl "C")]]
               "score"%string in
  let counter := snd (parseXmlContent doc 0) in
  flat_map idsOf (ParsedScore.measures (fst (parseXmlContent doc counter)))
  = [2%nat] /\
  flat_map idsOf (ParsedScore.measures (fst (parseFile doc counter))) = [1%nat].
Proof. vm_compute. split; reflexivity. Qed.

(* ------------------------------------------------------------------ *)
(** ** Memory manager *)

Lemma In_without (k key : string) (l : list string) :
  In k (MemoryManager.without key l) <-> In k l /\ k <> key.
Proof.
  unfold MemoryManager.without. rewrite filter_In.
  destruct (String.eqb_spec k key); cbn [negb]; split; intros [H1 H2];
    try discriminate; try contradiction; split; congruence.
Qed.

Lemma NoDup_without (key : string) (l : list string) :
  NoDup l -> NoDup (MemoryManager.without key l).
Proof. apply NoDup_filter. Qed.

Lemma without_absent (key : string) (l : list string) :
  ~ In key l -> MemoryManager.without key l = l.
Proof.
  induction l as [|x l IH]; intros H; [reflexivity|].
  cbn [MemoryManager.without filter].
  destruct (String.eqb_spec x key) as [->|Hne]; cbn [negb].
  - exfalso. apply H. left; reflexivity.
  - f_equal. apply IH. intros Hin. apply H. right; exact Hin.
Qed.

Lemma length_without (key : string) (l : list string) :
  NoDup l -> In key l -> S (length (MemoryManager.without key l)) = length l.
Proof.
  induction 1 as [|x l Hx Hnd IH]; intros Hin; [destruct Hin|].
  cbn [MemoryManager.without filter].
  destruct (String.eqb_spec x key) as [->|Hne]; cbn [negb length].
  - f_equal. fold (MemoryManager.without key l).
    now rewrite (without_absent key l Hx).
  - f_equal. apply IH. destruct Hin as [E|Hin]; [congruence | exact Hin].
Qed.

Lemma NoDup_snoc {A : Type} (l : list A) (x : A) :
  NoDup l -> ~ In x l -> NoDup (l ++ [x]).
Proof.
  induction 1 as [|y l Hy Hnd IH]; intros Hx; cbn [app].
  - constructor; [intros [] | constructor].
  - constructor.
    + intros Hin. apply in_app_or in Hin. destruct Hin as [Hin|[E|[]]].
      * exact (Hy Hin).
      * apply Hx. left; symmetry; exact E.
    + apply IH. intros Hin. apply Hx. right; exact Hin.
Qed.

Lemma toRemoveOf_positive (n : nat) : (1 <= n -> 1 <= MemoryManager.toRemoveOf n)%nat.
Proof.
  intros H. unfold MemoryManager.toRemoveOf.
  apply Nat.div_le_lower_bound; lia.
Qed.

Lemma toRemoveOf_below (n : nat) : (2 <= n -> MemoryManager.toRemoveOf n < n)%nat.
Proof.
  intros H. unfold MemoryManager.toRemoveOf.
  apply Nat.Div0.div_lt_upper_bound; lia.
Qed.

Lemma In_firstn_keeps {A : Type} (x : A) (n : nat) (l : list A) :
  In x (firstn n l) -> In x l.
Proof.
  revert l. induction n as [|n IH]; intros [|y l] H; cbn [firstn] in H;
    try (destruct H; fail).
  destruct H as [H|H]; [left; exact H | right; apply IH; exact H].
Qed.

Section MemoryManagerFacts.
Context {D : Type}.
Implicit Types (c : list (string * MemoryManager.Entry D)) (st : MemoryManager.t D).
Implicit Types (e : MemoryManager.Entry D) (key k : string).

Lemma mapGet_cons k0 e0 c key :
  MemoryManager.mapGet key ((k0, e0) :: c)
  = if String.eqb k0 key then Some e0 else MemoryManager.mapGet key c.
Proof.
  unfold MemoryManager.mapGet. cbn [List.find fst].
  destruct (String.eqb k0 key); reflexivity.
Qed.

Lemma mapGet_None key c :
  MemoryManager.mapGet key c = None <-> ~ In key (keysOf c).
Proof.
  induction c as [|[k0 e0] c IH]; cbn [keysOf map fst In].
  - split; [intros _ [] | reflexivity].
  - rewrite mapGet_cons. destruct (String.eqb_spec k0 key) as [->|Hne].
    + split; [discriminate | intros H; exfalso; apply H; left; reflexivity].
    + rewrite IH. unfold keysOf. tauto.
Qed.

Lemma mapGet_present key c :
  In key (keysOf c) -> exists e, MemoryManager.mapGet key c = Some e.
Proof.
  intros Hin. destruct (MemoryManager.mapGet key c) as [e|] eqn:E.
  - exists e; reflexivity.
  - apply mapGet_None in E. contradiction.
Qed.

Lemma mapGet_Some_In key c e :
  MemoryManager.mapGet key c = Some e -> In key (keysOf c).
Proof.
  intros E. destruct (in_dec string_dec key (keysOf c)) as [H|H]; [exact H|].
  apply mapGet_None in H. congruence.
Qed.

Lemma keysOf_mapDelete key c :
  keysOf (MemoryManager.mapDelete key c) = MemoryManager.without key (keysOf c).
Proof.
  induction c as [|[k0 e0] c IH]; [reflexivity|].
  cbn [MemoryManager.mapDelete MemoryManager.without keysOf filter map fst].
  destruct (String.eqb k0 key); cbn [negb map fst]; [exact IH|].
  f_equal. exact IH.
Qed.

Lemma mapDelete_absent key c :
  ~ In key (keysOf c) -> MemoryManager.mapDelete key c = c.
Proof.
  induction c as [|[k0 e0] c IH]; intros H; [reflexivity|].
  cbn [MemoryManager.mapDelete filter fst].
  destruct (String.eqb_spec k0 key) as [->|Hne]; cbn [negb].
  - exfalso. apply H. left; reflexivity.
  - f_equal. apply IH. intros Hin. apply H. right; exact Hin.
Qed.

Lemma mapGet_mapDelete key k c :
  MemoryManager.mapGet k (MemoryManager.mapDelete key c)
  = if String.eqb key k then None else MemoryManager.mapGet k c.
Proof.
  induction c as [|[k0 e0] c IH]; cbn [MemoryManager.mapDelete filter fst].
  - destruct (String.eqb key k); reflexivity.
  - fold (MemoryManager.mapDelete key c).
    destruct (String.eqb_spec k0 key) as [->|Hne]; cbn [negb].
    + rewrite IH, mapGet_cons. destruct (String.eqb key k); reflexivity.
    + rewrite !mapGet_cons, IH.
      destruct (String.eqb_spec k0 k) as [->|Hne']; [|reflexivity].
      destruct (String.eqb_spec key k); [congruence | reflexivity].
Qed.

Lemma sizesSum_mapDelete key c e :
  NoDup (keysOf c) -> MemoryManager.mapGet key c = Some e ->
  (sizesSum (MemoryManager.mapDelete key c) == sizesSum c - MemoryManager.size e)%Q.
Proof.
  induction c as [|[k0 e0] c IH]; intros Hnd E.
  - discriminate E.
  - cbn [keysOf map fst] in Hnd. inversion Hnd as [|? ? Hk0 Hnd']; subst.
    rewrite mapGet_cons in E.
    cbn [MemoryManager.mapDelete filter fst].
    fold (MemoryManager.mapDelete key c).
    destruct (String.eqb_spec k0 key) as [->|Hne]; cbn [negb].
    + injection E as ->. rewrite (mapDelete_absent key c Hk0).
      cbn [sizesSum fold_right snd]. fold (sizesSum c). lra.
    + cbn [sizesSum fold_right snd].
      fold (sizesSum c). fold (sizesSum (MemoryManager.mapDelete key c)).
      rewrite (IH Hnd' E). lra.
Qed.

Lemma keysOf_mapSet_present key e c :
  In key (keysOf c) -> keysOf (MemoryManager.mapSet key e c) = keysOf c.
Proof.
  induction c as [|[k0 e0] c IH]; intros Hin; [destruct Hin|].
  cbn [MemoryManager.mapSet].
  destruct (String.eqb_spec k0 key) as [->|Hne]; [reflexivity|].
  cbn [keysOf map fst]. f_equal. apply IH.
  destruct Hin as [E|Hin]; [cbn in E; congruence | exact Hin].
Qed.

Lemma keysOf_mapSet_absent key e c :
  ~ In key (keysOf c) -> keysOf (MemoryManager.mapSet key e c) = keysOf c ++ [key].
Proof.
  induction c as [|[k0 e0] c IH]; intros H; [reflexivity|].
  cbn [MemoryManager.mapSet].
  destruct (String.eqb_spec k0 key) as [->|Hne].
  - exfalso. apply H. left; reflexivity.
  - cbn [keysOf map fst app]. f_equal. apply IH.
    intros Hin. apply H. right; exact Hin.
Qed.

Lemma mapGet_mapSet key k e c :
  MemoryManager.mapGet k (MemoryManager.mapSet key e c)
  = if String.eqb key k then Some e else MemoryManager.mapGet k c.
Proof.
  induction c as [|[k0 e0] c IH]; cbn [MemoryManager.mapSet].
  - rewrite mapGet_cons. destruct (String.eqb key k); reflexivity.
  - destruct (String.eqb_spec k0 key) as [->|Hne]; rewrite !mapGet_cons.
    + destruct (String.eqb key k); reflexivity.
    + rewrite IH. destruct (String.eqb_spec k0 k) as [->|Hne']; [|reflexivity].
      destruct (String.eqb_spec key k); [congruence | reflexivity].
Qed.

Lemma sizesSum_mapSet_present key e c old :
  MemoryManager.mapGet key c = Some old ->
  (sizesSum (MemoryManager.mapSet key e c)
   == sizesSum c - MemoryManager.size old + MemoryManager.size e)%Q.
Proof.
  induction c as [|[k0 e0] c IH]; intros E; [discriminate E|].
  rewrite mapGet_cons in E. cbn [MemoryManager.mapSet].
  destruct (String.eqb_spec k0 key) as [->|Hne].
  - injection E as ->. cbn [sizesSum fold_right snd]. fold (sizesSum c). lra.
  - cbn [sizesSum fold_right snd].
    fold (sizesSum c). fold (sizesSum (MemoryManager.mapSet key e c)).
    rewrite (IH E). lra.
Qed.

Lemma sizesSum_mapSet_absent key e c :
  MemoryManager.mapGet key c = None ->
  (sizesSum (MemoryManager.mapSet key e c)
   == sizesSum c + MemoryManager.size e)%Q.
Proof.
  induction c as [|[k0 e0] c IH]; intros E.
  - cbn [MemoryManager.mapSet sizesSum fold_right snd]. lra.
  - rewrite mapGet_cons in E. cbn [MemoryManager.mapSet].
    destruct (String.eqb_spec k0 key) as [->|Hne]; [discriminate E|].
    cbn [sizesSum fold_right snd].
    fold (sizesSum c). fold (sizesSum (MemoryManager.mapSet key e c)).
    rewrite (IH E). lra.
Qed.




Lemma nonneg_mapDelete key c :
  Forall (fun kv => (0 <= MemoryManager.size (snd kv))%Q) c ->
  Forall (fun kv => (0 <= MemoryManager.size (snd kv))%Q)
         (MemoryManager.mapDelete key c).
Proof.
  intros H. apply Forall_forall. intros kv Hin.
  apply filter_In in Hin. rewrite Forall_forall in H. apply H. tauto.
Qed.

(** The keys cached and the keys listed are as many. *)
Lemma accounted_lengths st :
  Accounted st ->
  length (MemoryManager.accessOrder st) = length (MemoryManager.cache st).
Proof.
  intros [Hk [Ho [Hsame _]]].
  rewrite <- (length_map fst (MemoryManager.cache st)).
  apply Nat.le_antisymm; apply NoDup_incl_length; try assumption;
    intros k Hin; apply Hsame; exact Hin.
Qed.

(** Removing an entry with its key and its size keeps the books. *)
Lemma accounted_remove st key e :
  Accounted st ->
  MemoryManager.mapGet key (MemoryManager.cache st) = Some e ->
  Accounted (MemoryManager.mk
               (MemoryManager.mapDelete key (MemoryManager.cache st))
               (MemoryManager.currentSize st - MemoryManager.size e)%Q
               (MemoryManager.without key (MemoryManager.accessOrder st))).
Proof.
  intros [Hk [Ho [Hsame Hsum]]] E. unfold Accounted.
  cbn [MemoryManager.cache MemoryManager.currentSize MemoryManager.accessOrder].
  rewrite keysOf_mapDelete.
  split; [apply NoDup_without; exact Hk|].
  split; [apply NoDup_without; exact Ho|].
  split.
  - intros k. rewrite !In_without, Hsame. tauto.
  - rewrite (sizesSum_mapDelete key _ e Hk E), Hsum. reflexivity.
Qed.

Lemma evictLoop_spec (left : nat) :
  forall st,
    MemoryManager.accessOrder (MemoryManager.evictLoop left st)
    = skipn left (MemoryManager.accessOrder st) /\
    forall k,
      MemoryManager.mapGet k (MemoryManager.cache (MemoryManager.evictLoop left st))
      = if existsb (fun x => String.eqb x k)
             (firstn left (MemoryManager.accessOrder st))
        then None
        else MemoryManager.mapGet k (MemoryManager.cache st).
Proof.
  induction left as [|left IH]; intros [c cs order];
    cbn [MemoryManager.evictLoop MemoryManager.accessOrder MemoryManager.cache
         MemoryManager.currentSize].
  - split; reflexivity.
  - destruct order as [|oldestKey rest]; [split; reflexivity|].
    cbn [skipn firstn existsb].
    destruct (MemoryManager.mapGet oldestKey c) as [entry|] eqn:E.
    + destruct (IH (MemoryManager.mk (MemoryManager.mapDelete oldestKey c)
                      (cs - MemoryManager.size entry)%Q rest)) as [Ho Hg].
      cbn [MemoryManager.accessOrder MemoryManager.cache] in Ho, Hg.
      split; [exact Ho|]. intros k. rewrite Hg, mapGet_mapDelete.
      destruct (String.eqb oldestKey k); cbn [orb];
        destruct (existsb _ _); reflexivity.
    + destruct (IH (MemoryManager.mk c cs rest)) as [Ho Hg].
      cbn [MemoryManager.accessOrder MemoryManager.cache] in Ho, Hg.
      split; [exact Ho|]. intros k. rewrite Hg.
      destruct (String.eqb_spec oldestKey k) as [<-|Hne]; cbn [orb];
        [|reflexivity].
      rewrite E. destruct (existsb _ _); reflexivity.
Qed.

Lemma evictLoop_accounted (left : nat) :
  forall st,
    Accounted st ->
    Accounted (MemoryManager.evictLoop left st) /\
    (sizesNonNegative st -> sizesNonNegative (MemoryManager.evictLoop left st)).
Proof.
  induction left as [|left IH]; intros st Hacc.
  - destruct st as [c cs order]. cbn [MemoryManager.evictLoop]. tauto.
  - destruct st as [c cs [|oldestKey rest]];
      cbn [MemoryManager.evictLoop MemoryManager.accessOrder MemoryManager.cache
           MemoryManager.currentSize]; [tauto|].
    pose proof Hacc as [Hk [Ho [Hsame Hsum]]].
    cbn [MemoryManager.accessOrder MemoryManager.cache
         MemoryManager.currentSize] in Hk, Ho, Hsame, Hsum.
    destruct (mapGet_present oldestKey c) as [entry E].
    { apply Hsame. left; reflexivity. }
    rewrite E.
    pose proof (accounted_remove _ oldestKey entry Hacc E) as Hrem.
    cbn [MemoryManager.accessOrder MemoryManager.cache
         MemoryManager.currentSize MemoryManager.without filter] in Hrem.
    rewrite String.eqb_refl in Hrem. cbn [negb] in Hrem.
    fold (MemoryManager.without oldestKey rest) in Hrem.
    inversion Ho as [|? ? Hfresh Hrest]; subst.
    rewrite (without_absent oldestKey rest Hfresh) in Hrem.
    destruct (IH _ Hrem) as [Hacc' Hnn'].
    split; [exact Hacc'|].
    intros Hnn. apply Hnn'. unfold sizesNonNegative in *.
    cbn [MemoryManager.cache] in *. apply nonneg_mapDelete. exact Hnn.
Qed.

Lemma firstn_add_skipn {A : Type} (a b : nat) (l : list A) :
  firstn (a + b) l = firstn a l ++ firstn b (skipn a l).
Proof.
  revert l. induction a as [|a IH]; intros [|x l]; cbn [Nat.add firstn skipn app];
    try reflexivity.
  - now rewrite firstn_nil.
  - now rewrite IH.
Qed.

Lemma skipn_add {A : Type} (a b : nat) (l : list A) :
  skipn b (skipn a l) = skipn (a + b) l.
Proof.
  revert l. induction a as [|a IH]; intros [|x l]; cbn [Nat.add skipn];
    try reflexivity.
  - now rewrite skipn_nil.
  - apply IH.
Qed.

(** The loop of [set] ends on a manager whose books are in order. *)
Lemma evictWhile_total (size : Q) (fuel : nat) :
  forall st,
    Accounted st ->
    (length (MemoryManager.accessOrder st) < fuel)%nat ->
    exists st1 dropped,
      MemoryManager.evictWhile fuel size st = Some st1 /\
      Accounted st1 /\
      (sizesNonNegative st -> sizesNonNegative st1) /\
      ((MemoryManager.currentSize st1 + size <= MemoryManager.MAX_CACHE_SIZE)%Q
       \/ MemoryManager.cache st1 = []) /\
      MemoryManager.accessOrder st1
      = skipn dropped (MemoryManager.accessOrder st) /\
      forall k,
        MemoryManager.mapGet k (MemoryManager.cache st1)
        = if existsb (fun x => String.eqb x k)
               (firstn dropped (MemoryManager.accessOrder st))
          then None
          else MemoryManager.mapGet k (MemoryManager.cache st).
Proof.
  induction fuel as [|fuel IH]; intros st Hacc Hfuel; [lia|].
  cbn [MemoryManager.evictWhile].
  destruct (Js.ltb MemoryManager.MAX_CACHE_SIZE (MemoryManager.currentSize st + size))
    eqn:Eover; cbn [andb].
  2: { exists st, 0%nat. split; [reflexivity|]. split; [exact Hacc|].
       split; [tauto|]. split; [left; apply ltb_ge; exact Eover|].
       split; reflexivity. }
  destruct (Nat.eqb (length (MemoryManager.cache st)) 0) eqn:Eempty; cbn [negb].
  { exists st, 0%nat. split; [reflexivity|]. split; [exact Hacc|].
    split; [tauto|]. split.
    - right. apply Nat.eqb_eq in Eempty.
      destruct (MemoryManager.cache st); [reflexivity | discriminate Eempty].
    - split; reflexivity. }
  apply Nat.eqb_neq in Eempty.
  pose proof (accounted_lengths st Hacc) as Hlen.
  unfold MemoryManager.evictOldest.
  set (n := MemoryManager.toRemoveOf (length (MemoryManager.cache st))).
  assert (Hn : (1 <= n)%nat) by (apply toRemoveOf_positive; lia).
  destruct (evictLoop_accounted n st Hacc) as [Hacc' Hnn'].
  destruct (evictLoop_spec n st) as [Ho Hg].
  destruct (IH (MemoryManager.evictLoop n st) Hacc')
    as [st1 [dropped [E [Hacc1 [Hnn1 [Hexit [Ho1 Hg1]]]]]]].
  { rewrite Ho, length_skipn. lia. }
  exists st1, (n + dropped)%nat. split; [exact E|]. split; [exact Hacc1|].
  split; [tauto|]. split; [exact Hexit|]. split.
  - rewrite Ho1, Ho. apply skipn_add.
  - intros k. rewrite Hg1, Hg, Ho, firstn_add_skipn, existsb_app.
    destruct (existsb _ (firstn n _)); cbn [orb];
      destruct (existsb _ (firstn dropped _)); reflexivity.
Qed.

(** What [set] leaves behind, in terms of the manager [st1] its loop ends
    on. *)
Lemma set_spec (estimateSize : D -> Q) key (data : D) (size : Q) (now : Z) st :
  Accounted st ->
  let sz := MemoryManager.sizeOf estimateSize data size in
  exists st1 st' dropped,
    MemoryManager.set estimateSize key data size now st = Some st' /\
    Accounted st1 /\ Accounted st' /\
    (sizesNonNegative st -> sizesNonNegative st1) /\
    ((MemoryManager.currentSize st1 + sz <= MemoryManager.MAX_CACHE_SIZE)%Q
     \/ MemoryManager.cache st1 = []) /\
    MemoryManager.accessOrder st1 = skipn dropped (MemoryManager.accessOrder st) /\
    (forall k,
       MemoryManager.mapGet k (MemoryManager.cache st1)
       = if existsb (fun x => String.eqb x k)
              (firstn dropped (MemoryManager.accessOrder st))
         then None
         else MemoryManager.mapGet k (MemoryManager.cache st)) /\
    MemoryManager.cache st'
    = MemoryManager.mapSet key (MemoryManager.mkEntry data sz now)
        (MemoryManager.cache st1) /\
    MemoryManager.accessOrder st'
    = MemoryManager.without key (MemoryManager.accessOrder st1) ++ [key] /\
    (MemoryManager.currentSize st'
     == MemoryManager.currentSize st1
        - match MemoryManager.mapGet key (MemoryManager.cache st1) with
          | Some oldEntry => MemoryManager.size oldEntry
          | None => 0
          end + sz)%Q.
Proof.
  intros Hacc sz. unfold MemoryManager.set. fold sz.
  destruct (evictWhile_total sz (S (length (MemoryManager.accessOrder st))) st
              Hacc ltac:(lia))
    as [st1 [dropped [E [Hacc1 [Hnn1 [Hexit [Ho1 Hg1]]]]]]].
  rewrite E. eexists st1, _, dropped. split; [reflexivity|].
  split; [exact Hacc1|].
  pose proof Hacc1 as [Hk [Ho [Hsame Hsum]]].
  destruct (MemoryManager.mapGet key (MemoryManager.cache st1)) as [oldEntry|] eqn:Eold;
    cbn [MemoryManager.cache MemoryManager.currentSize MemoryManager.accessOrder].
  - assert (Hin : In key (keysOf (MemoryManager.cache st1)))
      by (eapply mapGet_Some_In; exact Eold).
    split; [|repeat split; try assumption; try reflexivity].
    unfold Accounted.
    cbn [MemoryManager.cache MemoryManager.currentSize MemoryManager.accessOrder].
    rewrite (keysOf_mapSet_present key _ _ Hin).
    split; [exact Hk|]. split; [|split].
    + apply NoDup_snoc; [apply NoDup_without; exact Ho|].
      rewrite In_without. tauto.
    + intros k. rewrite in_app_iff, In_without, Hsame. cbn [In].
      destruct (string_dec k key) as [->|Hne]; [tauto|].
      split; [intros [[H _]|[H|[]]]; [exact H | congruence] | tauto].
    + rewrite (sizesSum_mapSet_present key _ _ oldEntry Eold), Hsum.
      cbn [MemoryManager.size]. reflexivity.
  - assert (Hout : ~ In key (keysOf (MemoryManager.cache st1)))
      by (apply mapGet_None; exact Eold).
    assert (Hout' : ~ In key (MemoryManager.accessOrder st1))
      by (rewrite Hsame; exact Hout).
    rewrite (without_absent key _ Hout').
    split; [|repeat split; try assumption; try reflexivity; try lra].
    unfold Accounted.
    cbn [MemoryManager.cache MemoryManager.currentSize MemoryManager.accessOrder].
    rewrite (keysOf_mapSet_absent key _ _ Hout).
    split; [apply NoDup_snoc; assumption|].
    split; [apply NoDup_snoc; assumption|]. split.
    + intros k. rewrite !in_app_iff, Hsame. tauto.
    + rewrite (sizesSum_mapSet_absent key _ _ Eold), Hsum.
      cbn [MemoryManager.size]. reflexivity.
Qed.

Lemma get_accounted key (now : Z) st :
  Accounted st -> Accounted (snd (MemoryManager.get key now st)).
Proof.
  intros Hacc. unfold MemoryManager.get.
  destruct (MemoryManager.mapGet key (MemoryManager.cache st)) as [entry|] eqn:E;
    cbn [snd]; [|exact Hacc].
  destruct Hacc as [Hk [Ho [Hsame Hsum]]]. unfold Accounted.
  cbn [MemoryManager.cache MemoryManager.currentSize MemoryManager.accessOrder].
  assert (Hin : In key (keysOf (MemoryManager.cache st)))
    by (eapply mapGet_Some_In; exact E).
  rewrite (keysOf_mapSet_present key _ _ Hin).
  split; [exact Hk|]. split; [|split].
  - apply NoDup_snoc; [apply NoDup_without; exact Ho|].
    rewrite In_without. tauto.
  - intros k. rewrite in_app_iff, In_without, Hsame. cbn [In].
    destruct (string_dec k key) as [->|Hne]; [tauto|].
    split; [intros [[H _]|[H|[]]]; [exact H | congruence] | tauto].
  - rewrite (sizesSum_mapSet_present key _ _ entry E), Hsum.
    cbn [MemoryManager.size]. lra.
Qed.

Lemma delete_accounted key st :
  Accounted st -> Accounted (MemoryManager.delete key st).
Proof.
  intros Hacc. unfold MemoryManager.delete.
  destruct (MemoryManager.mapGet key (MemoryManager.cache st)) as [entry|] eqn:E;
    [|exact Hacc].
  apply accounted_remove; assumption.
Qed.

(** The index does not depend on the sizes: the facts below hold whatever
    [currentSize] is. *)
Lemma indexed_lengths st :
  Indexed st ->
  length (MemoryManager.accessOrder st) = length (MemoryManager.cache st).
Proof.
  intros [Hk [Ho Hsame]].
  rewrite <- (length_map fst (MemoryManager.cache st)).
  apply Nat.le_antisymm; apply NoDup_incl_length; try assumption;
    intros k Hin; apply Hsame; exact Hin.
Qed.

Lemma indexed_remove st key (cs : Q) :
  Indexed st ->
  Indexed (MemoryManager.mk
             (MemoryManager.mapDelete key (MemoryManager.cache st)) cs
             (MemoryManager.without key (MemoryManager.accessOrder st))).
Proof.
  intros [Hk [Ho Hsame]]. unfold Indexed.
  cbn [MemoryManager.cache MemoryManager.accessOrder].
  rewrite keysOf_mapDelete.
  split; [apply NoDup_without; exact Hk|].
  split; [apply NoDup_without; exact Ho|].
  intros k. rewrite !In_without, Hsame. tauto.
Qed.

Lemma indexed_touch st key e (cs : Q) :
  Indexed st ->
  Indexed (MemoryManager.mk
             (MemoryManager.mapSet key e (MemoryManager.cache st)) cs
             (MemoryManager.without key (MemoryManager.accessOrder st) ++ [key])).
Proof.
  intros [Hk [Ho Hsame]]. unfold Indexed.
  cbn [MemoryManager.cache MemoryManager.accessOrder].
  assert (Hord : NoDup (MemoryManager.without key (MemoryManager.accessOrder st)
                        ++ [key])).
  { apply NoDup_snoc; [apply NoDup_without; exact Ho|].
    rewrite In_without. tauto. }
  destruct (in_dec string_dec key (keysOf (MemoryManager.cache st))) as [Hin|Hout].
  - rewrite (keysOf_mapSet_present key _ _ Hin).
    split; [exact Hk|]. split; [exact Hord|].
    intros k. rewrite in_app_iff, In_without, Hsame. cbn [In].
    destruct (string_dec k key) as [->|Hne]; [tauto|].
    split; [intros [[H _]|[H|[]]]; [exact H | congruence] | tauto].
  - rewrite (keysOf_mapSet_absent key _ _ Hout).
    split; [apply NoDup_snoc; assumption|]. split; [exact Hord|].
    intros k. rewrite !in_app_iff, In_without, Hsame. cbn [In].
    destruct (string_dec k key) as [->|Hne]; [tauto|].
    split; [intros [[H _]|[H|[]]]; [left; exact H | congruence] | ].
    intros [H|[H|[]]]; [left; tauto | congruence].
Qed.

Lemma evictLoop_indexed (left : nat) :
  forall st, Indexed st -> Indexed (MemoryManager.evictLoop left st).
Proof.
  induction left as [|left IH]; intros st Hix.
  - destruct st as [c cs order]. exact Hix.
  - destruct st as [c cs [|oldestKey rest]];
      cbn [MemoryManager.evictLoop MemoryManager.accessOrder MemoryManager.cache
           MemoryManager.currentSize]; [exact Hix|].
    pose proof Hix as [Hk [Ho Hsame]].
    cbn [MemoryManager.accessOrder MemoryManager.cache] in Hk, Ho, Hsame.
    destruct (mapGet_present oldestKey c) as [entry E].
    { apply Hsame. left; reflexivity. }
    rewrite E. apply IH.
    pose proof (indexed_remove _ oldestKey (cs - MemoryManager.size entry)%Q Hix)
      as Hrem.
    cbn [MemoryManager.accessOrder MemoryManager.cache
         MemoryManager.without filter] in Hrem.
    rewrite String.eqb_refl in Hrem. cbn [negb] in Hrem.
    fold (MemoryManager.without oldestKey rest) in Hrem.
    inversion Ho as [|? ? Hfresh Hrest]; subst.
    rewrite (without_absent oldestKey rest Hfresh) in Hrem. exact Hrem.
Qed.

(** The loop of [set] ends on a manager whose index is in order, whatever
    the sizes: every round that finds the cache non-empty removes a key. *)
Lemma evictWhile_indexed (size : Q) (fuel : nat) :
  forall st,
    Indexed st ->
    (length (MemoryManager.accessOrder st) < fuel)%nat ->
    exists st1,
      MemoryManager.evictWhile fuel size st = Some st1 /\ Indexed st1.
Proof.
  induction fuel as [|fuel IH]; intros st Hix Hfuel; [lia|].
  cbn [MemoryManager.evictWhile].
  destruct (Js.ltb MemoryManager.MAX_CACHE_SIZE (MemoryManager.currentSize st + size));
    cbn [andb]; [|exists st; split; [reflexivity | exact Hix]].
  destruct (Nat.eqb (length (MemoryManager.cache st)) 0) eqn:Eempty; cbn [negb];
    [exists st; split; [reflexivity | exact Hix]|].
  apply Nat.eqb_neq in Eempty.
  pose proof (indexed_lengths st Hix) as Hlen.
  unfold MemoryManager.evictOldest.
  set (n := MemoryManager.toRemoveOf (length (MemoryManager.cache st))).
  assert (Hn : (1 <= n)%nat) by (apply toRemoveOf_positive; lia).
  destruct (evictLoop_spec n st) as [Ho _].
  apply IH; [apply evictLoop_indexed; exact Hix|].
  rewrite Ho, length_skipn. lia.
Qed.

Lemma set_indexed (estimateSize : D -> Q) key (data : D) (size : Q) (now : Z) st :
  Indexed st ->
  exists st',
    MemoryManager.set estimateSize key data size now st = Some st' /\
    Indexed st' /\
    MemoryManager.mapGet key (MemoryManager.cache st')
    = Some (MemoryManager.mkEntry data
              (MemoryManager.sizeOf estimateSize data size) now) /\
    exists earlier, MemoryManager.accessOrder st' = earlier ++ [key].
Proof.
  intros Hix. unfold MemoryManager.set.
  destruct (evictWhile_indexed (MemoryManager.sizeOf estimateSize data size)
              (S (length (MemoryManager.accessOrder st))) st Hix ltac:(lia))
    as [st1 [E Hix1]].
  rewrite E. eexists. split; [reflexivity|].
  destruct (MemoryManager.mapGet key (MemoryManager.cache st1)) as [oldEntry|] eqn:Eold;
    cbn [MemoryManager.cache MemoryManager.currentSize MemoryManager.accessOrder].
  - split; [apply indexed_touch; exact Hix1|].
    split; [rewrite mapGet_mapSet, String.eqb_refl; reflexivity|].
    eexists; reflexivity.
  - assert (Hout : ~ In key (MemoryManager.accessOrder st1)).
    { destruct Hix1 as [_ [_ Hsame]]. rewrite Hsame.
      apply mapGet_None. exact Eold. }
    split.
    + rewrite <- (without_absent key _ Hout) at 1.
      apply indexed_touch. exact Hix1.
    + split; [rewrite mapGet_mapSet, String.eqb_refl; reflexivity|].
      eexists; reflexivity.
Qed.

Lemma get_indexed key (now : Z) st :
  Indexed st -> Indexed (snd (MemoryManager.get key now st)).
Proof.
  intros Hix. unfold MemoryManager.get.
  destruct (MemoryManager.mapGet key (MemoryManager.cache st)) as [entry|];
    cbn [snd]; [|exact Hix].
  apply indexed_touch. exact Hix.
Qed.

Lemma delete_indexed key st :
  Indexed st ->
  Indexed (MemoryManager.delete key st) /\
  MemoryManager.has key (MemoryManager.delete key st) = false.
Proof.
  intros Hix. unfold MemoryManager.delete, MemoryManager.has.
  destruct (MemoryManager.mapGet key (MemoryManager.cache st)) as [entry|] eqn:E.
  - split; [apply indexed_remove; exact Hix|].
    cbn [MemoryManager.cache]. rewrite mapGet_mapDelete, String.eqb_refl.
    reflexivity.
  - split; [exact Hix | now rewrite E].
Qed.

End MemoryManagerFacts.

(** X18.  Starting from a manager whose index is in order (as the empty
    one is), that is each key cached once and listed once in the access
    order and the same keys in both, [set] always returns and every
    operation leaves the index in order, whatever the sizes and
    [currentSize] are.  After [set(key, data)] the key is cached with the
    data, the size [set] goes by and the time given, [get] returns the data
    just stored and the key is the most recently used; after [delete(key)]
    the key is not cached. *)
Theorem memory_manager_keeps_its_index :
  forall (D : Type) (estimateSize : D -> Q) (st : MemoryManager.t D)
         (key : string) (data : D) (size : Q) (now now' : Z),
    Indexed st ->
    Indexed (@MemoryManager.empty D) /\
    Indexed (snd (MemoryManager.get key now st)) /\
    (Indexed (MemoryManager.delete key st) /\
     MemoryManager.has key (MemoryManager.delete key st) = false) /\
    Indexed (MemoryManager.evictOldest st) /\
    Indexed (MemoryManager.clear st) /\
    exists st',
      MemoryManager.set estimateSize key data size now st = Some st' /\
      Indexed st' /\
      MemoryManager.mapGet key (MemoryManager.cache st')
      = Some (MemoryManager.mkEntry data
                (MemoryManager.sizeOf estimateSize data size) now) /\
      MemoryManager.has key st' = true /\
      fst (MemoryManager.get key now' st') = Some data /\
      exists earlier, MemoryManager.accessOrder st' = earlier ++ [key].
Proof.
  intros D estimateSize st key data size now now' Hix.
  assert (Hempty : Indexed (@MemoryManager.empty D)).
  { unfold Indexed, MemoryManager.empty. cbn.
    repeat split; try constructor; intros []. }
  split; [exact Hempty|].
  split; [apply get_indexed; exact Hix|].
  split; [apply delete_indexed; exact Hix|].
  split; [apply evictLoop_indexed; exact Hix|].
  split; [exact Hempty|].
  destruct (set_indexed estimateSize key data size now st Hix)
    as [st' [E [Hix' [Hget Hlast]]]].
  exists st'. split; [exact E|]. split; [exact Hix'|]. split; [exact Hget|].
  split; [unfold MemoryManager.has; now rewrite Hget|].
  split; [unfold MemoryManager.get; now rewrite Hget|].
  exact Hlast.
Qed.

Lemma memory_manager_keeps_its_index_witness :
  Indexed (@MemoryManager.empty Z) /\
  Indexed (snd (MemoryManager.get "b" 5 sampleManager)) /\
  (Indexed (MemoryManager.delete "b" sampleManager) /\
   MemoryManager.has "b" (MemoryManager.delete "b" sampleManager) = false) /\
  Indexed (MemoryManager.evictOldest sampleManager) /\
  Indexed (MemoryManager.clear sampleManager) /\
  exists st',
    MemoryManager.set eightBytes "b" 7 0 5 sampleManager = Some st' /\
    Indexed st' /\
    MemoryManager.mapGet "b" (MemoryManager.cache st')
    = Some (MemoryManager.mkEntry 7 (MemoryManager.sizeOf eightBytes 7 0) 5) /\
    MemoryManager.has "b" st' = true /\
    fst (MemoryManager.get "b" 6 st') = Some 7 /\
    exists earlier, MemoryManager.accessOrder st' = earlier ++ ["b"%string].
Proof.
  apply (memory_manager_keeps_its_index Z eightBytes sampleManager "b" 7 0 5 6).
  unfold Indexed, sampleManager. cbn.
  split; [|split; [|tauto]];
    repeat constructor; cbn; intuition discriminate.
Defined.



(** X20.  Eviction is least recently used first.  [evictOldest] drops the
    first [ceil(n / 5)] keys of the access order, [n] the number of entries,
    and keeps every other entry as it is; the entries [set] evicts are
    likewise the first so many of the access order.  Reading an entry with
    [get] makes it survive the next [evictOldest] whenever the cache holds
    two entries or more. *)
Theorem memory_manager_evicts_least_recently_used_first :
  forall (D : Type) (estimateSize : D -> Q) (st : MemoryManager.t D)
         (key : string) (data : D) (size : Q) (now : Z),
    Accounted st ->
    (let dropped := MemoryManager.toRemoveOf (length (MemoryManager.cache st)) in
     MemoryManager.accessOrder (MemoryManager.evictOldest st)
     = skipn dropped (MemoryManager.accessOrder st) /\
     forall k,
       MemoryManager.mapGet k (MemoryManager.cache (MemoryManager.evictOldest st))
       = if existsb (fun x => String.eqb x k)
              (firstn dropped (MemoryManager.accessOrder st))
         then None
         else MemoryManager.mapGet k (MemoryManager.cache st)) /\
    (exists st' dropped,
       MemoryManager.set estimateSize key data size now st = Some st' /\
       forall k, k <> key ->
         MemoryManager.mapGet k (MemoryManager.cache st')
         = if existsb (fun x => String.eqb x k)
                (firstn dropped (MemoryManager.accessOrder st))
           then None
           else MemoryManager.mapGet k (MemoryManager.cache st)) /\
    (MemoryManager.has key st = true ->
     (2 <= length (MemoryManager.cache st))%nat ->
     MemoryManager.has key
       (MemoryManager.evictOldest (snd (MemoryManager.get key now st))) = true).
Proof.
  intros D estimateSize st key data size now Hacc.
  split; [apply evictLoop_spec|]. split.
  - destruct (set_spec estimateSize key data size now st Hacc)
      as [st1 [st' [dropped [E [_ [_ [_ [_ [_ [Hg [Hc _]]]]]]]]]]].
    exists st', dropped. split; [exact E|]. intros k Hne.
    rewrite Hc, mapGet_mapSet, Hg.
    destruct (String.eqb_spec key k); [congruence | reflexivity].
  - intros Hhas Hlen.
    unfold MemoryManager.has in Hhas.
    destruct (MemoryManager.mapGet key (MemoryManager.cache st)) as [entry|] eqn:E;
      [|discriminate Hhas].
    pose proof (get_accounted key now st Hacc) as Hacc'.
    pose proof (accounted_lengths _ Hacc') as Hlen'.
    pose proof (accounted_lengths _ Hacc) as Hlen0.
    destruct Hacc as [Hk [Ho [Hsame Hsum]]].
    unfold MemoryManager.get in *. rewrite E in *. cbn [snd] in *.
    set (st2 := MemoryManager.mk _ _ _) in *.
    destruct (evictLoop_spec
                (MemoryManager.toRemoveOf (length (MemoryManager.cache st2))) st2)
      as [_ Hg].
    unfold MemoryManager.has, MemoryManager.evictOldest. rewrite Hg.
    assert (Hin : In key (MemoryManager.accessOrder st)).
    { apply Hsame. eapply mapGet_Some_In; exact E. }
    pose proof (length_without key _ Ho Hin) as Hw.
    assert (Hsize : length (MemoryManager.cache st2)
                    = length (MemoryManager.cache st)).
    { rewrite <- Hlen'. cbn [st2 MemoryManager.accessOrder].
      rewrite length_app. cbn [length]. lia. }
    rewrite Hsize.
    pose proof (toRemoveOf_below _ Hlen) as Hbelow.
    cbn [st2 MemoryManager.accessOrder MemoryManager.cache].
    rewrite firstn_app.
    replace (MemoryManager.toRemoveOf (length (MemoryManager.cache st))
             - length (MemoryManager.without key (MemoryManager.accessOrder st)))%nat
      with 0%nat by lia.
    cbn [firstn]. rewrite app_nil_r.
    assert (Hnot : existsb (fun x => String.eqb x key)
                     (firstn (MemoryManager.toRemoveOf
                                (length (MemoryManager.cache st)))
                        (MemoryManager.without key (MemoryManager.accessOrder st)))
                   = false).
    { destruct (existsb _ _) eqn:Ex; [|reflexivity].
      apply existsb_exists in Ex. destruct Ex as [x [Hx Heq]].
      apply String.eqb_eq in Heq. subst x.
      apply In_firstn_keeps in Hx. apply In_without in Hx. tauto. }
    rewrite Hnot, mapGet_mapSet, String.eqb_refl. reflexivity.
Qed.

Lemma memory_manager_evicts_least_recently_used_first_witness :
  (let dropped :=
     MemoryManager.toRemoveOf (length (MemoryManager.cache sampleManager)) in
   MemoryManager.accessOrder (MemoryManager.evictOldest sampleManager)
   = skipn dropped (MemoryManager.accessOrder sampleManager) /\
   forall k,
     MemoryManager.mapGet k
       (MemoryManager.cache (MemoryManager.evictOldest sampleManager))
     = if existsb (fun x => String.eqb x k)
            (firstn dropped (MemoryManager.accessOrder sampleManager))
       then None
       else MemoryManager.mapGet k (MemoryManager.cache sampleManager)) /\
  (exists st' dropped,
     MemoryManager.set eightBytes "a" 7 0 5 sampleManager = Some st' /\
     forall k, k <> "a"%string ->
       MemoryManager.mapGet k (MemoryManager.cache st')
       = if existsb (fun x => String.eqb x k)
              (firstn dropped (MemoryManager.accessOrder sampleManager))
         then None
         else MemoryManager.mapGet k (MemoryManager.cache sampleManager)) /\
  (MemoryManager.has "a" sampleManager = true ->
   (2 <= length (MemoryManager.cache sampleManager))%nat ->
   MemoryManager.has "a"
     (MemoryManager.evictOldest (snd (MemoryManager.get "a" 5 sampleManager)))
   = true).
Proof.
  apply (memory_manager_evicts_least_recently_used_first Z eightBytes
           sampleManager "a" 7 0 5).
  unfold Accounted, sampleManager. cbn.
  split; [|split; [|split; [tauto | reflexivity]]];
    repeat constructor; cbn; intuition discriminate.
Defined.

(* ------------------------------------------------------------------ *)
(** ** Chunk processor *)

Lemma slice_then_rest {A : Type} (l : list A) (i : nat) :
  slice l i (Nat.min (length l) (i + 8)) ++ skipn (i + 8) l = skipn i l.
Proof.
  unfold slice. rewrite <- (skipn_add i 8 l).
  pose proof (length_skipn i l) as Hlen.
  destruct (le_lt_dec (i + 8) (length l)) as [Hle|Hlt].
  - replace (Nat.min (length l) (i + 8) - i)%nat with 8%nat by lia.
    apply firstn_skipn.
  - replace (Nat.min (length l) (i + 8) - i)%nat with (length l - i)%nat by lia.
    rewrite firstn_all2 by lia.
    assert (Hrest : skipn 8 (skipn i l) = []) by (apply skipn_all2; lia).
    rewrite Hrest. apply app_nil_r.
Qed.

Lemma slice_length {A : Type} (l : list A) (a b : nat) :
  (b <= length l)%nat -> length (slice l a b) = (b - a)%nat.
Proof.
  intros H. unfold slice. rewrite length_firstn, length_skipn. lia.
Qed.

Lemma skipn_slice {A : Type} (l : list A) (a b : nat) :
  (1 <= a)%nat -> (a <= b)%nat ->
  skipn 1 (slice l (a - 1) b) = slice l a b.
Proof.
  intros Ha Hb. unfold slice.
  replace (b - (a - 1))%nat with (1 + (b - a))%nat by lia.
  rewrite <- firstn_skipn_comm, skipn_add.
  replace (a - 1 + 1)%nat with a by lia. reflexivity.
Qed.

Section ChunkFacts.
Context {A : Type} (ms : list A).

(** The chunks the loop pushes from index [i] on. *)
Lemma splitLoop_spec (fuel : nat) :
  forall i,
    (length ms <= i + 8 * fuel)%nat ->
    exists chunks,
      splitLoop fuel i ms = Some chunks /\
      map Chunk.startIndex chunks
      = map (fun j => (i + 8 * j)%nat) (seq 0 (length chunks)) /\
      Forall (fun c => exists s, c = chunkAt ms s /\ (i <= s < length ms)%nat)
             chunks /\
      (8 * length chunks < length ms - i + 8)%nat /\
      (length ms - i <= 8 * length chunks)%nat /\
      concat (map (coreOfChunk ms) chunks) = skipn i ms /\
      length (concat (map (keptOfChunk ms) chunks))
      = (length ms - i + (length chunks - 1))%nat.
Proof.
  induction fuel as [|fuel IH]; intros i Hfuel; cbn [splitLoop].
  - replace (Nat.ltb i (length ms)) with false
      by (symmetry; apply Nat.ltb_ge; lia).
    exists []. cbn [length map concat seq].
    rewrite skipn_all2 by lia.
    repeat split; try constructor; try lia.
  - destruct (Nat.ltb i (length ms)) eqn:Elt.
    2: { apply Nat.ltb_ge in Elt. exists []. cbn [length map concat seq].
         rewrite skipn_all2 by lia.
         repeat split; try constructor; try lia. }
    apply Nat.ltb_lt in Elt. unfold CHUNK_SIZE.
    destruct (IH (i + 8)%nat ltac:(lia))
      as [chunks [E [Hs [Hf [Hc1 [Hc2 [Hv Hk]]]]]]].
    rewrite E. exists (chunkAt ms i :: chunks).
    split; [reflexivity|]. cbn [length map concat seq].
    split; [|split; [|split; [|split; [|split]]]].
    + cbn [chunkAt Chunk.startIndex]. f_equal; [lia|].
      rewrite Hs, <- seq_shift, map_map. apply map_ext. intros j. lia.
    + constructor; [exists i; split; [reflexivity | lia]|].
      eapply Forall_impl; [|exact Hf]. intros c [s [Ec Hrange]].
      exists s. split; [exact Ec | lia].
    + lia.
    + lia.
    + rewrite Hv. unfold coreOfChunk, CHUNK_SIZE.
      cbn [chunkAt Chunk.startIndex]. apply slice_then_rest.
    + rewrite length_app, Hk. unfold keptOfChunk.
      cbn [chunkAt Chunk.startIndex Chunk.originalEndIndex].
      unfold CHUNK_SIZE, OVERLAP_SIZE.
      rewrite slice_length by lia. lia.
Qed.

Lemma splitIntoChunks_cases :
  (ms = [] /\ splitIntoChunks ms = Some []) \/
  (exists later,
     splitIntoChunks ms = Some (chunkAt ms 0 :: later) /\
     Forall (fun c => exists s, c = chunkAt ms s /\ (8 <= s < length ms)%nat)
            later).
Proof.
  unfold splitIntoChunks. destruct ms as [|m0 ms'] eqn:Ems.
  - left. split; reflexivity.
  - right. rewrite <- Ems.
    assert (Hlen : length ms = S (length ms')) by (rewrite Ems; reflexivity).
    destruct (splitLoop_spec (length ms') 8 ltac:(lia))
      as [later [E [_ [Hf _]]]].
    exists later. split; [|exact Hf].
    rewrite Hlen. cbn [splitLoop]. rewrite Hlen.
    cbn [Nat.ltb Nat.leb]. unfold CHUNK_SIZE.
    cbn [Nat.add]. rewrite E. reflexivity.
Qed.

(** A field of the chunks read off their start indices. *)
Lemma chunk_field {B : Type} (g : Chunk.t A -> B) (h : nat -> B)
    (chunks : list (Chunk.t A)) (i : nat) :
  Forall (fun c => exists s, c = chunkAt ms s /\ (i <= s < length ms)%nat) chunks ->
  (forall s, (s < length ms)%nat -> g (chunkAt ms s) = h s) ->
  map g chunks = map h (map Chunk.startIndex chunks).
Proof.
  intros Hf Hgh. rewrite map_map.
  induction Hf as [|c chunks' [s [-> Hrange]] _ IH]; [reflexivity|].
  cbn [map]. rewrite IH. f_equal.
  cbn [chunkAt Chunk.startIndex]. apply Hgh. lia.
Qed.

Lemma splitIntoChunks_ids (chunks : list (Chunk.t A)) :
  splitIntoChunks ms = Some chunks ->
  map Chunk.id chunks = seq 0 (length chunks).
Proof.
  intros E.
  destruct (splitLoop_spec (length ms) 0 ltac:(lia))
    as [chunks' [E' [Hs [Hf _]]]].
  unfold splitIntoChunks in E. rewrite E in E'. injection E' as <-.
  cbn [Nat.add] in Hs.
  rewrite (chunk_field Chunk.id (fun s => Nat.div s 8) chunks 0 Hf)
    by reflexivity.
  rewrite Hs, map_map. rewrite <- (map_id (seq 0 (length chunks))) at 2.
  apply map_ext. intros k. rewrite Nat.mul_comm. apply Nat.div_mul. lia.
Qed.

End ChunkFacts.

(** X21.  [splitIntoChunks] always returns, with [ceil(n / 8)] chunks for
    [n] measures, none for an empty score.  Chunk [k] has identifier [k]
    and start index [8 k]; it holds the measures from the one before its
    start (from its start for the first chunk) up to at most one past its
    eight, so at most ten; only the first chunk is marked first and only the
    last one last.  The eight (or fewer) measures each chunk starts with
    after the leading overlap make up the score, in order, each once. *)
Theorem splitIntoChunks_covers_the_score :
  forall (A : Type) (ms : list A),
    exists chunks,
      splitIntoChunks ms = Some chunks /\
      length chunks = Nat.div (length ms + 7) 8 /\
      map Chunk.id chunks = seq 0 (length chunks) /\
      map Chunk.startIndex chunks
      = map (fun k => (8 * k)%nat) (seq 0 (length chunks)) /\
      Forall (fun c =>
                Chunk.measures c
                = slice ms (Chunk.startIndex c - 1)
                    (Nat.min (length ms) (Chunk.startIndex c + 9)) /\
                (1 <= length (Chunk.measures c) <= 10)%nat)
             chunks /\
      map Chunk.isFirst chunks
      = map (fun k => Nat.eqb k 0) (seq 0 (length chunks)) /\
      map Chunk.isLast chunks
      = map (fun k => Nat.eqb (S k) (length chunks)) (seq 0 (length chunks)) /\
      concat (map (coreOfChunk ms) chunks) = ms.
Proof.
  intros A ms.
  destruct (splitLoop_spec ms (length ms) 0 ltac:(lia))
    as [chunks [E [Hs [Hf [Hc1 [Hc2 [Hv _]]]]]]].
  exists chunks. split; [exact E|].
  rewrite Nat.sub_0_r in Hc1, Hc2. cbn [Nat.add] in Hs.
  assert (Hfield : forall (B : Type) (g : Chunk.t A -> B) (h : nat -> B),
             (forall s, (s < length ms)%nat -> g (chunkAt ms s) = h s) ->
             map g chunks = map h (map Chunk.startIndex chunks)).
  { intros B g h Hgh. exact (chunk_field ms g h chunks 0 Hf Hgh). }
  split; [|split; [|split; [exact Hs | split; [|split; [|split]]]]].
  - apply (Nat.div_unique (length ms + 7) 8 (length chunks)
             (length ms + 7 - 8 * length chunks)); lia.
  - apply (splitIntoChunks_ids ms chunks E).
  - apply Forall_forall. intros c Hc. rewrite Forall_forall in Hf.
    destruct (Hf c Hc) as [s [-> Hrange]].
    cbn [chunkAt Chunk.measures Chunk.startIndex].
    unfold CHUNK_SIZE, OVERLAP_SIZE. cbn [Nat.max].
    replace (s + 8 + 1)%nat with (s + 9)%nat by lia.
    split; [reflexivity|]. rewrite slice_length by lia. lia.
  - rewrite (Hfield bool Chunk.isFirst (fun s => Nat.eqb s 0)) by reflexivity.
    rewrite Hs, map_map. apply map_ext. intros k.
    destruct k; reflexivity.
  - rewrite (Hfield bool Chunk.isLast
               (fun s => Nat.leb (length ms) (s + 8))) by reflexivity.
    rewrite Hs, map_map. apply map_ext_in. intros k Hk.
    apply in_seq in Hk.
    destruct (Nat.eqb_spec (S k) (length chunks)) as [Heq|Hne].
    + apply Nat.leb_le. lia.
    + apply Nat.leb_gt. lia.
  - rewrite Hv. reflexivity.
Qed.

Lemma tieAcross_blind (nextMeasure : Measure.t) (note : Note.t) :
  tieBlindNote (tieAcross nextMeasure note) = tieBlindNote note.
Proof.
  unfold tieAcross. destruct (Note.tiedTo note) as [t|]; [|reflexivity].
  destruct (String.eqb t "pending"); [|reflexivity].
  destruct (List.find _ _); reflexivity.
Qed.

Lemma smoothAt_blind (i : nat) (measures : list Measure.t) :
  map tieBlind (smoothAt i measures) = map tieBlind measures.
Proof.
  unfold smoothAt.
  destruct (nth_error measures i); [|reflexivity].
  destruct (nth_error measures (i + 1)) as [nextMeasure|]; [|reflexivity].
  apply updateAt_map. intros prevMeasure. unfold tieBlind.
  cbn [Measure.number Measure.notes Measure.rests]. f_equal.
  rewrite map_map. apply map_ext. intros note. apply tieAcross_blind.
Qed.

Lemma smoothLoop_blind (fuel : nat) :
  forall i measures,
    (length measures <= i + 8 * fuel)%nat ->
    exists smoothed,
      smoothLoop fuel i measures = Some smoothed /\
      map tieBlind smoothed = map tieBlind measures.
Proof.
  induction fuel as [|fuel IH]; intros i measures Hfuel; cbn [smoothLoop].
  - replace (Nat.ltb i (length measures)) with false
      by (symmetry; apply Nat.ltb_ge; lia).
    exists measures. split; reflexivity.
  - destruct (Nat.ltb i (length measures)) eqn:Elt;
      [|exists measures; split; reflexivity].
    pose proof (smoothAt_blind i measures) as Hb.
    assert (Hlen : length (smoothAt i measures) = length measures).
    { rewrite <- (length_map tieBlind), Hb. apply length_map. }
    unfold CHUNK_SIZE.
    destruct (IH (i + 8)%nat (smoothAt i measures) ltac:(lia))
      as [smoothed [E Hs]].
    exists smoothed. split; [exact E|]. now rewrite Hs.
Qed.

Lemma sorted_by_chunk_id {A : Type} (chunks : list (Chunk.t A)) :
  forall start,
    map Chunk.id chunks = seq start (length chunks) ->
    StronglySorted (fun a b => Js.leb (byChunkId a b) 0 = true) chunks.
Proof.
  induction chunks as [|c chunks IH]; intros start Hids; [constructor|].
  cbn [map length seq] in Hids. injection Hids as Hc Hrest.
  constructor; [apply (IH (S start)); exact Hrest|].
  apply Forall_forall. intros c' Hc'.
  assert (Hin : In (Chunk.id c') (seq (S start) (length chunks))).
  { rewrite <- Hrest. apply in_map. exact Hc'. }
  apply in_seq in Hin. apply leb_le. unfold byChunkId.
  assert (H : (inject_Z (Z.of_nat (Chunk.id c))
               <= inject_Z (Z.of_nat (Chunk.id c')))%Q)
    by (rewrite <- Zle_Qle; lia).
  lra.
Qed.

Lemma merge_later {A B : Type} (ms : list A) (f : A -> B)
    (later : list (Chunk.t A)) :
  Forall (fun c => exists s, c = chunkAt ms s /\ (8 <= s < length ms)%nat) later ->
  forall index,
    concat
      (mapi (S index)
         (fun index chunk =>
            if Nat.eqb index 0 then Chunk.measures chunk
            else skipn OVERLAP_SIZE (Chunk.measures chunk))
         (map (processedBy f) later))
    = map f (concat (map (keptOfChunk ms) later)).
Proof.
  induction 1 as [|c later [s [-> Hrange]] _ IH]; intros index;
    cbn [map mapi concat]; [reflexivity|].
  rewrite IH, map_app. f_equal.
  unfold keptOfChunk, processedBy, chunkAt.
  cbn [Nat.eqb Chunk.measures Chunk.startIndex Chunk.originalEndIndex].
  unfold OVERLAP_SIZE, CHUNK_SIZE. cbn [Nat.max].
  rewrite skipn_map. f_equal. apply skipn_slice; lia.
Qed.

Lemma merge_processed {A : Type} (ms : list A) (f : A -> Measure.t)
    (chunks : list (Chunk.t A)) :
  splitIntoChunks ms = Some chunks ->
  mergeMeasures (map (processedBy f) chunks)
  = map f (concat (map (keptOfChunk ms) chunks)).
Proof.
  intros E.
  destruct (splitIntoChunks_cases ms) as [[_ E0]|[later [E1 Hf]]].
  - rewrite E0 in E. injection E as <-. reflexivity.
  - rewrite E1 in E. injection E as <-.
    unfold mergeMeasures. cbn [map mapi concat Nat.eqb].
    rewrite (merge_later ms f later Hf 0), map_app. reflexivity.
Qed.

(** X22.  Merging the chunks of a score after each has been processed
    measure by measure always returns, and gives, up to the tie markers the
    boundary smoothing rewrites, the processed measures from the start index
    of every chunk to the end of its trailing overlap.  So the merge skips
    the leading overlap of a chunk but keeps the trailing one: a score of at
    most eight measures comes back as it is, and a longer one comes back
    with one measure more for every chunk after the first, the first
    measure of each such chunk being there twice. *)
Theorem merged_chunks_repeat_the_overlap :
  forall (A : Type) (ms : list A) (f : A -> Measure.t),
    exists chunks merged,
      splitIntoChunks ms = Some chunks /\
      mergeChunks (map (processedBy f) chunks) = Some merged /\
      map tieBlind merged
      = map (fun m => tieBlind (f m)) (concat (map (keptOfChunk ms) chunks)) /\
      length merged = (length ms + (length chunks - 1))%nat /\
      ((length ms <= 8)%nat ->
       map tieBlind merged = map (fun m => tieBlind (f m)) ms) /\
      ((8 < length ms)%nat -> (length ms < length merged)%nat).
Proof.
  intros A ms f.
  destruct (splitLoop_spec ms (length ms) 0 ltac:(lia))
    as [chunks [E [_ [_ [Hc1 [Hc2 [_ Hk]]]]]]].
  pose proof (splitIntoChunks_ids ms chunks E) as Hids.
  pose proof (merge_processed ms f chunks E) as Hkept.
  rewrite Nat.sub_0_r in Hc1, Hc2, Hk.
  assert (Hsort : Js.sort byChunkId (map (processedBy f) chunks)
                  = map (processedBy f) chunks).
  { apply sort_ordered_id. apply (sorted_by_chunk_id _ 0%nat).
    rewrite map_map, length_map. exact Hids. }
  destruct (smoothLoop_blind (length (mergeMeasures (map (processedBy f) chunks)))
              (CHUNK_SIZE - 1) (mergeMeasures (map (processedBy f) chunks))
              ltac:(lia))
    as [merged [Es Hb]].
  exists chunks, merged. split; [exact E|].
  split; [unfold mergeChunks, smoothChunkBoundaries; rewrite Hsort; exact Es|].
  rewrite Hkept, map_map in Hb.
  assert (Hlen : length merged = (length ms + (length chunks - 1))%nat).
  { rewrite <- (length_map tieBlind), Hb, length_map. exact Hk. }
  split; [exact Hb|]. split; [exact Hlen|]. split.
  - intros Hshort. rewrite Hb. f_equal.
    destruct (splitIntoChunks_cases ms) as [[-> E0]|[later [E1 Hf]]].
    + cbn in E. injection E as <-. reflexivity.
    + unfold splitIntoChunks in E1. rewrite E1 in E. injection E as <-.
      destruct later as [|c later].
      * cbn [map concat]. rewrite app_nil_r. unfold keptOfChunk, slice.
        cbn [chunkAt Chunk.startIndex Chunk.originalEndIndex skipn].
        apply firstn_all2. unfold CHUNK_SIZE, OVERLAP_SIZE. lia.
      * cbn [length] in Hc1. lia.
  - intros Hlong. lia.
Qed.

(* ------------------------------------------------------------------ *)
(** ** Rule layers of the AI voice separation *)

Lemma perm_interleave3 {A : Type} (s1 s2 a1 a2 p1 p2 : list A) :
  Permutation ((s1 ++ s2) ++ (a1 ++ a2) ++ (p1 ++ p2))
              ((s1 ++ a1 ++ p1) ++ (s2 ++ a2 ++ p2)).
Proof.
  rewrite <- !app_assoc. apply Permutation_app_head.
  eapply Permutation_trans; [apply Permutation_app_swap_app|].
  apply Permutation_app_head.
  rewrite (app_assoc s2 a2 (p1 ++ p2)), (app_assoc s2 a2 p2).
  rewrite (app_assoc (s2 ++ a2) p1 p2).
  rewrite (app_assoc p1 (s2 ++ a2) p2).
  apply Permutation_app_tail, Permutation_app_comm.
Qed.

Lemma perm_interleave2 {A : Type} (s1 s2 a1 a2 : list A) :
  Permutation ((s1 ++ s2) ++ (a1 ++ a2)) ((s1 ++ a1) ++ (s2 ++ a2)).
Proof.
  rewrite <- !app_assoc. apply Permutation_app_head.
  apply Permutation_app_swap_app.
Qed.

Lemma notesOf_app (a b : list (Note.t * Q)) :
  notesOf (a ++ b) = notesOf a ++ notesOf b.
Proof. unfold notesOf. apply map_app. Qed.

Lemma notesOf_entries (vp : VoicePart) (beat : Q) (notes : list Note.t) :
  notesOf (map (VoiceAI.entry vp beat) notes) = map voiceBlind notes.
Proof.
  unfold notesOf. rewrite map_map. apply map_ext. intros n. reflexivity.
Qed.

Lemma taggedAs_app (vp : VoicePart) (a b : list (Note.t * Q)) :
  taggedAs vp a -> taggedAs vp b -> taggedAs vp (a ++ b).
Proof. intros Ha Hb. apply Forall_app. split; assumption. Qed.

Lemma taggedAs_entries (vp : VoicePart) (beat : Q) (notes : list Note.t) :
  Forall (fun n => (beat == VoiceAI.halfBeat n)%Q) notes ->
  taggedAs vp (map (VoiceAI.entry vp beat) notes).
Proof.
  intros H. unfold taggedAs. apply Forall_forall. intros e He.
  apply in_map_iff in He. destruct He as [n [<- Hn]].
  rewrite Forall_forall in H. split; [reflexivity|]. exact (H n Hn).
Qed.

(** The main notes of a group in any order, and their beat. *)
Lemma group_sorted (cmp : Note.t -> Note.t -> Q) (beat : Q) (notes : list Note.t) :
  Forall (fun v => Js.eqb beat (VoiceAI.halfBeat v) = true) notes ->
  Permutation (map voiceBlind (Js.sort cmp (filter Note.isMain notes)))
              (map voiceBlind (filter Note.isMain notes)) /\
  Forall (fun n => (beat == VoiceAI.halfBeat n)%Q)
         (Js.sort cmp (filter Note.isMain notes)).
Proof.
  intros Hm. split.
  - apply Permutation_map, sort_perm.
  - apply Forall_forall. intros n Hn.
    apply (Permutation_in n (sort_perm cmp _)) in Hn.
    apply filter_In in Hn. destruct Hn as [Hn _].
    rewrite Forall_forall in Hm. apply eqb_Qeq, Hm, Hn.
Qed.

Lemma upper_fold (groups : list (Q * list Note.t)) :
  groupsMatch Js.eqb VoiceAI.halfBeat groups ->
  forall r,
    exists S A P,
      let r' := fold_left VoiceAI.upperStep groups r in
      VoiceAI.RuleVoices.soprano (VoiceAI.RuleResult.voices r')
      = VoiceAI.RuleVoices.soprano (VoiceAI.RuleResult.voices r) ++ S /\
      VoiceAI.RuleVoices.alto (VoiceAI.RuleResult.voices r')
      = VoiceAI.RuleVoices.alto (VoiceAI.RuleResult.voices r) ++ A /\
      VoiceAI.RuleVoices.tenor (VoiceAI.RuleResult.voices r')
      = VoiceAI.RuleVoices.tenor (VoiceAI.RuleResult.voices r) /\
      VoiceAI.RuleVoices.bass (VoiceAI.RuleResult.voices r')
      = VoiceAI.RuleVoices.bass (VoiceAI.RuleResult.voices r) /\
      VoiceAI.RuleResult.pending r' = VoiceAI.RuleResult.pending r ++ P /\
      Permutation (notesOf S ++ notesOf A ++ pendingNotes P)
                  (map voiceBlind (filter Note.isMain (flat_map snd groups))) /\
      taggedAs soprano S /\ taggedAs alto A /\ pendingFrom VoiceAI.upper P.
Proof.
  induction 1 as [|[beat notes] groups [_ Hm] _ IH]; intros r.
  - exists [], [], []. cbn [fold_left]. rewrite !app_nil_r.
    repeat split; constructor.
  - cbn [fold_left flat_map snd fst] in *.
    rewrite filter_app, map_app.
    destruct (group_sorted (fun a b : Note.t => inject_Z (VoiceAI.getMidi b - VoiceAI.getMidi a)) beat notes Hm) as [Hperm Hbeat].
    set (r1 := VoiceAI.upperStep r (beat, notes)).
    assert (Er : r1 = VoiceAI.upperStep r (beat, notes)) by reflexivity.
    clearbody r1.
    destruct (IH r1) as [S [A [P H]]]. cbv zeta in H.
    destruct H as [H1 [H2 [H3 [H4 [H5 [H6 [H7 [H8 H9]]]]]]]].
    unfold VoiceAI.upperStep in Er. cbn [fst snd] in Er.
    destruct (Js.sort (fun a b : Note.t => inject_Z (VoiceAI.getMidi b - VoiceAI.getMidi a)) (filter Note.isMain notes))
      as [|first [|second others]]; subst r1;
      cbn [VoiceAI.RuleResult.voices VoiceAI.RuleResult.pending
           VoiceAI.RuleVoices.soprano VoiceAI.RuleVoices.alto
           VoiceAI.RuleVoices.tenor VoiceAI.RuleVoices.bass] in H1, H2, H3, H4, H5.
    + exists S, A, P. cbv zeta.
      repeat split; try assumption.
      cbn [map] in Hperm. rewrite (Permutation_nil Hperm). exact H6.
    + exists S, A, (VoiceAI.Pending.mk first VoiceAI.upper beat [soprano; alto] :: P).
      cbv zeta. rewrite H5, <- app_assoc.
      repeat split; try assumption; try reflexivity.
      * cbn [pendingNotes map VoiceAI.Pending.note].
        eapply Permutation_trans.
        { rewrite app_assoc. apply Permutation_sym, Permutation_middle. }
        rewrite <- app_assoc.
        eapply Permutation_trans; [apply perm_skip, H6|].
        apply (Permutation_app_tail _ Hperm).
      * constructor; [|exact H9]. cbn. split; [reflexivity|].
        inversion Hbeat; assumption.
    + exists (VoiceAI.entry soprano beat first :: S),
             (map (VoiceAI.entry alto beat) (second :: others) ++ A), P.
      cbv zeta. rewrite H1, H2, <- !app_assoc.
      inversion Hbeat as [|? ? Hb1 Hbs]; subst.
      repeat split; try assumption; try reflexivity.
      * rewrite notesOf_app, notesOf_entries.
        change (notesOf (VoiceAI.entry soprano beat first :: S))
          with ([voiceBlind first] ++ notesOf S).
        eapply Permutation_trans.
        { apply (perm_interleave3 [voiceBlind first] (notesOf S)
                   (map voiceBlind (second :: others)) (notesOf A)
                   [] (pendingNotes P)). }
        rewrite app_nil_r. apply Permutation_app; [exact Hperm | exact H6].
      * constructor; [|exact H7]. split; [reflexivity | exact Hb1].
      * apply taggedAs_app; [apply taggedAs_entries; exact Hbs | exact H8].
Qed.

Lemma lower_fold (groups : list (Q * list Note.t)) :
  groupsMatch Js.eqb VoiceAI.halfBeat groups ->
  forall r,
    exists T B P,
      let r' := fold_left VoiceAI.lowerStep groups r in
      VoiceAI.RuleVoices.soprano (VoiceAI.RuleResult.voices r')
      = VoiceAI.RuleVoices.soprano (VoiceAI.RuleResult.voices r) /\
      VoiceAI.RuleVoices.alto (VoiceAI.RuleResult.voices r')
      = VoiceAI.RuleVoices.alto (VoiceAI.RuleResult.voices r) /\
      VoiceAI.RuleVoices.tenor (VoiceAI.RuleResult.voices r')
      = VoiceAI.RuleVoices.tenor (VoiceAI.RuleResult.voices r) ++ T /\
      VoiceAI.RuleVoices.bass (VoiceAI.RuleResult.voices r')
      = VoiceAI.RuleVoices.bass (VoiceAI.RuleResult.voices r) ++ B /\
      VoiceAI.RuleResult.pending r' = VoiceAI.RuleResult.pending r ++ P /\
      Permutation (notesOf B ++ notesOf T ++ pendingNotes P)
                  (map voiceBlind (filter Note.isMain (flat_map snd groups))) /\
      taggedAs tenor T /\ taggedAs bass B /\ pendingFrom VoiceAI.lower P.
Proof.
  induction 1 as [|[beat notes] groups [_ Hm] _ IH]; intros r.
  - exists [], [], []. cbn [fold_left]. rewrite !app_nil_r.
    repeat split; constructor.
  - cbn [fold_left flat_map snd fst] in *.
    rewrite filter_app, map_app.
    destruct (group_sorted (fun a b : Note.t => inject_Z (VoiceAI.getMidi a - VoiceAI.getMidi b)) beat notes Hm) as [Hperm Hbeat].
    set (r1 := VoiceAI.lowerStep r (beat, notes)).
    assert (Er : r1 = VoiceAI.lowerStep r (beat, notes)) by reflexivity.
    clearbody r1.
    destruct (IH r1) as [T [B [P H]]]. cbv zeta in H.
    destruct H as [H1 [H2 [H3 [H4 [H5 [H6 [H7 [H8 H9]]]]]]]].
    unfold VoiceAI.lowerStep in Er. cbn [fst snd] in Er.
    destruct (Js.sort (fun a b : Note.t => inject_Z (VoiceAI.getMidi a - VoiceAI.getMidi b)) (filter Note.isMain notes))
      as [|first [|second others]]; subst r1;
      cbn [VoiceAI.RuleResult.voices VoiceAI.RuleResult.pending
           VoiceAI.RuleVoices.soprano VoiceAI.RuleVoices.alto
           VoiceAI.RuleVoices.tenor VoiceAI.RuleVoices.bass] in H1, H2, H3, H4, H5.
    + exists T, B, P. cbv zeta.
      repeat split; try assumption.
      cbn [map] in Hperm. rewrite (Permutation_nil Hperm). exact H6.
    + exists T, B, (VoiceAI.Pending.mk first VoiceAI.lower beat [tenor; bass] :: P).
      cbv zeta. rewrite H5, <- app_assoc.
      repeat split; try assumption; try reflexivity.
      * cbn [pendingNotes map VoiceAI.Pending.note].
        eapply Permutation_trans.
        { rewrite app_assoc. apply Permutation_sym, Permutation_middle. }
        rewrite <- app_assoc.
        eapply Permutation_trans; [apply perm_skip, H6|].
        apply (Permutation_app_tail _ Hperm).
      * constructor; [|exact H9]. cbn. split; [reflexivity|].
        inversion Hbeat; assumption.
    + exists (map (VoiceAI.entry tenor beat) (second :: others) ++ T),
             (VoiceAI.entry bass beat first :: B), P.
      cbv zeta. rewrite H3, H4, <- !app_assoc.
      inversion Hbeat as [|? ? Hb1 Hbs]; subst.
      repeat split; try assumption; try reflexivity.
      * rewrite notesOf_app, notesOf_entries.
        change (notesOf (VoiceAI.entry bass beat first :: B))
          with ([voiceBlind first] ++ notesOf B).
        eapply Permutation_trans.
        { apply (perm_interleave3 [voiceBlind first] (notesOf B)
                   (map voiceBlind (second :: others)) (notesOf T)
                   [] (pendingNotes P)). }
        rewrite app_nil_r. apply Permutation_app; [exact Hperm | exact H6].
      * apply taggedAs_app; [apply taggedAs_entries; exact Hbs | exact H7].
      * constructor; [|exact H8]. split; [reflexivity | exact Hb1].
Qed.

Lemma assign_fold (pending : list VoiceAI.Pending.t) :
  forall Pu Pl v,
    pendingFrom VoiceAI.upper Pu -> pendingFrom VoiceAI.lower Pl ->
    Permutation pending (Pu ++ Pl) ->
    exists S A T B,
      let v' := fold_left VoiceAI.assignStep pending v in
      VoiceAI.RuleVoices.soprano v' = VoiceAI.RuleVoices.soprano v ++ S /\
      VoiceAI.RuleVoices.alto v' = VoiceAI.RuleVoices.alto v ++ A /\
      VoiceAI.RuleVoices.tenor v' = VoiceAI.RuleVoices.tenor v ++ T /\
      VoiceAI.RuleVoices.bass v' = VoiceAI.RuleVoices.bass v ++ B /\
      Permutation (notesOf S ++ notesOf A) (pendingNotes Pu) /\
      Permutation (notesOf B ++ notesOf T) (pendingNotes Pl) /\
      taggedAs soprano S /\ taggedAs alto A /\
      taggedAs tenor T /\ taggedAs bass B.
Proof.
  induction pending as [|item pending IH]; intros Pu Pl v Hu Hl Hp.
  - apply Permutation_nil in Hp. apply app_eq_nil in Hp. destruct Hp as [-> ->].
    exists [], [], [], []. cbn [fold_left]. rewrite !app_nil_r.
    repeat split; constructor.
  - cbn [fold_left].
    assert (Hin : In item (Pu ++ Pl))
      by (apply (Permutation_in item Hp); left; reflexivity).
    apply in_app_or in Hin. destruct Hin as [Hin|Hin].
    + destruct (in_split _ _ Hin) as [Pu1 [Pu2 ->]].
      assert (Hitem : VoiceAI.Pending.staff item = VoiceAI.upper /\
                      (VoiceAI.Pending.beat item
                       == VoiceAI.halfBeat (VoiceAI.Pending.note item))%Q).
      { unfold pendingFrom in Hu. rewrite Forall_forall in Hu. apply Hu, Hin. }
      destruct Hitem as [Hside Hbeat].
      assert (Hu' : pendingFrom VoiceAI.upper (Pu1 ++ Pu2)).
      { unfold pendingFrom in *. apply Forall_app in Hu. destruct Hu as [Ha Hb].
        inversion Hb; subst. apply Forall_app. split; assumption. }
      assert (Hp' : Permutation pending ((Pu1 ++ Pu2) ++ Pl)).
      { rewrite <- app_assoc in Hp. cbn [app] in Hp.
        apply Permutation_cons_app_inv in Hp. rewrite <- app_assoc. exact Hp. }
      set (v1 := VoiceAI.assignStep v item).
      assert (Ev : v1 = VoiceAI.assignStep v item) by reflexivity.
      clearbody v1.
      destruct (IH (Pu1 ++ Pu2) Pl v1 Hu' Hl Hp') as [S [A [T [B H]]]].
      cbv zeta in *.
      destruct H as [H1 [H2 [H3 [H4 [H5 [H6 [H7 [H8 [H9 H10]]]]]]]]].
      assert (Hnotes : Permutation
                         (voiceBlind (VoiceAI.Pending.note item)
                          :: pendingNotes (Pu1 ++ Pu2))
                         (pendingNotes (Pu1 ++ item :: Pu2))).
      { unfold pendingNotes. rewrite !map_app. cbn [map].
        apply Permutation_middle. }
      unfold VoiceAI.assignStep, VoiceAI.assignByPitchRange in Ev.
      rewrite Hside in Ev.
      destruct (72 <=? VoiceAI.getMidi (VoiceAI.Pending.note item)); subst v1;
        cbn [VoiceAI.RuleVoices.soprano VoiceAI.RuleVoices.alto
             VoiceAI.RuleVoices.tenor VoiceAI.RuleVoices.bass] in H1, H2, H3, H4.
      * exists (VoiceAI.entry soprano (VoiceAI.Pending.beat item)
                  (VoiceAI.Pending.note item) :: S), A, T, B.
        rewrite H1, H2, H3, H4, <- app_assoc.
        repeat split; try assumption; try reflexivity.
        -- eapply Permutation_trans; [|exact Hnotes].
           cbn [notesOf map app fst VoiceAI.entry]. apply perm_skip. exact H5.
        -- constructor; [|exact H7]. split; [reflexivity | exact Hbeat].
      * exists S, (VoiceAI.entry alto (VoiceAI.Pending.beat item)
                     (VoiceAI.Pending.note item) :: A), T, B.
        rewrite H1, H2, H3, H4, <- app_assoc.
        repeat split; try assumption; try reflexivity.
        -- eapply Permutation_trans; [|exact Hnotes].
           cbn [notesOf map app fst VoiceAI.entry].
           apply Permutation_sym, Permutation_cons_app, Permutation_sym. exact H5.
        -- constructor; [|exact H8]. split; [reflexivity | exact Hbeat].
    + destruct (in_split _ _ Hin) as [Pl1 [Pl2 ->]].
      assert (Hitem : VoiceAI.Pending.staff item = VoiceAI.lower /\
                      (VoiceAI.Pending.beat item
                       == VoiceAI.halfBeat (VoiceAI.Pending.note item))%Q).
      { unfold pendingFrom in Hl. rewrite Forall_forall in Hl. apply Hl, Hin. }
      destruct Hitem as [Hside Hbeat].
      assert (Hl' : pendingFrom VoiceAI.lower (Pl1 ++ Pl2)).
      { unfold pendingFrom in *. apply Forall_app in Hl. destruct Hl as [Ha Hb].
        inversion Hb; subst. apply Forall_app. split; assumption. }
      assert (Hp' : Permutation pending (Pu ++ Pl1 ++ Pl2)).
      { rewrite app_assoc in Hp.
        apply Permutation_cons_app_inv in Hp. rewrite <- app_assoc in Hp.
        exact Hp. }
      set (v1 := VoiceAI.assignStep v item).
      assert (Ev : v1 = VoiceAI.assignStep v item) by reflexivity.
      clearbody v1.
      destruct (IH Pu (Pl1 ++ Pl2) v1 Hu Hl' Hp') as [S [A [T [B H]]]].
      cbv zeta in *.
      destruct H as [H1 [H2 [H3 [H4 [H5 [H6 [H7 [H8 [H9 H10]]]]]]]]].
      assert (Hnotes : Permutation
                         (voiceBlind (VoiceAI.Pending.note item)
                          :: pendingNotes (Pl1 ++ Pl2))
                         (pendingNotes (Pl1 ++ item :: Pl2))).
      { unfold pendingNotes. rewrite !map_app. cbn [map].
        apply Permutation_middle. }
      unfold VoiceAI.assignStep, VoiceAI.assignByPitchRange in Ev.
      rewrite Hside in Ev.
      destruct (VoiceAI.getMidi (VoiceAI.Pending.note item) <? 48); subst v1;
        cbn [VoiceAI.RuleVoices.soprano VoiceAI.RuleVoices.alto
             VoiceAI.RuleVoices.tenor VoiceAI.RuleVoices.bass] in H1, H2, H3, H4.
      * exists S, A, T, (VoiceAI.entry bass (VoiceAI.Pending.beat item)
                           (VoiceAI.Pending.note item) :: B).
        rewrite H1, H2, H3, H4, <- app_assoc.
        repeat split; try assumption; try reflexivity.
        -- eapply Permutation_trans; [|exact Hnotes].
           cbn [notesOf map app fst VoiceAI.entry]. apply perm_skip. exact H6.
        -- constructor; [|exact H10]. split; [reflexivity | exact Hbeat].
      * exists S, A, (VoiceAI.entry tenor (VoiceAI.Pending.beat item)
                        (VoiceAI.Pending.note item) :: T), B.
        rewrite H1, H2, H3, H4, <- app_assoc.
        repeat split; try assumption; try reflexivity.
        -- eapply Permutation_trans; [|exact Hnotes].
           cbn [notesOf map app fst VoiceAI.entry].
           apply Permutation_sym, Permutation_cons_app, Permutation_sym. exact H6.
        -- constructor; [|exact H9]. split; [reflexivity | exact Hbeat].
Qed.

Lemma groupNotesByBeat_mains (notes : list Note.t) :
  groupsMatch Js.eqb VoiceAI.halfBeat (VoiceAI.groupNotesByBeat notes) /\
  Permutation
    (map voiceBlind
       (filter Note.isMain (flat_map snd (VoiceAI.groupNotesByBeat notes))))
    (map voiceBlind (filter Note.isMain notes)).
Proof.
  unfold VoiceAI.groupNotesByBeat. split.
  - apply (mapPush_fold_invariants Js.eqb VoiceAI.halfBeat eqb_refl_Q notes []);
      constructor.
  - apply Permutation_map, Permutation_filter_compat.
    exact (mapPush_fold_values Js.eqb VoiceAI.halfBeat notes []).
Qed.

Lemma entriesOf_assign (pending : list VoiceAI.Pending.t) :
  forall voices,
    entriesOf (fold_left VoiceAI.assignStep pending voices)
    = (entriesOf voices + length pending)%nat.
Proof.
  induction pending as [|item pending IH]; intros voices; cbn [fold_left length].
  - lia.
  - rewrite IH. unfold VoiceAI.assignStep, entriesOf.
    destruct (VoiceAI.assignByPitchRange _ _);
      cbn [VoiceAI.RuleVoices.soprano VoiceAI.RuleVoices.alto
           VoiceAI.RuleVoices.tenor VoiceAI.RuleVoices.bass];
      rewrite length_app; cbn [length]; lia.
Qed.

Lemma entriesOf_ai (vote : nat -> VoiceAI.Pending.t -> VoicePart)
    (pending : list VoiceAI.Pending.t) :
  forall i voices,
    entriesOf (VoiceAI.aiLoop vote i pending voices)
    = (entriesOf voices + length pending)%nat.
Proof.
  induction pending as [|item pending IH]; intros i voices;
    cbn [VoiceAI.aiLoop length].
  - lia.
  - rewrite IH. unfold VoiceAI.aiStep, entriesOf.
    destruct (vote i item);
      cbn [VoiceAI.RuleVoices.soprano VoiceAI.RuleVoices.alto
           VoiceAI.RuleVoices.tenor VoiceAI.RuleVoices.bass];
      rewrite length_app; cbn [length]; lia.
Qed.

(** X23.  When the models are not in use, [separateVoicesWithAI] puts every
    main note of the upper staff in exactly one of soprano and alto and
    every main note of the lower staff in exactly one of tenor and bass:
    nothing is lost or doubled, no note changes staff, and ornaments are
    left out.  Every entry is a copy of its note with the voice part of the
    voice it is in and the half beat of the note as [beat].  When the models
    are in use and the second layer fails after it has pushed some of the
    waiting notes, the rules push every waiting note again: the voices
    returned then hold as many entries more as the second layer had
    pushed. *)
Theorem rule_layers_place_every_main_note_once :
  forall upperStaff lowerStaff : list Note.t,
    let v := VoiceAI.separateVoicesWithAI VoiceAI.notInUse upperStaff lowerStaff in
    (Permutation
       (notesOf (VoiceAI.RuleVoices.soprano v) ++ notesOf (VoiceAI.RuleVoices.alto v))
       (map voiceBlind (filter Note.isMain upperStaff)) /\
     Permutation
       (notesOf (VoiceAI.RuleVoices.bass v) ++ notesOf (VoiceAI.RuleVoices.tenor v))
       (map voiceBlind (filter Note.isMain lowerStaff)) /\
     taggedAs soprano (VoiceAI.RuleVoices.soprano v) /\
     taggedAs alto (VoiceAI.RuleVoices.alto v) /\
     taggedAs tenor (VoiceAI.RuleVoices.tenor v) /\
     taggedAs bass (VoiceAI.RuleVoices.bass v)) /\
    (entriesOf v
     = (length (filter Note.isMain upperStaff)
        + length (filter Note.isMain lowerStaff))%nat /\
     forall (vote : nat -> VoiceAI.Pending.t -> VoicePart) (pushed : nat),
       let waiting :=
         VoiceAI.RuleResult.pending
           (VoiceAI.applyRuleBasedSeparation upperStaff lowerStaff) in
       entriesOf (VoiceAI.separateVoicesWithAI (VoiceAI.fails vote pushed)
                    upperStaff lowerStaff)
       = (entriesOf v + Nat.min pushed (length waiting))%nat).
Proof.
  intros upperStaff lowerStaff v.
  assert (Ev : v = VoiceAI.assignPendingByRules
                     (VoiceAI.applyRuleBasedSeparation upperStaff lowerStaff)).
  { subst v. unfold VoiceAI.separateVoicesWithAI, VoiceAI.assignPendingByRules.
    destruct (VoiceAI.RuleResult.pending _); reflexivity. }
  assert (Hfirst :
    Permutation
       (notesOf (VoiceAI.RuleVoices.soprano v) ++ notesOf (VoiceAI.RuleVoices.alto v))
       (map voiceBlind (filter Note.isMain upperStaff)) /\
     Permutation
       (notesOf (VoiceAI.RuleVoices.bass v) ++ notesOf (VoiceAI.RuleVoices.tenor v))
       (map voiceBlind (filter Note.isMain lowerStaff)) /\
     taggedAs soprano (VoiceAI.RuleVoices.soprano v) /\
     taggedAs alto (VoiceAI.RuleVoices.alto v) /\
     taggedAs tenor (VoiceAI.RuleVoices.tenor v) /\
     taggedAs bass (VoiceAI.RuleVoices.bass v)).
  { rewrite Ev. clear Ev v.
  unfold VoiceAI.applyRuleBasedSeparation, VoiceAI.assignPendingByRules.
  destruct (groupNotesByBeat_mains upperStaff) as [Hmu Hpu].
  destruct (groupNotesByBeat_mains lowerStaff) as [Hml Hpl].
  set (start := VoiceAI.RuleResult.mk (VoiceAI.RuleVoices.mk [] [] [] []) []).
  destruct (upper_fold _ Hmu start) as [S [A [Pu Hu]]].
  set (afterUpper := fold_left VoiceAI.upperStep
                       (VoiceAI.groupNotesByBeat upperStaff) start) in *.
  destruct (lower_fold _ Hml afterUpper) as [T [B [Pl Hl]]].
  set (r := fold_left VoiceAI.lowerStep
              (VoiceAI.groupNotesByBeat lowerStaff) afterUpper) in *.
  cbv zeta in Hu, Hl.
  destruct Hu as [U1 [U2 [U3 [U4 [U5 [U6 [U7 [U8 U9]]]]]]]].
  destruct Hl as [L1 [L2 [L3 [L4 [L5 [L6 [L7 [L8 L9]]]]]]]].
  cbn [start VoiceAI.RuleResult.voices VoiceAI.RuleResult.pending
       VoiceAI.RuleVoices.soprano VoiceAI.RuleVoices.alto
       VoiceAI.RuleVoices.tenor VoiceAI.RuleVoices.bass app] in U1, U2, U3, U4, U5.
  rewrite U1 in L1. rewrite U2 in L2. rewrite U3 in L3. rewrite U4 in L4.
  rewrite U5 in L5. cbn [app] in L3, L4.
  destruct (assign_fold (VoiceAI.RuleResult.pending r) Pu Pl
              (VoiceAI.RuleResult.voices r) U9 L9)
    as [S' [A' [T' [B' H]]]].
  { rewrite L5. reflexivity. }
  cbv zeta in H.
  destruct H as [H1 [H2 [H3 [H4 [H5 [H6 [H7 [H8 [H9 H10]]]]]]]]].
  rewrite H1, H2, H3, H4, L1, L2, L3, L4.
  split; [|split; [|split; [|split; [|split]]]].
  - rewrite !notesOf_app.
    eapply Permutation_trans; [apply perm_interleave2|].
    eapply Permutation_trans; [|eapply Permutation_trans; [exact U6 | exact Hpu]].
    rewrite (app_assoc (notesOf S) (notesOf A) (pendingNotes Pu)).
    apply Permutation_app_head. exact H5.
  - rewrite !notesOf_app.
    eapply Permutation_trans; [apply perm_interleave2|].
    eapply Permutation_trans; [|eapply Permutation_trans; [exact L6 | exact Hpl]].
    rewrite (app_assoc (notesOf B) (notesOf T) (pendingNotes Pl)).
    apply Permutation_app_head. exact H6.
  - apply taggedAs_app; assumption.
  - apply taggedAs_app; assumption.
  - apply taggedAs_app; assumption.
  - apply taggedAs_app; assumption. }
  split; [exact Hfirst|]. split.
  - destruct Hfirst as [Hu [Hl _]].
    apply Permutation_length in Hu. apply Permutation_length in Hl.
    unfold notesOf in Hu, Hl. rewrite length_app, !length_map in Hu, Hl.
    unfold entriesOf. lia.
  - intros vote pushed waiting. rewrite Ev. subst waiting.
    unfold VoiceAI.separateVoicesWithAI, VoiceAI.assignPendingByRules.
    set (r := VoiceAI.applyRuleBasedSeparation upperStaff lowerStaff).
    cbn [VoiceAI.RuleResult.voices VoiceAI.RuleResult.pending].
    rewrite entriesOf_assign.
    destruct (VoiceAI.RuleResult.pending r) as [|item pending] eqn:Ep.
    + cbn [length]. rewrite Nat.min_0_r. lia.
    + rewrite entriesOf_assign, entriesOf_ai, length_firstn. lia.
Qed.

(* ------------------------------------------------------------------ *)
(** ** Processing the chunks in batches *)

Lemma processLoop_spec {A B : Type} (chunks : list A) (processFn : A -> B)
    (fuel : nat) :
  forall i results,
    (length chunks <= i + 4 * fuel)%nat ->
    processLoop fuel i chunks processFn results
    = Some (results ++ map processFn (skipn i chunks)).
Proof.
  induction fuel as [|fuel IH]; intros i results Hfuel; cbn [processLoop].
  - replace (Nat.ltb i (length chunks)) with false
      by (symmetry; apply Nat.ltb_ge; lia).
    rewrite skipn_all2 by lia. cbn [map]. now rewrite app_nil_r.
  - destruct (Nat.ltb i (length chunks)) eqn:Elt.
    + unfold MAX_CONCURRENCY. rewrite IH by lia.
      rewrite <- app_assoc, <- map_app. do 3 f_equal.
      unfold slice. replace (i + 4 - i)%nat with 4%nat by lia.
      rewrite <- (skipn_add i 4 chunks). apply firstn_skipn.
    + apply Nat.ltb_ge in Elt. rewrite skipn_all2 by lia.
      cbn [map]. now rewrite app_nil_r.
Qed.

(** X24.  [processChunksParallel] always returns, with exactly one result
    per chunk, in the order of the chunks: working in batches of four loses
    no chunk, repeats none and keeps the order. *)
Theorem processChunksParallel_keeps_every_chunk_in_order :
  forall (A B : Type) (chunks : list A) (processFn : A -> B),
    processChunksParallel chunks processFn = Some (map processFn chunks).
Proof.
  intros A B chunks processFn. unfold processChunksParallel.
  rewrite processLoop_spec by lia. reflexivity.
Qed.
